(** * GengarDB storage core: pages, slotted pages, heap file and B-tree index

    A shallow embedding of the Go packages [storage] (page.go, slotted.go,
    heapfile.go) and [index] (the B-tree), with the properties of the
    specification stated and settled against it.

    Conventions of the embedding:
    - Go's fixed-width unsigned integers are [Z] with the wrap-around written
      out where the source can wrap;
    - bytes are [Byte.byte], little-endian fields are coqutil's
      [le_split]/[le_combine];
    - an [*os.File] is the list of its bytes: a positioned write always
      succeeds and zero-fills a gap, a positioned read fails when fewer bytes
      than requested are available;
    - a call that mutates its receiver returns the new value next to its
      result; errors are a [result]; a run-time panic (slice or index out of
      range) and an exhausted recursion budget are outcomes of their own. *)

From Stdlib Require Import ZArith List Lia Bool Arith.
From coqutil Require Import Byte Word.LittleEndianList.
Import ListNotations.
Local Open Scope Z_scope.

(** ** Results *)

Inductive error : Type :=
| ErrIO                (* error of the underlying file, here: short read *)
| ErrChecksumMismatch  (* storage.ErrChecksumMismatch *)
| ErrDataTooLarge      (* storage.ErrDataTooLarge *)
| ErrNoSpace           (* storage.ErrNoSpace *)
| ErrSlotDeleted       (* storage.ErrSlotDeleted *)
| ErrBadSlotID         (* storage.ErrBadSlotID *)
| ErrNotFound          (* index.ErrNotFound *)
| ErrDupKey            (* index.ErrDupKey *)
| ErrCorruption        (* index.ErrCorruption *)
| RuntimePanic         (* Go run-time panic: slice bounds or index out of range *)
| OutOfFuel.           (* the recursion budget of the model ran out *)

Inductive result (A : Type) : Type :=
| Ok (a : A)
| Err (e : error).
Arguments Ok {A} a.
Arguments Err {A} e.

Definition bind {A B : Type} (r : result A) (k : A -> result B) : result B :=
  match r with
  | Ok a => k a
  | Err e => Err e
  end.

Notation "'do' x <- r ; k" := (bind r (fun x => k))
  (at level 10, x pattern, r at level 100, k at level 200).

(** ** Byte slices *)

Definition bytes := list byte.

Definition zero_byte : byte := Byte.x00.

Definition zeros (n : nat) : bytes := repeat zero_byte n.

(** [d[a:b]] for [a <= b <= len d]. *)
Definition slice (d : bytes) (a b : nat) : bytes := firstn (b - a) (skipn a d).

(** Go's builtin [copy(dst, src)]: copies [min (len dst) (len src)] elements. *)
Definition copy {A : Type} (dst src : list A) : list A :=
  firstn (length dst) src ++ skipn (length src) dst.

(** [copy(d[off:], src)] seen from [d], for [off <= len d]. *)
Definition store (d : bytes) (off : nat) (src : bytes) : bytes :=
  firstn off d ++ copy (skipn off d) src.

(** encoding/binary, LittleEndian *)
Definition PutUint16 (v : Z) : bytes := le_split 2 v.
Definition PutUint32 (v : Z) : bytes := le_split 4 v.
Definition PutUint64 (v : Z) : bytes := le_split 8 v.
Definition Uint16 (b : bytes) : Z := le_combine (firstn 2 b).
Definition Uint32 (b : bytes) : Z := le_combine (firstn 4 b).
Definition Uint64 (b : bytes) : Z := le_combine (firstn 8 b).

(** ** hash/crc32 (Go standard library), the table-driven reference
    implementation: [simplePopulateTable] and [simpleUpdate]. *)

Definition IEEE : Z := 0xedb88320.

Definition crc_shift (poly crc : Z) : Z :=
  if Z.testbit crc 0 then Z.lxor (Z.shiftr crc 1) poly else Z.shiftr crc 1.

Definition simplePopulateEntry (poly i : Z) : Z :=
  Nat.iter 8 (crc_shift poly) i.

Definition simpleMakeTable (poly : Z) : list Z :=
  map (fun i => simplePopulateEntry poly (Z.of_nat i)) (seq 0 256).

Definition IEEETable : list Z := Eval vm_compute in simpleMakeTable IEEE.

Definition crc_step (tab : list Z) (crc : Z) (v : byte) : Z :=
  Z.lxor (nth (Z.to_nat (Z.lxor (Z.land crc 255) (byte.unsigned v))) tab 0)
         (Z.shiftr crc 8).

Definition simpleUpdate (crc : Z) (tab : list Z) (p : bytes) : Z :=
  Z.lxor (fold_left (crc_step tab) p (Z.lxor crc 0xffffffff)) 0xffffffff.

Definition ChecksumIEEE (data : bytes) : Z := simpleUpdate 0 IEEETable data.

(** ** page.go *)

Definition PageSize : Z := 4096.
Definition HeaderSize : Z := 10.
Definition PayloadSize : Z := PageSize - HeaderSize.

Record Page : Type := mkPage {
  ID : Z;          (* uint32 *)
  Checksum : Z;    (* uint32 *)
  DataSize : Z;    (* uint16 *)
  Data : bytes     (* [PayloadSize]byte *)
}.

(** [&Page{ID: id}]: every other field has its zero value. *)
Definition newPage (id : Z) : Page :=
  mkPage id 0 0 (zeros (Z.to_nat PayloadSize)).

(** The Go types of the fields of a [Page]. *)
Definition page_ok (p : Page) : Prop :=
  0 <= ID p < 2 ^ 32 /\ 0 <= Checksum p < 2 ^ 32 /\ 0 <= DataSize p < 2 ^ 16 /\
  length (Data p) = Z.to_nat PayloadSize.

Definition set_ID (p : Page) (v : Z) : Page :=
  mkPage v (Checksum p) (DataSize p) (Data p).
Definition set_Checksum (p : Page) (v : Z) : Page :=
  mkPage (ID p) v (DataSize p) (Data p).
Definition set_DataSize (p : Page) (v : Z) : Page :=
  mkPage (ID p) (Checksum p) v (Data p).
Definition set_Data (p : Page) (d : bytes) : Page :=
  mkPage (ID p) (Checksum p) (DataSize p) d.

(** [p.Data[:p.DataSize]] panics when [DataSize] exceeds the array. *)
Definition ComputeChecksum (p : Page) : result Z :=
  if Z.of_nat (length (Data p)) <? DataSize p then Err RuntimePanic
  else Ok (ChecksumIEEE (firstn (Z.to_nat (DataSize p)) (Data p))).

Definition SetData (p : Page) (b : bytes) : result unit * Page :=
  if PayloadSize <? Z.of_nat (length b) then (Err ErrDataTooLarge, p)
  else
    let size := Z.of_nat (length b) in
    let d := copy (Data p) b in
    let d := firstn (Z.to_nat size) d ++ zeros (Z.to_nat PayloadSize - Z.to_nat size) in
    (Ok tt, mkPage (ID p) (Checksum p) size d).

Definition pageOffset (id : Z) : Z := id * PageSize.

(** The file behind an [*os.File]. *)
Definition file := bytes.

Definition ReadAt (f : file) (n : nat) (off : Z) : result bytes :=
  if Z.of_nat (length f) <? off + Z.of_nat n then Err ErrIO
  else Ok (slice f (Z.to_nat off) (Z.to_nat off + n)).

Definition WriteAt (f : file) (buf : bytes) (off : Z) : file :=
  let o := Z.to_nat off in
  firstn o f ++ zeros (o - length f) ++ buf ++ skipn (o + length buf) f.

(** The [PageSize] bytes [WritePage] builds. *)
Definition encodePage (p : Page) : bytes :=
  let buf := zeros (Z.to_nat PageSize) in
  let buf := store buf 0 (PutUint32 (ID p)) in
  let buf := store buf 4 (PutUint32 (Checksum p)) in
  let buf := store buf 8 (PutUint16 (DataSize p)) in
  store buf (Z.to_nat HeaderSize) (Data p).

(** [WritePage] stores the checksum in [p] and writes the file. *)
Definition WritePage (f : file) (p : Page) : result unit * Page * file :=
  if PayloadSize <? DataSize p then (Err ErrDataTooLarge, p, f)
  else
    match ComputeChecksum p with
    | Err e => (Err e, p, f)
    | Ok c =>
        let p := set_Checksum p c in
        (Ok tt, p, WriteAt f (encodePage p) (pageOffset (ID p)))
    end.

Definition ReadPage (f : file) (id : Z) : result Page :=
  do buf <- ReadAt f (Z.to_nat PageSize) (pageOffset id);
  let p := mkPage (Uint32 (slice buf 0 4)) (Uint32 (slice buf 4 8))
                  (Uint16 (slice buf 8 10))
                  (copy (zeros (Z.to_nat PayloadSize)) (skipn (Z.to_nat HeaderSize) buf)) in
  do c <- ComputeChecksum p;
  if negb (c =? Checksum p) then Err ErrChecksumMismatch else Ok p.

(** Overwriting one byte of the file, as the corruption test does with a
    one-byte [WriteAt]. *)
Definition corruptByte (f : file) (pos : nat) (b : byte) : file :=
  WriteAt f [b] (Z.of_nat pos).

(** ** slotted.go *)

Definition spHeaderSize : Z := 6.
Definition slotEntrySize : Z := 4.

Record RID : Type := mkRID {
  PageID : Z;  (* uint32 *)
  SlotID : Z   (* uint16 *)
}.

(** [RID{}] *)
Definition zeroRID : RID := mkRID 0 0.

(** A [SlottedPage] is a view over a [*Page]; its methods are functions of
    the page. *)
Definition header (p : Page) : Z * Z * Z :=
  let d := Data p in
  (Uint16 (slice d 0 2), Uint16 (slice d 2 4), Uint16 (slice d 4 6)).

Definition setHeader (p : Page) (slotCount freeStart freeEnd : Z) : Page :=
  let d := Data p in
  let d := store d 0 (PutUint16 slotCount) in
  let d := store d 2 (PutUint16 freeStart) in
  let d := store d 4 (PutUint16 freeEnd) in
  mkPage (ID p) (Checksum p) PayloadSize d.

Definition InitIfFresh (p : Page) : Page :=
  let '(sc, fs, fe) := header p in
  let p := if (sc =? 0) && (fs =? 0) && (fe =? 0)
           then setHeader p 0 spHeaderSize PayloadSize else p in
  if DataSize p =? 0 then set_DataSize p PayloadSize else p.

Definition freeSpace (p : Page) : Z :=
  let '(sc, fs, fe) := header p in
  fe - fs - sc * slotEntrySize.

(** [index+1] is computed in uint16. *)
Definition slotPos (index : Z) : Z :=
  PayloadSize - ((index + 1) mod 2 ^ 16) * slotEntrySize.

(** [d[pos:pos+2]] and [d[pos+2:pos+4]] are within [d]. *)
Definition slotInBounds (d : bytes) (pos : Z) : bool :=
  (0 <=? pos) && (pos + 4 <=? Z.of_nat (length d)).

Definition getSlot (p : Page) (i : Z) : result (Z * Z) :=
  let '(sc, _, _) := header p in
  if sc <=? i then Err ErrBadSlotID
  else
    let pos := slotPos i in
    let d := Data p in
    if slotInBounds d pos then
      Ok (Uint16 (slice d (Z.to_nat pos) (Z.to_nat pos + 2)),
          Uint16 (slice d (Z.to_nat pos + 2) (Z.to_nat pos + 4)))
    else Err RuntimePanic.

Definition setSlot (p : Page) (i off ln : Z) : result unit * Page :=
  let pos := slotPos i in
  let d := Data p in
  if (0 <=? pos) && (pos + 2 <=? Z.of_nat (length d)) then
    let p1 := set_Data p (store d (Z.to_nat pos) (PutUint16 off)) in
    if pos + 4 <=? Z.of_nat (length d) then
      (Ok tt, set_Data p (store (Data p1) (Z.to_nat pos + 2) (PutUint16 ln)))
    else (Err RuntimePanic, p1)
  else (Err RuntimePanic, p).

(** Insert appends a new record; returns SlotID. *)
Definition SlottedPage_Insert (p : Page) (rec : bytes) : result Z * Page :=
  let len := Z.of_nat (length rec) in
  if 0xFFFF <? len then (Err ErrDataTooLarge, p)
  else
    let req := len + slotEntrySize in
    if freeSpace p <? req then (Err ErrNoSpace, p)
    else
      let '(sc, fs, fe) := header p in
      if Z.of_nat (length (Data p)) <? fs then (Err RuntimePanic, p)
      else
        let p := set_Data p (store (Data p) (Z.to_nat fs) rec) in
        let slotID := sc in
        match setSlot p slotID fs (len mod 2 ^ 16) with
        | (Err e, p) => (Err e, p)
        | (Ok _, p) =>
            let sc := (sc + 1) mod 2 ^ 16 in
            let fs := (fs + len mod 2 ^ 16) mod 2 ^ 16 in
            let fe := (fe - slotEntrySize) mod 2 ^ 16 in
            (Ok slotID, setHeader p sc fs fe)
        end.

(** Read returns a copy of the record bytes for slot i. *)
Definition SlottedPage_Read (p : Page) (i : Z) : result bytes :=
  do (off, ln) <- getSlot p i;
  if ln =? 0 then Err ErrSlotDeleted
  else if Z.of_nat (length (Data p)) <? off + ln then Err RuntimePanic
  else Ok (copy (zeros (Z.to_nat ln)) (slice (Data p) (Z.to_nat off) (Z.to_nat (off + ln)))).

(** Delete marks the slot as deleted (lazy delete). *)
Definition SlottedPage_Delete (p : Page) (i : Z) : result unit * Page :=
  match getSlot p i with
  | Err e => (Err e, p)
  | Ok (off, _) => setSlot p i off 0
  end.

(** ** heapfile.go *)

(** [uint32(st.Size() / PageSize)] *)
Definition pageCount (f : file) : Z :=
  (Z.of_nat (length f) / PageSize) mod 2 ^ 32.

(** The loop of [findPageWithSpace], with [remaining = n - id] pages to go. *)
Fixpoint findPageLoop (f : file) (need : Z) (remaining : nat) (id : Z)
  : result (option (Z * Page)) :=
  match remaining with
  | O => Ok None
  | S r =>
      do p <- ReadPage f id;
      let p := InitIfFresh p in
      if need <=? freeSpace p then Ok (Some (id, p))
      else findPageLoop f need r (id + 1)
  end.

Definition findPageWithSpace (f : file) (need : Z) : result (Z * Page) :=
  let n := pageCount f in
  do r <- findPageLoop f need (Z.to_nat n) 0;
  match r with
  | Some found => Ok found
  | None => Ok (n, InitIfFresh (newPage n))
  end.

(** Insert places rec into the heap and returns its RID. *)
Definition HeapFile_Insert (f : file) (rec : bytes) : result RID * file :=
  let need := Z.of_nat (length rec) + slotEntrySize in
  match findPageWithSpace f need with
  | Err e => (Err e, f)
  | Ok (id, p) =>
      match SlottedPage_Insert p rec with
      | (Err e, _) => (Err e, f)
      | (Ok slot, p) =>
          match WritePage f p with
          | (Err e, _, f) => (Err e, f)
          | (Ok _, _, f) => (Ok (mkRID id slot), f)
          end
      end
  end.

(** Get reads a record by RID. *)
Definition HeapFile_Get (f : file) (r : RID) : result bytes :=
  do p <- ReadPage f (PageID r);
  SlottedPage_Read p (SlotID r).

(** Delete marks the record as deleted. *)
Definition HeapFile_Delete (f : file) (r : RID) : result unit * file :=
  match ReadPage f (PageID r) with
  | Err e => (Err e, f)
  | Ok p =>
      match SlottedPage_Delete p (SlotID r) with
      | (Err e, _) => (Err e, f)
      | (Ok _, p) =>
          match WritePage f p with
          | (r, _, f) => (r, f)
          end
      end
  end.

(** Scan: the visitor is a closure; its captured variables are the state
    [St] it threads, which survives an error of the scan.  The boolean of a
    loop result tells whether the scan goes on. *)
Section Scan.
Context {St : Type} (visit : St -> RID -> bytes -> St * bool).

Fixpoint scanSlots (p : Page) (id : Z) (remaining : nat) (s : Z) (st : St)
  : result bool * St :=
  match remaining with
  | O => (Ok true, st)
  | S r =>
      match SlottedPage_Read p s with
      | Err ErrSlotDeleted => scanSlots p id r (s + 1) st
      | Err e => (Err e, st)
      | Ok b =>
          let '(st, go) := visit st (mkRID id s) b in
          if go then scanSlots p id r (s + 1) st else (Ok false, st)
      end
  end.

Fixpoint scanPages (f : file) (remaining : nat) (id : Z) (st : St)
  : result unit * St :=
  match remaining with
  | O => (Ok tt, st)
  | S r =>
      match ReadPage f id with
      | Err e => (Err e, st)
      | Ok p =>
          let '(sc, _, _) := header p in
          match scanSlots p id (Z.to_nat sc) 0 st with
          | (Err e, st) => (Err e, st)
          | (Ok go, st) => if go then scanPages f r (id + 1) st else (Ok tt, st)
          end
      end
  end.

Definition HeapFile_Scan (f : file) (st : St) : result unit * St :=
  scanPages f (Z.to_nat (pageCount f)) 0 st.
End Scan.

(** ** sort.Search (Go standard library): the binary search itself, with a
    budget of [n] iterations, which its halving never uses up. *)

Fixpoint searchLoop (budget : nat) (pred : nat -> bool) (i j : nat) : nat :=
  match budget with
  | O => i
  | S budget' =>
      if (i <? j)%nat then
        let h := ((i + j) / 2)%nat in
        if negb (pred h) then searchLoop budget' pred (h + 1)%nat j
        else searchLoop budget' pred i h
      else i
  end.

Definition Search (n : nat) (pred : nat -> bool) : nat :=
  searchLoop n pred 0%nat n.

(** ** The B-tree index (package index) *)

Definition kindMeta : Z := 0.
Definition kindInternal : Z := 1.
Definition kindLeaf : Z := 2.

Definition nodeHdrSize : Z := 16.
Definition leafEntrySize : Z := 16.
Definition internalFirstKid : Z := 4.
Definition internalEntSize : Z := 12.

Record BTree : Type := mkBTree {
  tfile : file;   (* the contents behind the handle f *)
  rootID : Z      (* uint32 *)
}.

(** *** encoding/decoding *)

Definition nodeKind (d : bytes) : Z := byte.unsigned (nth 0 d zero_byte).

Definition setNodeHeader (d : bytes) (kind count parent aux : Z) : bytes :=
  let d := store d 0 [byte.of_Z kind] in
  let d := store d 1 [zero_byte] in
  let d := store d 2 (PutUint16 count) in
  let d := store d 4 (PutUint32 parent) in
  store d 8 (PutUint32 aux).

Definition metaRoot (d : bytes) : Z := Uint32 (slice d 8 12).

Definition setMetaRoot (d : bytes) (root : Z) : bytes :=
  store d 8 (PutUint32 root).

Definition leafCapacity : Z := (PayloadSize - nodeHdrSize) / leafEntrySize.
Definition internalCapacity : Z :=
  (PayloadSize - nodeHdrSize - internalFirstKid) / internalEntSize.

(** The loop of [leafLeafEntries]; a slice beyond the array panics. *)
Fixpoint leafEntriesLoop (d : bytes) (cnt off : nat)
  : result (list Z * list RID) :=
  match cnt with
  | O => Ok ([], [])
  | S c =>
      if (length d <? off + 14)%nat then Err RuntimePanic
      else
        let key := Uint64 (slice d off (off + 8)) in
        let page := Uint32 (slice d (off + 8) (off + 12)) in
        let slot := Uint16 (slice d (off + 12) (off + 14)) in
        do (keys, vals) <- leafEntriesLoop d c (off + Z.to_nat leafEntrySize);
        Ok (key :: keys, mkRID page slot :: vals)
  end.

Definition leafLeafEntries (p : Page) : result (list Z * list RID) :=
  let cnt := Z.to_nat (Uint16 (slice (Data p) 2 4)) in
  leafEntriesLoop (Data p) cnt (Z.to_nat nodeHdrSize).

(** [for j := off; j < PayloadSize; j++ { p.Data[j] = 0 }] *)
Definition clearFrom (d : bytes) (off : nat) : bytes :=
  firstn off d ++ zeros (Z.to_nat PayloadSize - off).

(** The loop of [writeLeaf]; [vals[i]] panics when [vals] is too short. *)
Fixpoint writeLeafLoop (d : bytes) (off : nat) (keys : list Z) (vals : list RID)
  : result (bytes * nat) :=
  match keys with
  | [] => Ok (d, off)
  | k :: keys' =>
      match vals with
      | [] => Err RuntimePanic
      | v :: vals' =>
          if (length d <? off + 14)%nat then Err RuntimePanic
          else
            let d := store d off (PutUint64 k) in
            let d := store d (off + 8) (PutUint32 (PageID v)) in
            let d := store d (off + 12) (PutUint16 (SlotID v)) in
            writeLeafLoop d (off + Z.to_nat leafEntrySize) keys' vals'
      end
  end.

Definition writeLeaf (p : Page) (keys : list Z) (vals : list RID) : result Page :=
  let d := setNodeHeader (Data p) kindLeaf (Z.of_nat (length keys) mod 2 ^ 16)
                         0xFFFFFFFF 0 in
  do (d, off) <- writeLeafLoop d (Z.to_nat nodeHdrSize) keys vals;
  Ok (mkPage (ID p) (Checksum p) PayloadSize (clearFrom d off)).

(** The loop of [internalEntries]. *)
Fixpoint internalEntriesLoop (d : bytes) (cnt off : nat)
  : result (list Z * list Z) :=
  match cnt with
  | O => Ok ([], [])
  | S c =>
      if (length d <? off + 12)%nat then Err RuntimePanic
      else
        let key := Uint64 (slice d off (off + 8)) in
        let kid := Uint32 (slice d (off + 8) (off + 12)) in
        do (keys, kids) <- internalEntriesLoop d c (off + Z.to_nat internalEntSize);
        Ok (key :: keys, kid :: kids)
  end.

Definition internalEntries (p : Page) : result (list Z * list Z) :=
  let d := Data p in
  let cnt := Z.to_nat (Uint16 (slice d 2 4)) in
  let off := Z.to_nat nodeHdrSize in
  if (length d <? off + 4)%nat then Err RuntimePanic
  else
    let kid0 := Uint32 (slice d off (off + 4)) in
    do (keys, kids) <- internalEntriesLoop d cnt (off + Z.to_nat internalFirstKid);
    Ok (keys, kid0 :: kids).

(** The loop of [writeInternal]: at step [i] it stores [keys[i]] and
    [kids[i+1]]; [rest] is [kids[i+1:]], and an empty [rest] is the index
    out of range. *)
Fixpoint writeInternalLoop (d : bytes) (off : nat) (keys : list Z) (rest : list Z)
  : result (bytes * nat) :=
  match keys with
  | [] => Ok (d, off)
  | k :: keys' =>
      match rest with
      | [] => Err RuntimePanic
      | c :: rest' =>
          if (length d <? off + 12)%nat then Err RuntimePanic
          else
            let d := store d off (PutUint64 k) in
            let d := store d (off + 8) (PutUint32 c) in
            writeInternalLoop d (off + Z.to_nat internalEntSize) keys' rest'
      end
  end.

Definition writeInternal (p : Page) (keys : list Z) (kids : list Z) : result Page :=
  let d := setNodeHeader (Data p) kindInternal (Z.of_nat (length keys) mod 2 ^ 16)
                         0xFFFFFFFF 0 in
  let off := Z.to_nat nodeHdrSize in
  match kids with
  | [] => Err RuntimePanic
  | kid0 :: rest =>
      let d := store d off (PutUint32 kid0) in
      do (d, off) <- writeInternalLoop d (off + Z.to_nat internalFirstKid) keys rest;
      Ok (mkPage (ID p) (Checksum p) PayloadSize (clearFrom d off))
  end.

Definition writeInternalRoot (p : Page) (left : Z) (keys : list Z) (rightKids : list Z)
  : result Page :=
  let kids := left :: copy (repeat 0 (length keys)) rightKids in
  writeInternal p keys kids.

(** *** array ops and splits *)

(** [a = append(a, zero); copy(a[i+1:], a[i:]); a[i] = v], for [i <= len a];
    every call site takes [i] from [Search] over [a] or from an index into a
    slice one longer than [a]. *)
Definition insertAt {A : Type} (a : list A) (i : nat) (v : A) : list A :=
  firstn i a ++ v :: skipn i a.

Definition insertU64 (a : list Z) (i : nat) (v : Z) : list Z := insertAt a i v.
Definition insertU32 (a : list Z) (i : nat) (v : Z) : list Z := insertAt a i v.
Definition insertRID (a : list RID) (i : nat) (v : RID) : list RID := insertAt a i v.

(** The four results are the new [*keys], the new [*vals] and the two
    returned right-hand copies. *)
Definition splitLeafArrays (keys : list Z) (vals : list RID)
  : list Z * list RID * list Z * list RID :=
  let mid := (length keys / 2)%nat in
  (firstn mid keys, firstn mid vals, skipn mid keys, skipn mid vals).

Definition splitInternalArrays (keys : list Z) (kids : list Z)
  : list Z * list Z * list Z * list Z :=
  let mid := (length keys / 2)%nat in
  (firstn mid keys, firstn (mid + 1) kids, skipn mid keys, skipn (mid + 1) kids).

(** *** allocation *)

Definition allocPage (t : BTree) (kind : Z) : Z * Page :=
  let next := pageCount (tfile t) in
  let p := newPage next in
  (next, mkPage (ID p) (Checksum p) PayloadSize
                (setNodeHeader (Data p) kind 0 0xFFFFFFFF 0)).

(** *** descent *)

Fixpoint findLeaf (fuel : nat) (f : file) (id : Z) (key : Z) : result Page :=
  match fuel with
  | O => Err OutOfFuel
  | S fuel' =>
      do p <- ReadPage f id;
      let kind := nodeKind (Data p) in
      if kind =? kindLeaf then Ok p
      else if kind =? kindInternal then
        do (keys, kids) <- internalEntries p;
        let i := Search (length keys) (fun i => key <? nth i keys 0) in
        match nth_error kids i with
        | Some c => findLeaf fuel' f c key
        | None => Err RuntimePanic
        end
      else Err ErrCorruption
  end.

(** [for i := 0; i < len(kids); i++ { if kids[i] == childID ... }] *)
Fixpoint indexOf (kids : list Z) (childID : Z) (i : nat) : option nat :=
  match kids with
  | [] => None
  | c :: kids' => if c =? childID then Some i else indexOf kids' childID (S i)
  end.

Fixpoint findParentAndIndex (fuel : nat) (f : file) (currID childID key : Z)
  : result (Page * nat) :=
  match fuel with
  | O => Err OutOfFuel
  | S fuel' =>
      do p <- ReadPage f currID;
      if nodeKind (Data p) =? kindLeaf then Err ErrCorruption
      else
        do (keys, kids) <- internalEntries p;
        match indexOf kids childID 0 with
        | Some i => Ok (p, i)
        | None =>
            let i := Search (length keys) (fun i => key <? nth i keys 0) in
            match nth_error kids i with
            | Some c => findParentAndIndex fuel' f c childID key
            | None => Err RuntimePanic
            end
        end
  end.

(** *** insert helpers and the public API *)

(** A [WritePage] inside a tree operation: the handle keeps the file. *)
Definition treeWrite (t : BTree) (p : Page) : result unit * BTree :=
  match WritePage (tfile t) p with
  | (r, _, f) => (r, mkBTree f (rootID t))
  end.

Fixpoint insertIntoParent (fuel : nat) (t : BTree) (leftID key rightID : Z)
  : result unit * BTree :=
  match fuel with
  | O => (Err OutOfFuel, t)
  | S fuel' =>
      if leftID =? rootID t then
        let '(newRoot, p) := allocPage t kindInternal in
        match writeInternalRoot p leftID [key] [rightID] with
        | Err e => (Err e, t)
        | Ok p =>
            match treeWrite t p with
            | (Err e, t) => (Err e, t)
            | (Ok _, t) =>
                match ReadPage (tfile t) 0 with
                | Err e => (Err e, t)
                | Ok meta =>
                    let meta := set_Data meta (setMetaRoot (Data meta) newRoot) in
                    match treeWrite t meta with
                    | (Err e, t) => (Err e, t)
                    | (Ok _, t) => (Ok tt, mkBTree (tfile t) newRoot)
                    end
                end
            end
        end
      else
        match findParentAndIndex fuel (tfile t) (rootID t) leftID key with
        | Err e => (Err e, t)
        | Ok (parent, idx) =>
            match internalEntries parent with
            | Err e => (Err e, t)
            | Ok (pkeys, kids) =>
                let pkeys := insertU64 pkeys idx key in
                let kids := insertU32 kids (idx + 1) rightID in
                if Z.of_nat (length pkeys) <=? internalCapacity then
                  match writeInternal parent pkeys kids with
                  | Err e => (Err e, t)
                  | Ok parent => treeWrite t parent
                  end
                else
                  let '(pkeys, kids, rightKeys, rightKids) :=
                    splitInternalArrays pkeys kids in
                  match writeInternal parent pkeys kids with
                  | Err e => (Err e, t)
                  | Ok parent =>
                      match treeWrite t parent with
                      | (Err e, t) => (Err e, t)
                      | (Ok _, t) =>
                          let '(rid, rp) := allocPage t kindInternal in
                          match writeInternal rp rightKeys rightKids with
                          | Err e => (Err e, t)
                          | Ok rp =>
                              match treeWrite t rp with
                              | (Err e, t) => (Err e, t)
                              | (Ok _, t) =>
                                  match rightKeys with
                                  | [] => (Err RuntimePanic, t)
                                  | sep :: _ =>
                                      insertIntoParent fuel' t (ID parent) sep rid
                                  end
                              end
                          end
                      end
                  end
            end
        end
  end.

(** Insert adds a key->RID mapping to the tree. *)
Definition BTree_Insert (fuel : nat) (t : BTree) (key : Z) (rid : RID)
  : result unit * BTree :=
  match findLeaf fuel (tfile t) (rootID t) key with
  | Err e => (Err e, t)
  | Ok leaf =>
      if negb (nodeKind (Data leaf) =? kindLeaf) then (Err ErrCorruption, t)
      else
        match leafLeafEntries leaf with
        | Err e => (Err e, t)
        | Ok (keys, vals) =>
            let i := Search (length keys) (fun i => key <=? nth i keys 0) in
            if (i <? length keys)%nat && (nth i keys 0 =? key) then (Err ErrDupKey, t)
            else
              let keys := insertU64 keys i key in
              let vals := insertRID vals i rid in
              if Z.of_nat (length keys) <=? leafCapacity then
                match writeLeaf leaf keys vals with
                | Err e => (Err e, t)
                | Ok lp => treeWrite t lp
                end
              else
                let '(keys, vals, rightKeys, rightVals) := splitLeafArrays keys vals in
                match writeLeaf leaf keys vals with
                | Err e => (Err e, t)
                | Ok lp =>
                    match treeWrite t lp with
                    | (Err e, t) => (Err e, t)
                    | (Ok _, t) =>
                        let '(rightID, rp) := allocPage t kindLeaf in
                        match writeLeaf rp rightKeys rightVals with
                        | Err e => (Err e, t)
                        | Ok rp =>
                            match treeWrite t rp with
                            | (Err e, t) => (Err e, t)
                            | (Ok _, t) =>
                                match rightKeys with
                                | [] => (Err RuntimePanic, t)
                                | sep :: _ =>
                                    insertIntoParent fuel t (ID leaf) sep rightID
                                end
                            end
                        end
                    end
                end
        end
  end.

(** Get performs the point lookup and returns (rid, true) when found. *)
Definition BTree_Get (fuel : nat) (t : BTree) (key : Z) : result (RID * bool) :=
  do leaf <- findLeaf fuel (tfile t) (rootID t) key;
  do (keys, vals) <- leafLeafEntries leaf;
  let i := Search (length keys) (fun i => key <=? nth i keys 0) in
  if (i <? length keys)%nat && (0 <? length keys)%nat && (nth i keys 0 =? key) then
    match nth_error vals i with
    | Some v => Ok (v, true)
    | None => Err RuntimePanic
    end
  else Ok (zeroRID, false).

(** Open on the contents [f] of the file at the path; an empty file is
    bootstrapped with the meta page and the root leaf. *)
Definition Open (f : file) : result BTree :=
  if (length f =? 0)%nat then
    let meta := mkPage 0 0 PayloadSize
                  (setNodeHeader (Data (newPage 0)) kindMeta 0 0xFFFFFFFF 0) in
    match WritePage f meta with
    | (Err e, _, _) => Err e
    | (Ok _, meta, f) =>
        let root := mkPage 1 0 PayloadSize
                      (setNodeHeader (Data (newPage 1)) kindLeaf 0 0xFFFFFFFF 0) in
        match WritePage f root with
        | (Err e, _, _) => Err e
        | (Ok _, _, f) =>
            let meta := set_Data meta (setMetaRoot (Data meta) 1) in
            match WritePage f meta with
            | (Err e, _, _) => Err e
            | (Ok _, _, f) => Ok (mkBTree f 1)
            end
        end
    end
  else
    do meta <- ReadPage f 0;
    if negb (nodeKind (Data meta) =? kindMeta) then Err ErrCorruption
    else Ok (mkBTree f (metaRoot (Data meta))).

(** * Vocabulary of the statements *)

(** ** Checksums and pages *)

(** Entry [i] of the IEEE table, and the index one update step looks up. *)
Definition tableEntry (i : nat) : Z := nth i IEEETable 0.

Definition crcIndex (crc : Z) (v : byte) : Z :=
  Z.lxor (Z.land crc 255) (byte.unsigned v).

(** What [ReadPage] makes of the [PageSize] bytes it has read. *)
Definition decodePage (buf : bytes) : result Page :=
  let p := mkPage (Uint32 (slice buf 0 4)) (Uint32 (slice buf 4 8))
                  (Uint16 (slice buf 8 10))
                  (copy (zeros (Z.to_nat PayloadSize)) (skipn (Z.to_nat HeaderSize) buf)) in
  do c <- ComputeChecksum p;
  if negb (c =? Checksum p) then Err ErrChecksumMismatch else Ok p.

(** A page holding the five bytes of hello. *)
Definition helloPage : Page :=
  snd (SetData (newPage 1) [Byte.x68; Byte.x65; Byte.x6c; Byte.x6c; Byte.x6f]).

(** ** Slotted pages *)

(** The invariant of the slotted header in the data model:
    [6 <= free_start <= free_end <= 4086]. *)
Definition slotted_ok (p : Page) : Prop :=
  let '(sc, fs, fe) := header p in
  spHeaderSize <= fs /\ fs <= fe /\ fe <= PayloadSize.

(** The page a successful [Insert] leaves, for a page with header
    [(sc, fs, fe)]. *)
Definition insertedPage (p : Page) (rec : bytes) (sc fs fe : Z) : Page :=
  let len := Z.of_nat (length rec) in
  let pos := Z.to_nat (PayloadSize - (sc + 1) * slotEntrySize) in
  let d := store (Data p) (Z.to_nat fs) rec in
  let d := store d pos (PutUint16 fs) in
  let d := store d (pos + 2) (PutUint16 len) in
  setHeader (set_Data p d) (sc + 1) (fs + len) (fe - slotEntrySize).

(** An empty slotted page. *)
Definition freshPage : Page := InitIfFresh (newPage 0).

(** The directory entry of slot [i], read without the bound check. *)
Definition slotEntry (p : Page) (i : Z) : Z * Z :=
  let pos := Z.to_nat (slotPos i) in
  (Uint16 (slice (Data p) pos (pos + 2)), Uint16 (slice (Data p) (pos + 2) (pos + 4))).

(** What the slotted layer maintains on a page of a heap file. *)
Definition slotted_inv (p : Page) : Prop :=
  page_ok p /\ DataSize p = PayloadSize /\
  let '(sc, fs, fe) := header p in
  spHeaderSize <= fs /\ fs <= fe /\ fe <= PayloadSize - sc * slotEntrySize /\
  forall i, 0 <= i < sc ->
    let '(off, ln) := slotEntry p i in spHeaderSize <= off /\ off + ln <= fs.

(** A record id within its Go types: uint32 page, uint16 slot. *)
Definition rid_ok (r : RID) : Prop :=
  0 <= PageID r < 2 ^ 32 /\ 0 <= SlotID r < 2 ^ 16.

(** The page a successful [Delete] of slot [i] leaves. *)
Definition deletedPage (p : Page) (i : Z) : Page :=
  let pos := Z.to_nat (slotPos i) in
  let off := fst (slotEntry p i) in
  set_Data p (store (store (Data p) pos (PutUint16 off)) (pos + 2) (PutUint16 0)).

(** ** Heap files and their histories *)

(** A heap file of [n] pages, each a slotted page stored under its id. *)
Definition heap_pages (f : file) (n : nat) : Prop :=
  length f = (n * 4096)%nat /\ Z.of_nat n < 2 ^ 32 /\
  forall id, 0 <= id < Z.of_nat n ->
    exists p, ReadPage f id = Ok p /\ ID p = id /\ slotted_inv p.

(** The files [HeapFile] builds. *)
Definition heap_inv (f : file) : Prop := exists n, heap_pages f n.

(** The visitor instrumented with the log of its calls. *)
Definition recording {St : Type} (visit : St -> RID -> bytes -> St * bool)
  : St * list (RID * bytes) -> RID -> bytes -> (St * list (RID * bytes)) * bool :=
  fun s r b =>
    let '(st, go) := visit (fst s) r b in ((st, snd s ++ [(r, b)]), go).

(** The calls of the visitor during a scan of [f]. *)
Definition scanVisits {St : Type} (visit : St -> RID -> bytes -> St * bool)
  (f : file) (st : St) : list (RID * bytes) :=
  snd (snd (HeapFile_Scan (recording visit) f (st, []))).

(** A history of a heap file: inserts and deletes, each of which succeeds. *)
Inductive heap_op : Type :=
| HInsert (rec : bytes)
| HDelete (r : RID).

(** The rids of a history are within their Go types. *)
Definition heap_op_ok (o : heap_op) : Prop :=
  match o with
  | HInsert _ => True
  | HDelete r => rid_ok r
  end.

(** The file after the history, the rids its inserts returned with their
    records, and the rids it deleted; [None] when an operation fails. *)
Fixpoint heap_run (f : file) (ops : list heap_op)
  : option (file * list (RID * bytes) * list RID) :=
  match ops with
  | [] => Some (f, [], [])
  | HInsert rec :: ops' =>
      match HeapFile_Insert f rec with
      | (Ok rid, f') =>
          match heap_run f' ops' with
          | Some (g, ins, del) => Some (g, (rid, rec) :: ins, del)
          | None => None
          end
      | (Err _, _) => None
      end
  | HDelete r :: ops' =>
      match HeapFile_Delete f r with
      | (Ok _, f') =>
          match heap_run f' ops' with
          | Some (g, ins, del) => Some (g, ins, r :: del)
          | None => None
          end
      | (Err _, _) => None
      end
  end.

(** Two inserts and the delete of the first. *)
Definition demoOps : list heap_op :=
  [HInsert [Byte.x61]; HInsert [Byte.x62; Byte.x63]; HDelete (mkRID 0 0)].

(** ** B-tree nodes, trees and their histories *)

(** Values of Go's uint32 and uint64. *)
Definition u32 (v : Z) : Prop := 0 <= v < 2 ^ 32.
Definition u64 (v : Z) : Prop := 0 <= v < 2 ^ 64.

(** Two payloads of the same length that agree on the bytes [lo, hi). *)
Definition agree (d1 d2 : bytes) (lo hi : nat) : Prop :=
  length d1 = length d2 /\
  forall a b, (lo <= a)%nat -> (b <= hi)%nat -> slice d1 a b = slice d2 a b.

(** Strictly ascending. *)
Definition ascending (l : list Z) : Prop :=
  forall i j a b, (i < j)%nat ->
    nth_error l i = Some a -> nth_error l j = Some b -> a < b.

(** The descent through an internal node: first index whose key is
    [> key]. *)
Definition route (ks : list Z) (key : Z) : nat :=
  Search (length ks) (fun i => key <? nth i ks 0).

(** Key [k] is stored with value [v]. *)
Definition holds (keys : list Z) (vals : list RID) (k : Z) (v : RID) : Prop :=
  exists i, nth_error keys i = Some k /\ nth_error vals i = Some v.

(** A leaf of the tree: its page id and its decoded entries. *)
Record leaf : Type := mkLeaf { lid : Z; lkeys : list Z; lvals : list RID }.

(** Page [lid l] of [f] is a leaf that decodes to the entries of [l]; page
    [id] is an internal node with keys [ks] and children [cs]. *)
Definition leaf_at (f : file) (l : leaf) : Prop :=
  exists p, ReadPage f (lid l) = Ok p /\ ID p = lid l /\
            nodeKind (Data p) = kindLeaf /\
            leafLeafEntries p = Ok (lkeys l, lvals l).

Definition internal_at (f : file) (id : Z) (ks cs : list Z) : Prop :=
  exists p, ReadPage f id = Ok p /\ ID p = id /\
            nodeKind (Data p) = kindInternal /\
            internalEntries p = Ok (ks, cs).

(** Key [k] belongs under child [i] of a node with separators [ks]:
    below separator [i], if any, and not below separator [i-1], if any. *)
Definition in_range (ks : list Z) (i : nat) (k : Z) : Prop :=
  (forall s, nth_error ks i = Some s -> k < s) /\
  (forall s, (0 < i)%nat -> nth_error ks (i - 1) = Some s -> s <= k).

(** A leaf within capacity, with ascending keys and values in range. *)
Definition leaf_wf (l : leaf) : Prop :=
  length (lvals l) = length (lkeys l) /\ (length (lkeys l) <= 254)%nat /\
  ascending (lkeys l) /\ Forall u64 (lkeys l) /\ Forall rid_ok (lvals l).

(** Pages of the file: the meta page, the leaves, and the internal root
    once there is one. *)
Definition tree_pages (ks : list Z) (ls : list leaf) : nat :=
  (length ls + match ks with [] => 1 | _ => 2 end)%nat.

(** The trees [Insert] builds: a root leaf, or an internal root with
    separators [ks] over the leaves [ls]. *)
Record tree_inv (t : BTree) (ks : list Z) (ls : list leaf) : Prop := {
  inv_len : length (tfile t) = (tree_pages ks ls * 4096)%nat;
  inv_meta : exists m, ReadPage (tfile t) 0 = Ok m /\ ID m = 0;
  inv_root_id : 1 <= rootID t < Z.of_nat (tree_pages ks ls);
  inv_root : (ks = [] /\ map lid ls = [rootID t]) \/
             (ks <> [] /\ internal_at (tfile t) (rootID t) ks (map lid ls) /\
              ~ In (rootID t) (map lid ls));
  inv_count : length ls = S (length ks) /\ (length ks <= 338)%nat;
  inv_ks : ascending ks /\ Forall u64 ks;
  inv_ids : NoDup (map lid ls) /\
            forall l, In l ls -> 1 <= lid l < Z.of_nat (tree_pages ks ls);
  inv_leaves : forall i l, nth_error ls i = Some l ->
                 leaf_at (tfile t) l /\ leaf_wf l /\
                 forall k, In k (lkeys l) -> in_range ks i k
}.

(** The tree maps [k] to [v]. *)
Definition tree_holds (ls : list leaf) (k : Z) (v : RID) : Prop :=
  exists i l, nth_error ls i = Some l /\ holds (lkeys l) (lvals l) k v.

(** The list of leaves after leaf [j] was rewritten, and after it was
    split in two. *)
Definition replaceAt {A : Type} (ls : list A) (j : nat) (x : A) : list A :=
  firstn j ls ++ x :: skipn (S j) ls.

Definition splitAt {A : Type} (ls : list A) (j : nat) (x y : A) : list A :=
  firstn j ls ++ x :: y :: skipn (S j) ls.

(** The root leaf of a fresh tree. *)
Definition emptyLeaf : leaf := mkLeaf 1 [] [].

(** A key and a rid within their Go types. *)
Definition op_ok (op : Z * RID) : Prop := u64 (fst op) /\ rid_ok (snd op).

(** The inserts of [ops] in order, stopping at the first that fails. *)
Fixpoint insertAll (fuel : nat) (t : BTree) (ops : list (Z * RID))
  : result unit * BTree :=
  match ops with
  | [] => (Ok tt, t)
  | (k, r) :: ops' =>
      match BTree_Insert fuel t k r with
      | (Ok _, t') => insertAll fuel t' ops'
      | (Err e, t') => (Err e, t')
      end
  end.

(** The tree a fresh file is opened to. *)
Definition freshTree : BTree :=
  match Open [] with
  | Ok t => t
  | Err _ => mkBTree [] 0
  end.

(** Three inserts, out of order. *)
Definition demoInserts : list (Z * RID) :=
  [(42, mkRID 1 1); (7, mkRID 2 9); (100, mkRID 3 0)].

(** The root page after the three inserts. *)
Definition demoRoot : Page :=
  match ReadPage (tfile (snd (insertAll 2 freshTree demoInserts))) 1 with
  | Ok p => p
  | Err _ => newPage 1
  end.

(** Page [id] of [f], as the tree reads it: a leaf with these entries, an
    internal node with these keys and children. *)
Definition node_leaf (f : file) (id : Z) (keys : list Z) (vals : list RID) : Prop :=
  exists p, ReadPage f id = Ok p /\ nodeKind (Data p) = kindLeaf /\
            leafLeafEntries p = Ok (keys, vals).

Definition node_internal (f : file) (id : Z) (keys kids : list Z) : Prop :=
  exists p, ReadPage f id = Ok p /\ nodeKind (Data p) = kindInternal /\
            internalEntries p = Ok (keys, kids).

(** The pages of the tree: the root and the children of internal nodes. *)
Inductive tree_node (f : file) (root : Z) : Z -> Prop :=
| tree_node_root : tree_node f root root
| tree_node_child id keys kids c :
    tree_node f root id -> node_internal f id keys kids -> In c kids ->
    tree_node f root c.

(** The keys stored in the subtree under a page: the keys of its leaves and
    the separators of its internal nodes. *)
Inductive subtree_key (f : file) : Z -> Z -> Prop :=
| subtree_leaf id keys vals k :
    node_leaf f id keys vals -> In k keys -> subtree_key f id k
| subtree_separator id keys kids k :
    node_internal f id keys kids -> In k keys -> subtree_key f id k
| subtree_child id keys kids c k :
    node_internal f id keys kids -> In c kids -> subtree_key f c k ->
    subtree_key f id k.

(** The smallest overflowing internal node: 339 keys, 340 children. *)
Definition overflowKeys : list Z := map Z.of_nat (seq 1 339).
Definition overflowKids : list Z := map Z.of_nat (seq 1 340).

(** ** Further examples and invariants *)

(** A file of one page whose size field holds 0xFFFF. *)
Definition oversizeFile : file :=
  WriteAt (zeros 4096) [Byte.xff; Byte.xff] 8.

(** A page with the record ab in slot 0, and with c in slot 1 as well. *)
Definition oneRecordPage : Page :=
  snd (SlottedPage_Insert freshPage [Byte.x61; Byte.x62]).

Definition twoRecordPage : Page :=
  snd (SlottedPage_Insert oneRecordPage [Byte.x63]).

(** A heap file of one page with the record ab, and with c as well. *)
Definition oneRecordHeap : file := snd (HeapFile_Insert [] [Byte.x61; Byte.x62]).

Definition twoRecordHeap : file := snd (HeapFile_Insert oneRecordHeap [Byte.x63]).

(** The visitor of the heap test: it counts the records and goes on. *)
Definition countVisit (n : nat) (r : RID) (b : bytes) : nat * bool := (S n, true).

(** The meta page names the root. *)
Definition meta_ok (f : file) (root : Z) : Prop :=
  exists m, ReadPage f 0 = Ok m /\ ID m = 0 /\
            nodeKind (Data m) = kindMeta /\ metaRoot (Data m) = root.

(** The number of keys in the leaves. *)
Definition keyCount (ls : list leaf) : nat :=
  list_sum (map (fun l => length (lkeys l)) ls).

(** Once the root is internal every leaf is at least half full. *)
Definition half_full (ks : list Z) (ls : list leaf) : Prop :=
  ks <> [] -> forall l, In l ls -> (127 <= length (lkeys l))%nat.

(** The tree ascending inserts build: every leaf but the last holds 127
    keys, the last one [c]. *)
Definition asc_shape (ks : list Z) (ls : list leaf) (c : nat) : Prop :=
  (forall i l, nth_error ls i = Some l -> (i < length ks)%nat ->
               length (lkeys l) = 127%nat) /\
  (exists l, nth_error ls (length ks) = Some l /\ length (lkeys l) = c) /\
  (ks <> [] -> (128 <= c)%nat).

(** Strictly ascending, checked. *)
Fixpoint ascendingb (l : list Z) : bool :=
  match l with
  | a :: (b :: _) as tl => (a <? b) && ascendingb tl
  | _ => true
  end.

Definition op_okb (op : Z * RID) : bool :=
  (0 <=? fst op) && (fst op <? 2 ^ 64) &&
  (0 <=? PageID (snd op)) && (PageID (snd op) <? 2 ^ 32) &&
  (0 <=? SlotID (snd op)) && (SlotID (snd op) <? 2 ^ 16).

(** [n] consecutive integers from [k] on. *)
Fixpoint countUp (n : nat) (k : Z) : list Z :=
  match n with
  | O => []
  | S n' => k :: countUp n' (k + 1)
  end.

(** The keys 1 .. 43180 and the key 43181, each with the rid (1, 0). *)
Definition fillingOps : list (Z * RID) :=
  map (fun k => (k, mkRID 1 0)) (countUp (Z.to_nat 43180) 1).

Definition overflowOp : Z * RID := (43181, mkRID 1 0).

(** * Proofs *)

(** * Byte slices *)

Lemma length_zeros n : length (zeros n) = n.
Proof. apply repeat_length. Qed.

Lemma length_copy {A : Type} (dst src : list A) : length (copy dst src) = length dst.
Proof. unfold copy. rewrite length_app, length_firstn, length_skipn. lia. Qed.

Lemma copy_exact {A : Type} (dst src : list A) :
  length src = length dst -> copy dst src = src.
Proof.
  intros H. unfold copy. rewrite <- H, firstn_all, skipn_all2 by lia.
  apply app_nil_r.
Qed.

Lemma length_store d off src : length (store d off src) = length d.
Proof.
  unfold store. rewrite length_app, length_copy, length_firstn, length_skipn. lia.
Qed.

Lemma store_eq d off src :
  (off + length src <= length d)%nat ->
  store d off src = firstn off d ++ src ++ skipn (off + length src) d.
Proof.
  intros H. unfold store, copy.
  rewrite length_skipn, (@firstn_all2 _ _ src) by lia.
  rewrite skipn_skipn. do 3 f_equal. lia.
Qed.

Lemma length_slice d a b :
  (b <= length d)%nat -> length (slice d a b) = (b - a)%nat.
Proof. intros H. unfold slice. rewrite length_firstn, length_skipn. lia. Qed.

Lemma nth_error_slice d a b i :
  nth_error (slice d a b) i =
  if (i <? b - a)%nat then nth_error d (a + i) else None.
Proof. unfold slice. now rewrite nth_error_firstn, nth_error_skipn. Qed.

Lemma nth_error_store d off src i :
  (off + length src <= length d)%nat ->
  nth_error (store d off src) i =
  if ((off <=? i) && (i <? off + length src))%nat then nth_error src (i - off)
  else nth_error d i.
Proof.
  intros H. rewrite store_eq by exact H.
  rewrite nth_error_app, length_firstn, nth_error_firstn.
  replace (Nat.min off (length d)) with off by lia.
  destruct (Nat.ltb_spec i off) as [Hlt|Hge].
  - destruct (Nat.leb_spec off i); [lia|]. reflexivity.
  - destruct (Nat.leb_spec off i); [|lia]. cbn [andb].
    rewrite nth_error_app.
    destruct (Nat.ltb_spec (i - off) (length src));
      destruct (Nat.ltb_spec i (off + length src)); try lia.
    + reflexivity.
    + rewrite nth_error_skipn. f_equal. lia.
Qed.

Lemma slice_store_same d off src :
  (off + length src <= length d)%nat ->
  slice (store d off src) off (off + length src) = src.
Proof.
  intros H. apply nth_error_ext. intros i.
  rewrite nth_error_slice.
  destruct (Nat.ltb_spec i (off + length src - off)).
  - rewrite nth_error_store by exact H.
    destruct (Nat.leb_spec off (off + i)); [|lia].
    destruct (Nat.ltb_spec (off + i) (off + length src)); [|lia].
    cbn [andb]. f_equal. lia.
  - symmetry. apply nth_error_None. lia.
Qed.

Lemma slice_store_other d off src a b :
  (off + length src <= length d)%nat ->
  (b <= off \/ off + length src <= a)%nat ->
  slice (store d off src) a b = slice d a b.
Proof.
  intros H Hd. apply nth_error_ext. intros i.
  rewrite !nth_error_slice.
  destruct (Nat.ltb_spec i (b - a)); [|reflexivity].
  rewrite nth_error_store by exact H.
  destruct (Nat.leb_spec off (a + i));
    destruct (Nat.ltb_spec (a + i) (off + length src)); cbn [andb];
    try reflexivity; lia.
Qed.

Lemma firstn_store_before d off src k :
  (off + length src <= length d)%nat -> (k <= off)%nat ->
  firstn k (store d off src) = firstn k d.
Proof.
  intros H Hk. rewrite store_eq by exact H.
  rewrite firstn_app, length_firstn.
  replace (k - Nat.min off (length d))%nat with 0%nat by lia.
  rewrite firstn_0, app_nil_r, firstn_firstn. f_equal. lia.
Qed.

Lemma skipn_store_after d off src k :
  (off + length src <= length d)%nat -> (off + length src <= k)%nat ->
  skipn k (store d off src) = skipn k d.
Proof.
  intros H Hk. apply nth_error_ext. intros i.
  rewrite !nth_error_skipn, nth_error_store by exact H.
  destruct (Nat.leb_spec off (k + i));
    destruct (Nat.ltb_spec (k + i) (off + length src)); cbn [andb];
    try reflexivity; lia.
Qed.

Lemma nth_store_other d off src i :
  (off + length src <= length d)%nat ->
  (i < off \/ off + length src <= i)%nat ->
  nth i (store d off src) zero_byte = nth i d zero_byte.
Proof.
  intros H Hi.
  assert (E : nth_error (store d off src) i = nth_error d i).
  { rewrite nth_error_store by exact H.
    destruct (Nat.leb_spec off i);
      destruct (Nat.ltb_spec i (off + length src)); cbn [andb];
      try reflexivity; lia. }
  destruct (Nat.lt_ge_cases i (length d)) as [Hlt|Hge].
  - rewrite (nth_error_nth' _ zero_byte) in E by (rewrite length_store; lia).
    rewrite (nth_error_nth' d zero_byte) in E by lia. congruence.
  - rewrite !nth_overflow; [reflexivity|lia|rewrite length_store; lia].
Qed.

Lemma slice_full d : slice d 0 (length d) = d.
Proof. unfold slice. rewrite skipn_0, Nat.sub_0_r. apply firstn_all. Qed.

Lemma slice_0 d b : slice d 0 b = firstn b d.
Proof. unfold slice. now rewrite skipn_0, Nat.sub_0_r. Qed.

Lemma slice_app_mid (x y z : bytes) :
  slice (x ++ y ++ z) (length x) (length x + length y) = y.
Proof.
  unfold slice. rewrite skipn_app, skipn_all, Nat.sub_diag, skipn_0.
  cbn [app]. replace (length x + length y - length x)%nat with (length y) by lia.
  rewrite firstn_app, firstn_all, Nat.sub_diag, firstn_0. apply app_nil_r.
Qed.

(** * Little-endian fields *)

Lemma Uint16_PutUint16 v : 0 <= v < 2 ^ 16 -> Uint16 (PutUint16 v) = v.
Proof.
  intros H. unfold Uint16, PutUint16.
  rewrite firstn_all2 by (rewrite length_le_split; lia).
  rewrite le_combine_split. apply Z.mod_small. exact H.
Qed.

Lemma Uint32_PutUint32 v : 0 <= v < 2 ^ 32 -> Uint32 (PutUint32 v) = v.
Proof.
  intros H. unfold Uint32, PutUint32.
  rewrite firstn_all2 by (rewrite length_le_split; lia).
  rewrite le_combine_split. apply Z.mod_small. exact H.
Qed.

Lemma Uint64_PutUint64 v : 0 <= v < 2 ^ 64 -> Uint64 (PutUint64 v) = v.
Proof.
  intros H. unfold Uint64, PutUint64.
  rewrite firstn_all2 by (rewrite length_le_split; lia).
  rewrite le_combine_split. apply Z.mod_small. exact H.
Qed.

Lemma Uint16_range b : 0 <= Uint16 b < 2 ^ 16.
Proof.
  unfold Uint16. pose proof (le_combine_bound (firstn 2 b)) as H.
  pose proof (firstn_le_length 2 b).
  assert (2 ^ (8 * Z.of_nat (length (firstn 2 b))) <= 2 ^ 16)
    by (apply Z.pow_le_mono_r; lia).
  lia.
Qed.

Lemma Uint32_range b : 0 <= Uint32 b < 2 ^ 32.
Proof.
  unfold Uint32. pose proof (le_combine_bound (firstn 4 b)) as H.
  pose proof (firstn_le_length 4 b).
  assert (2 ^ (8 * Z.of_nat (length (firstn 4 b))) <= 2 ^ 32)
    by (apply Z.pow_le_mono_r; lia).
  lia.
Qed.

Lemma Uint64_range b : 0 <= Uint64 b < 2 ^ 64.
Proof.
  unfold Uint64. pose proof (le_combine_bound (firstn 8 b)) as H.
  pose proof (firstn_le_length 8 b).
  assert (2 ^ (8 * Z.of_nat (length (firstn 8 b))) <= 2 ^ 64)
    by (apply Z.pow_le_mono_r; lia).
  lia.
Qed.

Lemma PutUint16_Uint16 b : length b = 2%nat -> PutUint16 (Uint16 b) = b.
Proof.
  intros H. unfold Uint16, PutUint16. rewrite firstn_all2 by lia.
  rewrite <- H. apply split_le_combine.
Qed.

Lemma length_PutUint16 v : length (PutUint16 v) = 2%nat.
Proof. apply length_le_split. Qed.
Lemma length_PutUint32 v : length (PutUint32 v) = 4%nat.
Proof. apply length_le_split. Qed.
Lemma length_PutUint64 v : length (PutUint64 v) = 8%nat.
Proof. apply length_le_split. Qed.

(** * CRC-32: one changed byte changes the checksum *)

Lemma testbit_above a n i :
  0 <= a < 2 ^ n -> n <= i -> Z.testbit a i = false.
Proof.
  intros Ha Hi. assert (0 <= n).
  { destruct (Z.le_gt_cases 0 n); [assumption|].
    rewrite Z.pow_neg_r in Ha by lia. lia. }
  rewrite <- (Z.mod_small a (2 ^ n)) by exact Ha.
  apply Z.mod_pow2_bits_high. lia.
Qed.

Lemma below_of_bits a n :
  0 <= n -> 0 <= a -> (forall i, n <= i -> Z.testbit a i = false) -> a < 2 ^ n.
Proof.
  intros Hn Ha H.
  assert (E : a mod 2 ^ n = a).
  { apply Z.bits_inj'. intros i Hi.
    destruct (Z.lt_ge_cases i n).
    - apply Z.mod_pow2_bits_low. lia.
    - rewrite Z.mod_pow2_bits_high by lia. symmetry. apply H. lia. }
  rewrite <- E. apply Z.mod_pos_bound. apply Z.pow_pos_nonneg; lia.
Qed.

Lemma lxor_below a b n :
  0 <= n -> 0 <= a < 2 ^ n -> 0 <= b < 2 ^ n -> 0 <= Z.lxor a b < 2 ^ n.
Proof.
  intros Hn Ha Hb. split.
  - apply Z.lxor_nonneg. lia.
  - apply below_of_bits; [exact Hn|apply Z.lxor_nonneg; lia|].
    intros i Hi. rewrite Z.lxor_spec.
    now rewrite (testbit_above a n i), (testbit_above b n i).
Qed.

Lemma shiftr_below a n k :
  0 <= k <= n -> 0 <= a < 2 ^ n -> 0 <= Z.shiftr a k < 2 ^ (n - k).
Proof.
  intros Hk Ha. rewrite Z.shiftr_div_pow2 by lia. split.
  - apply Z.div_pos; [lia|apply Z.pow_pos_nonneg; lia].
  - apply Z.div_lt_upper_bound; [apply Z.pow_pos_nonneg; lia|].
    rewrite <- Z.pow_add_r by lia. replace (k + (n - k)) with n by lia. lia.
Qed.

Lemma land_255_below a : 0 <= a -> 0 <= Z.land a 255 < 2 ^ 8.
Proof.
  intros Ha. change 255 with (Z.ones 8). rewrite Z.land_ones by lia.
  apply Z.mod_pos_bound. lia.
Qed.

Lemma lxor_cancel_l a b c : Z.lxor a b = Z.lxor a c -> b = c.
Proof.
  intros H. apply (f_equal (Z.lxor a)) in H.
  now rewrite <- !Z.lxor_assoc, Z.lxor_nilpotent, !Z.lxor_0_l in H.
Qed.

Lemma lxor_cancel_r a b c : Z.lxor b a = Z.lxor c a -> b = c.
Proof. rewrite (Z.lxor_comm b), (Z.lxor_comm c). apply lxor_cancel_l. Qed.

Lemma split_low8 a b :
  Z.land a 255 = Z.land b 255 -> Z.shiftr a 8 = Z.shiftr b 8 -> a = b.
Proof.
  change 255 with (Z.ones 8). rewrite !Z.land_ones, !Z.shiftr_div_pow2 by lia.
  intros H1 H2.
  rewrite (Z.div_mod a (2 ^ 8)), (Z.div_mod b (2 ^ 8)) by lia. congruence.
Qed.

Lemma IEEETable_length : length IEEETable = 256%nat.
Proof. reflexivity. Qed.

Lemma IEEETable_range i : 0 <= tableEntry i < 2 ^ 32.
Proof.
  unfold tableEntry.
  destruct (Nat.lt_ge_cases i 256) as [Hi|Hi].
  - assert (H : forallb (fun x => (0 <=? x) && (x <? 2 ^ 32)) IEEETable = true)
      by (vm_compute; reflexivity).
    rewrite forallb_forall in H.
    rewrite <- IEEETable_length in Hi.
    specialize (H (nth i IEEETable 0) (nth_In _ _ Hi)).
    apply andb_prop in H. lia.
  - rewrite nth_overflow by (rewrite IEEETable_length; exact Hi). lia.
Qed.

Lemma IEEETable_top_bytes i j :
  (i < 256)%nat -> (j < 256)%nat ->
  Z.shiftr (tableEntry i) 24 = Z.shiftr (tableEntry j) 24 -> i = j.
Proof.
  intros Hi Hj E.
  assert (H : forallb (fun i => forallb (fun j =>
                (i =? j)%nat ||
                negb (Z.shiftr (tableEntry i) 24 =? Z.shiftr (tableEntry j) 24))
                (seq 0 256)) (seq 0 256) = true)
    by (vm_compute; reflexivity).
  rewrite forallb_forall in H.
  specialize (H i (proj2 (in_seq 256 0 i) (conj (Nat.le_0_l i) Hi))).
  rewrite forallb_forall in H.
  specialize (H j (proj2 (in_seq 256 0 j) (conj (Nat.le_0_l j) Hj))).
  apply orb_prop in H. destruct H as [H|H].
  - now apply Nat.eqb_eq.
  - apply negb_true_iff, Z.eqb_neq in H. contradiction.
Qed.

Lemma crcIndex_range crc v : 0 <= crc -> 0 <= crcIndex crc v < 256.
Proof.
  intros H. unfold crcIndex. change 256 with (2 ^ 8).
  apply lxor_below; [lia|now apply land_255_below|apply byte.unsigned_range].
Qed.

Lemma crc_step_range crc v :
  0 <= crc < 2 ^ 32 -> 0 <= crc_step IEEETable crc v < 2 ^ 32.
Proof.
  intros H. unfold crc_step. apply lxor_below; [lia|apply IEEETable_range|].
  pose proof (shiftr_below crc 32 8 ltac:(lia) H) as Hs.
  change (32 - 8) with 24 in Hs.
  assert (2 ^ 24 < 2 ^ 32) by (apply Z.pow_lt_mono_r; lia). lia.
Qed.

Lemma crc_step_inj s s' v v' :
  0 <= s < 2 ^ 32 -> 0 <= s' < 2 ^ 32 ->
  crc_step IEEETable s v = crc_step IEEETable s' v' ->
  crcIndex s v = crcIndex s' v' /\ Z.shiftr s 8 = Z.shiftr s' 8.
Proof.
  intros Hs Hs' E. unfold crc_step in E.
  fold (crcIndex s v) in E. fold (crcIndex s' v') in E.
  fold (tableEntry (Z.to_nat (crcIndex s v))) in E.
  fold (tableEntry (Z.to_nat (crcIndex s' v'))) in E.
  pose proof (crcIndex_range s v ltac:(lia)) as Hi.
  pose proof (crcIndex_range s' v' ltac:(lia)) as Hi'.
  assert (Etop : Z.shiftr (tableEntry (Z.to_nat (crcIndex s v))) 24 =
                 Z.shiftr (tableEntry (Z.to_nat (crcIndex s' v'))) 24).
  { apply (f_equal (fun x => Z.shiftr x 24)) in E.
    rewrite !Z.shiftr_lxor, !Z.shiftr_shiftr in E by lia.
    change (8 + 24) with 32 in E.
    rewrite (Z.shiftr_eq_0 s 32), (Z.shiftr_eq_0 s' 32), !Z.lxor_0_r in E.
    - exact E.
    - lia.
    - destruct (Z.eq_dec s' 0) as [->|]; [reflexivity|].
      apply Z.log2_lt_pow2; lia.
    - lia.
    - destruct (Z.eq_dec s 0) as [->|]; [reflexivity|].
      apply Z.log2_lt_pow2; lia. }
  apply IEEETable_top_bytes in Etop; [|lia|lia].
  assert (Eidx : crcIndex s v = crcIndex s' v') by lia.
  split; [exact Eidx|].
  rewrite Eidx in E. now apply lxor_cancel_l in E.
Qed.

Lemma crc_step_inj_state s s' v :
  0 <= s < 2 ^ 32 -> 0 <= s' < 2 ^ 32 ->
  crc_step IEEETable s v = crc_step IEEETable s' v -> s = s'.
Proof.
  intros Hs Hs' E. destruct (crc_step_inj _ _ _ _ Hs Hs' E) as [Ei Eh].
  unfold crcIndex in Ei. apply lxor_cancel_r in Ei. now apply split_low8.
Qed.

Lemma crc_step_inj_byte s v v' :
  0 <= s < 2 ^ 32 ->
  crc_step IEEETable s v = crc_step IEEETable s v' -> v = v'.
Proof.
  intros Hs E. destruct (crc_step_inj _ _ _ _ Hs Hs E) as [Ei _].
  unfold crcIndex in Ei. apply lxor_cancel_l in Ei.
  now apply byte.unsigned_inj.
Qed.

Lemma crc_fold_range l s :
  0 <= s < 2 ^ 32 -> 0 <= fold_left (crc_step IEEETable) l s < 2 ^ 32.
Proof.
  revert s. induction l as [|v l IH]; intros s Hs; cbn [fold_left].
  - exact Hs.
  - apply IH. now apply crc_step_range.
Qed.

Lemma crc_fold_inj l s s' :
  0 <= s < 2 ^ 32 -> 0 <= s' < 2 ^ 32 ->
  fold_left (crc_step IEEETable) l s = fold_left (crc_step IEEETable) l s' ->
  s = s'.
Proof.
  revert s s'. induction l as [|v l IH]; intros s s' Hs Hs' E; cbn [fold_left] in E.
  - exact E.
  - apply IH in E; [|now apply crc_step_range..].
    now apply crc_step_inj_state in E.
Qed.

Lemma ChecksumIEEE_one_byte l1 b b' l2 :
  ChecksumIEEE (l1 ++ b :: l2) = ChecksumIEEE (l1 ++ b' :: l2) -> b = b'.
Proof.
  unfold ChecksumIEEE, simpleUpdate. intros E.
  apply lxor_cancel_r in E.
  rewrite !fold_left_app in E. cbn [fold_left] in E.
  set (s := fold_left (crc_step IEEETable) l1 (Z.lxor 0 4294967295)) in E.
  assert (Hs : 0 <= s < 2 ^ 32).
  { apply crc_fold_range. cbn. lia. }
  apply crc_fold_inj in E; [|now apply crc_step_range..].
  now apply crc_step_inj_byte in E.
Qed.

Lemma ChecksumIEEE_range l : 0 <= ChecksumIEEE l < 2 ^ 32.
Proof.
  unfold ChecksumIEEE, simpleUpdate.
  apply lxor_below; [lia| |cbn; lia].
  apply crc_fold_range. cbn. lia.
Qed.

(** * The file: positioned reads and writes *)

Lemma length_WriteAt f buf off :
  length (WriteAt f buf off) =
  Nat.max (length f) (Z.to_nat off + length buf).
Proof.
  unfold WriteAt. rewrite !length_app, length_firstn, length_zeros, length_skipn.
  lia.
Qed.

Lemma nth_error_WriteAt f buf off i :
  nth_error (WriteAt f buf off) i =
  if (i <? Z.to_nat off)%nat then
    (if (i <? length f)%nat then nth_error f i else Some zero_byte)
  else if (i <? Z.to_nat off + length buf)%nat then nth_error buf (i - Z.to_nat off)
  else nth_error f i.
Proof.
  unfold WriteAt. set (o := Z.to_nat off).
  rewrite nth_error_app, length_firstn, nth_error_firstn.
  destruct (Nat.ltb_spec i (Nat.min o (length f))) as [H1|H1].
  - destruct (Nat.ltb_spec i o); [|lia].
    destruct (Nat.ltb_spec i (length f)); [reflexivity|lia].
  - rewrite nth_error_app, length_zeros.
    destruct (Nat.ltb_spec (i - Nat.min o (length f)) (o - length f)) as [H2|H2].
    + destruct (Nat.ltb_spec i o); [|lia].
      destruct (Nat.ltb_spec i (length f)); [lia|].
      apply nth_error_repeat. exact H2.
    + destruct (Nat.ltb_spec i o) as [H3|H3]; [lia|].
      rewrite nth_error_app.
      replace (i - Nat.min o (length f) - (o - length f))%nat with (i - o)%nat by lia.
      destruct (Nat.ltb_spec (i - o) (length buf));
        destruct (Nat.ltb_spec i (o + length buf)); try lia.
      * reflexivity.
      * rewrite nth_error_skipn. f_equal. lia.
Qed.

Lemma slice_WriteAt_same f buf off :
  slice (WriteAt f buf off) (Z.to_nat off) (Z.to_nat off + length buf) = buf.
Proof.
  apply nth_error_ext. intros i. rewrite nth_error_slice, nth_error_WriteAt.
  destruct (Nat.ltb_spec i (Z.to_nat off + length buf - Z.to_nat off)).
  - destruct (Nat.ltb_spec (Z.to_nat off + i) (Z.to_nat off)); [lia|].
    destruct (Nat.ltb_spec (Z.to_nat off + i) (Z.to_nat off + length buf)); [|lia].
    f_equal. lia.
  - symmetry. apply nth_error_None. lia.
Qed.

Lemma slice_WriteAt_other f buf off a b :
  (b <= length f)%nat ->
  (b <= Z.to_nat off \/ Z.to_nat off + length buf <= a)%nat ->
  slice (WriteAt f buf off) a b = slice f a b.
Proof.
  intros Hb Hd. apply nth_error_ext. intros i.
  rewrite !nth_error_slice, nth_error_WriteAt.
  destruct (Nat.ltb_spec i (b - a)); [|reflexivity].
  destruct (Nat.ltb_spec (a + i) (Z.to_nat off)).
  - destruct (Nat.ltb_spec (a + i) (length f)); [reflexivity|lia].
  - destruct (Nat.ltb_spec (a + i) (Z.to_nat off + length buf)); [lia|reflexivity].
Qed.

Lemma ReadAt_WriteAt_same f buf off :
  0 <= off -> ReadAt (WriteAt f buf off) (length buf) off = Ok buf.
Proof.
  intros H. unfold ReadAt. rewrite length_WriteAt.
  destruct (Z.ltb_spec (Z.of_nat (Nat.max (length f) (Z.to_nat off + length buf)))
                       (off + Z.of_nat (length buf))); [lia|].
  now rewrite slice_WriteAt_same.
Qed.

Lemma ReadAt_WriteAt_other f buf off n off' :
  0 <= off -> 0 <= off' ->
  off' + Z.of_nat n <= Z.of_nat (length f) ->
  off' + Z.of_nat n <= off \/ off + Z.of_nat (length buf) <= off' ->
  ReadAt (WriteAt f buf off) n off' = ReadAt f n off'.
Proof.
  intros H H' Hin Hd. unfold ReadAt. rewrite length_WriteAt.
  destruct (Z.ltb_spec (Z.of_nat (Nat.max (length f) (Z.to_nat off + length buf)))
                       (off' + Z.of_nat n)); [lia|].
  destruct (Z.ltb_spec (Z.of_nat (length f)) (off' + Z.of_nat n)); [lia|].
  rewrite slice_WriteAt_other; [reflexivity|lia|lia].
Qed.

(** * Pages *)

Lemma PayloadSize_val : PayloadSize = 4086.
Proof. reflexivity. Qed.

Lemma store_at (pre a post src : bytes) off :
  off = length pre -> length src = length a ->
  store (pre ++ a ++ post) off src = pre ++ src ++ post.
Proof.
  intros -> E. rewrite store_eq by (rewrite !length_app; lia).
  rewrite firstn_app, firstn_all, Nat.sub_diag, firstn_0, app_nil_r.
  do 2 f_equal.
  rewrite skipn_app, skipn_all2 by lia. cbn [app].
  rewrite skipn_app, skipn_all2 by lia. cbn [app].
  replace (length pre + length src - length pre - length a)%nat with 0%nat by lia.
  apply skipn_0.
Qed.

Lemma store_at_0 (a post src : bytes) :
  length src = length a -> store (a ++ post) 0 src = src ++ post.
Proof. intros E. now apply (store_at [] a post src 0). Qed.

Lemma zeros_app n m : zeros (n + m) = zeros n ++ zeros m.
Proof. apply repeat_app. Qed.

Lemma encodePage_eq p :
  length (Data p) = Z.to_nat PayloadSize ->
  encodePage p =
  PutUint32 (ID p) ++ PutUint32 (Checksum p) ++ PutUint16 (DataSize p) ++ Data p.
Proof.
  intros HD. unfold encodePage.
  replace (Z.to_nat PageSize) with (4 + (4 + (2 + Z.to_nat PayloadSize)))%nat
    by (rewrite PayloadSize_val; reflexivity).
  rewrite !zeros_app.
  rewrite store_at_0 by now rewrite length_PutUint32, length_zeros.
  rewrite (store_at (PutUint32 (ID p)) (zeros 4) _ (PutUint32 (Checksum p)) 4)
    by (now rewrite ?length_PutUint32, ?length_zeros).
  rewrite app_assoc.
  rewrite (store_at (PutUint32 (ID p) ++ PutUint32 (Checksum p)) (zeros 2) _
                    (PutUint16 (DataSize p)) 8)
    by (now rewrite ?length_app, ?length_PutUint32, ?length_PutUint16, ?length_zeros).
  rewrite app_assoc.
  rewrite <- (app_nil_r (zeros (Z.to_nat PayloadSize))).
  rewrite (store_at _ (zeros (Z.to_nat PayloadSize)) [] (Data p)).
  - now rewrite app_nil_r, <- !app_assoc.
  - now rewrite !length_app, !length_PutUint32, length_PutUint16.
  - now rewrite length_zeros.
Qed.

Lemma length_encodePage p : length (encodePage p) = Z.to_nat PageSize.
Proof. unfold encodePage. now rewrite !length_store, length_zeros. Qed.

Lemma ReadPage_decode f id :
  ReadPage f id = do buf <- ReadAt f (Z.to_nat PageSize) (pageOffset id); decodePage buf.
Proof. reflexivity. Qed.

Lemma slice_app_at (x y z : bytes) a b :
  a = length x -> b = (length x + length y)%nat -> slice (x ++ y ++ z) a b = y.
Proof. intros -> ->. apply slice_app_mid. Qed.

Lemma slice_app_0 (y z : bytes) b :
  b = length y -> slice (y ++ z) 0 b = y.
Proof. intros ->. apply (slice_app_mid [] y z). Qed.

Lemma decode_fields p :
  page_ok p ->
  let buf := encodePage p in
  Uint32 (slice buf 0 4) = ID p /\ Uint32 (slice buf 4 8) = Checksum p /\
  Uint16 (slice buf 8 10) = DataSize p /\
  copy (zeros (Z.to_nat PayloadSize)) (skipn (Z.to_nat HeaderSize) buf) = Data p.
Proof.
  intros (HI & HC & HS & HD). cbv zeta. rewrite encodePage_eq by exact HD.
  repeat split.
  - rewrite slice_app_0 by now rewrite length_PutUint32.
    now apply Uint32_PutUint32.
  - rewrite slice_app_at by now rewrite ?length_PutUint32.
    now apply Uint32_PutUint32.
  - rewrite app_assoc.
    rewrite slice_app_at
      by now rewrite ?length_app, ?length_PutUint32, ?length_PutUint16.
    now apply Uint16_PutUint16.
  - rewrite !app_assoc.
    rewrite skipn_app, skipn_all2
      by (rewrite !length_app, !length_PutUint32, length_PutUint16; cbn; lia).
    rewrite !length_app, !length_PutUint32, length_PutUint16.
    cbn [app]. change (Z.to_nat HeaderSize - (4 + 4 + 2))%nat with 0%nat.
    rewrite skipn_0. apply copy_exact. now rewrite length_zeros.
Qed.

Lemma decodePage_encodePage p :
  page_ok p -> DataSize p <= PayloadSize ->
  Checksum p = ChecksumIEEE (firstn (Z.to_nat (DataSize p)) (Data p)) ->
  decodePage (encodePage p) = Ok p.
Proof.
  intros Hok Hsz Hc. destruct (decode_fields p Hok) as (E1 & E2 & E3 & E4).
  unfold decodePage. rewrite E1, E2, E3, E4.
  unfold ComputeChecksum. cbn [Data DataSize Checksum bind].
  destruct Hok as (_ & _ & _ & HD).
  destruct (Z.ltb_spec (Z.of_nat (length (Data p))) (DataSize p)) as [H|H].
  { rewrite HD, PayloadSize_val in H. rewrite PayloadSize_val in Hsz. lia. }
  cbn [bind]. rewrite <- Hc, Z.eqb_refl. cbn [negb]. now destruct p.
Qed.

Lemma WritePage_ok f p :
  page_ok p -> DataSize p <= PayloadSize ->
  let p' := set_Checksum p (ChecksumIEEE (firstn (Z.to_nat (DataSize p)) (Data p))) in
  WritePage f p = (Ok tt, p', WriteAt f (encodePage p') (pageOffset (ID p))).
Proof.
  intros (_ & _ & _ & HD) Hsz. cbv zeta. unfold WritePage, ComputeChecksum.
  destruct (Z.ltb_spec PayloadSize (DataSize p)); [lia|].
  destruct (Z.ltb_spec (Z.of_nat (length (Data p))) (DataSize p)) as [H1|H1].
  { rewrite HD in H1. lia. }
  reflexivity.
Qed.

Lemma set_Checksum_ok p :
  page_ok p ->
  page_ok (set_Checksum p (ChecksumIEEE (firstn (Z.to_nat (DataSize p)) (Data p)))).
Proof.
  intros (HI & HC & HS & HD). unfold page_ok. cbn.
  repeat split; try tauto; apply ChecksumIEEE_range.
Qed.

Lemma ReadPage_WritePage_same f p :
  page_ok p -> DataSize p <= PayloadSize ->
  exists p' f',
    WritePage f p = (Ok tt, p', f') /\
    p' = set_Checksum p (ChecksumIEEE (firstn (Z.to_nat (DataSize p)) (Data p))) /\
    f' = WriteAt f (encodePage p') (pageOffset (ID p)) /\
    ReadPage f' (ID p) = Ok p'.
Proof.
  intros Hok Hsz. eexists _, _. split; [now apply WritePage_ok|].
  split; [reflexivity|]. split; [reflexivity|].
  rewrite ReadPage_decode.
  set (p' := set_Checksum p _).
  rewrite <- (length_encodePage p').
  rewrite ReadAt_WriteAt_same.
  2:{ unfold pageOffset, PageSize. destruct Hok as (HI & _). lia. }
  cbn [bind]. apply decodePage_encodePage.
  - now apply set_Checksum_ok.
  - exact Hsz.
  - reflexivity.
Qed.

Lemma ReadPage_WriteAt_other f buf id id' :
  length buf = Z.to_nat PageSize ->
  0 <= id -> 0 <= id' -> id <> id' ->
  (id' + 1) * PageSize <= Z.of_nat (length f) ->
  ReadPage (WriteAt f buf (pageOffset id)) id' = ReadPage f id'.
Proof.
  intros Hlen H H' Hne Hin. rewrite !ReadPage_decode.
  rewrite ReadAt_WriteAt_other; [reflexivity| | | |].
  - unfold pageOffset, PageSize. lia.
  - unfold pageOffset, PageSize. lia.
  - unfold pageOffset, PageSize in *. cbn. lia.
  - rewrite Hlen. unfold pageOffset, PageSize in *. cbn. lia.
Qed.

Lemma ReadPage_inv f id p :
  0 <= id -> ReadPage f id = Ok p ->
  page_ok p /\ DataSize p <= PayloadSize /\
  (id + 1) * PageSize <= Z.of_nat (length f) /\
  Checksum p = ChecksumIEEE (firstn (Z.to_nat (DataSize p)) (Data p)).
Proof.
  intros Hid. unfold ReadPage, ReadAt.
  destruct (Z.ltb_spec (Z.of_nat (length f)) (pageOffset id + Z.of_nat (Z.to_nat PageSize)))
    as [H|H]; [discriminate|].
  cbn [bind]. set (buf := slice f _ _).
  unfold ComputeChecksum. cbn [Data DataSize Checksum].
  rewrite length_copy, length_zeros.
  destruct (Z.ltb_spec (Z.of_nat (Z.to_nat PayloadSize)) (Uint16 (slice buf 8 10)))
    as [H1|H1]; [discriminate|].
  cbn [bind].
  destruct (Z.eqb_spec (ChecksumIEEE
      (firstn (Z.to_nat (Uint16 (slice buf 8 10)))
         (copy (zeros (Z.to_nat PayloadSize)) (skipn (Z.to_nat HeaderSize) buf))))
      (Uint32 (slice buf 4 8))) as [E|E]; cbn [negb]; [|discriminate].
  intros [= <-]. unfold page_ok. cbn [ID Checksum DataSize Data].
  rewrite length_copy, length_zeros.
  pose proof (Uint32_range (slice buf 0 4)).
  pose proof (Uint32_range (slice buf 4 8)).
  pose proof (Uint16_range (slice buf 8 10)).
  change (Z.of_nat (Z.to_nat PayloadSize)) with PayloadSize in H1.
  change (Z.of_nat (Z.to_nat PageSize)) with PageSize in H.
  unfold pageOffset in H.
  repeat split; try lia.
  now symmetry.
Qed.

Lemma skipn_store d off src a :
  (off + length src <= length d)%nat -> (a <= off)%nat ->
  skipn a (store d off src) = store (skipn a d) (off - a) src.
Proof.
  intros H Ha. apply nth_error_ext. intros i.
  rewrite nth_error_skipn, !nth_error_store by (rewrite ?length_skipn; lia).
  rewrite nth_error_skipn.
  destruct (Nat.leb_spec off (a + i)); destruct (Nat.leb_spec (off - a) i); try lia;
    destruct (Nat.ltb_spec (a + i) (off + length src));
    destruct (Nat.ltb_spec i (off - a + length src)); try lia; cbn [andb];
    try reflexivity.
  f_equal. lia.
Qed.

Lemma firstn_store d off src n :
  (off + length src <= n)%nat -> (n <= length d)%nat ->
  firstn n (store d off src) = store (firstn n d) off src.
Proof.
  intros H Hn. apply nth_error_ext. intros i.
  rewrite nth_error_firstn, !nth_error_store by (rewrite ?length_firstn; lia).
  rewrite nth_error_firstn.
  destruct (Nat.ltb_spec i n); [reflexivity|].
  destruct (Nat.leb_spec off i); destruct (Nat.ltb_spec i (off + length src));
    cbn [andb]; try reflexivity; lia.
Qed.

Lemma store_one_split d k b :
  (k < length d)%nat ->
  exists l1 old l2,
    d = l1 ++ old :: l2 /\ store d k [b] = l1 ++ b :: l2 /\
    nth_error d k = Some old.
Proof.
  intros Hk. destruct (nth_error d k) as [old|] eqn:E.
  2:{ apply nth_error_None in E. lia. }
  destruct (nth_error_split d k E) as (l1 & l2 & -> & Hl).
  exists l1, old, l2. repeat split.
  rewrite store_eq by (cbn [length]; rewrite length_app in *; cbn [length] in *; lia).
  rewrite firstn_app, <- Hl, firstn_all, Nat.sub_diag, firstn_0, app_nil_r.
  f_equal. cbn [app length]. f_equal.
  rewrite skipn_app, skipn_all2 by lia.
  replace (length l1 + 1 - length l1)%nat with 1%nat by lia. reflexivity.
Qed.

Lemma slice_WriteAt_inside f b pos o n :
  (o <= pos)%nat -> (pos < o + n)%nat -> (o + n <= length f)%nat ->
  slice (WriteAt f [b] (Z.of_nat pos)) o (o + n) =
  store (slice f o (o + n)) (pos - o) [b].
Proof.
  intros H1 H2 H3. apply nth_error_ext. intros i.
  rewrite nth_error_store by (rewrite length_slice by lia; cbn [length]; lia).
  rewrite !nth_error_slice, nth_error_WriteAt, Nat2Z.id. cbn [length].
  replace (o + n - o)%nat with n by lia.
  destruct (Nat.ltb_spec i n) as [Hi|Hi].
  - destruct (Nat.ltb_spec (o + i) pos).
    + destruct (Nat.ltb_spec (o + i) (length f)); [|lia].
      destruct (Nat.leb_spec (pos - o) i); [lia|]. reflexivity.
    + destruct (Nat.leb_spec (pos - o) i); [|lia].
      destruct (Nat.ltb_spec (o + i) (pos + 1));
        destruct (Nat.ltb_spec i (pos - o + 1)); try lia; cbn [andb].
      * f_equal. lia.
      * reflexivity.
  - destruct (Nat.leb_spec (pos - o) i); destruct (Nat.ltb_spec i (pos - o + 1));
      cbn [andb]; try reflexivity; try lia.
Qed.

Lemma slice_written f buf id :
  length buf = Z.to_nat PageSize ->
  slice (WriteAt f buf (pageOffset id))
        (Z.to_nat (pageOffset id))
        (Z.to_nat (pageOffset id) + Z.to_nat PageSize) = buf.
Proof. intros <-. apply slice_WriteAt_same. Qed.

(** C5.  Page round trip: writing a page that holds a payload of at most
    4086 bytes and reading the same id back gives a page with the same id,
    the same data_size and the same first data_size payload bytes. *)
Theorem page_round_trip (f : file) (p : Page) (payload : bytes) p' f' :
  page_ok p ->
  (length payload <= 4086)%nat ->
  DataSize p = Z.of_nat (length payload) ->
  firstn (length payload) (Data p) = payload ->
  WritePage f p = (Ok tt, p', f') ->
  exists q, ReadPage f' (ID p) = Ok q /\
            ID q = ID p /\ DataSize q = DataSize p /\
            firstn (Z.to_nat (DataSize q)) (Data q) = payload.
Proof.
  intros Hok Hlen Hsz Hpay Hw.
  assert (Hle : DataSize p <= PayloadSize) by (rewrite Hsz, PayloadSize_val; lia).
  destruct (ReadPage_WritePage_same f p Hok Hle) as (q & f1 & Hw' & -> & -> & Hr).
  rewrite Hw' in Hw. injection Hw as <- <-.
  eexists. split; [exact Hr|]. cbn [ID DataSize Data set_Checksum].
  repeat split. now rewrite Hsz, Nat2Z.id.
Qed.

Lemma page_round_trip_witness :
  exists q, ReadPage (snd (WritePage [] helloPage)) 1 = Ok q /\
            ID q = 1 /\ DataSize q = 5 /\
            firstn (Z.to_nat (DataSize q)) (Data q) =
            [Byte.x68; Byte.x65; Byte.x6c; Byte.x6c; Byte.x6f].
Proof.
  apply (page_round_trip [] helloPage
           [Byte.x68; Byte.x65; Byte.x6c; Byte.x6c; Byte.x6f]
           (snd (fst (WritePage [] helloPage))) (snd (WritePage [] helloPage))).
  - unfold page_ok. vm_compute. intuition congruence.
  - cbn. lia.
  - reflexivity.
  - reflexivity.
  - vm_compute. reflexivity.
Defined.

(** C6.  Checksum sensitivity: after a successful write of page [id], any
    change of one stored byte inside the covered payload region
    [id*4096+10, id*4096+10+data_size) makes the next read of that page fail
    with ChecksumMismatch. *)
Theorem checksum_sensitivity (f : file) (p : Page) p' f' (pos : nat) (old b : byte) :
  page_ok p ->
  WritePage f p = (Ok tt, p', f') ->
  ID p * 4096 + 10 <= Z.of_nat pos < ID p * 4096 + 10 + DataSize p ->
  nth_error f' pos = Some old ->
  b <> old ->
  ReadPage (corruptByte f' pos b) (ID p) = Err ErrChecksumMismatch.
Proof.
  intros Hok Hw Hpos Hold Hne.
  assert (Hle : DataSize p <= PayloadSize).
  { unfold WritePage in Hw. destruct (Z.ltb_spec PayloadSize (DataSize p)); [|assumption].
    discriminate. }
  destruct (ReadPage_WritePage_same f p Hok Hle) as (q & f1 & Hw' & Hq & Hf1 & Hr).
  rewrite Hw' in Hw. injection Hw as Ep Ef. subst p' f'.
  pose proof Hok as (HI & HC & HS & HD).
  assert (Hqok : page_ok q) by (subst q; now apply set_Checksum_ok).
  set (o := Z.to_nat (pageOffset (ID p))).
  assert (Ho : Z.of_nat o = ID p * 4096).
  { unfold o, pageOffset, PageSize. lia. }
  assert (Hlen : (o + Z.to_nat PageSize <= length f1)%nat).
  { rewrite Hf1, length_WriteAt, length_encodePage. fold o. lia. }
  rewrite PayloadSize_val in Hle.
  assert (HPS : Z.to_nat PageSize = 4096%nat) by reflexivity.
  assert (Hbuf : slice f1 o (o + Z.to_nat PageSize) = encodePage q).
  { rewrite Hf1. apply slice_written, length_encodePage. }
  unfold corruptByte. rewrite ReadPage_decode. unfold ReadAt.
  rewrite length_WriteAt. cbn [length].
  destruct (Z.ltb_spec (Z.of_nat (Nat.max (length f1) (Z.to_nat (Z.of_nat pos) + 1)))
              (pageOffset (ID p) + Z.of_nat (Z.to_nat PageSize))) as [H|H].
  { unfold pageOffset, PageSize in H. lia. }
  cbn [bind]. fold o.
  rewrite slice_WriteAt_inside by lia. rewrite Hbuf.
  set (k := (pos - o - 10)%nat).
  assert (Hk : (pos - o = 10 + k)%nat) by lia.
  assert (Hkd : (k < Z.to_nat (DataSize p))%nat) by lia.
  rewrite Hk.
  assert (Hel : length (encodePage q) = 4096%nat) by apply length_encodePage.
  destruct (decode_fields q Hqok) as (E1 & E2 & E3 & E4). cbv zeta in E1, E2, E3, E4.
  assert (HDq : Data q = Data p) by (rewrite Hq; reflexivity).
  assert (HSq : DataSize q = DataSize p) by (rewrite Hq; reflexivity).
  assert (HIq : ID q = ID p) by (rewrite Hq; reflexivity).
  unfold decodePage.
  rewrite !slice_store_other by (cbn [length]; lia).
  rewrite E1, E2, E3.
  change (Z.to_nat HeaderSize) with 10%nat.
  rewrite skipn_store by (cbn [length]; lia).
  replace (10 + k - 10)%nat with k by lia.
  assert (Hsk : skipn 10 (encodePage q) = Data q).
  { rewrite <- E4. symmetry. apply copy_exact.
    rewrite length_zeros, length_skipn, Hel. reflexivity. }
  rewrite Hsk, copy_exact by (rewrite length_store, length_zeros, HDq; exact HD).
  unfold ComputeChecksum. cbn [Data DataSize Checksum].
  rewrite length_store, HDq, HD, HSq.
  destruct (Z.ltb_spec (Z.of_nat (Z.to_nat PayloadSize)) (DataSize p)) as [H2|H2].
  { rewrite PayloadSize_val in H2. lia. }
  cbn [bind].
  rewrite firstn_store by (cbn [length]; rewrite ?HD, ?PayloadSize_val; lia).
  destruct (store_one_split (firstn (Z.to_nat (DataSize p)) (Data p)) k b)
    as (l1 & old' & l2 & Hsplit & Hst & Hnth).
  { rewrite length_firstn, HD, PayloadSize_val. lia. }
  rewrite Hst.
  assert (Hold' : old' = old).
  { rewrite nth_error_firstn in Hnth.
    destruct (Nat.ltb_spec k (Z.to_nat (DataSize p))); [|lia].
    assert (Hf : nth_error f1 pos = nth_error (Data p) k).
    { assert (Hs : nth_error (slice f1 o (o + Z.to_nat PageSize)) (10 + k) =
                   nth_error f1 pos).
      { rewrite nth_error_slice.
        destruct (Nat.ltb_spec (10 + k) (o + Z.to_nat PageSize - o)); [|lia].
        f_equal. lia. }
      rewrite <- Hs, Hbuf, <- HDq, <- Hsk, nth_error_skipn. reflexivity. }
    congruence. }
  subst old'.
  assert (Hc : Checksum q = ChecksumIEEE (l1 ++ old :: l2)).
  { rewrite Hq. cbn [Checksum set_Checksum]. now rewrite Hsplit. }
  rewrite Hc.
  destruct (Z.eqb_spec (ChecksumIEEE (l1 ++ b :: l2)) (ChecksumIEEE (l1 ++ old :: l2)))
    as [E|E]; [|reflexivity].
  apply ChecksumIEEE_one_byte in E. contradiction.
Qed.

Lemma checksum_sensitivity_witness :
  ReadPage (corruptByte (snd (WritePage [] helloPage)) 4106 Byte.xff) 1 =
  Err ErrChecksumMismatch.
Proof.
  apply (checksum_sensitivity [] helloPage
           (snd (fst (WritePage [] helloPage))) (snd (WritePage [] helloPage))
           4106 Byte.x68 Byte.xff).
  - unfold page_ok. vm_compute. intuition congruence.
  - vm_compute. reflexivity.
  - vm_compute. intuition congruence.
  - vm_compute. reflexivity.
  - discriminate.
Defined.

Lemma slice_store_hit d off src a b :
  (off + length src <= length d)%nat -> a = off -> b = (off + length src)%nat ->
  slice (store d off src) a b = src.
Proof. intros H -> ->. now apply slice_store_same. Qed.

Ltac len_simpl :=
  rewrite ?length_store, ?length_PutUint16, ?length_PutUint32, ?length_PutUint64;
  cbn [length].
Ltac slice_other := rewrite slice_store_other by (len_simpl; lia).
Ltac slice_hit := rewrite slice_store_hit by (len_simpl; lia).

(** * Slotted pages *)

Lemma header_setHeader p a b c :
  (6 <= length (Data p))%nat ->
  0 <= a < 2 ^ 16 -> 0 <= b < 2 ^ 16 -> 0 <= c < 2 ^ 16 ->
  header (setHeader p a b c) = (a, b, c).
Proof.
  intros HD Ha Hb Hc. unfold header, setHeader. cbn [Data].
  f_equal; [f_equal|].
  - do 2 slice_other. slice_hit. now apply Uint16_PutUint16.
  - slice_other. slice_hit. now apply Uint16_PutUint16.
  - slice_hit. now apply Uint16_PutUint16.
Qed.

Lemma length_setHeader p a b c :
  length (Data (setHeader p a b c)) = length (Data p).
Proof. unfold setHeader. cbn [Data]. now rewrite !length_store. Qed.

Lemma slice_setHeader p a b c x y :
  (6 <= length (Data p))%nat -> (6 <= x)%nat ->
  slice (Data (setHeader p a b c)) x y = slice (Data p) x y.
Proof.
  intros HD Hx. unfold setHeader. cbn [Data]. now do 3 slice_other.
Qed.

Lemma header_range p :
  let '(sc, fs, fe) := header p in
  0 <= sc < 2 ^ 16 /\ 0 <= fs < 2 ^ 16 /\ 0 <= fe < 2 ^ 16.
Proof. unfold header. repeat split; apply Uint16_range. Qed.

Lemma store_slice_id d a b :
  (a <= b <= length d)%nat -> store d a (slice d a b) = d.
Proof.
  intros H. apply nth_error_ext. intros i.
  rewrite nth_error_store by (rewrite length_slice; lia).
  rewrite length_slice by lia.
  destruct (Nat.leb_spec a i); destruct (Nat.ltb_spec i (a + (b - a)));
    cbn [andb]; try reflexivity.
  rewrite nth_error_slice.
  destruct (Nat.ltb_spec (i - a) (b - a)); [|lia].
  f_equal. lia.
Qed.

Lemma setHeader_header p :
  (6 <= length (Data p))%nat ->
  let '(sc, fs, fe) := header p in
  Data (setHeader p sc fs fe) = Data p.
Proof.
  intros HD. unfold header, setHeader. cbn [Data].
  rewrite !PutUint16_Uint16 by (rewrite length_slice; lia).
  rewrite !store_slice_id by lia. reflexivity.
Qed.

(** The header [InitIfFresh] seeds. *)
Lemma header_fresh p :
  (6 <= length (Data p))%nat ->
  header (setHeader p 0 spHeaderSize PayloadSize) = (0, 6, 4086).
Proof.
  intros H6. rewrite header_setHeader; [reflexivity|exact H6|..];
    rewrite ?PayloadSize_val; unfold spHeaderSize; lia.
Qed.

Lemma InitIfFresh_zero p :
  header p = (0, 0, 0) -> InitIfFresh p = setHeader p 0 spHeaderSize PayloadSize.
Proof.
  intros E. unfold InitIfFresh. rewrite E. cbn [Z.eqb andb].
  cbn [setHeader DataSize]. reflexivity.
Qed.

Lemma InitIfFresh_nonzero p :
  header p <> (0, 0, 0) ->
  InitIfFresh p = if DataSize p =? 0 then set_DataSize p PayloadSize else p.
Proof.
  intros E. unfold InitIfFresh. destruct (header p) as [[sc fs] fe].
  destruct (Z.eqb_spec sc 0); destruct (Z.eqb_spec fs 0);
    destruct (Z.eqb_spec fe 0); cbn [andb]; try reflexivity.
  subst. contradiction.
Qed.

Lemma InitIfFresh_header_kept p :
  header p <> (0, 0, 0) -> header (InitIfFresh p) = header p.
Proof.
  intros E. rewrite (InitIfFresh_nonzero p E). now destruct (DataSize p =? 0).
Qed.

Lemma header_zero_dec p : {header p = (0, 0, 0)} + {header p <> (0, 0, 0)}.
Proof.
  destruct (header p) as [[sc fs] fe].
  destruct (Z.eq_dec sc 0); destruct (Z.eq_dec fs 0); destruct (Z.eq_dec fe 0);
    subst; auto; right; congruence.
Qed.

(** C10 as amended.  [InitIfFresh] reseeds an all-zero slotted header to
    (0, 6, 4086) and leaves any other header, and the payload, unchanged;
    it sets data_size to 4086 when the header was all zeros or data_size
    was 0 and otherwise leaves data_size as it was; applying it twice is
    the same as applying it once. *)
Theorem InitIfFresh_contract (p : Page) :
  page_ok p ->
  (header p = (0, 0, 0) ->
     header (InitIfFresh p) = (0, 6, 4086) /\ DataSize (InitIfFresh p) = 4086) /\
  (header p <> (0, 0, 0) ->
     header (InitIfFresh p) = header p /\ Data (InitIfFresh p) = Data p /\
     DataSize (InitIfFresh p) = (if DataSize p =? 0 then 4086 else DataSize p)) /\
  InitIfFresh (InitIfFresh p) = InitIfFresh p.
Proof.
  intros (HI & HC & HS & HD).
  assert (H6 : (6 <= length (Data p))%nat) by (rewrite HD, PayloadSize_val; lia).
  pose proof (header_fresh p H6) as Hfresh.
  split; [|split].
  - intros E. rewrite (InitIfFresh_zero p E). split; [exact Hfresh|reflexivity].
  - intros E. rewrite (InitIfFresh_nonzero p E).
    destruct (DataSize p =? 0); cbn; repeat split; reflexivity.
  - destruct (header_zero_dec p) as [E|E].
    + rewrite (InitIfFresh_zero p E). unfold InitIfFresh at 1. rewrite Hfresh.
      cbn [Z.eqb andb setHeader DataSize]. reflexivity.
    + rewrite (InitIfFresh_nonzero p E).
      destruct (Z.eqb_spec (DataSize p) 0) as [E0|E0].
      * rewrite InitIfFresh_nonzero by exact E. cbn [DataSize set_DataSize].
        rewrite PayloadSize_val. reflexivity.
      * rewrite (InitIfFresh_nonzero p E).
        destruct (Z.eqb_spec (DataSize p) 0); [contradiction|]. reflexivity.
Qed.

Lemma InitIfFresh_contract_witness :
  header (InitIfFresh (newPage 3)) = (0, 6, 4086) /\
  DataSize (InitIfFresh (newPage 3)) = 4086.
Proof.
  apply (InitIfFresh_contract (newPage 3)).
  - unfold page_ok. vm_compute. intuition congruence.
  - reflexivity.
Defined.

(** C10, counterexample to data_size always being set: a page whose header
    is not all zeros and whose data_size is neither 0 nor 4086 keeps its
    data_size. *)
Lemma InitIfFresh_keeps_DataSize :
  page_ok helloPage /\ header helloPage <> (0, 0, 0) /\
  DataSize (InitIfFresh helloPage) = 5 /\
  DataSize (InitIfFresh helloPage) <> PayloadSize.
Proof.
  repeat split; try (vm_compute; congruence).
Qed.

Lemma freeSpace_header p sc fs fe :
  header p = (sc, fs, fe) -> freeSpace p = fe - fs - sc * slotEntrySize.
Proof. intros E. unfold freeSpace. now rewrite E. Qed.

Lemma SlottedPage_Insert_too_large p rec :
  0xFFFF < Z.of_nat (length rec) ->
  SlottedPage_Insert p rec = (Err ErrDataTooLarge, p).
Proof.
  intros H. unfold SlottedPage_Insert.
  destruct (Z.ltb_spec 0xFFFF (Z.of_nat (length rec))); [reflexivity|lia].
Qed.

Lemma SlottedPage_Insert_no_space p rec :
  Z.of_nat (length rec) <= 0xFFFF ->
  freeSpace p < Z.of_nat (length rec) + slotEntrySize ->
  SlottedPage_Insert p rec = (Err ErrNoSpace, p).
Proof.
  intros H1 H2. unfold SlottedPage_Insert.
  destruct (Z.ltb_spec 0xFFFF (Z.of_nat (length rec))); [lia|].
  destruct (Z.ltb_spec (freeSpace p) (Z.of_nat (length rec) + slotEntrySize));
    [reflexivity|lia].
Qed.

Lemma SlottedPage_Insert_ok p rec sc fs fe :
  page_ok p -> header p = (sc, fs, fe) ->
  spHeaderSize <= fs -> fe <= PayloadSize ->
  Z.of_nat (length rec) + slotEntrySize <= freeSpace p ->
  SlottedPage_Insert p rec = (Ok sc, insertedPage p rec sc fs fe).
Proof.
  intros (HI & HC & HS & HD) Eh Hfs Hfe Hfree.
  pose proof (header_range p) as Hr. rewrite Eh in Hr. destruct Hr as (Hsc & Hfs' & Hfe').
  rewrite (freeSpace_header p sc fs fe Eh) in Hfree.
  unfold spHeaderSize, slotEntrySize in *. rewrite PayloadSize_val in *.
  unfold SlottedPage_Insert.
  destruct (Z.ltb_spec 0xFFFF (Z.of_nat (length rec))); [lia|].
  rewrite (freeSpace_header p sc fs fe Eh). unfold slotEntrySize.
  destruct (Z.ltb_spec (fe - fs - sc * 4) (Z.of_nat (length rec) + 4)); [lia|].
  rewrite Eh.
  destruct (Z.ltb_spec (Z.of_nat (length (Data p))) fs); [lia|].
  unfold setSlot, slotPos. cbn [Data set_Data].
  rewrite !length_store, HD, PayloadSize_val. unfold slotEntrySize.
  rewrite (Z.mod_small (sc + 1)) by lia.
  rewrite (Z.mod_small (Z.of_nat (length rec))) by lia.
  rewrite (Z.mod_small (fs + Z.of_nat (length rec))) by lia.
  rewrite (Z.mod_small (fe - 4)) by lia.
  destruct (Z.leb_spec 0 (4086 - (sc + 1) * 4)); [|lia].
  destruct (Z.leb_spec (4086 - (sc + 1) * 4 + 2) (Z.of_nat (Z.to_nat 4086))); [|lia].
  destruct (Z.leb_spec (4086 - (sc + 1) * 4 + 4) (Z.of_nat (Z.to_nat 4086))); [|lia].
  cbn [andb]. unfold insertedPage, set_Data. cbn [ID Checksum DataSize Data].
  rewrite PayloadSize_val. unfold slotEntrySize. reflexivity.
Qed.

(** The fields of the page a successful [Insert] leaves. *)
Lemma insertedPage_spec p rec sc fs fe :
  page_ok p -> header p = (sc, fs, fe) ->
  spHeaderSize <= fs -> fe <= PayloadSize ->
  Z.of_nat (length rec) + slotEntrySize <= freeSpace p ->
  let p' := insertedPage p rec sc fs fe in
  let pos := Z.to_nat (PayloadSize - (sc + 1) * slotEntrySize) in
  page_ok p' /\ ID p' = ID p /\ DataSize p' = PayloadSize /\
  header p' = (sc + 1, fs + Z.of_nat (length rec), fe - slotEntrySize) /\
  slice (Data p') (Z.to_nat fs) (Z.to_nat fs + length rec) = rec /\
  Uint16 (slice (Data p') pos (pos + 2)) = fs /\
  Uint16 (slice (Data p') (pos + 2) (pos + 4)) = Z.of_nat (length rec) /\
  (forall a b, (6 <= a)%nat ->
     (b <= Z.to_nat fs \/ Z.to_nat fs + length rec <= a)%nat ->
     (b <= pos \/ pos + 4 <= a)%nat ->
     slice (Data p') a b = slice (Data p) a b).
Proof.
  intros (HI & HC & HS & HD) Eh Hfs Hfe Hfree.
  pose proof (header_range p) as Hr. rewrite Eh in Hr. destruct Hr as (Hsc & Hfs' & Hfe').
  rewrite (freeSpace_header p sc fs fe Eh) in Hfree.
  cbv zeta. unfold insertedPage.
  unfold spHeaderSize, slotEntrySize in *. rewrite PayloadSize_val in *.
  set (pos := Z.to_nat (4086 - (sc + 1) * 4)).
  assert (Hpos : Z.of_nat pos = 4086 - (sc + 1) * 4) by lia.
  assert (HD' : length (Data p) = 4086%nat) by (rewrite HD; reflexivity).
  set (d3 := store (store (store (Data p) (Z.to_nat fs) rec) pos (PutUint16 fs))
                   (pos + 2) (PutUint16 (Z.of_nat (length rec)))).
  assert (Hd3 : length d3 = 4086%nat) by (unfold d3; now rewrite !length_store).
  split; [|split; [|split; [|split; [|split; [|split; [|split]]]]]].
  - unfold page_ok. cbn [ID Checksum DataSize Data setHeader set_Data].
    rewrite !length_store, Hd3, !PayloadSize_val. lia.
  - reflexivity.
  - reflexivity.
  - rewrite header_setHeader; cbn [Data set_Data]; try reflexivity; lia.
  - rewrite slice_setHeader by (cbn [Data set_Data]; lia).
    cbn [Data set_Data]. unfold d3. do 2 slice_other. now slice_hit.
  - rewrite slice_setHeader by (cbn [Data set_Data]; lia).
    cbn [Data set_Data]. unfold d3. slice_other. slice_hit.
    now apply Uint16_PutUint16.
  - rewrite slice_setHeader by (cbn [Data set_Data]; lia).
    cbn [Data set_Data]. unfold d3. slice_hit. apply Uint16_PutUint16. lia.
  - intros a b Ha H1 H2.
    rewrite slice_setHeader by (cbn [Data set_Data]; lia).
    cbn [Data set_Data]. unfold d3. now do 3 slice_other.
Qed.

(** C8.  Slotted insert contract, for a page whose header satisfies the
    invariant of the data model: DataTooLarge iff the record is longer than
    65535; otherwise NoSpace iff free_space < len + 4; a failing insert
    leaves the page as it was; a succeeding insert returns the old
    slot_count, copies the record at free_start, writes the slot entry
    (old free_start, len) at payload offset 4086 - (slot_count+1)*4 and
    updates the header to (slot_count+1, free_start+len, free_end-4). *)
Theorem SlottedPage_Insert_contract (p : Page) (rec : bytes) (sc fs fe : Z) :
  page_ok p -> slotted_ok p -> header p = (sc, fs, fe) ->
  let len := Z.of_nat (length rec) in
  let r := SlottedPage_Insert p rec in
  (fst r = Err ErrDataTooLarge <-> 65535 < len) /\
  (len <= 65535 -> (fst r = Err ErrNoSpace <-> freeSpace p < len + 4)) /\
  (forall e, fst r = Err e -> snd r = p) /\
  (len <= 65535 -> len + 4 <= freeSpace p -> fst r = Ok sc) /\
  (forall slot, fst r = Ok slot ->
     let p' := snd r in
     let pos := Z.to_nat (4086 - (sc + 1) * 4) in
     slot = sc /\
     slice (Data p') (Z.to_nat fs) (Z.to_nat fs + length rec) = rec /\
     Uint16 (slice (Data p') pos (pos + 2)) = fs /\
     Uint16 (slice (Data p') (pos + 2) (pos + 4)) = len /\
     header p' = (sc + 1, fs + len, fe - 4)).
Proof.
  intros Hok Hs Eh. cbv zeta. unfold slotted_ok in Hs. rewrite Eh in Hs.
  destruct Hs as (Hfs & Hle & Hfe).
  destruct (Z.lt_ge_cases 65535 (Z.of_nat (length rec))) as [Hbig|Hsmall].
  { rewrite SlottedPage_Insert_too_large by exact Hbig. cbn [fst snd].
    repeat split; intros; try lia; try congruence; try discriminate. }
  destruct (Z.lt_ge_cases (freeSpace p) (Z.of_nat (length rec) + 4)) as [Hno|Hyes].
  { rewrite SlottedPage_Insert_no_space by (unfold slotEntrySize; lia).
    cbn [fst snd].
    repeat split; intros; try lia; try congruence; try discriminate. }
  rewrite (SlottedPage_Insert_ok p rec sc fs fe) by (unfold slotEntrySize; auto; lia).
  cbn [fst snd].
  destruct (insertedPage_spec p rec sc fs fe Hok Eh Hfs Hfe)
    as (_ & _ & _ & Hh & Hrec & Hoff & Hlen & _).
  { unfold slotEntrySize. lia. }
  rewrite PayloadSize_val in *. unfold slotEntrySize in *.
  repeat split; intros; try lia; try congruence; try discriminate.
Qed.

Lemma SlottedPage_Insert_contract_witness :
  fst (SlottedPage_Insert freshPage [Byte.x61; Byte.x62; Byte.x63]) = Ok 0.
Proof.
  refine (proj1 (proj2 (proj2 (proj2
    (SlottedPage_Insert_contract freshPage [Byte.x61; Byte.x62; Byte.x63]
       0 6 4086 _ _ _)))) _ _).
  - unfold page_ok. vm_compute. intuition congruence.
  - vm_compute. intuition congruence.
  - reflexivity.
  - vm_compute. congruence.
  - vm_compute. congruence.
Defined.

Lemma slotPos_small i :
  0 <= i < 65535 -> slotPos i = 4086 - (i + 1) * 4.
Proof.
  intros H. unfold slotPos, slotEntrySize. rewrite PayloadSize_val.
  now rewrite Z.mod_small by lia.
Qed.

Lemma getSlot_bad p i sc fs fe :
  header p = (sc, fs, fe) -> sc <= i -> getSlot p i = Err ErrBadSlotID.
Proof.
  intros Eh H. unfold getSlot. rewrite Eh.
  destruct (Z.leb_spec sc i); [reflexivity|lia].
Qed.

Lemma getSlot_ok p i sc fs fe :
  page_ok p -> header p = (sc, fs, fe) -> sc * 4 <= 4086 -> 0 <= i < sc ->
  getSlot p i = Ok (slotEntry p i).
Proof.
  intros (_ & _ & _ & HD) Eh Hsc Hi. unfold getSlot, slotEntry, slotInBounds.
  rewrite Eh. destruct (Z.leb_spec sc i); [lia|].
  rewrite slotPos_small by lia. rewrite HD, PayloadSize_val.
  destruct (Z.leb_spec 0 (4086 - (i + 1) * 4)); [|lia].
  destruct (Z.leb_spec (4086 - (i + 1) * 4 + 4) (Z.of_nat (Z.to_nat 4086))); [|lia].
  reflexivity.
Qed.

Lemma SlottedPage_Read_bad p i sc fs fe :
  header p = (sc, fs, fe) -> sc <= i -> SlottedPage_Read p i = Err ErrBadSlotID.
Proof.
  intros Eh H. unfold SlottedPage_Read. now rewrite (getSlot_bad p i sc fs fe).
Qed.

Lemma SlottedPage_Read_ok p i sc fs fe off ln :
  slotted_inv p -> header p = (sc, fs, fe) -> 0 <= i < sc ->
  slotEntry p i = (off, ln) ->
  SlottedPage_Read p i =
  if ln =? 0 then Err ErrSlotDeleted
  else Ok (slice (Data p) (Z.to_nat off) (Z.to_nat (off + ln))).
Proof.
  intros (Hok & Hsz & Hinv) Eh Hi Es. rewrite Eh in Hinv.
  destruct Hinv as (Hfs & Hle & Hfe & Hslots).
  specialize (Hslots i Hi). rewrite Es in Hslots. destruct Hslots as (Hoff & Hend).
  unfold spHeaderSize, slotEntrySize in *. rewrite PayloadSize_val in *.
  pose proof (header_range p) as Hr. rewrite Eh in Hr.
  assert (Hln : 0 <= ln).
  { unfold slotEntry in Es. injection Es as _ <-. apply Uint16_range. }
  unfold SlottedPage_Read.
  rewrite (getSlot_ok p i sc fs fe Hok Eh) by lia. rewrite Es. cbn [bind].
  destruct (Z.eqb_spec ln 0); [reflexivity|].
  destruct Hok as (_ & _ & _ & HD). rewrite HD, PayloadSize_val.
  destruct (Z.ltb_spec (Z.of_nat (Z.to_nat 4086)) (off + ln)); [lia|].
  rewrite copy_exact; [reflexivity|].
  rewrite length_zeros, length_slice by (rewrite HD, PayloadSize_val; lia). lia.
Qed.

(** A fresh page, as [findPageWithSpace] makes it. *)
Lemma InitIfFresh_newPage n :
  0 <= n < 2 ^ 32 ->
  let p := InitIfFresh (newPage n) in
  slotted_inv p /\ header p = (0, 6, 4086) /\ ID p = n.
Proof.
  intros Hn. cbv zeta.
  assert (Hok : page_ok (newPage n)).
  { unfold page_ok, newPage. cbn [ID Checksum DataSize Data].
    rewrite length_zeros. lia. }
  assert (Hz : header (newPage n) = (0, 0, 0)) by reflexivity.
  assert (Hh : header (InitIfFresh (newPage n)) = (0, 6, 4086)).
  { rewrite (InitIfFresh_zero _ Hz). apply header_fresh.
    destruct Hok as (_ & _ & _ & HD). rewrite HD, PayloadSize_val. lia. }
  assert (E : InitIfFresh (newPage n) = setHeader (newPage n) 0 spHeaderSize PayloadSize)
    by reflexivity.
  split; [|split; [exact Hh|now rewrite E]].
  unfold slotted_inv. rewrite Hh. split; [|split].
  - rewrite E. destruct Hok as (H1 & H2 & H3 & H4). unfold page_ok.
    rewrite length_setHeader. cbn [ID Checksum DataSize setHeader].
    rewrite PayloadSize_val in *. lia.
  - rewrite E. cbn [setHeader DataSize]. reflexivity.
  - unfold spHeaderSize, slotEntrySize. rewrite PayloadSize_val.
    repeat split; try lia.
Qed.

Lemma InitIfFresh_inv p : slotted_inv p -> InitIfFresh p = p.
Proof.
  intros (Hok & Hsz & Hinv). unfold InitIfFresh.
  destruct (header p) as [[sc fs] fe]. destruct Hinv as (Hfs & _).
  unfold spHeaderSize in Hfs.
  destruct (Z.eqb_spec fs 0); [lia|].
  rewrite andb_false_r. cbn [andb]. rewrite Hsz.
  now rewrite PayloadSize_val.
Qed.

(** *** Insert keeps the invariant and the older slots *)

Lemma slotEntry_inserted p rec sc fs fe i :
  slotted_inv p -> header p = (sc, fs, fe) ->
  Z.of_nat (length rec) + slotEntrySize <= freeSpace p ->
  0 <= i < sc ->
  slotEntry (insertedPage p rec sc fs fe) i = slotEntry p i.
Proof.
  intros (Hok & Hsz & Hinv) Eh Hfree Hi. rewrite Eh in Hinv.
  destruct Hinv as (Hfs & Hle & Hfe & Hslots).
  destruct (insertedPage_spec p rec sc fs fe Hok Eh Hfs) as (_ & _ & _ & _ & _ & _ & _ & Hframe);
    [unfold slotEntrySize in *; lia|exact Hfree|].
  rewrite (freeSpace_header p sc fs fe Eh) in Hfree.
  pose proof (header_range p) as Hr. rewrite Eh in Hr.
  unfold spHeaderSize, slotEntrySize in *. rewrite PayloadSize_val in *.
  unfold slotEntry. rewrite slotPos_small by lia.
  rewrite !Hframe by lia. reflexivity.
Qed.

Lemma insertedPage_inv p rec sc fs fe :
  slotted_inv p -> header p = (sc, fs, fe) ->
  Z.of_nat (length rec) + slotEntrySize <= freeSpace p ->
  slotted_inv (insertedPage p rec sc fs fe) /\
  slotEntry (insertedPage p rec sc fs fe) sc = (fs, Z.of_nat (length rec)).
Proof.
  intros Hinv Eh Hfree. pose proof Hinv as (Hok & Hsz & Hi). rewrite Eh in Hi.
  destruct Hi as (Hfs & Hle & Hfe & Hslots).
  assert (Hfe' : fe <= PayloadSize) by (unfold slotEntrySize in *;
    pose proof (header_range p) as Hr; rewrite Eh in Hr; lia).
  destruct (insertedPage_spec p rec sc fs fe Hok Eh Hfs Hfe' Hfree)
    as (Hok' & Hid & Hsz' & Hh & Hrec & Hoff & Hlen & Hframe).
  pose proof (header_range p) as Hr. rewrite Eh in Hr.
  pose proof Hfree as Hfree'. rewrite (freeSpace_header p sc fs fe Eh) in Hfree'.
  assert (Hnew : slotEntry (insertedPage p rec sc fs fe) sc = (fs, Z.of_nat (length rec))).
  { unfold slotEntry. unfold spHeaderSize, slotEntrySize in *.
    rewrite PayloadSize_val in *. rewrite slotPos_small by lia.
    now rewrite Hoff, Hlen. }
  split; [|exact Hnew].
  unfold slotted_inv. rewrite Hh. split; [exact Hok'|]. split; [exact Hsz'|].
  unfold spHeaderSize, slotEntrySize in *. rewrite PayloadSize_val in *.
  split; [lia|]. split; [lia|]. split; [lia|].
  intros i Hi. destruct (Z.eq_dec i sc) as [->|Hne].
  - rewrite Hnew. lia.
  - rewrite slotEntry_inserted by (auto; unfold slotEntrySize; lia).
    specialize (Hslots i ltac:(lia)). destruct (slotEntry p i). lia.
Qed.

Lemma SlottedPage_Read_inserted_old p rec sc fs fe i :
  slotted_inv p -> header p = (sc, fs, fe) ->
  Z.of_nat (length rec) + slotEntrySize <= freeSpace p ->
  0 <= i < sc ->
  SlottedPage_Read (insertedPage p rec sc fs fe) i = SlottedPage_Read p i.
Proof.
  intros Hinv Eh Hfree Hi.
  destruct (insertedPage_inv p rec sc fs fe Hinv Eh Hfree) as (Hinv' & _).
  pose proof Hinv as (Hok & Hsz & Hs). rewrite Eh in Hs.
  destruct Hs as (Hfs & Hle & Hfe & Hslots).
  assert (Hfe' : fe <= PayloadSize) by (unfold slotEntrySize in *;
    pose proof (header_range p) as Hr; rewrite Eh in Hr; lia).
  destruct (insertedPage_spec p rec sc fs fe Hok Eh Hfs Hfe' Hfree)
    as (_ & _ & _ & Hh & _ & _ & _ & Hframe).
  destruct (slotEntry p i) as [off ln] eqn:Es.
  rewrite (SlottedPage_Read_ok _ i _ _ _ off ln Hinv' Hh) by
    (try lia; now rewrite slotEntry_inserted).
  rewrite (SlottedPage_Read_ok p i sc fs fe off ln Hinv Eh Hi Es).
  destruct (ln =? 0); [reflexivity|].
  specialize (Hslots i Hi). rewrite Es in Hslots.
  rewrite (freeSpace_header p sc fs fe Eh) in Hfree.
  pose proof (header_range p) as Hr. rewrite Eh in Hr.
  unfold spHeaderSize, slotEntrySize in *. rewrite PayloadSize_val in *.
  rewrite Hframe by lia. reflexivity.
Qed.

Lemma SlottedPage_Read_inserted_new p rec sc fs fe :
  slotted_inv p -> header p = (sc, fs, fe) ->
  Z.of_nat (length rec) + slotEntrySize <= freeSpace p ->
  SlottedPage_Read (insertedPage p rec sc fs fe) sc =
  if Z.of_nat (length rec) =? 0 then Err ErrSlotDeleted else Ok rec.
Proof.
  intros Hinv Eh Hfree.
  destruct (insertedPage_inv p rec sc fs fe Hinv Eh Hfree) as (Hinv' & Hnew).
  pose proof Hinv as (Hok & Hsz & Hs). rewrite Eh in Hs.
  destruct Hs as (Hfs & Hle & Hfe & Hslots).
  assert (Hfe' : fe <= PayloadSize) by (unfold slotEntrySize in *;
    pose proof (header_range p) as Hr; rewrite Eh in Hr; lia).
  destruct (insertedPage_spec p rec sc fs fe Hok Eh Hfs Hfe' Hfree)
    as (_ & _ & _ & Hh & Hrec & _ & _ & _).
  pose proof (header_range p) as Hr. rewrite Eh in Hr.
  rewrite (SlottedPage_Read_ok _ sc _ _ _ _ _ Hinv' Hh ltac:(lia) Hnew).
  destruct (Z.of_nat (length rec) =? 0); [reflexivity|].
  replace (Z.to_nat (fs + Z.of_nat (length rec))) with (Z.to_nat fs + length rec)%nat
    by lia.
  now rewrite Hrec.
Qed.

(** *** Delete *)

Lemma SlottedPage_Delete_ok p i sc fs fe :
  slotted_inv p -> header p = (sc, fs, fe) -> 0 <= i < sc ->
  SlottedPage_Delete p i = (Ok tt, deletedPage p i).
Proof.
  intros (Hok & Hsz & Hs) Eh Hi. rewrite Eh in Hs.
  destruct Hs as (Hfs & Hle & Hfe & Hslots).
  pose proof (header_range p) as Hr. rewrite Eh in Hr.
  unfold spHeaderSize, slotEntrySize in *. rewrite PayloadSize_val in *.
  unfold SlottedPage_Delete. rewrite (getSlot_ok p i sc fs fe Hok Eh) by lia.
  destruct (slotEntry p i) as [off ln] eqn:Es.
  unfold setSlot, deletedPage. rewrite Es. cbn [fst Data set_Data].
  rewrite slotPos_small by lia. destruct Hok as (_ & _ & _ & HD).
  rewrite HD, PayloadSize_val.
  destruct (Z.leb_spec 0 (4086 - (i + 1) * 4)); [|lia].
  destruct (Z.leb_spec (4086 - (i + 1) * 4 + 2) (Z.of_nat (Z.to_nat 4086))); [|lia].
  destruct (Z.leb_spec (4086 - (i + 1) * 4 + 4) (Z.of_nat (Z.to_nat 4086))); [|lia].
  reflexivity.
Qed.

Lemma SlottedPage_Delete_bad p i sc fs fe :
  header p = (sc, fs, fe) -> sc <= i ->
  SlottedPage_Delete p i = (Err ErrBadSlotID, p).
Proof.
  intros Eh Hi. unfold SlottedPage_Delete. now rewrite (getSlot_bad p i sc fs fe).
Qed.

Lemma deletedPage_spec p i sc fs fe :
  slotted_inv p -> header p = (sc, fs, fe) -> 0 <= i < sc ->
  let p' := deletedPage p i in
  page_ok p' /\ ID p' = ID p /\ DataSize p' = PayloadSize /\
  header p' = (sc, fs, fe) /\
  slotEntry p' i = (fst (slotEntry p i), 0) /\
  (forall a b, (b <= Z.to_nat (slotPos i) \/ Z.to_nat (slotPos i) + 4 <= a)%nat ->
     slice (Data p') a b = slice (Data p) a b).
Proof.
  intros (Hok & Hsz & Hs) Eh Hi. rewrite Eh in Hs.
  destruct Hs as (Hfs & Hle & Hfe & Hslots).
  pose proof (header_range p) as Hr. rewrite Eh in Hr.
  unfold spHeaderSize, slotEntrySize in *. rewrite PayloadSize_val in *.
  cbv zeta. unfold deletedPage.
  rewrite slotPos_small by lia.
  set (pos := Z.to_nat (4086 - (i + 1) * 4)).
  assert (Hpos : Z.of_nat pos = 4086 - (i + 1) * 4) by lia.
  pose proof Hok as (H1 & H2 & H3 & HD).
  assert (HD' : length (Data p) = 4086%nat) by (rewrite HD; reflexivity).
  assert (Hframe : forall a b, (b <= pos \/ pos + 4 <= a)%nat ->
     slice (store (store (Data p) pos (PutUint16 (fst (slotEntry p i))))
                  (pos + 2) (PutUint16 0)) a b = slice (Data p) a b).
  { intros a b H. now do 2 slice_other. }
  split; [|split; [|split; [|split; [|split]]]].
  - unfold page_ok. cbn [ID Checksum DataSize Data set_Data].
    rewrite !length_store. tauto.
  - reflexivity.
  - exact Hsz.
  - rewrite <- Eh. unfold header. cbn [Data set_Data].
    now rewrite !Hframe by lia.
  - unfold slotEntry at 1. cbn [Data set_Data]. rewrite slotPos_small by lia.
    fold pos. f_equal.
    + slice_other. slice_hit. apply Uint16_PutUint16.
      unfold slotEntry. cbn [fst]. apply Uint16_range.
    + slice_hit. now apply Uint16_PutUint16.
  - cbn [Data set_Data]. exact Hframe.
Qed.

Lemma slotEntry_deleted_other p i j sc fs fe :
  slotted_inv p -> header p = (sc, fs, fe) -> 0 <= i < sc -> 0 <= j < sc ->
  j <> i -> slotEntry (deletedPage p i) j = slotEntry p j.
Proof.
  intros Hinv Eh Hi Hj Hne.
  destruct (deletedPage_spec p i sc fs fe Hinv Eh Hi) as (_ & _ & _ & _ & _ & Hframe).
  destruct Hinv as (Hok & Hsz & Hs). rewrite Eh in Hs.
  destruct Hs as (Hfs & Hle & Hfe & Hslots).
  pose proof (header_range p) as Hr. rewrite Eh in Hr.
  unfold spHeaderSize, slotEntrySize in *. rewrite PayloadSize_val in *.
  unfold slotEntry. rewrite (slotPos_small i) in Hframe by lia.
  rewrite (slotPos_small j) by lia.
  rewrite !Hframe by lia. reflexivity.
Qed.

Lemma slotEntry_range p i :
  0 <= fst (slotEntry p i) < 2 ^ 16 /\ 0 <= snd (slotEntry p i) < 2 ^ 16.
Proof. unfold slotEntry. cbn [fst snd]. split; apply Uint16_range. Qed.

Lemma deletedPage_inv p i sc fs fe :
  slotted_inv p -> header p = (sc, fs, fe) -> 0 <= i < sc ->
  slotted_inv (deletedPage p i).
Proof.
  intros Hinv Eh Hi.
  destruct (deletedPage_spec p i sc fs fe Hinv Eh Hi) as (Hok' & _ & Hsz' & Hh & Hdel & _).
  pose proof Hinv as (Hok & Hsz & Hs). rewrite Eh in Hs.
  destruct Hs as (Hfs & Hle & Hfe & Hslots).
  unfold slotted_inv. rewrite Hh. split; [exact Hok'|]. split; [exact Hsz'|].
  split; [exact Hfs|]. split; [exact Hle|]. split; [exact Hfe|].
  intros j Hj. destruct (Z.eq_dec j i) as [->|Hne].
  - rewrite Hdel. specialize (Hslots i Hi).
    pose proof (slotEntry_range p i) as Hr.
    destruct (slotEntry p i) as [off ln]. cbn [fst snd] in *. lia.
  - rewrite (slotEntry_deleted_other p i j sc fs fe) by auto. now apply Hslots.
Qed.

Lemma SlottedPage_Read_deleted p i sc fs fe :
  slotted_inv p -> header p = (sc, fs, fe) -> 0 <= i < sc ->
  SlottedPage_Read (deletedPage p i) i = Err ErrSlotDeleted.
Proof.
  intros Hinv Eh Hi.
  destruct (deletedPage_spec p i sc fs fe Hinv Eh Hi) as (_ & _ & _ & Hh & Hdel & _).
  now rewrite (SlottedPage_Read_ok _ i sc fs fe _ 0
                 (deletedPage_inv p i sc fs fe Hinv Eh Hi) Hh Hi Hdel).
Qed.

Lemma SlottedPage_Read_deleted_other p i j sc fs fe :
  slotted_inv p -> header p = (sc, fs, fe) -> 0 <= i < sc -> 0 <= j -> j <> i ->
  SlottedPage_Read (deletedPage p i) j = SlottedPage_Read p j.
Proof.
  intros Hinv Eh Hi Hj Hne.
  destruct (deletedPage_spec p i sc fs fe Hinv Eh Hi) as (_ & _ & _ & Hh & _ & Hframe).
  destruct (Z.lt_ge_cases j sc) as [Hlt|Hge].
  2:{ now rewrite (SlottedPage_Read_bad _ j sc fs fe Hh),
                  (SlottedPage_Read_bad p j sc fs fe Eh). }
  destruct (slotEntry p j) as [off ln] eqn:Es.
  rewrite (SlottedPage_Read_ok _ j sc fs fe off ln
             (deletedPage_inv p i sc fs fe Hinv Eh Hi) Hh) by
    (try lia; now rewrite (slotEntry_deleted_other p i j sc fs fe)).
  rewrite (SlottedPage_Read_ok p j sc fs fe off ln Hinv Eh) by (auto; lia).
  destruct (ln =? 0); [reflexivity|].
  destruct Hinv as (Hok & Hsz & Hs). rewrite Eh in Hs.
  destruct Hs as (Hfs & Hle & Hfe & Hslots).
  specialize (Hslots j ltac:(lia)). rewrite Es in Hslots.
  pose proof (header_range p) as Hr. rewrite Eh in Hr.
  unfold spHeaderSize, slotEntrySize in *. rewrite PayloadSize_val in *.
  rewrite (slotPos_small i) in Hframe by lia.
  rewrite Hframe by lia. reflexivity.
Qed.

(** * The heap file *)

Lemma heap_inv_empty : heap_inv [].
Proof. exists 0%nat. repeat split; cbn; try lia. Qed.

Lemma pageCount_pages f n : heap_pages f n -> pageCount f = Z.of_nat n.
Proof.
  intros (Hlen & Hn & _). unfold pageCount, PageSize. rewrite Hlen.
  rewrite Nat2Z.inj_mul. change (Z.of_nat 4096) with 4096.
  rewrite Z.div_mul by lia. apply Z.mod_small. lia.
Qed.

Lemma ReadPage_beyond f id :
  Z.of_nat (length f) < (id + 1) * PageSize -> ReadPage f id = Err ErrIO.
Proof.
  intros H. unfold ReadPage, ReadAt.
  destruct (Z.ltb_spec (Z.of_nat (length f)) (pageOffset id + Z.of_nat (Z.to_nat PageSize)));
    [reflexivity|].
  unfold pageOffset, PageSize in *. lia.
Qed.

Lemma ReadPage_error f id e :
  ReadPage f id = Err e ->
  e = ErrIO \/ e = RuntimePanic \/ e = ErrChecksumMismatch.
Proof.
  unfold ReadPage, ReadAt.
  destruct (_ <? _); cbn [bind]; [intros [= <-]; auto|].
  unfold ComputeChecksum. cbn [Data DataSize].
  destruct (_ <? _); cbn [bind]; [intros [= <-]; auto|].
  destruct (negb _); [intros [= <-]; auto|discriminate].
Qed.

Lemma slotted_inv_set_Checksum p c :
  0 <= c < 2 ^ 32 -> slotted_inv p -> slotted_inv (set_Checksum p c).
Proof.
  intros Hc ((H1 & H2 & H3 & H4) & Hsz & Hs). unfold slotted_inv.
  change (header (set_Checksum p c)) with (header p).
  split; [|split; [exact Hsz|]].
  - unfold page_ok. cbn [ID Checksum DataSize Data set_Checksum]. tauto.
  - destruct (header p) as [[sc fs] fe]. exact Hs.
Qed.

(** Writing a slotted page into a heap file, over a page or right after
    the last one. *)
Lemma heap_write f n p :
  heap_pages f n -> slotted_inv p -> 0 <= ID p <= Z.of_nat n ->
  Z.of_nat (Nat.max n (Z.to_nat (ID p) + 1)) < 2 ^ 32 ->
  exists p' f',
    WritePage f p = (Ok tt, p', f') /\
    heap_pages f' (Nat.max n (Z.to_nat (ID p) + 1)) /\
    ReadPage f' (ID p) = Ok p' /\
    Data p' = Data p /\
    (forall id, 0 <= id < Z.of_nat n -> id <> ID p -> ReadPage f' id = ReadPage f id).
Proof.
  intros (Hlen & Hn & Hpages) Hinv Hid Hbound.
  pose proof Hinv as (Hok & Hsz & _).
  destruct (ReadPage_WritePage_same f p Hok ltac:(lia)) as (p' & f' & Hw & Hp' & Hf' & Hr).
  exists p', f'. split; [exact Hw|].
  assert (Hother : forall id, 0 <= id < Z.of_nat n -> id <> ID p ->
                     ReadPage f' id = ReadPage f id).
  { intros id Hi Hne. rewrite Hf'. apply ReadPage_WriteAt_other; try lia.
    - apply length_encodePage.
    - rewrite Hlen. unfold PageSize. lia. }
  assert (Hlen' : length f' = (Nat.max n (Z.to_nat (ID p) + 1) * 4096)%nat).
  { rewrite Hf', length_WriteAt, length_encodePage, Hlen.
    unfold pageOffset, PageSize. change (Z.to_nat 4096) with 4096%nat.
    lia. }
  split; [|split; [exact Hr|split; [now rewrite Hp'|exact Hother]]].
  split; [exact Hlen'|]. split; [exact Hbound|].
  intros id Hi. destruct (Z.eq_dec id (ID p)) as [->|Hne].
  - exists p'. split; [exact Hr|]. split; [now rewrite Hp'|].
    rewrite Hp'. apply slotted_inv_set_Checksum; [apply ChecksumIEEE_range|exact Hinv].
  - rewrite Hother by lia. apply Hpages. lia.
Qed.

Lemma findPageLoop_inv f n need remaining id :
  heap_pages f n -> 0 <= id -> id + Z.of_nat remaining = Z.of_nat n ->
  exists r, findPageLoop f need remaining id = Ok r /\
    match r with
    | Some (id', p) =>
        id <= id' < Z.of_nat n /\ ReadPage f id' = Ok p /\ ID p = id' /\
        slotted_inv p /\ need <= freeSpace p
    | None => True
    end.
Proof.
  intros Hh. revert id. induction remaining as [|r IH]; intros id Hid Hsum.
  - exists None. split; [reflexivity|exact I].
  - destruct Hh as (Hlen & Hn & Hpages).
    destruct (Hpages id ltac:(lia)) as (p & Hr & Hidp & Hinv).
    cbn [findPageLoop]. rewrite Hr. cbn [bind]. rewrite (InitIfFresh_inv p Hinv).
    destruct (Z.leb_spec need (freeSpace p)).
    + exists (Some (id, p)). split; [reflexivity|].
      split; [lia|]. split; [exact Hr|]. split; [exact Hidp|]. split; assumption.
    + destruct (IH (id + 1) ltac:(lia) ltac:(lia)) as (res & Hres & Hprop).
      exists res. split; [exact Hres|]. destruct res as [[id' p']|]; [|exact I].
      destruct Hprop as (H1 & H2). split; [lia|exact H2].
Qed.

(** The page [findPageWithSpace] hands to [Insert]. *)
Lemma findPageWithSpace_inv f n need :
  heap_pages f n ->
  exists id p, findPageWithSpace f need = Ok (id, p) /\
    slotted_inv p /\ ID p = id /\ 0 <= id <= Z.of_nat n /\
    (id < Z.of_nat n -> ReadPage f id = Ok p) /\
    (id = Z.of_nat n -> header p = (0, 6, 4086)).
Proof.
  intros Hh. unfold findPageWithSpace. rewrite (pageCount_pages f n Hh), Nat2Z.id.
  destruct (findPageLoop_inv f n need n 0 Hh ltac:(lia) ltac:(lia)) as (r & Hr & Hprop).
  rewrite Hr. cbn [bind]. destruct r as [[id p]|].
  - destruct Hprop as (H1 & H2 & H3 & H4 & H5).
    exists id, p. split; [reflexivity|]. split; [exact H4|]. split; [exact H3|].
    split; [lia|]. split; [intros _; exact H2|lia].
  - destruct Hh as (_ & Hn & _).
    destruct (InitIfFresh_newPage (Z.of_nat n) ltac:(lia)) as (Hinv & Hh' & Hid).
    exists (Z.of_nat n), (InitIfFresh (newPage (Z.of_nat n))).
    split; [reflexivity|]. split; [exact Hinv|]. split; [exact Hid|].
    split; [lia|]. split; [lia|intros _; exact Hh'].
Qed.

Lemma SlottedPage_Read_set_Checksum p c i :
  SlottedPage_Read (set_Checksum p c) i = SlottedPage_Read p i.
Proof. reflexivity. Qed.

Lemma SlottedPage_Read_same_Data p q i :
  Data p = Data q -> SlottedPage_Read p i = SlottedPage_Read q i.
Proof.
  intros E. unfold SlottedPage_Read, getSlot, header. now rewrite E.
Qed.

Lemma RID_eq r r' : PageID r = PageID r' -> SlotID r = SlotID r' -> r = r'.
Proof. destruct r, r'. cbn. congruence. Qed.

Lemma HeapFile_Insert_step f rec rid f' :
  heap_inv f -> HeapFile_Insert f rec = (Ok rid, f') ->
  Z.of_nat (length f') < 2 ^ 32 * 4096 ->
  heap_inv f' /\ rid_ok rid /\ (length f <= length f')%nat /\
  HeapFile_Get f' rid =
    (if Z.of_nat (length rec) =? 0 then Err ErrSlotDeleted else Ok rec) /\
  (forall r b, rid_ok r -> HeapFile_Get f r = Ok b -> HeapFile_Get f' r = Ok b) /\
  (forall r, rid_ok r -> HeapFile_Get f r = Err ErrSlotDeleted ->
             HeapFile_Get f' r = Err ErrSlotDeleted).
Proof.
  intros (n & Hh) Hins Hbound.
  destruct (findPageWithSpace_inv f n (Z.of_nat (length rec) + slotEntrySize) Hh)
    as (id & p & Hfind & Hinv & Hidp & Hid & Hold & Hnew).
  unfold HeapFile_Insert in Hins. rewrite Hfind in Hins.
  destruct (header p) as [[sc fs] fe] eqn:Eh.
  pose proof Hinv as (Hok & Hsz & Hs). rewrite Eh in Hs.
  destruct Hs as (Hfs & Hle & Hfe & Hslots).
  pose proof (header_range p) as Hr. rewrite Eh in Hr.
  destruct (Z.lt_ge_cases 0xFFFF (Z.of_nat (length rec))) as [Hbig|Hsmall].
  { rewrite SlottedPage_Insert_too_large in Hins by exact Hbig. discriminate. }
  destruct (Z.lt_ge_cases (freeSpace p) (Z.of_nat (length rec) + slotEntrySize))
    as [Hno|Hfree].
  { rewrite SlottedPage_Insert_no_space in Hins by lia. discriminate. }
  rewrite (SlottedPage_Insert_ok p rec sc fs fe Hok Eh Hfs) in Hins
    by (unfold slotEntrySize in *; lia).
  destruct (insertedPage_inv p rec sc fs fe Hinv Eh Hfree) as (Hinv' & Hentry).
  destruct (insertedPage_spec p rec sc fs fe Hok Eh Hfs) as (_ & Hid' & _ & Hh' & _);
    [unfold slotEntrySize in *; lia|exact Hfree|].
  set (q := insertedPage p rec sc fs fe) in *.
  assert (Hlenf : length f = (n * 4096)%nat) by apply Hh.
  assert (Hmax : Z.of_nat (Nat.max n (Z.to_nat (ID q) + 1)) < 2 ^ 32).
  { destruct (WritePage f q) as [[r q'] f0] eqn:Hw.
    pose proof Hw as Hw0. unfold WritePage in Hw.
    destruct (PayloadSize <? DataSize q); [injection Hw as <- _ <-; discriminate|].
    destruct (ComputeChecksum q); [|injection Hw as <- _ <-; discriminate].
    injection Hw as <- _ <-. injection Hins as _ <-.
    rewrite length_WriteAt, length_encodePage in Hbound.
    unfold pageOffset, PageSize in Hbound. change (Z.to_nat 4096) with 4096%nat in Hbound.
    cbn [ID set_Checksum] in Hbound. lia. }
  destruct (heap_write f n q Hh Hinv' ltac:(lia) Hmax)
    as (q' & f1 & Hw & Hh1 & Hr1 & HD1 & Hother).
  rewrite Hw in Hins. injection Hins as <- <-.
  assert (Hget : forall i, HeapFile_Get f1 (mkRID id i) = SlottedPage_Read q i).
  { intros i. unfold HeapFile_Get. cbn [PageID SlotID].
    rewrite <- Hidp, <- Hid', Hr1. cbn [bind]. now apply SlottedPage_Read_same_Data. }
  split; [now exists (Nat.max n (Z.to_nat (ID q) + 1))|].
  split; [unfold rid_ok; cbn [PageID SlotID]; lia|].
  split; [destruct Hh1 as (Hl1 & _); rewrite Hl1, Hlenf; lia|].
  split; [rewrite Hget; now apply SlottedPage_Read_inserted_new|].
  assert (Hframe : forall r, rid_ok r ->
            (exists p0, ReadPage f (PageID r) = Ok p0 /\
                        SlottedPage_Read p0 (SlotID r) <> Err ErrBadSlotID) ->
            HeapFile_Get f1 r = HeapFile_Get f r).
  { intros r (Hrp & Hrs) (p0 & Hp0 & Hnb).
    destruct (ReadPage_inv f (PageID r) p0 ltac:(lia) Hp0) as (_ & _ & Hin & _).
    assert (Hlt : PageID r < Z.of_nat n) by (rewrite Hlenf in Hin; unfold PageSize in Hin; lia).
    destruct (Z.eq_dec (PageID r) id) as [E|E].
    - assert (Hp : p0 = p) by (rewrite E in Hp0; rewrite Hold in Hp0 by lia; congruence).
      subst p0.
      replace r with (mkRID id (SlotID r)) by (apply RID_eq; cbn; auto).
      rewrite Hget. unfold HeapFile_Get. cbn [PageID SlotID].
      rewrite Hold by lia. cbn [bind].
      destruct (Z.lt_ge_cases (SlotID r) sc).
      + unfold q. apply SlottedPage_Read_inserted_old; [assumption..|lia].
      + exfalso. apply Hnb. now apply (SlottedPage_Read_bad p _ sc fs fe).
    - unfold HeapFile_Get. rewrite Hother by lia. reflexivity. }
  split.
  - intros r b Hr0 Hg. rewrite Hframe; [exact Hg|exact Hr0|].
    unfold HeapFile_Get in Hg. destruct (ReadPage f (PageID r)) as [p0|]; [|discriminate].
    exists p0. split; [reflexivity|]. cbn [bind] in Hg. congruence.
  - intros r Hr0 Hg. rewrite Hframe; [exact Hg|exact Hr0|].
    unfold HeapFile_Get in Hg. destruct (ReadPage f (PageID r)) as [p0|] eqn:E0.
    + exists p0. split; [reflexivity|]. cbn [bind] in Hg. congruence.
    + cbn [bind] in Hg. injection Hg as ->.
      apply ReadPage_error in E0. destruct E0 as [|[|]]; discriminate.
Qed.

Lemma HeapFile_Delete_step f r f' :
  heap_inv f -> rid_ok r -> HeapFile_Delete f r = (Ok tt, f') ->
  heap_inv f' /\
  HeapFile_Get f' r = Err ErrSlotDeleted /\
  (forall r', rid_ok r' -> r' <> r -> HeapFile_Get f' r' = HeapFile_Get f r').
Proof.
  intros (n & Hh) (Hrp & Hrs) Hdel. unfold HeapFile_Delete in Hdel.
  destruct (ReadPage f (PageID r)) as [p|] eqn:Hp; [|discriminate].
  destruct (ReadPage_inv f (PageID r) p ltac:(lia) Hp) as (_ & _ & Hin & _).
  pose proof Hh as (Hlenf & Hn & Hpages).
  assert (Hlt : PageID r < Z.of_nat n) by (rewrite Hlenf in Hin; unfold PageSize in Hin; lia).
  destruct (Hpages (PageID r) ltac:(lia)) as (p0 & Hp0 & Hid & Hinv).
  assert (p0 = p) by congruence. subst p0.
  destruct (header p) as [[sc fs] fe] eqn:Eh.
  destruct (Z.lt_ge_cases (SlotID r) sc) as [Hs|Hs].
  2:{ rewrite (SlottedPage_Delete_bad p _ sc fs fe Eh Hs) in Hdel. discriminate. }
  rewrite (SlottedPage_Delete_ok p _ sc fs fe Hinv Eh) in Hdel by lia.
  pose proof (deletedPage_inv p (SlotID r) sc fs fe Hinv Eh ltac:(lia)) as Hinv'.
  destruct (deletedPage_spec p (SlotID r) sc fs fe Hinv Eh ltac:(lia))
    as (_ & Hid' & _ & Hh' & _).
  set (q := deletedPage p (SlotID r)) in *.
  assert (Hmax : Nat.max n (Z.to_nat (ID q) + 1) = n) by lia.
  destruct (heap_write f n q Hh Hinv' ltac:(lia) ltac:(lia))
    as (q' & f1 & Hw & Hh1 & Hr1 & HD1 & Hother).
  rewrite Hw in Hdel. injection Hdel as <-. rewrite Hmax in Hh1.
  assert (Hget : forall i, HeapFile_Get f1 (mkRID (PageID r) i) = SlottedPage_Read q i).
  { intros i. unfold HeapFile_Get. cbn [PageID SlotID].
    rewrite <- Hid, <- Hid', Hr1. cbn [bind]. now apply SlottedPage_Read_same_Data. }
  split; [now exists n|]. split.
  - replace r with (mkRID (PageID r) (SlotID r)) by (now apply RID_eq).
    rewrite Hget. unfold q.
    apply (SlottedPage_Read_deleted p _ sc fs fe Hinv Eh). lia.
  - intros r' (Hrp' & Hrs') Hne.
    destruct (Z.eq_dec (PageID r') (PageID r)) as [E|E].
    + replace r' with (mkRID (PageID r) (SlotID r')) by (now apply RID_eq).
      rewrite Hget. unfold HeapFile_Get. cbn [PageID SlotID]. rewrite Hp. cbn [bind].
      unfold q. apply (SlottedPage_Read_deleted_other p _ _ sc fs fe Hinv Eh); try lia.
      intros E'. apply Hne. now apply RID_eq.
    + unfold HeapFile_Get. destruct (Z.lt_ge_cases (PageID r') (Z.of_nat n)).
      * rewrite Hother by lia. reflexivity.
      * rewrite !ReadPage_beyond; [reflexivity| |].
        -- rewrite Hlenf. unfold PageSize. lia.
        -- destruct Hh1 as (Hl1 & _). rewrite Hl1. unfold PageSize. lia.
Qed.

Lemma WritePage_length f p : (length f <= length (snd (WritePage f p)))%nat.
Proof.
  unfold WritePage. destruct (_ <? _); [cbn; lia|].
  destruct (ComputeChecksum p); cbn [snd]; [|lia].
  rewrite length_WriteAt. lia.
Qed.

Lemma HeapFile_Insert_length f rec : (length f <= length (snd (HeapFile_Insert f rec)))%nat.
Proof.
  unfold HeapFile_Insert. destruct (findPageWithSpace _ _) as [[id p]|]; [|cbn; lia].
  destruct (SlottedPage_Insert p rec) as [[slot|e] p']; [|cbn; lia].
  pose proof (WritePage_length f p') as H.
  destruct (WritePage f p') as [[[u|e] p''] f']; cbn [snd] in *; exact H.
Qed.

Lemma HeapFile_Delete_length f r : (length f <= length (snd (HeapFile_Delete f r)))%nat.
Proof.
  unfold HeapFile_Delete. destruct (ReadPage _ _) as [p|]; [|cbn; lia].
  destruct (SlottedPage_Delete p _) as [[u|e] p']; [|cbn; lia].
  pose proof (WritePage_length f p') as H.
  destruct (WritePage f p') as [[res p''] f']; cbn [snd] in *; exact H.
Qed.

(** *** Scan *)

Section ScanVisits.
Context {St : Type} (visit : St -> RID -> bytes -> St * bool).

Lemma scanSlots_visits p id remaining :
  forall s st log,
    exists extra,
      snd (snd (scanSlots (recording visit) p id remaining s (st, log))) = log ++ extra /\
      forall r b, In (r, b) extra ->
        PageID r = id /\ SlottedPage_Read p (SlotID r) = Ok b.
Proof.
  induction remaining as [|n IH]; intros s st log; cbn [scanSlots].
  - exists []. split; [now rewrite app_nil_r|intros r b []].
  - destruct (SlottedPage_Read p s) as [b|e] eqn:Er.
    + unfold recording at 1. cbn [fst snd].
      destruct (visit st (mkRID id s) b) as [st' go].
      destruct go.
      * destruct (IH (s + 1) st' (log ++ [(mkRID id s, b)])) as (extra & He & Hp).
        exists ((mkRID id s, b) :: extra). split.
        -- rewrite He, <- app_assoc. reflexivity.
        -- intros r b' [E|Hin]; [injection E as <- <-; split; [reflexivity|exact Er]|].
           now apply Hp.
      * exists [(mkRID id s, b)]. split; [reflexivity|].
        intros r b' [E|[]]. injection E as <- <-. split; [reflexivity|exact Er].
    + assert (Hstop : forall e', exists extra,
                snd (snd (@pair (result bool) _ (Err e') (st, log))) = log ++ extra /\
                forall r b, In (r, b) extra ->
                  PageID r = id /\ SlottedPage_Read p (SlotID r) = Ok b).
      { intros e'. exists []. split; [cbn; now rewrite app_nil_r|intros r b []]. }
      destruct e; try apply Hstop. apply IH.
Qed.

Lemma scanPages_visits f remaining :
  forall id st log,
    exists extra,
      snd (snd (scanPages (recording visit) f remaining id (st, log))) = log ++ extra /\
      forall r b, In (r, b) extra -> HeapFile_Get f r = Ok b.
Proof.
  induction remaining as [|n IH]; intros id st log; cbn [scanPages].
  - exists []. split; [now rewrite app_nil_r|intros r b []].
  - destruct (ReadPage f id) as [p|e] eqn:Hp.
    2:{ exists []. split; [cbn; now rewrite app_nil_r|intros r b []]. }
    destruct (header p) as [[sc fs] fe].
    destruct (scanSlots_visits p id (Z.to_nat sc) 0 st log) as (extra & He & Hx).
    assert (Hget : forall r b, In (r, b) extra -> HeapFile_Get f r = Ok b).
    { intros r b Hin. destruct (Hx r b Hin) as (E1 & E2).
      unfold HeapFile_Get. now rewrite E1, Hp. }
    destruct (scanSlots (recording visit) p id (Z.to_nat sc) 0 (st, log))
      as [[go|e] [st' log']]; cbn [snd] in He; subst log'.
    + destruct go.
      * destruct (IH (id + 1) st' (log ++ extra)) as (extra' & He' & Hx').
        exists (extra ++ extra'). split; [now rewrite He', app_assoc|].
        intros r b Hin. apply in_app_or in Hin. destruct Hin; auto.
      * exists extra. split; [reflexivity|exact Hget].
    + exists extra. split; [reflexivity|exact Hget].
Qed.

Lemma scanVisits_Get f st r b :
  In (r, b) (scanVisits visit f st) -> HeapFile_Get f r = Ok b.
Proof.
  unfold scanVisits, HeapFile_Scan.
  destruct (scanPages_visits f (Z.to_nat (pageCount f)) 0 st []) as (extra & He & Hx).
  rewrite He. cbn [app]. apply Hx.
Qed.
End ScanVisits.

Lemma heap_run_length ops :
  forall f g ins del, heap_run f ops = Some (g, ins, del) -> (length f <= length g)%nat.
Proof.
  induction ops as [|o ops IH]; intros f g ins del H; cbn [heap_run] in H.
  - injection H as <- _ _. lia.
  - destruct o as [rec|r].
    + pose proof (HeapFile_Insert_length f rec) as Hl.
      destruct (HeapFile_Insert f rec) as [[rid|e] f']; [|discriminate].
      destruct (heap_run f' ops) as [[[g' ins'] del']|] eqn:E; [|discriminate].
      injection H as <- _ _. apply IH in E. cbn [snd] in Hl. lia.
    + pose proof (HeapFile_Delete_length f r) as Hl.
      destruct (HeapFile_Delete f r) as [[u|e] f']; [|discriminate].
      destruct (heap_run f' ops) as [[[g' ins'] del']|] eqn:E; [|discriminate].
      injection H as <- _ _. apply IH in E. cbn [snd] in Hl. lia.
Qed.

Lemma heap_run_spec ops :
  forall f g ins del,
    heap_inv f -> heap_run f ops = Some (g, ins, del) ->
    Forall heap_op_ok ops -> Z.of_nat (length g) < 2 ^ 32 * 4096 ->
    heap_inv g /\
    (forall rid rec, In (rid, rec) ins -> rec <> [] -> ~ In rid del ->
                     HeapFile_Get g rid = Ok rec) /\
    (forall rid, In rid del -> HeapFile_Get g rid = Err ErrSlotDeleted) /\
    (forall r b, rid_ok r -> HeapFile_Get f r = Ok b -> ~ In r del ->
                 HeapFile_Get g r = Ok b) /\
    (forall r, rid_ok r -> HeapFile_Get f r = Err ErrSlotDeleted ->
               HeapFile_Get g r = Err ErrSlotDeleted).
Proof.
  induction ops as [|o ops IH]; intros f g ins del Hinv Hrun Hok Hbound;
    cbn [heap_run] in Hrun.
  - injection Hrun as <- <- <-. repeat split; auto; intros; contradiction.
  - inversion Hok as [|? ? Ho Hok']; subst. destruct o as [rec|r0].
    + destruct (HeapFile_Insert f rec) as [[rid|e] f'] eqn:Hins; [|discriminate].
      destruct (heap_run f' ops) as [[[g' ins'] del']|] eqn:E; [|discriminate].
      injection Hrun as <- <- <-.
      pose proof (heap_run_length ops f' g' ins' del' E) as Hlen.
      destruct (HeapFile_Insert_step f rec rid f' Hinv Hins ltac:(lia))
        as (Hinv' & Hrid & _ & Hget & Hkeep & Hdead).
      destruct (IH f' g' ins' del' Hinv' E Hok' Hbound)
        as (Hg & Hins' & Hdel' & Hkeep' & Hdead').
      split; [exact Hg|]. split; [|split; [exact Hdel'|split]].
      * intros rid' rec' [Eq|Hin] Hne Hnd.
        -- injection Eq as <- <-. apply Hkeep'; auto.
           rewrite Hget. destruct rec; [contradiction|reflexivity].
        -- now apply Hins'.
      * intros r b Hr Hb Hnd. apply Hkeep'; auto.
      * intros r Hr Hb. apply Hdead'; auto.
    + destruct (HeapFile_Delete f r0) as [[[]|e] f'] eqn:Hdel; [|discriminate].
      destruct (heap_run f' ops) as [[[g' ins'] del']|] eqn:E; [|discriminate].
      injection Hrun as <- <- <-.
      destruct (HeapFile_Delete_step f r0 f' Hinv Ho Hdel) as (Hinv' & Hgone & Hother).
      destruct (IH f' g' ins' del' Hinv' E Hok' Hbound)
        as (Hg & Hins' & Hdel' & Hkeep' & Hdead').
      split; [exact Hg|]. split; [|split; [|split]].
      * intros rid' rec' Hin Hne Hnd. apply Hins'; auto.
        intros Hd. apply Hnd. now right.
      * intros rid' [<-|Hin]; [now apply Hdead'|now apply Hdel'].
      * intros r b Hr Hb Hnd. apply Hkeep'; auto.
        -- rewrite Hother; auto. intros ->. apply Hnd. now left.
        -- intros Hd. apply Hnd. now right.
      * intros r Hr Hb. apply Hdead'; auto.
        destruct (Z.eq_dec (PageID r) (PageID r0)) as [E1|E1];
          [destruct (Z.eq_dec (SlotID r) (SlotID r0)) as [E2|E2]|].
        -- rewrite (RID_eq r r0 E1 E2). exact Hgone.
        -- rewrite Hother; auto. congruence.
        -- rewrite Hother; auto. congruence.
Qed.

(** C4 as amended.  Heap round trip, for a heap file that starts empty and
    stays below 2^32 pages: after any history of successful inserts and
    deletes, get(rid) returns exactly the bytes inserted under rid for every
    non-empty record not deleted since; after delete(rid) has succeeded,
    get(rid) fails with SlotDeleted and no scan visits rid. *)
Theorem heap_round_trip (ops : list heap_op) (f : file)
        (ins : list (RID * bytes)) (del : list RID) :
  heap_run [] ops = Some (f, ins, del) ->
  Forall heap_op_ok ops ->
  Z.of_nat (length f) < 2 ^ 32 * 4096 ->
  (forall rid rec, In (rid, rec) ins -> rec <> [] -> ~ In rid del ->
                   HeapFile_Get f rid = Ok rec) /\
  (forall rid, In rid del ->
     HeapFile_Get f rid = Err ErrSlotDeleted /\
     forall (St : Type) (visit : St -> RID -> bytes -> St * bool) (st : St) b,
       ~ In (rid, b) (scanVisits visit f st)).
Proof.
  intros Hrun Hok Hbound.
  destruct (heap_run_spec ops [] f ins del heap_inv_empty Hrun Hok Hbound)
    as (_ & Hins & Hdel & _).
  split; [exact Hins|]. intros rid Hin. split; [now apply Hdel|].
  intros St visit st b Hv. apply scanVisits_Get in Hv.
  rewrite (Hdel rid Hin) in Hv. discriminate.
Qed.

Lemma heap_round_trip_witness :
  HeapFile_Get (fst (fst (match heap_run [] demoOps with
                          | Some x => x | None => ([], [], []) end)))
               (mkRID 0 1) = Ok [Byte.x62; Byte.x63].
Proof.
  refine (proj1 (heap_round_trip demoOps _
                   [(mkRID 0 0, [Byte.x61]); (mkRID 0 1, [Byte.x62; Byte.x63])]
                   [mkRID 0 0] _ _ _) (mkRID 0 1) [Byte.x62; Byte.x63] _ _ _).
  - vm_compute. reflexivity.
  - repeat constructor; vm_compute; intuition congruence.
  - vm_compute. reflexivity.
  - right. left. reflexivity.
  - discriminate.
  - intros [E|[]]. discriminate.
Defined.

(** C4, counterexample for empty records: the insert of an empty record
    succeeds, and get on its rid fails with SlotDeleted although nothing was
    deleted. *)
Lemma heap_empty_record_lost :
  fst (HeapFile_Insert [] []) = Ok (mkRID 0 0) /\
  HeapFile_Get (snd (HeapFile_Insert [] [])) (mkRID 0 0) = Err ErrSlotDeleted.
Proof. split; vm_compute; reflexivity. Qed.

Lemma setSlot_error p i off ln e p' :
  setSlot p i off ln = (Err e, p') -> e = RuntimePanic.
Proof.
  unfold setSlot. destruct (_ && _); [|now intros [= <- _]].
  destruct (_ <=? _); [discriminate|now intros [= <- _]].
Qed.

(** Without any assumption on the page: [Insert] reports NoSpace only when
    the free space is short, and a slot it returns is the slot count. *)
Lemma SlottedPage_Insert_cases p rec :
  (fst (SlottedPage_Insert p rec) = Err ErrNoSpace ->
   freeSpace p < Z.of_nat (length rec) + slotEntrySize) /\
  (forall slot, fst (SlottedPage_Insert p rec) = Ok slot ->
                slot = fst (fst (header p))).
Proof.
  unfold SlottedPage_Insert.
  destruct (Z.ltb_spec 0xFFFF (Z.of_nat (length rec))).
  { cbn [fst]. split; [discriminate|intros ? [=]]. }
  destruct (Z.ltb_spec (freeSpace p) (Z.of_nat (length rec) + slotEntrySize)).
  { cbn [fst]. split; [auto|intros ? [=]]. }
  destruct (header p) as [[sc fs] fe]. cbn [fst].
  destruct (_ <? _).
  { cbn [fst]. split; [discriminate|intros ? [=]]. }
  destruct (setSlot _ _ _ _) as [[u|e] p'] eqn:Es; cbn [fst].
  - split; [discriminate|]. now intros ? [= <-].
  - apply setSlot_error in Es. subst e. split; [discriminate|intros ? [=]].
Qed.

Lemma WritePage_error f p e :
  fst (fst (WritePage f p)) = Err e -> e = ErrDataTooLarge \/ e = RuntimePanic.
Proof.
  unfold WritePage. destruct (_ <? _); cbn [fst]; [intros [= <-]; auto|].
  unfold ComputeChecksum. destruct (_ <? _); cbn [fst]; [intros [= <-]; auto|discriminate].
Qed.

Lemma findPageLoop_found f need remaining :
  forall id id' p',
    findPageLoop f need remaining id = Ok (Some (id', p')) ->
    id <= id' /\ need <= freeSpace p' /\
    exists p, ReadPage f id' = Ok p /\ p' = InitIfFresh p.
Proof.
  induction remaining as [|r IH]; intros id id' p' H; cbn [findPageLoop] in H.
  - discriminate.
  - destruct (ReadPage f id) as [p|] eqn:Hp; cbn [bind] in H; [|discriminate].
    destruct (Z.leb_spec need (freeSpace (InitIfFresh p))).
    + injection H as <- <-. split; [lia|]. split; [assumption|]. now exists p.
    + apply IH in H. destruct H as (H1 & H2). split; [lia|exact H2].
Qed.

Lemma findPageLoop_error f need remaining :
  forall id e, findPageLoop f need remaining id = Err e ->
    e = ErrIO \/ e = RuntimePanic \/ e = ErrChecksumMismatch.
Proof.
  induction remaining as [|r IH]; intros id e H; cbn [findPageLoop] in H.
  - discriminate.
  - destruct (ReadPage f id) as [p|e'] eqn:Hp; cbn [bind] in H.
    + destruct (_ <=? _); [discriminate|]. now apply IH in H.
    + injection H as <-. now apply ReadPage_error in Hp.
Qed.

(** The record on a fresh page. *)
Lemma fresh_page_insert n rec :
  0 <= n < 2 ^ 32 -> (length rec <= 4076)%nat ->
  let p := InitIfFresh (newPage n) in
  let q := insertedPage p rec 0 6 4086 in
  SlottedPage_Insert p rec = (Ok 0, q) /\ slotted_inv q /\ ID q = n /\
  SlottedPage_Read q 0 =
    (if Z.of_nat (length rec) =? 0 then Err ErrSlotDeleted else Ok rec).
Proof.
  intros Hn Hlen. cbv zeta.
  destruct (InitIfFresh_newPage n Hn) as (Hinv & Hh & Hid).
  set (p := InitIfFresh (newPage n)) in *.
  pose proof Hinv as (Hok & _).
  assert (Hfree : Z.of_nat (length rec) + slotEntrySize <= freeSpace p).
  { rewrite (freeSpace_header p 0 6 4086 Hh). unfold slotEntrySize. lia. }
  split; [|split; [|split]].
  - apply SlottedPage_Insert_ok; auto; [unfold spHeaderSize|rewrite PayloadSize_val]; lia.
  - now apply insertedPage_inv.
  - destruct (insertedPage_spec p rec 0 6 4086 Hok Hh) as (_ & Hid' & _);
      [unfold spHeaderSize; lia|rewrite PayloadSize_val; lia|exact Hfree|].
    now rewrite Hid'.
  - now apply SlottedPage_Read_inserted_new.
Qed.

(** C9 as amended.  For every record of at most 4076 bytes (a page payload
    less the slotted header and one slot entry), [HeapFile.Insert] never
    surfaces NoSpace; when no existing page has room it puts the record in
    slot 0 of a new page with id [pageCount]; and below 2^32 pages the rid
    of a successful insert is fresh: it could not be read before. *)
Theorem HeapFile_Insert_absorbs_NoSpace (f : file) (rec : bytes) :
  (length rec <= 4076)%nat ->
  let r := HeapFile_Insert f rec in
  let n := pageCount f in
  fst r <> Err ErrNoSpace /\
  (findPageLoop f (Z.of_nat (length rec) + slotEntrySize) (Z.to_nat n) 0 = Ok None ->
     fst r = Ok (mkRID n 0) /\
     exists p, ReadPage (snd r) n = Ok p /\
               SlottedPage_Read p 0 =
                 (if Z.of_nat (length rec) =? 0 then Err ErrSlotDeleted else Ok rec)) /\
  (Z.of_nat (length f) / PageSize < 2 ^ 32 ->
   forall rid, fst r = Ok rid ->
     HeapFile_Get f rid = Err ErrBadSlotID \/ HeapFile_Get f rid = Err ErrIO).
Proof.
  intros Hlen. cbv zeta.
  assert (Hn : 0 <= pageCount f < 2 ^ 32).
  { unfold pageCount. apply Z.mod_pos_bound. lia. }
  destruct (fresh_page_insert (pageCount f) rec Hn Hlen) as (Hfi & Hfinv & Hfid & Hfr).
  set (p0 := InitIfFresh (newPage (pageCount f))) in *.
  set (q := insertedPage p0 rec 0 6 4086) in *.
  pose proof Hfinv as (Hqok & Hqsz & _).
  destruct (ReadPage_WritePage_same f q Hqok ltac:(lia)) as (q' & f' & Hw & Hq' & Hf' & Hr).
  assert (Hnew : findPageLoop f (Z.of_nat (length rec) + slotEntrySize)
                   (Z.to_nat (pageCount f)) 0 = Ok None ->
                 HeapFile_Insert f rec = (Ok (mkRID (pageCount f) 0), f')).
  { intros E. unfold HeapFile_Insert, findPageWithSpace. rewrite E. cbn [bind].
    fold p0. rewrite Hfi, Hw. reflexivity. }
  split; [|split].
  - unfold HeapFile_Insert, findPageWithSpace.
    destruct (findPageLoop _ _ _ _) as [[[id p']|]|e] eqn:El; cbn [bind].
    + apply findPageLoop_found in El. destruct El as (_ & Hfree & _).
      pose proof (SlottedPage_Insert_cases p' rec) as (Hns & _).
      destruct (SlottedPage_Insert p' rec) as [[slot|e] p''] eqn:Ei; cbn [fst] in *.
      * pose proof (WritePage_error f p'') as He.
        destruct (WritePage f p'') as [[[u|e] p3] f3]; cbn [fst] in *; [discriminate|].
        intros [= ->]. destruct (He _ eq_refl); discriminate.
      * intros [= ->]. specialize (Hns eq_refl). lia.
    + fold p0. rewrite Hfi, Hw. cbn [fst]. discriminate.
    + cbn [fst]. intros [= ->]. apply findPageLoop_error in El.
      destruct El as [|[|]]; discriminate.
  - intros E. rewrite (Hnew E). cbn [fst snd]. split; [reflexivity|].
    exists q'. rewrite <- Hfid at 1. split; [exact Hr|].
    rewrite Hq', SlottedPage_Read_set_Checksum. exact Hfr.
  - intros Hsmall rid. unfold HeapFile_Insert, findPageWithSpace.
    destruct (findPageLoop _ _ _ _) as [[[id p']|]|e] eqn:El; cbn [bind].
    + apply findPageLoop_found in El. destruct El as (Hid & _ & p & Hp & ->).
      destruct (ReadPage_inv f id p Hid Hp) as (Hok & _).
      pose proof (SlottedPage_Insert_cases (InitIfFresh p) rec) as (_ & Hslot).
      destruct (SlottedPage_Insert (InitIfFresh p) rec) as [[slot|e] p''];
        cbn [fst] in *; [|discriminate].
      specialize (Hslot slot eq_refl).
      destruct (WritePage f p'') as [[[u|e] p3] f3]; cbn [fst]; [|discriminate].
      intros [= <-]. left. unfold HeapFile_Get. cbn [PageID SlotID]. rewrite Hp.
      cbn [bind].
      destruct (header p) as [[sc fs] fe] eqn:Eh.
      apply (SlottedPage_Read_bad p slot sc fs fe Eh).
      destruct (Z.eq_dec sc 0) as [->|Hsc].
      * rewrite Hslot. pose proof (header_range (InitIfFresh p)) as Hrng.
        destruct (header (InitIfFresh p)) as [[sc' fs'] fe']. cbn [fst]. lia.
      * assert (Hsame : header (InitIfFresh p) = header p)
          by (apply InitIfFresh_header_kept; rewrite Eh; congruence).
        rewrite Hslot, Hsame, Eh. cbn [fst]. lia.
    + fold p0. rewrite Hfi, Hw. cbn [fst]. intros [= <-]. right.
      unfold HeapFile_Get. cbn [PageID]. rewrite ReadPage_beyond; [reflexivity|].
      unfold pageCount. rewrite Z.mod_small.
      * pose proof (Z.mul_succ_div_gt (Z.of_nat (length f)) PageSize ltac:(unfold PageSize; lia)).
        lia.
      * split; [apply Z.div_pos; unfold PageSize; lia|exact Hsmall].
    + discriminate.
Qed.

Lemma HeapFile_Insert_absorbs_NoSpace_witness :
  fst (HeapFile_Insert [] [Byte.x61; Byte.x62]) = Ok (mkRID 0 0).
Proof.
  refine (proj1 (proj1 (proj2
    (HeapFile_Insert_absorbs_NoSpace [] [Byte.x61; Byte.x62] _)) _)).
  - cbn. lia.
  - vm_compute. reflexivity.
Defined.

(** C9, counterexample above the page size: a record of 4077 bytes, far
    below the 65535 the slot entry can encode, fits no page, and
    [HeapFile.Insert] surfaces NoSpace from the fresh page it allocated. *)
Lemma HeapFile_Insert_surfaces_NoSpace :
  Z.of_nat (length (zeros 4077)) <= 65535 /\
  fst (HeapFile_Insert [] (zeros 4077)) = Err ErrNoSpace.
Proof. split; [vm_compute; congruence|vm_compute; reflexivity]. Qed.

(** * B-tree node encoding *)

Lemma agree_refl d lo hi : agree d d lo hi.
Proof. split; auto. Qed.

Lemma agree_sym d1 d2 lo hi : agree d1 d2 lo hi -> agree d2 d1 lo hi.
Proof. intros (H1 & H2). split; [auto|]. intros. symmetry. auto. Qed.

Lemma agree_trans d1 d2 d3 lo hi :
  agree d1 d2 lo hi -> agree d2 d3 lo hi -> agree d1 d3 lo hi.
Proof.
  intros (H1 & H2) (H3 & H4). split; [congruence|].
  intros. rewrite H2, H4; auto.
Qed.

Lemma agree_narrow d1 d2 lo hi lo' hi' :
  agree d1 d2 lo hi -> (lo <= lo')%nat -> (hi' <= hi)%nat -> agree d1 d2 lo' hi'.
Proof. intros (H1 & H2) Hl Hh. split; [auto|]. intros. apply H2; lia. Qed.

Lemma agree_store d off src lo hi :
  (off + length src <= length d)%nat ->
  (hi <= off \/ off + length src <= lo)%nat ->
  agree (store d off src) d lo hi.
Proof.
  intros H Hd. split; [apply length_store|].
  intros a b Ha Hb. apply slice_store_other; [exact H|lia].
Qed.

Lemma slice_clearFrom d off a b :
  length d = Z.to_nat PayloadSize ->
  (b <= off)%nat -> slice (clearFrom d off) a b = slice d a b.
Proof.
  intros HD H. unfold clearFrom. apply nth_error_ext. intros i.
  rewrite !nth_error_slice.
  destruct (Nat.ltb_spec i (b - a)); [|reflexivity].
  rewrite nth_error_app, nth_error_firstn, length_firstn.
  destruct (Nat.lt_ge_cases (a + i) (length d)).
  - destruct (Nat.ltb_spec (a + i) (Nat.min off (length d))); [|lia].
    destruct (Nat.ltb_spec (a + i) off); [reflexivity|lia].
  - destruct (Nat.ltb_spec (a + i) (Nat.min off (length d))); [lia|].
    rewrite (proj2 (nth_error_None d (a + i))) by lia.
    apply nth_error_None. rewrite length_zeros. lia.
Qed.

Lemma length_clearFrom d off :
  length d = Z.to_nat PayloadSize -> length (clearFrom d off) = length d.
Proof.
  intros H. unfold clearFrom. rewrite length_app, length_firstn, length_zeros. lia.
Qed.

Lemma agree_clearFrom d off lo :
  length d = Z.to_nat PayloadSize -> agree (clearFrom d off) d lo off.
Proof.
  intros H. split; [now apply length_clearFrom|].
  intros a b _ Hb. now apply slice_clearFrom.
Qed.

Lemma nth_0_slice d : nth 0 d zero_byte = nth 0 (slice d 0 1) zero_byte.
Proof. unfold slice. cbn. destruct d; reflexivity. Qed.

Lemma nodeKind_agree d1 d2 hi :
  agree d1 d2 0 hi -> (1 <= hi)%nat -> nodeKind d1 = nodeKind d2.
Proof.
  intros (_ & H) Hhi. unfold nodeKind.
  rewrite (nth_0_slice d1), (nth_0_slice d2), (H 0%nat 1%nat); auto; lia.
Qed.

(** *** The node header *)

Lemma length_setNodeHeader d kind count parent aux :
  length (setNodeHeader d kind count parent aux) = length d.
Proof. unfold setNodeHeader. now rewrite !length_store. Qed.

Lemma setNodeHeader_spec d kind count parent aux :
  (12 <= length d)%nat -> 0 <= kind < 256 -> 0 <= count < 2 ^ 16 -> u32 aux ->
  let d' := setNodeHeader d kind count parent aux in
  nodeKind d' = kind /\ Uint16 (slice d' 2 4) = count /\ metaRoot d' = aux /\
  agree d' d 12 (length d).
Proof.
  intros Hd Hk Hc Ha. cbv zeta. unfold setNodeHeader.
  split; [|split; [|split]].
  - unfold nodeKind. rewrite nth_0_slice. do 4 slice_other. slice_hit.
    cbn [nth]. rewrite byte.unsigned_of_Z. unfold byte.wrap.
    apply Z.mod_small. lia.
  - do 2 slice_other. slice_hit. now apply Uint16_PutUint16.
  - unfold metaRoot. slice_hit. now apply Uint32_PutUint32.
  - split; [now rewrite !length_store|].
    intros a b Ha' Hb. now do 5 slice_other.
Qed.

Lemma setMetaRoot_spec d root :
  (12 <= length d)%nat -> u32 root ->
  let d' := setMetaRoot d root in
  length d' = length d /\ nodeKind d' = nodeKind d /\ metaRoot d' = root.
Proof.
  intros Hd Hr. cbv zeta. unfold setMetaRoot.
  split; [apply length_store|]. split.
  - unfold nodeKind. rewrite !(nth_0_slice (store _ _ _)), (nth_0_slice d).
    now slice_other.
  - unfold metaRoot. slice_hit. now apply Uint32_PutUint32.
Qed.

(** *** Leaves *)

Lemma leafEntriesLoop_agree d1 d2 cnt :
  forall off,
    agree d1 d2 off (off + 16 * cnt) ->
    leafEntriesLoop d1 cnt off = leafEntriesLoop d2 cnt off.
Proof.
  induction cnt as [|c IH]; intros off (Hlen & Hag); cbn [leafEntriesLoop].
  - reflexivity.
  - rewrite Hlen. destruct (_ <? _)%nat; [reflexivity|].
    rewrite !Hag by lia.
    change (Z.to_nat leafEntrySize) with 16%nat.
    rewrite (IH (off + 16)%nat); [reflexivity|].
    split; [exact Hlen|]. intros a b Ha Hb. apply Hag; lia.
Qed.

Lemma writeLeafLoop_spec keys :
  forall vals d off,
    length vals = length keys ->
    (off + 16 * length keys <= length d)%nat ->
    Forall u64 keys -> Forall rid_ok vals ->
    exists d',
      writeLeafLoop d off keys vals = Ok (d', (off + 16 * length keys)%nat) /\
      agree d' d 0 off /\
      leafEntriesLoop d' (length keys) off = Ok (keys, vals).
Proof.
  induction keys as [|k keys IH]; intros vals d off Hlen Hfit Hk Hv.
  - destruct vals; [|discriminate]. exists d. cbn.
    rewrite Nat.add_0_r. repeat split; auto.
  - destruct vals as [|v vals]; [discriminate|].
    inversion Hk as [|? ? Hk1 Hk2]; subst. inversion Hv as [|? ? Hv1 Hv2]; subst.
    cbn [length] in *. cbn [writeLeafLoop].
    destruct (Nat.ltb_spec (length d) (off + 14)); [lia|].
    change (Z.to_nat leafEntrySize) with 16%nat.
    set (d1 := store (store (store d off (PutUint64 k)) (off + 8) (PutUint32 (PageID v)))
                     (off + 12) (PutUint16 (SlotID v))).
    assert (Hd1 : length d1 = length d) by (unfold d1; now rewrite !length_store).
    destruct (IH vals d1 (off + 16)%nat) as (d' & Hw & Hag & Hdec); auto; try lia.
    exists d'. split; [rewrite Hw; do 2 f_equal; lia|]. split.
    + apply (agree_trans _ d1).
      * eapply agree_narrow; [exact Hag|lia|lia].
      * split; [exact Hd1|]. intros a b Ha Hb. unfold d1. now do 3 slice_other.
    + cbn [leafEntriesLoop]. destruct Hag as (Hl' & Hag).
      rewrite Hl', Hd1.
      destruct (Nat.ltb_spec (length d) (off + 14)); [lia|].
      change (Z.to_nat leafEntrySize) with 16%nat.
      rewrite Hdec. cbn [bind]. rewrite !Hag by lia.
      destruct Hv1 as (Hp & Hs).
      assert (E1 : Uint64 (slice d1 off (off + 8)) = k).
      { unfold d1. do 2 slice_other. slice_hit. now apply Uint64_PutUint64. }
      assert (E2 : Uint32 (slice d1 (off + 8) (off + 12)) = PageID v).
      { unfold d1. slice_other. slice_hit. now apply Uint32_PutUint32. }
      assert (E3 : Uint16 (slice d1 (off + 12) (off + 14)) = SlotID v).
      { unfold d1. slice_hit. now apply Uint16_PutUint16. }
      rewrite E1, E2, E3. destruct v; reflexivity.
Qed.

Lemma leafCapacity_val : leafCapacity = 254.
Proof. reflexivity. Qed.

Lemma internalCapacity_val : internalCapacity = 338.
Proof. reflexivity. Qed.

Lemma writeLeaf_ok p keys vals :
  length (Data p) = Z.to_nat PayloadSize ->
  length vals = length keys -> (length keys <= 254)%nat ->
  Forall u64 keys -> Forall rid_ok vals ->
  exists p',
    writeLeaf p keys vals = Ok p' /\ ID p' = ID p /\ Checksum p' = Checksum p /\
    DataSize p' = PayloadSize /\
    length (Data p') = Z.to_nat PayloadSize /\
    nodeKind (Data p') = kindLeaf /\ leafLeafEntries p' = Ok (keys, vals).
Proof.
  intros HD Hlen Hcap Hk Hv. unfold writeLeaf.
  assert (HD' : length (Data p) = 4086%nat) by (rewrite HD; reflexivity).
  rewrite Z.mod_small by lia.
  set (d0 := setNodeHeader (Data p) kindLeaf (Z.of_nat (length keys)) 4294967295 0).
  destruct (setNodeHeader_spec (Data p) kindLeaf (Z.of_nat (length keys)) 4294967295 0)
    as (Hkind & Hcnt & _ & Hag0); try (unfold kindLeaf, u32; lia).
  fold d0 in Hkind, Hcnt, Hag0.
  assert (Hd0 : length d0 = 4086%nat) by (unfold d0; now rewrite length_setNodeHeader).
  change (Z.to_nat nodeHdrSize) with 16%nat.
  destruct (writeLeafLoop_spec keys vals d0 16) as (d' & Hw & Hag & Hdec); auto; try lia.
  rewrite Hw. cbn [bind].
  set (off := (16 + 16 * length keys)%nat).
  assert (Hd' : length d' = Z.to_nat PayloadSize) by (destruct Hag as (Hl & _); now rewrite Hl, Hd0).
  pose proof (agree_clearFrom d' off 0 Hd') as Hcl.
  eexists. split; [reflexivity|]. cbn [ID Checksum DataSize Data].
  split; [reflexivity|]. split; [reflexivity|]. split; [reflexivity|].
  split; [now rewrite length_clearFrom|]. split.
  - rewrite (nodeKind_agree _ d' off Hcl) by (unfold off; lia).
    rewrite (nodeKind_agree _ d0 16 Hag) by lia. exact Hkind.
  - unfold leafLeafEntries. cbn [Data].
    destruct Hcl as (Hcl1 & Hcl2). rewrite Hcl2 by (unfold off; lia).
    destruct Hag as (Hag1 & Hag2). rewrite Hag2 by lia.
    rewrite Hcnt, Nat2Z.id. change (Z.to_nat nodeHdrSize) with 16%nat.
    rewrite (leafEntriesLoop_agree _ d'); [exact Hdec|].
    split; [exact Hcl1|]. intros a b Ha Hb. apply Hcl2; [lia|unfold off; lia].
Qed.

(** *** Internal nodes *)

Lemma internalEntriesLoop_agree d1 d2 cnt :
  forall off,
    agree d1 d2 off (off + 12 * cnt) ->
    internalEntriesLoop d1 cnt off = internalEntriesLoop d2 cnt off.
Proof.
  induction cnt as [|c IH]; intros off (Hlen & Hag); cbn [internalEntriesLoop].
  - reflexivity.
  - rewrite Hlen. destruct (_ <? _)%nat; [reflexivity|].
    rewrite !Hag by lia.
    change (Z.to_nat internalEntSize) with 12%nat.
    rewrite (IH (off + 12)%nat); [reflexivity|].
    split; [exact Hlen|]. intros a b Ha Hb. apply Hag; lia.
Qed.

Lemma writeInternalLoop_spec keys :
  forall rest d off,
    length rest = length keys ->
    (off + 12 * length keys <= length d)%nat ->
    Forall u64 keys -> Forall u32 rest ->
    exists d',
      writeInternalLoop d off keys rest = Ok (d', (off + 12 * length keys)%nat) /\
      agree d' d 0 off /\
      internalEntriesLoop d' (length keys) off = Ok (keys, rest).
Proof.
  induction keys as [|k keys IH]; intros rest d off Hlen Hfit Hk Hv.
  - destruct rest; [|discriminate]. exists d. cbn.
    rewrite Nat.add_0_r. repeat split; auto.
  - destruct rest as [|c rest]; [discriminate|].
    inversion Hk as [|? ? Hk1 Hk2]; subst. inversion Hv as [|? ? Hv1 Hv2]; subst.
    cbn [length] in *. cbn [writeInternalLoop].
    destruct (Nat.ltb_spec (length d) (off + 12)); [lia|].
    change (Z.to_nat internalEntSize) with 12%nat.
    set (d1 := store (store d off (PutUint64 k)) (off + 8) (PutUint32 c)).
    assert (Hd1 : length d1 = length d) by (unfold d1; now rewrite !length_store).
    destruct (IH rest d1 (off + 12)%nat) as (d' & Hw & Hag & Hdec); auto; try lia.
    exists d'. split; [rewrite Hw; do 2 f_equal; lia|]. split.
    + apply (agree_trans _ d1).
      * eapply agree_narrow; [exact Hag|lia|lia].
      * split; [exact Hd1|]. intros a b Ha Hb. unfold d1. now do 2 slice_other.
    + cbn [internalEntriesLoop]. destruct Hag as (Hl' & Hag).
      rewrite Hl', Hd1.
      destruct (Nat.ltb_spec (length d) (off + 12)); [lia|].
      change (Z.to_nat internalEntSize) with 12%nat.
      rewrite Hdec. cbn [bind]. rewrite !Hag by lia.
      assert (E1 : Uint64 (slice d1 off (off + 8)) = k).
      { unfold d1. slice_other. slice_hit. now apply Uint64_PutUint64. }
      assert (E2 : Uint32 (slice d1 (off + 8) (off + 12)) = c).
      { unfold d1. slice_hit. now apply Uint32_PutUint32. }
      now rewrite E1, E2.
Qed.

Lemma writeInternal_ok p keys kids :
  length (Data p) = Z.to_nat PayloadSize ->
  length kids = S (length keys) -> (length keys <= 338)%nat ->
  Forall u64 keys -> Forall u32 kids ->
  exists p',
    writeInternal p keys kids = Ok p' /\ ID p' = ID p /\ Checksum p' = Checksum p /\
    DataSize p' = PayloadSize /\
    length (Data p') = Z.to_nat PayloadSize /\
    nodeKind (Data p') = kindInternal /\ internalEntries p' = Ok (keys, kids).
Proof.
  intros HD Hlen Hcap Hk Hv. unfold writeInternal.
  assert (HD' : length (Data p) = 4086%nat) by (rewrite HD; reflexivity).
  rewrite Z.mod_small by lia.
  set (d0 := setNodeHeader (Data p) kindInternal (Z.of_nat (length keys)) 4294967295 0).
  destruct (setNodeHeader_spec (Data p) kindInternal (Z.of_nat (length keys)) 4294967295 0)
    as (Hkind & Hcnt & _ & Hag0); try (unfold kindInternal, u32; lia).
  fold d0 in Hkind, Hcnt, Hag0.
  assert (Hd0 : length d0 = 4086%nat) by (unfold d0; now rewrite length_setNodeHeader).
  destruct kids as [|kid0 rest]; [discriminate|].
  inversion Hv as [|? ? Hv1 Hv2]; subst. cbn [length] in Hlen.
  change (Z.to_nat nodeHdrSize) with 16%nat.
  change (Z.to_nat internalFirstKid) with 4%nat.
  set (d1 := store d0 16 (PutUint32 kid0)).
  assert (Hd1 : length d1 = 4086%nat) by (unfold d1; now rewrite length_store).
  assert (Hag1 : agree d1 d0 0 16).
  { unfold d1. apply agree_store; len_simpl; lia. }
  destruct (writeInternalLoop_spec keys rest d1 (16 + 4)) as (d' & Hw & Hag & Hdec);
    auto; try lia.
  rewrite Hw. cbn [bind].
  set (off := (16 + 4 + 12 * length keys)%nat).
  assert (Hd' : length d' = Z.to_nat PayloadSize) by (destruct Hag as (Hl & _); now rewrite Hl, Hd1).
  pose proof (agree_clearFrom d' off 0 Hd') as Hcl.
  eexists. split; [reflexivity|]. cbn [ID Checksum DataSize Data].
  split; [reflexivity|]. split; [reflexivity|]. split; [reflexivity|].
  split; [now rewrite length_clearFrom|]. split.
  - rewrite (nodeKind_agree _ d' off Hcl) by (unfold off; lia).
    rewrite (nodeKind_agree _ d1 (16 + 4) Hag) by lia.
    rewrite (nodeKind_agree _ d0 16 Hag1) by lia. exact Hkind.
  - unfold internalEntries. cbn [Data].
    rewrite length_clearFrom by exact Hd'.
    change (Z.to_nat nodeHdrSize) with 16%nat.
    change (Z.to_nat internalFirstKid) with 4%nat.
    destruct (Nat.ltb_spec (length d') (16 + 4)); [rewrite Hd', PayloadSize_val in *; lia|].
    destruct Hcl as (Hcl1 & Hcl2). rewrite !Hcl2 by (unfold off; lia).
    destruct Hag as (Hag1' & Hag2). rewrite !Hag2 by lia.
    destruct Hag1 as (_ & Hag1). rewrite (Hag1 2%nat 4%nat) by lia.
    rewrite Hcnt, Nat2Z.id.
    rewrite (internalEntriesLoop_agree _ d');
      [|split; [exact Hcl1|]; intros a b Ha Hb; apply Hcl2; [lia|unfold off; lia]].
    rewrite Hdec. cbn [bind]. unfold d1. slice_hit.
    now rewrite Uint32_PutUint32.
Qed.

(** The index out of range in [writeInternal]: with no more children than
    keys, [kids[i+1]] runs past the slice at the last key at the latest. *)
Lemma writeInternalLoop_panic keys :
  forall rest d off,
    (length rest < length keys)%nat ->
    writeInternalLoop d off keys rest = Err RuntimePanic.
Proof.
  induction keys as [|k keys IH]; intros rest d off Hlen; cbn [length] in Hlen.
  - lia.
  - cbn [writeInternalLoop]. destruct rest as [|c rest]; [reflexivity|].
    destruct (_ <? _)%nat; [reflexivity|]. apply IH. cbn [length] in Hlen. lia.
Qed.

Lemma writeInternal_panic p keys kids :
  (length kids <= length keys)%nat -> keys <> [] ->
  writeInternal p keys kids = Err RuntimePanic.
Proof.
  intros Hlen Hne. unfold writeInternal. destruct kids as [|kid0 rest]; [reflexivity|].
  rewrite writeInternalLoop_panic; [reflexivity|]. cbn [length] in Hlen. lia.
Qed.

Lemma splitInternalArrays_lengths keys kids :
  length kids = S (length keys) -> keys <> [] ->
  let '(lk, lc, rk, rc) := splitInternalArrays keys kids in
  let mid := (length keys / 2)%nat in
  length lk = mid /\ length lc = S mid /\
  length rk = (length keys - mid)%nat /\ length rc = (length keys - mid)%nat /\
  nth_error rk 0 = nth_error keys mid /\ rk <> [].
Proof.
  intros Hlen Hne. unfold splitInternalArrays. cbv zeta.
  assert (Hpos : (0 < length keys)%nat) by (destruct keys; [contradiction|cbn; lia]).
  pose proof (Nat.div_lt (length keys) 2 Hpos ltac:(lia)) as Hmid.
  rewrite !length_firstn, !length_skipn, Hlen.
  repeat split; try lia.
  - rewrite nth_error_skipn. f_equal. lia.
  - intros E. apply (f_equal (@length Z)) in E. rewrite length_skipn in E.
    cbn [length] in E. lia.
Qed.

(** * Sorted key arrays and sort.Search *)

Lemma searchLoop_spec (pred : nat -> bool) (n : nat) :
  (forall x y, (x <= y < n)%nat -> pred x = true -> pred y = true) ->
  forall budget i j,
    (i <= j <= n)%nat -> (j - i <= budget)%nat ->
    (forall x, (x < i)%nat -> pred x = false) ->
    (forall x, (j <= x < n)%nat -> pred x = true) ->
    let r := searchLoop budget pred i j in
    (r <= n)%nat /\ (forall x, (x < r)%nat -> pred x = false) /\
    (forall x, (r <= x < n)%nat -> pred x = true).
Proof.
  intros Hmono. induction budget as [|b IH]; intros i j Hij Hb Hlo Hhi; cbn [searchLoop].
  - assert (i = j) by lia. subst j. cbv zeta. split; [lia|]. split; auto.
  - destruct (Nat.ltb_spec i j) as [Hlt|Hge].
    2:{ assert (i = j) by lia. subst j. cbv zeta. split; [lia|]. split; auto. }
    set (h := ((i + j) / 2)%nat).
    assert (Hh : (i <= h < j)%nat).
    { unfold h. split.
      - apply Nat.div_le_lower_bound; lia.
      - apply Nat.Div0.div_lt_upper_bound; lia. }
    destruct (pred h) eqn:Eh; cbn [negb].
    + apply IH; try lia; auto.
      intros x Hx. destruct (Nat.lt_ge_cases x j); [|apply Hhi; lia].
      apply (Hmono h x); [lia|exact Eh].
    + apply IH; try lia; auto.
      intros x Hx. destruct (Nat.lt_ge_cases x i); [now apply Hlo|].
      destruct (pred x) eqn:Ex; [|reflexivity].
      rewrite (Hmono x h) in Eh; [discriminate|lia|exact Ex].
Qed.

Lemma Search_spec (pred : nat -> bool) (n : nat) :
  (forall x y, (x <= y < n)%nat -> pred x = true -> pred y = true) ->
  (Search n pred <= n)%nat /\
  (forall x, (x < Search n pred)%nat -> pred x = false) /\
  (forall x, (Search n pred <= x < n)%nat -> pred x = true).
Proof.
  intros Hmono. unfold Search.
  apply (searchLoop_spec pred n Hmono n 0 n); lia.
Qed.

Lemma nth_nth_error (l : list Z) i a : nth_error l i = Some a -> nth i l 0 = a.
Proof. apply nth_error_nth. Qed.

Lemma nth_error_lt {A : Type} (l : list A) i a : nth_error l i = Some a -> (i < length l)%nat.
Proof. intros H. apply nth_error_Some. congruence. Qed.

Lemma nth_error_get (l : list Z) i :
  (i < length l)%nat -> nth_error l i = Some (nth i l 0).
Proof. apply nth_error_nth'. Qed.

(** The leaf search: first index whose key is [>= key]. *)
Lemma Search_leaf_spec keys key :
  ascending keys ->
  let i := Search (length keys) (fun i => key <=? nth i keys 0) in
  (i <= length keys)%nat /\
  (forall x a, (x < i)%nat -> nth_error keys x = Some a -> a < key) /\
  (forall x a, (i <= x)%nat -> nth_error keys x = Some a -> key <= a).
Proof.
  intros Hasc. cbv zeta.
  destruct (Search_spec (fun i => key <=? nth i keys 0) (length keys)) as (H1 & H2 & H3).
  { intros x y Hxy Hx. apply Z.leb_le in Hx. apply Z.leb_le.
    destruct (Nat.eq_dec x y) as [->|Hne]; [exact Hx|].
    pose proof (Hasc x y _ _ ltac:(lia) (nth_error_get keys x ltac:(lia))
                     (nth_error_get keys y ltac:(lia))). lia. }
  split; [exact H1|]. split.
  - intros x a Hx Ha. specialize (H2 x Hx). apply Z.leb_gt in H2.
    now rewrite (nth_nth_error _ _ _ Ha) in H2.
  - intros x a Hx Ha. pose proof (nth_error_lt _ _ _ Ha).
    specialize (H3 x ltac:(lia)). apply Z.leb_le in H3.
    now rewrite (nth_nth_error _ _ _ Ha) in H3.
Qed.

Lemma route_spec ks key :
  ascending ks ->
  (route ks key <= length ks)%nat /\
  (forall x a, (x < route ks key)%nat -> nth_error ks x = Some a -> a <= key) /\
  (forall x a, (route ks key <= x)%nat -> nth_error ks x = Some a -> key < a).
Proof.
  intros Hasc. unfold route.
  destruct (Search_spec (fun i => key <? nth i ks 0) (length ks)) as (H1 & H2 & H3).
  { intros x y Hxy Hx. apply Z.ltb_lt in Hx. apply Z.ltb_lt.
    destruct (Nat.eq_dec x y) as [->|Hne]; [exact Hx|].
    pose proof (Hasc x y _ _ ltac:(lia) (nth_error_get ks x ltac:(lia))
                     (nth_error_get ks y ltac:(lia))). lia. }
  split; [exact H1|]. split.
  - intros x a Hx Ha. specialize (H2 x Hx). apply Z.ltb_ge in H2.
    now rewrite (nth_nth_error _ _ _ Ha) in H2.
  - intros x a Hx Ha. pose proof (nth_error_lt _ _ _ Ha).
    specialize (H3 x ltac:(lia)). apply Z.ltb_lt in H3.
    now rewrite (nth_nth_error _ _ _ Ha) in H3.
Qed.

(** *** insertAt, firstn, skipn *)

Lemma length_insertAt {A : Type} (a : list A) i v :
  length (insertAt a i v) = S (length a).
Proof.
  unfold insertAt. rewrite length_app. cbn [length].
  rewrite length_firstn, length_skipn. lia.
Qed.

Lemma nth_error_insertAt {A : Type} (a : list A) i v j :
  (i <= length a)%nat ->
  nth_error (insertAt a i v) j =
  if (j <? i)%nat then nth_error a j
  else if (j =? i)%nat then Some v else nth_error a (j - 1).
Proof.
  intros Hi. unfold insertAt. rewrite nth_error_app, length_firstn, nth_error_firstn.
  replace (Nat.min i (length a)) with i by lia.
  destruct (Nat.ltb_spec j i); [reflexivity|].
  destruct (Nat.eqb_spec j i) as [->|Hne].
  - now rewrite Nat.sub_diag.
  - destruct (j - i)%nat as [|m] eqn:E; [lia|]. cbn [nth_error].
    rewrite nth_error_skipn. f_equal. lia.
Qed.

Lemma ascending_insertAt keys i key :
  ascending keys -> (i <= length keys)%nat ->
  (forall x a, (x < i)%nat -> nth_error keys x = Some a -> a < key) ->
  (forall x a, (i <= x)%nat -> nth_error keys x = Some a -> key < a) ->
  ascending (insertAt keys i key).
Proof.
  intros Hasc Hi Hlo Hhi x y a b Hxy Ha Hb.
  rewrite nth_error_insertAt in Ha, Hb by exact Hi.
  destruct (Nat.ltb_spec x i); destruct (Nat.ltb_spec y i); try lia.
  - now apply (Hasc x y).
  - destruct (Nat.eqb_spec y i).
    + injection Hb as <-. now apply (Hlo x).
    + apply (Hasc x (y - 1)%nat); auto. lia.
  - destruct (Nat.eqb_spec x i); destruct (Nat.eqb_spec y i); try lia.
    + injection Ha as <-. apply (Hhi (y - 1)%nat); auto. lia.
    + apply (Hasc (x - 1)%nat (y - 1)%nat); auto. lia.
Qed.

Lemma ascending_firstn keys m : ascending keys -> ascending (firstn m keys).
Proof.
  intros Hasc x y a b Hxy Ha Hb. rewrite nth_error_firstn in Ha, Hb.
  destruct (x <? m)%nat; [|discriminate]. destruct (y <? m)%nat; [|discriminate].
  now apply (Hasc x y).
Qed.

Lemma ascending_skipn keys m : ascending keys -> ascending (skipn m keys).
Proof.
  intros Hasc x y a b Hxy Ha Hb. rewrite nth_error_skipn in Ha, Hb.
  apply (Hasc (m + x)%nat (m + y)%nat); auto. lia.
Qed.

Lemma ascending_nil : ascending [].
Proof. intros i j a b _ H. destruct i; discriminate. Qed.

Lemma ascending_one k : ascending [k].
Proof.
  intros i j a b Hij Ha Hb. destruct j as [|j]; [lia|].
  cbn in Hb. destruct j; discriminate.
Qed.

Lemma ascending_inj keys i j a :
  ascending keys -> nth_error keys i = Some a -> nth_error keys j = Some a -> i = j.
Proof.
  intros Hasc Hi Hj. destruct (Nat.lt_total i j) as [H|[H|H]]; [|exact H|].
  - pose proof (Hasc i j _ _ H Hi Hj). lia.
  - pose proof (Hasc j i _ _ H Hj Hi). lia.
Qed.

Lemma Forall_firstn {A : Type} (P : A -> Prop) (a : list A) n :
  Forall P a -> Forall P (firstn n a).
Proof.
  intros H. rewrite Forall_forall in *. intros x Hx. apply H.
  rewrite <- (firstn_skipn n a). apply in_or_app. now left.
Qed.

Lemma Forall_skipn {A : Type} (P : A -> Prop) (a : list A) n :
  Forall P a -> Forall P (skipn n a).
Proof.
  intros H. rewrite Forall_forall in *. intros x Hx. apply H.
  rewrite <- (firstn_skipn n a). apply in_or_app. now right.
Qed.

Lemma Forall_insertAt {A : Type} (P : A -> Prop) (a : list A) i v :
  Forall P a -> P v -> Forall P (insertAt a i v).
Proof.
  intros Ha Hv. unfold insertAt. apply Forall_app. split.
  - now apply Forall_firstn.
  - constructor; [exact Hv|now apply Forall_skipn].
Qed.

(** *** The entries of a leaf *)

Lemma holds_insertAt keys vals i k0 v0 k v :
  (i <= length keys)%nat -> length vals = length keys ->
  holds (insertAt keys i k0) (insertAt vals i v0) k v <->
  (k = k0 /\ v = v0) \/ holds keys vals k v.
Proof.
  intros Hi Hlen. unfold holds. split.
  - intros (x & Hk & Hv).
    rewrite nth_error_insertAt in Hk by lia. rewrite nth_error_insertAt in Hv by lia.
    destruct (x <? i)%nat; [right; now exists x|].
    destruct (x =? i)%nat; [left; split; congruence|right; now exists (x - 1)%nat].
  - intros [(-> & ->)|(x & Hk & Hv)].
    + exists i. rewrite !nth_error_insertAt by lia.
      destruct (Nat.ltb_spec i i); [lia|]. now rewrite Nat.eqb_refl.
    + destruct (Nat.lt_ge_cases x i).
      * exists x. rewrite !nth_error_insertAt by lia.
        destruct (Nat.ltb_spec x i); [auto|lia].
      * exists (S x). rewrite !nth_error_insertAt by lia.
        destruct (Nat.ltb_spec (S x) i); [lia|].
        destruct (Nat.eqb_spec (S x) i); [lia|].
        replace (S x - 1)%nat with x by lia. auto.
Qed.

Lemma holds_split keys vals m k v :
  holds keys vals k v <->
  holds (firstn m keys) (firstn m vals) k v \/ holds (skipn m keys) (skipn m vals) k v.
Proof.
  unfold holds. split.
  - intros (x & Hk & Hv). destruct (Nat.lt_ge_cases x m).
    + left. exists x. rewrite !nth_error_firstn.
      destruct (Nat.ltb_spec x m); [auto|lia].
    + right. exists (x - m)%nat. rewrite !nth_error_skipn.
      replace (m + (x - m))%nat with x by lia. auto.
  - intros [(x & Hk & Hv)|(x & Hk & Hv)].
    + rewrite nth_error_firstn in Hk, Hv. destruct (x <? m)%nat; [|discriminate].
      now exists x.
    + rewrite nth_error_skipn in Hk, Hv. now exists (m + x)%nat.
Qed.

(** What the leaf search of [Get] and [Insert] finds. *)
Lemma leaf_search_found keys vals key v :
  ascending keys -> holds keys vals key v ->
  let i := Search (length keys) (fun i => key <=? nth i keys 0) in
  (i <? length keys)%nat = true /\ nth i keys 0 = key /\ nth_error vals i = Some v.
Proof.
  intros Hasc (x & Hk & Hv). cbv zeta.
  destruct (Search_leaf_spec keys key Hasc) as (H1 & H2 & H3). cbv zeta in H1, H2, H3.
  set (i := Search _ _) in *.
  pose proof (nth_error_lt _ _ _ Hk) as Hx.
  assert (Hix : i = x).
  { destruct (Nat.lt_total i x) as [H|[H|H]]; [|exact H|].
    - pose proof (H3 i _ ltac:(lia) (nth_error_get keys i ltac:(lia))) as Hge.
      pose proof (Hasc i x _ _ H (nth_error_get keys i ltac:(lia)) Hk). lia.
    - pose proof (H2 x _ H Hk). lia. }
  rewrite Hix. split; [apply Nat.ltb_lt; lia|]. split; [now apply nth_nth_error|exact Hv].
Qed.

Lemma leaf_search_missing keys key :
  ascending keys -> (forall i, nth_error keys i <> Some key) ->
  let i := Search (length keys) (fun i => key <=? nth i keys 0) in
  (i <? length keys)%nat && (nth i keys 0 =? key) = false /\
  (i <= length keys)%nat /\
  (forall x a, (x < i)%nat -> nth_error keys x = Some a -> a < key) /\
  (forall x a, (i <= x)%nat -> nth_error keys x = Some a -> key < a).
Proof.
  intros Hasc Hmiss. cbv zeta.
  destruct (Search_leaf_spec keys key Hasc) as (H1 & H2 & H3). cbv zeta in H1, H2, H3.
  set (i := Search _ _) in *.
  split; [|split; [exact H1|split; [exact H2|]]].
  - destruct (Nat.ltb_spec i (length keys)); [|reflexivity]. cbn [andb].
    apply Z.eqb_neq. intros E. apply (Hmiss i). rewrite nth_error_get by lia.
    now f_equal.
  - intros x a Hx Ha. pose proof (H3 x a Hx Ha).
    assert (a <> key) by (intros ->; now apply (Hmiss x)). lia.
Qed.

(** * The B-tree: what the index file holds *)

Lemma in_range_route ks key : ascending ks -> in_range ks (route ks key) key.
Proof.
  intros Hasc. destruct (route_spec ks key Hasc) as (H1 & H2 & H3). split.
  - intros s Hs. apply (H3 (route ks key)); auto.
  - intros s Hpos Hs. apply (H2 (route ks key - 1)%nat); auto. lia.
Qed.

Lemma in_range_unique ks i j k :
  ascending ks -> (i <= length ks)%nat -> (j <= length ks)%nat ->
  in_range ks i k -> in_range ks j k -> i = j.
Proof.
  intros Hasc Hi Hj (Hiu & Hil) (Hju & Hjl).
  assert (Hlt : forall a b, (a < b)%nat -> (b <= length ks)%nat ->
            (forall s, nth_error ks a = Some s -> k < s) ->
            (forall s, (0 < b)%nat -> nth_error ks (b - 1) = Some s -> s <= k) -> False).
  { intros a b Hab Hb Hau Hbl.
    pose proof (Hau _ (nth_error_get ks a ltac:(lia))) as H1.
    pose proof (Hbl _ ltac:(lia) (nth_error_get ks (b - 1) ltac:(lia))) as H2.
    destruct (Nat.eq_dec a (b - 1)) as [E|E].
    - rewrite E in H1. lia.
    - pose proof (Hasc a (b - 1)%nat _ _ ltac:(lia) (nth_error_get ks a ltac:(lia))
                       (nth_error_get ks (b - 1) ltac:(lia))). lia. }
  destruct (Nat.lt_total i j) as [H|[H|H]]; [|exact H|]; exfalso.
  - now apply (Hlt i j).
  - now apply (Hlt j i).
Qed.

Lemma route_nil key : route [] key = 0%nat.
Proof. reflexivity. Qed.

Lemma kind_values :
  (kindInternal =? kindLeaf) = false /\ (kindLeaf =? kindLeaf) = true /\
  (kindInternal =? kindInternal) = true.
Proof. repeat split. Qed.

(** The descent of [findLeaf] ends at the leaf the separators route to. *)
Lemma findLeaf_inv t ks ls fuel key :
  tree_inv t ks ls -> (2 <= fuel)%nat ->
  exists l p,
    nth_error ls (route ks key) = Some l /\
    findLeaf fuel (tfile t) (rootID t) key = Ok p /\
    ReadPage (tfile t) (lid l) = Ok p /\ ID p = lid l /\
    nodeKind (Data p) = kindLeaf /\
    leafLeafEntries p = Ok (lkeys l, lvals l).
Proof.
  intros Hinv Hfuel. destruct Hinv as [_ _ _ Hroot (Hcnt & _) (Hasc & _) _ Hleaves].
  destruct (route_spec ks key Hasc) as (Hr & _).
  destruct (nth_error ls (route ks key)) as [l|] eqn:El.
  2:{ apply nth_error_None in El. lia. }
  destruct (Hleaves _ _ El) as ((p & Hp & Hid & Hkind & Hdec) & _).
  exists l, p. split; [reflexivity|]. split; [|auto].
  destruct fuel as [|fuel]; [lia|]. cbn [findLeaf].
  destruct Hroot as [(-> & Hroot)|(Hne & (pr & Hpr & _ & Hkr & Hdr) & _)].
  - rewrite route_nil in El. destruct ls as [|l0 ls']; [discriminate|].
    cbn in El. injection El as ->. cbn [map] in Hroot. injection Hroot as Hroot _.
    rewrite <- Hroot, Hp. cbn [bind]. now rewrite Hkind.
  - rewrite Hpr. cbn [bind]. rewrite Hkr.
    destruct kind_values as (-> & _ & ->). rewrite Hdr. cbn [bind].
    fold (route ks key).
    rewrite nth_error_map, El. cbn [option_map].
    destruct fuel as [|fuel]; [lia|]. cbn [findLeaf].
    rewrite Hp. cbn [bind]. now rewrite Hkind.
Qed.

Lemma tree_holds_leaf t ks ls key v l :
  tree_inv t ks ls -> nth_error ls (route ks key) = Some l ->
  tree_holds ls key v -> holds (lkeys l) (lvals l) key v.
Proof.
  intros Hinv El (i & l' & Hi & Hh).
  destruct Hinv as [_ _ _ _ (Hcnt & _) (Hasc & _) _ Hleaves].
  destruct (Hleaves _ _ Hi) as (_ & _ & Hrange).
  destruct Hh as (x & Hk & Hv).
  pose proof (Hrange key (nth_error_In _ _ Hk)) as Hri.
  pose proof (nth_error_lt _ _ _ Hi). pose proof (nth_error_lt _ _ _ El).
  assert (i = route ks key).
  { apply (in_range_unique ks _ _ key Hasc); try lia; auto.
    now apply in_range_route. }
  subst i. assert (l' = l) by congruence. subst l'. now exists x.
Qed.

(** [Get] on a tree of the invariant. *)
Lemma BTree_Get_spec t ks ls fuel key :
  tree_inv t ks ls -> (2 <= fuel)%nat ->
  (forall v, tree_holds ls key v -> BTree_Get fuel t key = Ok (v, true)) /\
  ((forall v, ~ tree_holds ls key v) -> BTree_Get fuel t key = Ok (zeroRID, false)).
Proof.
  intros Hinv Hfuel.
  destruct (findLeaf_inv t ks ls fuel key Hinv Hfuel) as (l & p & El & Hf & _ & _ & _ & Hdec).
  pose proof (inv_leaves _ _ _ Hinv _ _ El) as (_ & (Hlen & _ & Hasc & _) & _).
  unfold BTree_Get. rewrite Hf. cbn [bind]. rewrite Hdec. cbn [bind]. split.
  - intros v Hv. pose proof (tree_holds_leaf t ks ls key v l Hinv El Hv) as Hh.
    destruct (leaf_search_found _ _ key v Hasc Hh) as (H1 & H2 & H3).
    cbv zeta in H1, H2, H3. rewrite H1, H2, Z.eqb_refl, H3.
    apply Nat.ltb_lt in H1.
    destruct (Nat.ltb_spec 0 (length (lkeys l))); [reflexivity|lia].
  - intros Hno.
    destruct (leaf_search_missing (lkeys l) key Hasc) as (H1 & _).
    { intros i Hi. pose proof (nth_error_lt _ _ _ Hi) as Hlt.
      destruct (nth_error (lvals l) i) as [v|] eqn:Ev.
      - apply (Hno v). exists (route ks key), l. split; [exact El|]. now exists i.
      - apply nth_error_None in Ev. lia. }
    cbv zeta in H1. apply andb_false_iff in H1.
    destruct H1 as [->|H1]; [reflexivity|]. rewrite H1.
    now rewrite andb_false_r.
Qed.

(** A second insert of a stored key is refused and changes nothing. *)
Lemma BTree_Insert_dup t ks ls fuel key v rid :
  tree_inv t ks ls -> (2 <= fuel)%nat -> tree_holds ls key v ->
  BTree_Insert fuel t key rid = (Err ErrDupKey, t).
Proof.
  intros Hinv Hfuel Hv.
  destruct (findLeaf_inv t ks ls fuel key Hinv Hfuel) as (l & p & El & Hf & _ & _ & Hk & Hdec).
  pose proof (inv_leaves _ _ _ Hinv _ _ El) as (_ & (Hlen & _ & Hasc & _) & _).
  pose proof (tree_holds_leaf t ks ls key v l Hinv El Hv) as Hh.
  destruct (leaf_search_found _ _ key v Hasc Hh) as (H1 & H2 & H3).
  cbv zeta in H1, H2, H3.
  unfold BTree_Insert. rewrite Hf, Hk, Z.eqb_refl. cbn [negb]. rewrite Hdec.
  now rewrite H1, H2, Z.eqb_refl.
Qed.

(** *** Updating the list of leaves *)

Lemma length_replaceAt {A : Type} (ls : list A) j x :
  (j < length ls)%nat -> length (replaceAt ls j x) = length ls.
Proof.
  intros H. unfold replaceAt. rewrite length_app, length_firstn. cbn [length].
  rewrite length_skipn. lia.
Qed.

Lemma length_splitAt {A : Type} (ls : list A) j x y :
  (j < length ls)%nat -> length (splitAt ls j x y) = S (length ls).
Proof.
  intros H. unfold splitAt. rewrite length_app, length_firstn. cbn [length].
  rewrite length_skipn. lia.
Qed.

Lemma nth_error_replaceAt {A : Type} (ls : list A) j x i :
  (j < length ls)%nat ->
  nth_error (replaceAt ls j x) i = if (i =? j)%nat then Some x else nth_error ls i.
Proof.
  intros H. unfold replaceAt. rewrite nth_error_app, length_firstn, nth_error_firstn.
  replace (Nat.min j (length ls)) with j by lia.
  destruct (Nat.ltb_spec i j); destruct (Nat.eqb_spec i j); try lia; try reflexivity.
  - subst. now rewrite Nat.sub_diag.
  - destruct (i - j)%nat as [|m] eqn:E; [lia|]. cbn [nth_error].
    rewrite nth_error_skipn. f_equal. lia.
Qed.

Lemma nth_error_splitAt {A : Type} (ls : list A) j x y i :
  (j < length ls)%nat ->
  nth_error (splitAt ls j x y) i =
  if (i <? j)%nat then nth_error ls i
  else if (i =? j)%nat then Some x
  else if (i =? S j)%nat then Some y else nth_error ls (i - 1).
Proof.
  intros H. unfold splitAt. rewrite nth_error_app, length_firstn, nth_error_firstn.
  replace (Nat.min j (length ls)) with j by lia.
  destruct (Nat.ltb_spec i j); [reflexivity|].
  destruct (Nat.eqb_spec i j); [subst; now rewrite Nat.sub_diag|].
  destruct (Nat.eqb_spec i (S j)).
  - subst. replace (S j - j)%nat with 1%nat by lia. reflexivity.
  - destruct (i - j)%nat as [|[|m]] eqn:E; [lia|lia|]. cbn [nth_error].
    rewrite nth_error_skipn. f_equal. lia.
Qed.

Lemma map_replaceAt {A B : Type} (g : A -> B) (ls : list A) j x l :
  nth_error ls j = Some l -> g x = g l -> map g (replaceAt ls j x) = map g ls.
Proof.
  intros Hl Hg. pose proof (nth_error_lt _ _ _ Hl) as Hj.
  apply nth_error_ext. intros i.
  rewrite !nth_error_map, nth_error_replaceAt by exact Hj.
  destruct (Nat.eqb_spec i j) as [->|]; [|reflexivity].
  rewrite Hl. cbn. now rewrite Hg.
Qed.

Lemma map_splitAt {A B : Type} (g : A -> B) (ls : list A) j x y l :
  nth_error ls j = Some l -> g x = g l ->
  map g (splitAt ls j x y) = insertAt (map g ls) (S j) (g y).
Proof.
  intros Hl Hg. pose proof (nth_error_lt _ _ _ Hl) as Hj.
  apply nth_error_ext. intros i.
  rewrite nth_error_insertAt by (rewrite length_map; lia).
  rewrite !nth_error_map, nth_error_splitAt by exact Hj.
  destruct (Nat.ltb_spec i j); destruct (Nat.ltb_spec i (S j)); try lia.
  - reflexivity.
  - destruct (Nat.eqb_spec i j); [|lia]. subst i. rewrite Hl. cbn. now rewrite Hg.
  - destruct (Nat.eqb_spec i j); [lia|].
    destruct (Nat.eqb_spec i (S j)); reflexivity.
Qed.

(** *** Writing one page of a file of whole pages *)

Lemma page_write f n p :
  length f = (n * 4096)%nat -> page_ok p -> DataSize p <= PayloadSize ->
  0 <= ID p <= Z.of_nat n ->
  exists p' f',
    WritePage f p = (Ok tt, p', f') /\
    length f' = (Nat.max n (Z.to_nat (ID p) + 1) * 4096)%nat /\
    ReadPage f' (ID p) = Ok p' /\ Data p' = Data p /\ ID p' = ID p /\
    (forall id, 0 <= id < Z.of_nat n -> id <> ID p -> ReadPage f' id = ReadPage f id).
Proof.
  intros Hlen Hok Hsz Hid.
  destruct (ReadPage_WritePage_same f p Hok Hsz) as (p' & f' & Hw & Hp' & Hf' & Hr).
  exists p', f'. split; [exact Hw|]. split; [|split; [exact Hr|]].
  - rewrite Hf', length_WriteAt, length_encodePage, Hlen.
    unfold pageOffset, PageSize. change (Z.to_nat 4096) with 4096%nat. lia.
  - split; [now rewrite Hp'|]. split; [now rewrite Hp'|].
    intros id Hi Hne. rewrite Hf'. apply ReadPage_WriteAt_other; try lia.
    + apply length_encodePage.
    + rewrite Hlen. unfold PageSize. lia.
Qed.

Lemma pageCount_whole f n :
  length f = (n * 4096)%nat -> Z.of_nat n < 2 ^ 32 -> pageCount f = Z.of_nat n.
Proof.
  intros Hlen Hn. unfold pageCount, PageSize. rewrite Hlen.
  rewrite Nat2Z.inj_mul. change (Z.of_nat 4096) with 4096.
  rewrite Z.div_mul by lia. apply Z.mod_small. lia.
Qed.

Lemma treeWrite_unfold t p p' f' :
  WritePage (tfile t) p = (Ok tt, p', f') ->
  treeWrite t p = (Ok tt, mkBTree f' (rootID t)).
Proof. intros H. unfold treeWrite. now rewrite H. Qed.

Lemma leafLeafEntries_Data p q :
  Data p = Data q -> leafLeafEntries p = leafLeafEntries q.
Proof. intros E. unfold leafLeafEntries. now rewrite E. Qed.

Lemma internalEntries_Data p q :
  Data p = Data q -> internalEntries p = internalEntries q.
Proof. intros E. unfold internalEntries. now rewrite E. Qed.

(** The page [allocPage] returns. *)
Lemma allocPage_spec t kind n :
  length (tfile t) = (n * 4096)%nat -> Z.of_nat n < 2 ^ 32 ->
  exists p, allocPage t kind = (Z.of_nat n, p) /\ ID p = Z.of_nat n /\
            page_ok p /\ length (Data p) = Z.to_nat PayloadSize.
Proof.
  intros Hlen Hn. unfold allocPage. rewrite (pageCount_whole _ n Hlen Hn).
  eexists. split; [reflexivity|]. cbn [ID Checksum DataSize Data newPage].
  split; [reflexivity|]. unfold page_ok. cbn [ID Checksum DataSize Data].
  rewrite length_setNodeHeader, length_zeros, PayloadSize_val. lia.
Qed.

(** *** A fresh tree *)

Lemma Open_empty :
  exists t, Open [] = Ok t /\ tree_inv t [] [emptyLeaf].
Proof.
  unfold Open. cbn [length Nat.eqb].
  set (meta := mkPage 0 0 PayloadSize
                 (setNodeHeader (Data (newPage 0)) kindMeta 0 4294967295 0)).
  set (root := mkPage 1 0 PayloadSize
                 (setNodeHeader (Data (newPage 1)) kindLeaf 0 4294967295 0)).
  assert (Hz : length (Data (newPage 0)) = 4086%nat) by (cbn; now rewrite length_zeros).
  assert (Hmok : page_ok meta).
  { unfold page_ok, meta. cbn [ID Checksum DataSize Data].
    rewrite length_setNodeHeader, Hz, PayloadSize_val. lia. }
  assert (Hrok : page_ok root).
  { unfold page_ok, root. cbn [ID Checksum DataSize Data].
    rewrite length_setNodeHeader. change (Data (newPage 1)) with (Data (newPage 0)).
    rewrite Hz, PayloadSize_val. lia. }
  destruct (page_write [] 0 meta eq_refl Hmok) as (m1 & f1 & Hw1 & Hl1 & Hr1 & Hd1 & Hi1 & _);
    [cbn; lia|cbn; lia|].
  rewrite Hw1. change (Z.to_nat (ID meta) + 1)%nat with 1%nat in Hl1. cbn [Nat.max] in Hl1.
  destruct (page_write f1 1 root Hl1 Hrok) as (r2 & f2 & Hw2 & Hl2 & Hr2 & Hd2 & Hi2 & Ho2);
    [cbn; lia|cbn; lia|].
  rewrite Hw2. change (Z.to_nat (ID root) + 1)%nat with 2%nat in Hl2. cbn [Nat.max] in Hl2.
  set (meta' := set_Data m1 (setMetaRoot (Data m1) 1)).
  assert (Hm1 : length (Data m1) = 4086%nat).
  { rewrite Hd1. unfold meta. cbn [Data]. now rewrite length_setNodeHeader. }
  destruct (setMetaRoot_spec (Data m1) 1) as (Hsl & _ & _); [lia|unfold u32; lia|].
  assert (Hm'ok : page_ok meta').
  { destruct (ReadPage_inv f1 (ID meta) m1 ltac:(cbn; lia) Hr1) as ((H1 & H2 & H3 & H4) & _).
    unfold page_ok, meta'. cbn [ID Checksum DataSize Data set_Data].
    rewrite Hsl. tauto. }
  assert (Hm'id : ID meta' = 0) by (unfold meta'; cbn [ID set_Data]; now rewrite Hi1).
  destruct (page_write f2 2 meta' Hl2 Hm'ok) as (m3 & f3 & Hw3 & Hl3 & Hr3 & Hd3 & Hi3 & Ho3).
  { destruct (ReadPage_inv f1 (ID meta) m1 ltac:(cbn; lia) Hr1) as (_ & H & _).
    exact H. }
  { rewrite Hm'id. lia. }
  rewrite Hw3. rewrite Hm'id in *. cbn [Z.to_nat Nat.add Nat.max] in Hl3.
  eexists. split; [reflexivity|].
  assert (Hroot : ReadPage f3 1 = Ok r2).
  { rewrite Ho3 by lia. exact Hr2. }
  destruct (setNodeHeader_spec (Data (newPage 1)) kindLeaf 0 4294967295 0)
    as (Hk & Hc & _); [cbn; rewrite length_zeros; lia|unfold kindLeaf; lia|lia|unfold u32; lia|].
  constructor; cbn [tfile rootID tree_pages length map lid emptyLeaf Nat.add].
  - exact Hl3.
  - exists m3. split; [exact Hr3|exact Hi3].
  - lia.
  - left. split; reflexivity.
  - lia.
  - split; [apply ascending_nil|constructor].
  - split; [repeat constructor; intros []|]. intros l [<-|[]]. cbn. lia.
  - intros i l Hi. destruct i as [|[|i]]; cbn in Hi; try discriminate.
    injection Hi as <-. split; [|split].
    + exists r2. cbn [lid lkeys lvals]. split; [exact Hroot|]. split; [exact Hi2|].
      rewrite Hd2. unfold root. cbn [Data]. split; [exact Hk|].
      unfold leafLeafEntries. cbn [Data]. rewrite Hd2. unfold root. cbn [Data].
      now rewrite Hc.
    + unfold leaf_wf. cbn. repeat split; try lia; try constructor. apply ascending_nil.
    + intros k [].
Qed.

Lemma In_firstn {A : Type} (l : list A) n x : In x (firstn n l) -> In x l.
Proof. intros H. rewrite <- (firstn_skipn n l). apply in_or_app. now left. Qed.

Lemma In_skipn {A : Type} (l : list A) n x : In x (skipn n l) -> In x l.
Proof. intros H. rewrite <- (firstn_skipn n l). apply in_or_app. now right. Qed.

Lemma In_insertAt {A : Type} (a : list A) i v x :
  In x (insertAt a i v) -> x = v \/ In x a.
Proof.
  unfold insertAt. intros H. apply in_app_or in H. destruct H as [H|[H|H]].
  - right. now apply In_firstn in H.
  - now left.
  - right. now apply In_skipn in H.
Qed.

Lemma In_replaceAt {A : Type} (ls : list A) j x y :
  In y (replaceAt ls j x) -> y = x \/ In y ls.
Proof.
  unfold replaceAt. intros H. apply in_app_or in H. destruct H as [H|[H|H]].
  - right. now apply In_firstn in H.
  - now left.
  - right. now apply In_skipn in H.
Qed.

Lemma In_splitAt {A : Type} (ls : list A) j x1 x2 y :
  In y (splitAt ls j x1 x2) -> y = x1 \/ y = x2 \/ In y ls.
Proof.
  unfold splitAt. intros H. apply in_app_or in H. destruct H as [H|[H|[H|H]]].
  - right. right. now apply In_firstn in H.
  - now left.
  - right. now left.
  - right. right. now apply In_skipn in H.
Qed.

Lemma lid_distinct (ls : list leaf) i j a b :
  NoDup (map lid ls) -> nth_error ls i = Some a -> nth_error ls j = Some b ->
  i <> j -> lid a <> lid b.
Proof.
  intros Hnd Ha Hb Hne E. apply Hne.
  apply (proj1 (NoDup_nth_error (map lid ls)) Hnd).
  - rewrite length_map. now apply (nth_error_lt _ _ _ Ha).
  - rewrite !nth_error_map, Ha, Hb. cbn. now rewrite E.
Qed.

(** The entries of the leaf after the in-memory insert of [Insert]. *)
Lemma leaf_insert_wf ks j l key rid :
  leaf_wf l -> u64 key -> rid_ok rid ->
  (forall i, nth_error (lkeys l) i <> Some key) ->
  in_range ks j key -> (forall k, In k (lkeys l) -> in_range ks j k) ->
  let i := Search (length (lkeys l)) (fun i => key <=? nth i (lkeys l) 0) in
  let keys' := insertU64 (lkeys l) i key in
  let vals' := insertRID (lvals l) i rid in
  (i <? length (lkeys l))%nat && (nth i (lkeys l) 0 =? key) = false /\
  length vals' = length keys' /\ length keys' = S (length (lkeys l)) /\
  ascending keys' /\ Forall u64 keys' /\ Forall rid_ok vals' /\
  (forall k, In k keys' -> in_range ks j k) /\
  (forall k v, holds keys' vals' k v <->
               (k = key /\ v = rid) \/ holds (lkeys l) (lvals l) k v).
Proof.
  intros (Hlen & Hcap & Hasc & Hk & Hv) Hkey Hrid Hmiss Hrk Hrange. cbv zeta.
  destruct (leaf_search_missing (lkeys l) key Hasc Hmiss) as (H1 & H2 & H3 & H4).
  cbv zeta in H1, H2, H3, H4. set (i := Search _ _) in *.
  unfold insertU64, insertRID.
  split; [exact H1|]. split; [now rewrite !length_insertAt, Hlen|].
  split; [apply length_insertAt|]. split; [now apply ascending_insertAt|].
  split; [now apply Forall_insertAt|]. split; [now apply Forall_insertAt|]. split.
  - intros k Hin. apply In_insertAt in Hin. destruct Hin as [->|Hin]; auto.
  - intros k v. now apply holds_insertAt.
Qed.

Lemma key_not_in_leaf ks ls key l :
  (forall v, ~ tree_holds ls key v) ->
  nth_error ls (route ks key) = Some l -> leaf_wf l ->
  forall i, nth_error (lkeys l) i <> Some key.
Proof.
  intros Hno El (Hlen & _) i Hi. pose proof (nth_error_lt _ _ _ Hi) as Hlt.
  destruct (nth_error (lvals l) i) as [v|] eqn:Ev.
  - apply (Hno v). exists (route ks key), l. split; [exact El|]. now exists i.
  - apply nth_error_None in Ev. lia.
Qed.

Lemma tree_holds_replaceAt ls j l l' key rid :
  nth_error ls j = Some l ->
  (forall k v, holds (lkeys l') (lvals l') k v <->
               (k = key /\ v = rid) \/ holds (lkeys l) (lvals l) k v) ->
  forall k v, tree_holds (replaceAt ls j l') k v <->
              (k = key /\ v = rid) \/ tree_holds ls k v.
Proof.
  intros Hl Hh k v. pose proof (nth_error_lt _ _ _ Hl) as Hj. split.
  - intros (i & l0 & Hi & H0). rewrite nth_error_replaceAt in Hi by exact Hj.
    destruct (Nat.eqb_spec i j) as [->|Hne].
    + injection Hi as <-. apply Hh in H0. destruct H0 as [H0|H0]; [now left|].
      right. now exists j, l.
    + right. now exists i, l0.
  - intros [Hnew|(i & l0 & Hi & H0)].
    + exists j, l'. rewrite nth_error_replaceAt, Nat.eqb_refl by exact Hj.
      split; [reflexivity|]. apply Hh. now left.
    + destruct (Nat.eq_dec i j) as [->|Hne].
      * exists j, l'. rewrite nth_error_replaceAt, Nat.eqb_refl by exact Hj.
        split; [reflexivity|]. apply Hh. right. congruence.
      * exists i, l0. rewrite nth_error_replaceAt by exact Hj.
        destruct (Nat.eqb_spec i j); [contradiction|]. auto.
Qed.

(** The page of a leaf after [writeLeaf]. *)
Lemma writeLeaf_page f id p keys vals :
  0 <= id -> ReadPage f id = Ok p -> ID p = id ->
  length vals = length keys -> (length keys <= 254)%nat ->
  Forall u64 keys -> Forall rid_ok vals ->
  exists lp, writeLeaf p keys vals = Ok lp /\ ID lp = id /\ page_ok lp /\
             DataSize lp <= PayloadSize /\ nodeKind (Data lp) = kindLeaf /\
             leafLeafEntries lp = Ok (keys, vals).
Proof.
  intros Hid Hp Hidp Hlen Hcap Hk Hv.
  destruct (ReadPage_inv f id p Hid Hp) as ((H1 & H2 & H3 & H4) & _).
  destruct (writeLeaf_ok p keys vals H4 Hlen Hcap Hk Hv)
    as (lp & Hw & Hi & Hc & Hs & Hd & Hkind & Hdec).
  exists lp. split; [exact Hw|]. split; [congruence|]. split.
  - unfold page_ok. rewrite Hi, Hc, Hs, Hd, PayloadSize_val. lia.
  - split; [rewrite Hs; lia|]. split; assumption.
Qed.

Lemma leaf_at_written f' p' lp l :
  ReadPage f' (lid l) = Ok p' -> ID p' = lid l -> Data p' = Data lp ->
  nodeKind (Data lp) = kindLeaf -> leafLeafEntries lp = Ok (lkeys l, lvals l) ->
  leaf_at f' l.
Proof.
  intros Hr Hi Hd Hk Hdec. exists p'. split; [exact Hr|]. split; [exact Hi|].
  rewrite Hd. split; [exact Hk|]. now rewrite (leafLeafEntries_Data p' lp Hd).
Qed.

Lemma tree_pages_bound ks ls :
  length ls = S (length ks) -> (length ks <= 338)%nat ->
  (2 <= tree_pages ks ls <= 341)%nat.
Proof. intros H1 H2. unfold tree_pages. destruct ks; cbn [length] in *; lia. Qed.

(** Insert into a leaf with room: the leaf is rewritten in place. *)
Lemma BTree_Insert_fit t ks ls fuel key rid l :
  tree_inv t ks ls -> (2 <= fuel)%nat -> u64 key -> rid_ok rid ->
  (forall v, ~ tree_holds ls key v) ->
  nth_error ls (route ks key) = Some l -> (length (lkeys l) < 254)%nat ->
  let i := Search (length (lkeys l)) (fun i => key <=? nth i (lkeys l) 0) in
  let l' := mkLeaf (lid l) (insertU64 (lkeys l) i key) (insertRID (lvals l) i rid) in
  exists t', BTree_Insert fuel t key rid = (Ok tt, t') /\
             tree_inv t' ks (replaceAt ls (route ks key) l').
Proof.
  intros Hinv Hfuel Hkey Hrid Hno El Hroom. cbv zeta.
  destruct (findLeaf_inv t ks ls fuel key Hinv Hfuel) as (l0 & p & El0 & Hf & Hp & Hidp & Hkind & Hdec).
  assert (l0 = l) by congruence. subst l0. clear El0.
  pose proof Hinv as [Hlen Hmeta Hrid' Hroot (Hcnt & Hcap) (Hasc & Hku) (Hnd & Hids) Hleaves].
  destruct (Hleaves _ _ El) as (_ & Hwf & Hrange).
  pose proof (key_not_in_leaf ks ls key l Hno El Hwf) as Hmiss.
  destruct (leaf_insert_wf ks (route ks key) l key rid Hwf Hkey Hrid Hmiss
              (in_range_route ks key Hasc) Hrange)
    as (Hdup & Hl1 & Hl2 & Hasc' & Hk' & Hv' & Hrange' & Hholds).
  cbv zeta in Hdup, Hl1, Hl2, Hasc', Hk', Hv', Hrange', Hholds.
  set (i := Search _ _) in *.
  set (keys' := insertU64 (lkeys l) i key) in *.
  set (vals' := insertRID (lvals l) i rid) in *.
  pose proof (Hids l (nth_error_In _ _ El)) as Hlid.
  pose proof (tree_pages_bound ks ls Hcnt Hcap) as Hn.
  set (n := tree_pages ks ls) in *.
  destruct (writeLeaf_page (tfile t) (lid l) p keys' vals') as
    (lp & Hw & Hilp & Hoklp & Hszlp & Hklp & Hdlp); auto; try lia.
  destruct (page_write (tfile t) n lp Hlen Hoklp Hszlp ltac:(lia))
    as (p' & f' & Hwp & Hlen' & Hr' & Hd' & Hi' & Hother).
  exists (mkBTree f' (rootID t)). split.
  - unfold BTree_Insert. rewrite Hf, Hkind, Z.eqb_refl. cbn [negb]. rewrite Hdec.
    fold i. rewrite Hdup. fold keys' vals'.
    rewrite leafCapacity_val.
    destruct (Z.leb_spec (Z.of_nat (length keys')) 254); [|lia].
    rewrite Hw. exact (treeWrite_unfold t lp p' f' Hwp).
  - assert (Hmax : Nat.max n (Z.to_nat (ID lp) + 1) = n) by lia.
    rewrite Hmax, Hilp in *.
    assert (Hj : (route ks key < length ls)%nat) by now apply (nth_error_lt _ _ _ El).
    assert (Hmap : map lid (replaceAt ls (route ks key) (mkLeaf (lid l) keys' vals')) =
                   map lid ls) by now apply (map_replaceAt lid ls _ _ l).
    assert (Hpages : tree_pages ks (replaceAt ls (route ks key) (mkLeaf (lid l) keys' vals')) = n).
    { unfold n, tree_pages. now rewrite length_replaceAt. }
    constructor; cbn [tfile rootID]; rewrite ?Hpages, ?Hmap.
    + exact Hlen'.
    + destruct Hmeta as (m & Hm & Hmi). exists m. rewrite Hother by lia. auto.
    + exact Hrid'.
    + destruct Hroot as [Hroot|(Hne & (pr & Hpr & Hrest) & Hnin)]; [now left|].
      right. split; [exact Hne|]. split; [|exact Hnin].
      exists pr. rewrite Hother; [auto|lia|].
      intros E. apply Hnin. rewrite E. apply in_map. now apply (nth_error_In _ _ El).
    + now rewrite length_replaceAt.
    + auto.
    + split; [exact Hnd|]. intros l0 Hin. apply In_replaceAt in Hin.
      destruct Hin as [->|Hin]; [exact Hlid|now apply Hids].
    + intros x l0 Hx. rewrite nth_error_replaceAt in Hx by exact Hj.
      destruct (Nat.eqb_spec x (route ks key)) as [->|Hne].
      * injection Hx as <-. split; [|split].
        -- now apply (leaf_at_written f' p' lp).
        -- unfold leaf_wf. cbn [lkeys lvals]. repeat split; auto. lia.
        -- exact Hrange'.
      * destruct (Hleaves _ _ Hx) as ((q & Hq & Hrest) & Hwf0 & Hr0).
        split; [|split; assumption].
        pose proof (Hids l0 (nth_error_In _ _ Hx)).
        exists q. rewrite Hother; [auto|lia|].
        now apply (lid_distinct ls x (route ks key)).
Qed.

Lemma skipn_nth_error {A : Type} (l : list A) n x :
  nth_error l n = Some x -> skipn n l = x :: skipn (S n) l.
Proof.
  revert l. induction n as [|n IH]; intros l H; destruct l as [|a l]; try discriminate.
  - cbn in H. injection H as ->. reflexivity.
  - cbn in H. cbn [skipn]. now apply IH.
Qed.

Lemma In_nth_error_firstn {A : Type} (l : list A) m x :
  In x (firstn m l) -> exists i, (i < m)%nat /\ nth_error l i = Some x.
Proof.
  intros H. destruct (In_nth_error _ _ H) as (i & Hi).
  rewrite nth_error_firstn in Hi. destruct (Nat.ltb_spec i m); [|discriminate].
  now exists i.
Qed.

Lemma In_nth_error_skipn {A : Type} (l : list A) m x :
  In x (skipn m l) -> exists i, (m <= i)%nat /\ nth_error l i = Some x.
Proof.
  intros H. destruct (In_nth_error _ _ H) as (i & Hi).
  rewrite nth_error_skipn in Hi. exists (m + i)%nat. split; [lia|exact Hi].
Qed.

(** The two halves of an overflowing leaf and the promoted separator. *)
Lemma leaf_split_wf ks j keys' vals' sep :
  length keys' = 255%nat -> length vals' = 255%nat -> ascending keys' ->
  Forall u64 keys' -> Forall rid_ok vals' ->
  (forall k, In k keys' -> in_range ks j k) ->
  nth_error keys' 127 = Some sep ->
  (forall id, leaf_wf (mkLeaf id (firstn 127 keys') (firstn 127 vals'))) /\
  (forall id, leaf_wf (mkLeaf id (skipn 127 keys') (skipn 127 vals'))) /\
  (forall k, In k (firstn 127 keys') -> k < sep /\ in_range ks j k) /\
  (forall k, In k (skipn 127 keys') -> sep <= k /\ in_range ks j k) /\
  u64 sep /\ in_range ks j sep /\
  (forall s, (0 < j)%nat -> nth_error ks (j - 1) = Some s -> s < sep).
Proof.
  intros Hlk Hlv Hasc Hk Hv Hrange Hsep.
  split; [|split; [|split; [|split; [|split; [|split]]]]].
  - intros id. unfold leaf_wf. cbn [lkeys lvals].
    rewrite !length_firstn, Hlk, Hlv.
    repeat split; try lia;
      [now apply ascending_firstn|now apply Forall_firstn|now apply Forall_firstn].
  - intros id. unfold leaf_wf. cbn [lkeys lvals].
    rewrite !length_skipn, Hlk, Hlv.
    repeat split; try lia;
      [now apply ascending_skipn|now apply Forall_skipn|now apply Forall_skipn].
  - intros k Hin. split; [|apply Hrange; now apply In_firstn in Hin].
    destruct (In_nth_error_firstn _ _ _ Hin) as (i & Hi & Hki).
    now apply (Hasc i 127%nat).
  - intros k Hin. split; [|apply Hrange; now apply In_skipn in Hin].
    destruct (In_nth_error_skipn _ _ _ Hin) as (i & Hi & Hki).
    destruct (Nat.eq_dec i 127) as [->|Hne]; [assert (k = sep) by congruence; lia|].
    pose proof (Hasc 127%nat i _ _ ltac:(lia) Hsep Hki). lia.
  - rewrite Forall_forall in Hk. apply Hk. now apply (nth_error_In _ _ Hsep).
  - apply Hrange. now apply (nth_error_In _ _ Hsep).
  - intros s Hj Hs.
    pose proof (nth_error_get keys' 0 ltac:(lia)) as H0.
    pose proof (Hrange _ (nth_error_In _ _ H0)) as (_ & Hlow).
    pose proof (Hlow s Hj Hs).
    pose proof (Hasc 0%nat 127%nat _ _ ltac:(lia) H0 Hsep). lia.
Qed.

Lemma in_range_before ks j sep i k :
  (j <= length ks)%nat -> (i < j)%nat -> in_range ks i k ->
  in_range (insertAt ks j sep) i k.
Proof.
  intros Hj Hi (Hu & Hl). split.
  - intros s Hs. rewrite nth_error_insertAt in Hs by exact Hj.
    destruct (Nat.ltb_spec i j); [auto|lia].
  - intros s Hpos Hs. rewrite nth_error_insertAt in Hs by exact Hj.
    destruct (Nat.ltb_spec (i - 1) j); [auto|lia].
Qed.

Lemma in_range_after ks j sep i k :
  (j <= length ks)%nat -> (j < i)%nat -> in_range ks i k ->
  in_range (insertAt ks j sep) (S i) k.
Proof.
  intros Hj Hi (Hu & Hl). split.
  - intros s Hs. rewrite nth_error_insertAt in Hs by exact Hj.
    destruct (Nat.ltb_spec (S i) j); [lia|].
    destruct (Nat.eqb_spec (S i) j); [lia|].
    replace (S i - 1)%nat with i in Hs by lia. auto.
  - intros s Hpos Hs. rewrite nth_error_insertAt in Hs by exact Hj.
    replace (S i - 1)%nat with i in Hs by lia.
    destruct (Nat.ltb_spec i j); [lia|].
    destruct (Nat.eqb_spec i j); [lia|]. apply Hl; [lia|exact Hs].
Qed.

Lemma in_range_left ks j sep k :
  (j <= length ks)%nat -> k < sep -> in_range ks j k ->
  in_range (insertAt ks j sep) j k.
Proof.
  intros Hj Hk (Hu & Hl). split.
  - intros s Hs. rewrite nth_error_insertAt in Hs by exact Hj.
    destruct (Nat.ltb_spec j j); [lia|]. rewrite Nat.eqb_refl in Hs. congruence.
  - intros s Hpos Hs. rewrite nth_error_insertAt in Hs by exact Hj.
    destruct (Nat.ltb_spec (j - 1) j); [auto|lia].
Qed.

Lemma in_range_right ks j sep k :
  (j <= length ks)%nat -> sep <= k -> in_range ks j k ->
  in_range (insertAt ks j sep) (S j) k.
Proof.
  intros Hj Hk (Hu & Hl). split.
  - intros s Hs. rewrite nth_error_insertAt in Hs by exact Hj.
    destruct (Nat.ltb_spec (S j) j); [lia|].
    destruct (Nat.eqb_spec (S j) j); [lia|].
    replace (S j - 1)%nat with j in Hs by lia. auto.
  - intros s Hpos Hs. rewrite nth_error_insertAt in Hs by exact Hj.
    replace (S j - 1)%nat with j in Hs by lia.
    destruct (Nat.ltb_spec j j); [lia|]. rewrite Nat.eqb_refl in Hs. congruence.
Qed.

Lemma ascending_separator ks j sep :
  ascending ks -> (j <= length ks)%nat -> in_range ks j sep ->
  (forall s, (0 < j)%nat -> nth_error ks (j - 1) = Some s -> s < sep) ->
  ascending (insertAt ks j sep).
Proof.
  intros Hasc Hj (Hu & _) Hl. apply ascending_insertAt; auto.
  - intros x a Hx Ha.
    pose proof (Hl _ ltac:(lia) (nth_error_get ks (j - 1) ltac:(lia))) as H1.
    destruct (Nat.eq_dec x (j - 1)) as [->|Hne].
    + rewrite nth_error_get in Ha by lia. injection Ha as <-. exact H1.
    + pose proof (Hasc x (j - 1)%nat _ _ ltac:(lia) Ha
                       (nth_error_get ks (j - 1) ltac:(lia))). lia.
  - intros x a Hx Ha. pose proof (nth_error_lt _ _ _ Ha).
    pose proof (Hu _ (nth_error_get ks j ltac:(lia))) as H1.
    destruct (Nat.eq_dec x j) as [->|Hne].
    + rewrite nth_error_get in Ha by lia. injection Ha as <-. exact H1.
    + pose proof (Hasc j x _ _ ltac:(lia) (nth_error_get ks j ltac:(lia)) Ha). lia.
Qed.

Lemma NoDup_insertAt {A : Type} (a : list A) i v :
  NoDup a -> ~ In v a -> NoDup (insertAt a i v).
Proof.
  intros Hnd Hnin. unfold insertAt.
  apply (proj2 (NoDup_Add (Add_app v (firstn i a) (skipn i a)))).
  rewrite firstn_skipn. auto.
Qed.

Lemma indexOf_found kids c :
  forall j i0, nth_error kids j = Some c ->
    (forall x y, (x < j)%nat -> nth_error kids x = Some y -> y <> c) ->
    indexOf kids c i0 = Some (i0 + j)%nat.
Proof.
  induction kids as [|k kids IH]; intros j i0 Hj Hfirst.
  - destruct j; discriminate.
  - cbn [indexOf]. destruct j as [|j].
    + cbn in Hj. injection Hj as ->. rewrite Z.eqb_refl. f_equal. lia.
    + destruct (Z.eqb_spec k c) as [E|E].
      * exfalso. apply (Hfirst 0%nat k); [lia|reflexivity|exact E].
      * rewrite (IH j (S i0)); [f_equal; lia|exact Hj|].
        intros x y Hx Hy. apply (Hfirst (S x)); [lia|exact Hy].
Qed.

Lemma indexOf_nodup kids c j :
  NoDup kids -> nth_error kids j = Some c -> indexOf kids c 0 = Some j.
Proof.
  intros Hnd Hj. rewrite (indexOf_found kids c j 0 Hj); [reflexivity|].
  intros x y Hx Hy ->. pose proof (nth_error_lt _ _ _ Hy).
  assert (x = j); [|lia].
  apply (proj1 (NoDup_nth_error kids) Hnd); [lia|congruence].
Qed.

Lemma tree_holds_splitAt ls j l L R key rid :
  nth_error ls j = Some l ->
  (forall k v, holds (lkeys L) (lvals L) k v \/ holds (lkeys R) (lvals R) k v <->
               (k = key /\ v = rid) \/ holds (lkeys l) (lvals l) k v) ->
  forall k v, tree_holds (splitAt ls j L R) k v <->
              (k = key /\ v = rid) \/ tree_holds ls k v.
Proof.
  intros Hl Hh k v. pose proof (nth_error_lt _ _ _ Hl) as Hj. split.
  - intros (i & l0 & Hi & H0). rewrite nth_error_splitAt in Hi by exact Hj.
    destruct (Nat.ltb_spec i j); [right; now exists i, l0|].
    destruct (Nat.eqb_spec i j).
    + injection Hi as <-. destruct (proj1 (Hh k v) (or_introl H0)) as [H1|H1];
        [now left|right; now exists j, l].
    + destruct (Nat.eqb_spec i (S j)).
      * injection Hi as <-. destruct (proj1 (Hh k v) (or_intror H0)) as [H1|H1];
          [now left|right; now exists j, l].
      * right. now exists (i - 1)%nat, l0.
  - intros H.
    assert (Hcase : holds (lkeys l) (lvals l) k v \/ (k = key /\ v = rid) \/
                    exists i l0, i <> j /\ nth_error ls i = Some l0 /\
                                 holds (lkeys l0) (lvals l0) k v).
    { destruct H as [H|(i & l0 & Hi & H0)]; [auto|].
      destruct (Nat.eq_dec i j) as [->|Hne].
      - left. congruence.
      - right. right. now exists i, l0. }
    assert (Hboth : holds (lkeys L) (lvals L) k v \/ holds (lkeys R) (lvals R) k v ->
                    tree_holds (splitAt ls j L R) k v).
    { intros [H1|H1].
      - exists j, L. rewrite nth_error_splitAt by exact Hj.
        destruct (Nat.ltb_spec j j); [lia|]. now rewrite Nat.eqb_refl.
      - exists (S j), R. rewrite nth_error_splitAt by exact Hj.
        destruct (Nat.ltb_spec (S j) j); [lia|].
        destruct (Nat.eqb_spec (S j) j); [lia|]. now rewrite Nat.eqb_refl. }
    destruct Hcase as [H1|[H1|(i & l0 & Hne & Hi & H0)]].
    + apply Hboth, Hh. now right.
    + apply Hboth, Hh. now left.
    + destruct (Nat.lt_ge_cases i j).
      * exists i, l0. rewrite nth_error_splitAt by exact Hj.
        destruct (Nat.ltb_spec i j); [auto|lia].
      * exists (S i), l0. rewrite nth_error_splitAt by exact Hj.
        destruct (Nat.ltb_spec (S i) j); [lia|].
        destruct (Nat.eqb_spec (S i) j); [lia|].
        destruct (Nat.eqb_spec (S i) (S j)); [lia|].
        replace (S i - 1)%nat with i by lia. auto.
Qed.

(** The page of a fresh leaf after [writeLeaf]. *)
Lemma writeLeaf_fresh p keys vals :
  page_ok p -> length vals = length keys -> (length keys <= 254)%nat ->
  Forall u64 keys -> Forall rid_ok vals ->
  exists lp, writeLeaf p keys vals = Ok lp /\ ID lp = ID p /\ page_ok lp /\
             DataSize lp <= PayloadSize /\ nodeKind (Data lp) = kindLeaf /\
             leafLeafEntries lp = Ok (keys, vals).
Proof.
  intros (H1 & H2 & H3 & H4) Hlen Hcap Hk Hv.
  destruct (writeLeaf_ok p keys vals H4 Hlen Hcap Hk Hv)
    as (lp & Hw & Hi & Hc & Hs & Hd & Hkind & Hdec).
  exists lp. split; [exact Hw|]. split; [exact Hi|]. split.
  - unfold page_ok. rewrite Hi, Hc, Hs, Hd, PayloadSize_val. lia.
  - split; [rewrite Hs; lia|]. split; assumption.
Qed.

(** Insert into a full leaf: the two halves are written, the left one in
    place and the right one on a new page, and the separator goes to
    [insertIntoParent]. *)
Lemma BTree_Insert_split_prefix t ks ls fuel key rid l :
  tree_inv t ks ls -> (2 <= fuel)%nat -> u64 key -> rid_ok rid ->
  (forall v, ~ tree_holds ls key v) ->
  nth_error ls (route ks key) = Some l -> length (lkeys l) = 254%nat ->
  let i := Search (length (lkeys l)) (fun i => key <=? nth i (lkeys l) 0) in
  let keys' := insertU64 (lkeys l) i key in
  let vals' := insertRID (lvals l) i rid in
  let n := tree_pages ks ls in
  let L := mkLeaf (lid l) (firstn 127 keys') (firstn 127 vals') in
  let R := mkLeaf (Z.of_nat n) (skipn 127 keys') (skipn 127 vals') in
  exists f2 sep,
    BTree_Insert fuel t key rid =
      insertIntoParent fuel (mkBTree f2 (rootID t)) (lid l) sep (Z.of_nat n) /\
    nth_error keys' 127 = Some sep /\
    length f2 = ((n + 1) * 4096)%nat /\ leaf_at f2 L /\ leaf_at f2 R /\
    (forall id, 0 <= id < Z.of_nat n -> id <> lid l ->
                ReadPage f2 id = ReadPage (tfile t) id).
Proof.
  intros Hinv Hfuel Hkey Hrid Hno El Hfull. cbv zeta.
  destruct (findLeaf_inv t ks ls fuel key Hinv Hfuel)
    as (l0 & p & El0 & Hf & Hp & Hidp & Hkind & Hdec).
  assert (l0 = l) by congruence. subst l0. clear El0.
  pose proof Hinv as [Hlen Hmeta Hrid' Hroot (Hcnt & Hcap) (Hasc & Hku) (Hnd & Hids) Hleaves].
  destruct (Hleaves _ _ El) as (_ & Hwf & Hrange).
  pose proof (key_not_in_leaf ks ls key l Hno El Hwf) as Hmiss.
  destruct (leaf_insert_wf ks (route ks key) l key rid Hwf Hkey Hrid Hmiss
              (in_range_route ks key Hasc) Hrange)
    as (Hdup & Hl1 & Hl2 & Hasc' & Hk' & Hv' & Hrange' & Hholds).
  cbv zeta in Hdup, Hl1, Hl2, Hasc', Hk', Hv', Hrange', Hholds.
  set (i := Search _ _) in *.
  set (keys' := insertU64 (lkeys l) i key) in *.
  set (vals' := insertRID (lvals l) i rid) in *.
  rewrite Hfull in Hl2. rewrite Hl2 in Hl1.
  pose proof (Hids l (nth_error_In _ _ El)) as Hlid.
  pose proof (tree_pages_bound ks ls Hcnt Hcap) as Hn.
  set (n := tree_pages ks ls) in *.
  destruct (nth_error keys' 127) as [sep|] eqn:Hsep.
  2:{ apply nth_error_None in Hsep. lia. }
  destruct (leaf_split_wf ks (route ks key) keys' vals' sep Hl2 Hl1 Hasc' Hk' Hv' Hrange' Hsep)
    as (HwfL & HwfR & _).
  destruct (HwfL 0) as (HL1 & HL2 & _ & HL4 & HL5). cbn [lkeys lvals] in HL1, HL2, HL4, HL5.
  destruct (HwfR 0) as (HR1 & HR2 & _ & HR4 & HR5). cbn [lkeys lvals] in HR1, HR2, HR4, HR5.
  (* the left half, in place *)
  destruct (writeLeaf_page (tfile t) (lid l) p (firstn 127 keys') (firstn 127 vals'))
    as (lp & Hw & Hilp & Hoklp & Hszlp & Hklp & Hdlp); auto; try lia.
  destruct (page_write (tfile t) n lp Hlen Hoklp Hszlp ltac:(lia))
    as (p1 & f1 & Hwp1 & Hlen1 & Hr1 & Hd1 & Hi1 & Hother1).
  assert (Hmax1 : Nat.max n (Z.to_nat (ID lp) + 1) = n) by lia.
  rewrite Hmax1, Hilp in *.
  (* the right half, on a new page *)
  destruct (allocPage_spec (mkBTree f1 (rootID t)) kindLeaf n Hlen1 ltac:(lia))
    as (rp0 & Halloc & Hirp0 & Hokrp0 & _).
  destruct (writeLeaf_fresh rp0 (skipn 127 keys') (skipn 127 vals'))
    as (rp & Hwr & Hirp & Hokrp & Hszrp & Hkrp & Hdrp); auto.
  rewrite Hirp0 in Hirp.
  destruct (page_write f1 n rp Hlen1 Hokrp Hszrp ltac:(lia))
    as (p2 & f2 & Hwp2 & Hlen2 & Hr2 & Hd2 & Hi2 & Hother2).
  assert (Hmax2 : Nat.max n (Z.to_nat (ID rp) + 1) = (n + 1)%nat) by lia.
  rewrite Hmax2, Hirp in *.
  exists f2, sep. split; [|split; [reflexivity|split; [exact Hlen2|split; [|split]]]].
  - unfold BTree_Insert. rewrite Hf, Hkind, Z.eqb_refl. cbn [negb]. rewrite Hdec.
    fold i. rewrite Hdup. fold keys' vals'. rewrite leafCapacity_val.
    destruct (Z.leb_spec (Z.of_nat (length keys')) 254); [lia|].
    unfold splitLeafArrays. rewrite Hl2. change (255 / 2)%nat with 127%nat.
    cbv beta iota zeta. rewrite Hw.
    rewrite (treeWrite_unfold t lp p1 f1 Hwp1). rewrite Halloc. rewrite Hwr.
    rewrite (treeWrite_unfold (mkBTree f1 (rootID t)) rp p2 f2 Hwp2).
    cbn [rootID]. rewrite (skipn_nth_error keys' 127 sep Hsep). now rewrite Hidp.
  - apply (leaf_at_written f2 p1 lp); cbn [lid lkeys lvals]; auto.
    rewrite Hother2 by lia. exact Hr1.
  - apply (leaf_at_written f2 p2 rp); cbn [lid lkeys lvals]; auto.
  - intros id Hid Hne. rewrite Hother2 by lia. now apply Hother1.
Qed.

Lemma writeInternal_page p keys kids :
  page_ok p -> length kids = S (length keys) -> (length keys <= 338)%nat ->
  Forall u64 keys -> Forall u32 kids ->
  exists ip, writeInternal p keys kids = Ok ip /\ ID ip = ID p /\ page_ok ip /\
             DataSize ip <= PayloadSize /\ nodeKind (Data ip) = kindInternal /\
             internalEntries ip = Ok (keys, kids).
Proof.
  intros (H1 & H2 & H3 & H4) Hlen Hcap Hk Hv.
  destruct (writeInternal_ok p keys kids H4 Hlen Hcap Hk Hv)
    as (ip & Hw & Hi & Hc & Hs & Hd & Hkind & Hdec).
  exists ip. split; [exact Hw|]. split; [exact Hi|]. split.
  - unfold page_ok. rewrite Hi, Hc, Hs, Hd, PayloadSize_val. lia.
  - split; [rewrite Hs; lia|]. split; assumption.
Qed.

Lemma internal_at_written f' id p' ip ks cs :
  ReadPage f' id = Ok p' -> ID p' = id -> Data p' = Data ip ->
  nodeKind (Data ip) = kindInternal -> internalEntries ip = Ok (ks, cs) ->
  internal_at f' id ks cs.
Proof.
  intros Hr Hi Hd Hk Hdec. exists p'. split; [exact Hr|]. split; [exact Hi|].
  rewrite Hd. split; [exact Hk|]. now rewrite (internalEntries_Data p' ip Hd).
Qed.

(** The split of the root leaf: a new internal root over the two halves,
    and the meta page pointing at it. *)
Lemma insertIntoParent_root f2 (m : nat) root sep right fuel :
  length f2 = (m * 4096)%nat -> (m <= 1000)%nat -> (1 <= fuel)%nat ->
  1 <= root < Z.of_nat m -> u32 right -> u64 sep ->
  (exists mp, ReadPage f2 0 = Ok mp /\ ID mp = 0) ->
  exists f4,
    insertIntoParent fuel (mkBTree f2 root) root sep right =
      (Ok tt, mkBTree f4 (Z.of_nat m)) /\
    length f4 = ((m + 1) * 4096)%nat /\
    internal_at f4 (Z.of_nat m) [sep] [root; right] /\
    (exists mp', ReadPage f4 0 = Ok mp' /\ ID mp' = 0) /\
    (forall id, 1 <= id < Z.of_nat m -> ReadPage f4 id = ReadPage f2 id).
Proof.
  intros Hlen Hm Hfuel Hroot Hright Hsep (mp & Hmp & Hmid).
  destruct fuel as [|fuel]; [lia|]. cbn [insertIntoParent rootID].
  rewrite Z.eqb_refl.
  destruct (allocPage_spec (mkBTree f2 root) kindInternal m Hlen ltac:(lia))
    as (p0 & Halloc & Hip0 & Hokp0 & _).
  rewrite Halloc. unfold writeInternalRoot. cbn [length repeat].
  change (copy [0] [right]) with [right].
  destruct (writeInternal_page p0 [sep] [root; right] Hokp0)
    as (ip & Hw & Hiip & Hokip & Hszip & Hkip & Hdip).
  { reflexivity. }
  { cbn; lia. }
  { constructor; [exact Hsep|constructor]. }
  { constructor; [unfold u32; lia|]. constructor; [exact Hright|constructor]. }
  rewrite Hw. rewrite Hip0 in Hiip.
  destruct (page_write f2 m ip Hlen Hokip Hszip ltac:(lia))
    as (p3 & f3 & Hwp3 & Hlen3 & Hr3 & Hd3 & Hi3 & Hother3).
  assert (Hmax3 : Nat.max m (Z.to_nat (ID ip) + 1) = (m + 1)%nat) by lia.
  rewrite Hmax3, Hiip in *.
  rewrite (treeWrite_unfold (mkBTree f2 root) ip p3 f3 Hwp3). cbn [tfile rootID].
  rewrite Hother3 by lia. rewrite Hmp.
  destruct (ReadPage_inv f2 0 mp ltac:(lia) Hmp) as ((Hm1 & Hm2 & Hm3 & Hm4) & Hmsz & _).
  set (meta := set_Data mp (setMetaRoot (Data mp) (Z.of_nat m))).
  destruct (setMetaRoot_spec (Data mp) (Z.of_nat m)) as (Hsl & _ & _);
    [rewrite Hm4, PayloadSize_val; lia|unfold u32; lia|].
  assert (Hokm : page_ok meta).
  { unfold page_ok, meta. cbn [ID Checksum DataSize Data set_Data]. rewrite Hsl. tauto. }
  assert (Hidm : ID meta = 0) by (unfold meta; cbn [ID set_Data]; exact Hmid).
  destruct (page_write f3 (m + 1) meta Hlen3 Hokm Hmsz ltac:(lia))
    as (p4 & f4 & Hwp4 & Hlen4 & Hr4 & Hd4 & Hi4 & Hother4).
  rewrite Hidm in *. cbn [Z.to_nat Nat.add] in Hlen4.
  replace (Nat.max (m + 1) 1) with (m + 1)%nat in Hlen4 by lia.
  rewrite (treeWrite_unfold (mkBTree f3 root) meta p4 f4 Hwp4). cbn [tfile].
  exists f4. split; [reflexivity|]. split; [exact Hlen4|]. split; [|split].
  - apply (internal_at_written f4 _ p3 ip); auto.
    rewrite Hother4 by lia. exact Hr3.
  - exists p4. split; [exact Hr4|exact Hi4].
  - intros id Hid. rewrite Hother4 by lia. apply Hother3; lia.
Qed.

(** What [insertIntoParent] reads when the left child is not the root. *)
Lemma findParentAndIndex_root f2 root ks cs left sep j fuel :
  (1 <= fuel)%nat -> internal_at f2 root ks cs -> NoDup cs ->
  nth_error cs j = Some left ->
  exists pr, findParentAndIndex fuel f2 root left sep = Ok (pr, j) /\
             ReadPage f2 root = Ok pr /\ ID pr = root /\
             internalEntries pr = Ok (ks, cs).
Proof.
  intros Hfuel (pr & Hpr & Hid & Hkind & Hdec) Hnd Hj.
  exists pr. split; [|auto].
  destruct fuel as [|fuel]; [lia|]. cbn [findParentAndIndex].
  rewrite Hpr. cbn [bind]. rewrite Hkind.
  destruct kind_values as (-> & _). rewrite Hdec. cbn [bind].
  now rewrite (indexOf_nodup cs left j Hnd Hj).
Qed.

(** The separator of a split leaf enters a root with room. *)
Lemma insertIntoParent_parent f2 (m : nat) root ks cs left sep right j fuel :
  length f2 = (m * 4096)%nat -> (1 <= fuel)%nat ->
  0 <= root < Z.of_nat m -> Z.of_nat m < 2 ^ 32 ->
  internal_at f2 root ks cs -> NoDup cs -> nth_error cs j = Some left ->
  left <> root -> length cs = S (length ks) -> (length ks < 338)%nat ->
  Forall u64 ks -> Forall u32 cs -> u64 sep -> u32 right ->
  exists f3,
    insertIntoParent fuel (mkBTree f2 root) left sep right = (Ok tt, mkBTree f3 root) /\
    length f3 = (m * 4096)%nat /\
    internal_at f3 root (insertAt ks j sep) (insertAt cs (S j) right) /\
    (forall id, 0 <= id < Z.of_nat m -> id <> root -> ReadPage f3 id = ReadPage f2 id).
Proof.
  intros Hlen Hfuel Hroot Hm Hint Hnd Hj Hne Hcs Hroom Hku Hcu Hsep Hright.
  destruct (findParentAndIndex_root f2 root ks cs left sep j fuel Hfuel Hint Hnd Hj)
    as (pr & Hfind & Hpr & Hidpr & Hdec).
  destruct fuel as [|fuel]; [lia|]. cbn [insertIntoParent rootID tfile].
  destruct (Z.eqb_spec left root); [contradiction|].
  rewrite Hfind, Hdec. unfold insertU64, insertU32.
  rewrite length_insertAt, internalCapacity_val.
  destruct (Z.leb_spec (Z.of_nat (S (length ks))) 338); [|lia].
  destruct (ReadPage_inv f2 root pr ltac:(lia) Hpr) as (Hokpr & _).
  replace (j + 1)%nat with (S j) by lia.
  destruct (writeInternal_page pr (insertAt ks j sep) (insertAt cs (S j) right) Hokpr)
    as (ip & Hw & Hiip & Hokip & Hszip & Hkip & Hdip).
  { rewrite !length_insertAt. lia. }
  { rewrite length_insertAt. lia. }
  { now apply Forall_insertAt. }
  { now apply Forall_insertAt. }
  rewrite Hw. rewrite Hidpr in Hiip.
  destruct (page_write f2 m ip Hlen Hokip Hszip ltac:(lia))
    as (p3 & f3 & Hwp3 & Hlen3 & Hr3 & Hd3 & Hi3 & Hother3).
  assert (Hmax3 : Nat.max m (Z.to_nat (ID ip) + 1) = m) by lia.
  rewrite Hmax3, Hiip in *.
  rewrite (treeWrite_unfold (mkBTree f2 root) ip p3 f3 Hwp3). cbn [rootID].
  exists f3. split; [reflexivity|]. split; [exact Hlen3|]. split; [|exact Hother3].
  now apply (internal_at_written f3 root p3 ip).
Qed.

(** The separator of a split leaf reaches a full root: the root is split,
    its left half is written, and [writeInternal] on the right half, which
    [splitInternalArrays] returns with as many children as keys, panics. *)
Lemma insertIntoParent_overflow f2 (m : nat) root ks cs left sep right j fuel :
  length f2 = (m * 4096)%nat -> (1 <= fuel)%nat ->
  0 <= root < Z.of_nat m -> Z.of_nat m < 2 ^ 32 ->
  internal_at f2 root ks cs -> NoDup cs -> nth_error cs j = Some left ->
  left <> root -> length cs = S (length ks) -> length ks = 338%nat ->
  Forall u64 ks -> Forall u32 cs -> u64 sep -> u32 right ->
  fst (insertIntoParent fuel (mkBTree f2 root) left sep right) = Err RuntimePanic.
Proof.
  intros Hlen Hfuel Hroot Hm Hint Hnd Hj Hne Hcs Hfull Hku Hcu Hsep Hright.
  destruct (findParentAndIndex_root f2 root ks cs left sep j fuel Hfuel Hint Hnd Hj)
    as (pr & Hfind & Hpr & Hidpr & Hdec).
  destruct fuel as [|fuel]; [lia|]. cbn [insertIntoParent rootID tfile].
  destruct (Z.eqb_spec left root); [contradiction|].
  rewrite Hfind, Hdec. unfold insertU64, insertU32.
  rewrite length_insertAt, internalCapacity_val.
  destruct (Z.leb_spec (Z.of_nat (S (length ks))) 338); [lia|].
  destruct (ReadPage_inv f2 root pr ltac:(lia) Hpr) as (Hokpr & _).
  set (pkeys := insertAt ks j sep). set (kids := insertAt cs (j + 1) right).
  assert (Hpk : length pkeys = 339%nat) by (unfold pkeys; rewrite length_insertAt; lia).
  assert (Hkd : length kids = 340%nat) by (unfold kids; rewrite length_insertAt; lia).
  unfold splitInternalArrays. rewrite Hpk. change (339 / 2)%nat with 169%nat.
  cbv beta iota zeta.
  destruct (writeInternal_page pr (firstn 169 pkeys) (firstn (169 + 1) kids) Hokpr)
    as (ip & Hw & Hiip & Hokip & Hszip & Hkip & Hdip).
  { rewrite !length_firstn. lia. }
  { rewrite length_firstn. lia. }
  { apply Forall_firstn. now apply Forall_insertAt. }
  { apply Forall_firstn. now apply Forall_insertAt. }
  rewrite Hw. rewrite Hidpr in Hiip.
  destruct (page_write f2 m ip Hlen Hokip Hszip ltac:(lia))
    as (p3 & f3 & Hwp3 & Hlen3 & Hr3 & Hd3 & Hi3 & Hother3).
  assert (Hmax3 : Nat.max m (Z.to_nat (ID ip) + 1) = m) by lia.
  rewrite Hmax3 in Hlen3.
  rewrite (treeWrite_unfold (mkBTree f2 root) ip p3 f3 Hwp3). cbn [rootID tfile].
  destruct (allocPage_spec (mkBTree f3 root) kindInternal m Hlen3 Hm)
    as (rp0 & Halloc & _).
  rewrite Halloc.
  rewrite writeInternal_panic; [reflexivity| |].
  - rewrite !length_skipn. lia.
  - intros E. apply (f_equal (@length Z)) in E. rewrite length_skipn in E.
    cbn [length] in E. lia.
Qed.

Lemma insertAt_not_nil {A : Type} (a : list A) i v : insertAt a i v <> [].
Proof.
  intros E. apply (f_equal (@length A)) in E. rewrite length_insertAt in E.
  discriminate.
Qed.

Lemma tree_pages_internal ks ls : ks <> [] -> tree_pages ks ls = (length ls + 2)%nat.
Proof. intros H. unfold tree_pages. destruct ks; [contradiction|reflexivity]. Qed.

Lemma tree_pages_split ks ls j sep l L R :
  nth_error ls j = Some l ->
  tree_pages (insertAt ks j sep) (splitAt ls j L R) = (length ls + 3)%nat.
Proof.
  intros Hl. rewrite tree_pages_internal by apply insertAt_not_nil.
  rewrite length_splitAt by now apply (nth_error_lt _ _ _ Hl). lia.
Qed.

(** The leaves after a leaf split, over any file that holds them. *)
Lemma split_leaves_inv f' ks ls j l L R sep :
  nth_error ls j = Some l -> (j <= length ks)%nat ->
  (forall i l0, nth_error ls i = Some l0 ->
     leaf_wf l0 /\ forall k, In k (lkeys l0) -> in_range ks i k) ->
  (forall i l0, nth_error ls i = Some l0 -> i <> j -> leaf_at f' l0) ->
  leaf_at f' L -> leaf_at f' R -> leaf_wf L -> leaf_wf R ->
  (forall k, In k (lkeys L) -> k < sep /\ in_range ks j k) ->
  (forall k, In k (lkeys R) -> sep <= k /\ in_range ks j k) ->
  forall i l0, nth_error (splitAt ls j L R) i = Some l0 ->
    leaf_at f' l0 /\ leaf_wf l0 /\
    forall k, In k (lkeys l0) -> in_range (insertAt ks j sep) i k.
Proof.
  intros Hl Hj Hold Hframe HaL HaR HwL HwR HrL HrR i l0 Hi.
  rewrite nth_error_splitAt in Hi by now apply (nth_error_lt _ _ _ Hl).
  destruct (Nat.ltb_spec i j).
  { destruct (Hold _ _ Hi) as (Hw & Hr). split; [apply (Hframe i); auto; lia|].
    split; [exact Hw|]. intros k Hk. apply in_range_before; auto. }
  destruct (Nat.eqb_spec i j) as [->|Hne].
  { injection Hi as <-. split; [exact HaL|]. split; [exact HwL|].
    intros k Hk. destruct (HrL k Hk). now apply in_range_left. }
  destruct (Nat.eqb_spec i (S j)) as [->|Hne'].
  { injection Hi as <-. split; [exact HaR|]. split; [exact HwR|].
    intros k Hk. destruct (HrR k Hk). now apply in_range_right. }
  destruct (Hold _ _ Hi) as (Hw & Hr). split; [apply (Hframe (i - 1)%nat); auto; lia|].
  split; [exact Hw|]. intros k Hk.
  replace i with (S (i - 1)) by lia. apply in_range_after; auto; lia.
Qed.

Lemma split_ids ls j l L R (n n' : Z) :
  nth_error ls j = Some l -> NoDup (map lid ls) ->
  (forall l0, In l0 ls -> 1 <= lid l0 < n) -> lid L = lid l -> lid R = n -> n < n' ->
  NoDup (map lid (splitAt ls j L R)) /\
  (forall l0, In l0 (splitAt ls j L R) -> 1 <= lid l0 < n').
Proof.
  intros Hl Hnd Hids HL HR Hn. split.
  - rewrite (map_splitAt lid ls j L R l Hl HL). apply NoDup_insertAt; [exact Hnd|].
    rewrite HR. intros Hin. apply in_map_iff in Hin. destruct Hin as (l0 & E & Hin).
    specialize (Hids l0 Hin). lia.
  - intros l0 Hin. apply In_splitAt in Hin. destruct Hin as [->|[->|Hin]].
    + rewrite HL. specialize (Hids l (nth_error_In _ _ Hl)). lia.
    + rewrite HR. specialize (Hids l (nth_error_In _ _ Hl)). lia.
    + specialize (Hids l0 Hin). lia.
Qed.

(** Insert into a full leaf under a root with room (or a root leaf): the
    leaf splits and the separator is promoted. *)
Lemma BTree_Insert_split t ks ls fuel key rid l :
  tree_inv t ks ls -> (2 <= fuel)%nat -> u64 key -> rid_ok rid ->
  (forall v, ~ tree_holds ls key v) ->
  nth_error ls (route ks key) = Some l -> length (lkeys l) = 254%nat ->
  (length ks < 338)%nat ->
  let i := Search (length (lkeys l)) (fun i => key <=? nth i (lkeys l) 0) in
  let keys' := insertU64 (lkeys l) i key in
  let vals' := insertRID (lvals l) i rid in
  let L := mkLeaf (lid l) (firstn 127 keys') (firstn 127 vals') in
  let R := mkLeaf (Z.of_nat (tree_pages ks ls)) (skipn 127 keys') (skipn 127 vals') in
  exists t' sep,
    BTree_Insert fuel t key rid = (Ok tt, t') /\
    tree_inv t' (insertAt ks (route ks key) sep) (splitAt ls (route ks key) L R).
Proof.
  intros Hinv Hfuel Hkey Hrid Hno El Hfull Hroom. cbv zeta.
  destruct (BTree_Insert_split_prefix t ks ls fuel key rid l Hinv Hfuel Hkey Hrid Hno El Hfull)
    as (f2 & sep & Hins & Hsep & Hlen2 & HaL & HaR & Hother2).
  cbv zeta in Hins, Hsep, Hlen2, HaL, HaR, Hother2.
  pose proof Hinv as [Hlen Hmeta Hrid' Hroot (Hcnt & Hcap) (Hasc & Hku) (Hnd & Hids) Hleaves].
  destruct (Hleaves _ _ El) as (_ & Hwf & Hrange).
  pose proof (key_not_in_leaf ks ls key l Hno El Hwf) as Hmiss.
  destruct (leaf_insert_wf ks (route ks key) l key rid Hwf Hkey Hrid Hmiss
              (in_range_route ks key Hasc) Hrange)
    as (_ & Hl1 & Hl2 & Hasc' & Hk' & Hv' & Hrange' & _).
  cbv zeta in Hl1, Hl2, Hasc', Hk', Hv', Hrange'.
  set (i := Search _ _) in *.
  set (keys' := insertU64 (lkeys l) i key) in *.
  set (vals' := insertRID (lvals l) i rid) in *.
  rewrite Hfull in Hl2. rewrite Hl2 in Hl1.
  destruct (leaf_split_wf ks (route ks key) keys' vals' sep Hl2 Hl1 Hasc' Hk' Hv' Hrange' Hsep)
    as (HwfL & HwfR & HrL & HrR & Hsepu & Hsepr & Hseplow).
  pose proof (Hids l (nth_error_In _ _ El)) as Hlid.
  pose proof (tree_pages_bound ks ls Hcnt Hcap) as Hn.
  set (n := tree_pages ks ls) in *.
  set (L := mkLeaf (lid l) (firstn 127 keys') (firstn 127 vals')) in *.
  set (R := mkLeaf (Z.of_nat n) (skipn 127 keys') (skipn 127 vals')) in *.
  set (j := route ks key) in *.
  assert (Hj : (j <= length ks)%nat) by (pose proof (nth_error_lt _ _ _ El); lia).
  assert (Hold : forall x l0, nth_error ls x = Some l0 ->
            leaf_wf l0 /\ forall k, In k (lkeys l0) -> in_range ks x k).
  { intros x l0 Hx. destruct (Hleaves _ _ Hx) as (_ & H1 & H2). now split. }
  assert (Hmeta2 : exists mp, ReadPage f2 0 = Ok mp /\ ID mp = 0).
  { destruct Hmeta as (mp & H1 & H2). exists mp. rewrite Hother2 by lia. auto. }
  assert (Hframe2 : forall x l0, nth_error ls x = Some l0 -> x <> j -> leaf_at f2 l0).
  { intros x l0 Hx Hne. destruct (Hleaves _ _ Hx) as ((q & Hq & Hrest) & _).
    pose proof (Hids l0 (nth_error_In _ _ Hx)).
    exists q. rewrite Hother2; [auto|lia|].
    now apply (lid_distinct ls x j). }
  assert (Hpages' : tree_pages (insertAt ks j sep) (splitAt ls j L R) = (length ls + 3)%nat)
    by now apply (tree_pages_split ks ls j sep l).
  destruct Hroot as [(Eks & Hroot)|(Hne & Hint & Hnin)].
  - (* the root is the leaf *)
    subst ks. assert (Hls : length ls = 1%nat) by (cbn in Hcnt; lia).
    assert (n = 2%nat) by (unfold n, tree_pages; lia).
    assert (Hlr : lid l = rootID t).
    { destruct ls as [|l0 [|]]; try discriminate. unfold j in El. rewrite route_nil in El.
      cbn in El. injection El as ->. cbn in Hroot. congruence. }
    destruct (insertIntoParent_root f2 (n + 1) (rootID t) sep (Z.of_nat n) fuel)
      as (f4 & Hip & Hlen4 & Hint4 & Hmeta4 & Hother4); auto; try lia.
    { unfold u32. lia. }
    rewrite Hlr in Hins. rewrite Hip in Hins.
    exists (mkBTree f4 (Z.of_nat (n + 1))), sep. split; [exact Hins|].
    assert (Hkeep : forall l0, 1 <= lid l0 < Z.of_nat (n + 1) -> leaf_at f2 l0 -> leaf_at f4 l0).
    { intros l0 Hl0 (q & Hq & Hrest). exists q. rewrite Hother4 by lia. auto. }
    destruct (split_ids ls j l L R (Z.of_nat n) (Z.of_nat (n + 1)) El Hnd Hids)
      as (Hnd' & Hids'); try reflexivity; try lia.
    constructor; cbn [tfile rootID]; rewrite ?Hpages'.
    + rewrite Hlen4. f_equal. lia.
    + exact Hmeta4.
    + lia.
    + right. split; [apply insertAt_not_nil|].
      rewrite (map_splitAt lid ls j L R l El eq_refl).
      assert (Emap : insertAt (map lid ls) (S j) (lid R) = [rootID t; Z.of_nat n]).
      { rewrite Hroot. unfold j. rewrite route_nil. reflexivity. }
      rewrite Emap. split.
      * unfold j. rewrite route_nil. exact Hint4.
      * intros [E|[E|[]]]; lia.
    + rewrite length_splitAt, length_insertAt by now apply (nth_error_lt _ _ _ El).
      cbn [length]. lia.
    + split; [|now apply Forall_insertAt].
      apply ascending_separator; auto.
    + split; [exact Hnd'|]. intros l0 Hin. specialize (Hids' l0 Hin). lia.
    + intros x l0 Hx.
      destruct (split_leaves_inv f2 [] ls j l L R sep El Hj Hold Hframe2 HaL HaR
                  (HwfL _) (HwfR _) HrL HrR x l0 Hx) as (H1 & H2 & H3).
      split; [|split; assumption]. apply Hkeep; [|exact H1].
      specialize (Hids' l0 (nth_error_In _ _ Hx)). lia.
  - (* the root is internal *)
    assert (Hn' : n = (length ls + 2)%nat) by now apply tree_pages_internal.
    assert (Hcu : Forall u32 (map lid ls)).
    { rewrite Forall_forall. intros c Hc. apply in_map_iff in Hc.
      destruct Hc as (l0 & <- & Hin). specialize (Hids l0 Hin). unfold u32. lia. }
    assert (Hint2 : internal_at f2 (rootID t) ks (map lid ls)).
    { destruct Hint as (pr & Hpr & Hrest). exists pr.
      rewrite Hother2; [auto|lia|].
      intros E. apply Hnin. rewrite E. apply in_map. now apply (nth_error_In _ _ El). }
    destruct (insertIntoParent_parent f2 (n + 1) (rootID t) ks (map lid ls) (lid l) sep
                (Z.of_nat n) j fuel) as (f3 & Hip & Hlen3 & Hint3 & Hother3);
      auto; try lia.
    { now rewrite nth_error_map, El. }
    { intros E. apply Hnin. rewrite <- E. apply in_map. now apply (nth_error_In _ _ El). }
    { now rewrite length_map. }
    { unfold u32. lia. }
    rewrite Hip in Hins.
    exists (mkBTree f3 (rootID t)), sep. split; [exact Hins|].
    destruct (split_ids ls j l L R (Z.of_nat n) (Z.of_nat (n + 1)) El Hnd Hids)
      as (Hnd' & Hids'); try reflexivity; try lia.
    assert (Hkeep : forall l0, 1 <= lid l0 < Z.of_nat (n + 1) -> lid l0 <> rootID t ->
                               leaf_at f2 l0 -> leaf_at f3 l0).
    { intros l0 Hl0 Hnr (q & Hq & Hrest). exists q. rewrite Hother3 by lia. auto. }
    assert (Hnin' : ~ In (rootID t) (map lid (splitAt ls j L R))).
    { rewrite (map_splitAt lid ls j L R l El eq_refl). intros Hin.
      apply In_insertAt in Hin. destruct Hin as [E|Hin]; [cbn in E; lia|auto]. }
    constructor; cbn [tfile rootID]; rewrite ?Hpages'.
    + rewrite Hlen3. f_equal. lia.
    + destruct Hmeta2 as (mp & H1 & H2). exists mp. rewrite Hother3 by lia. auto.
    + lia.
    + right. split; [apply insertAt_not_nil|].
      rewrite (map_splitAt lid ls j L R l El eq_refl). split; [exact Hint3|].
      now rewrite <- (map_splitAt lid ls j L R l El eq_refl).
    + rewrite length_splitAt, length_insertAt by now apply (nth_error_lt _ _ _ El). lia.
    + split; [|now apply Forall_insertAt].
      apply ascending_separator; auto.
    + split; [exact Hnd'|]. intros l0 Hin. specialize (Hids' l0 Hin). lia.
    + intros x l0 Hx.
      destruct (split_leaves_inv f2 ks ls j l L R sep El Hj Hold Hframe2 HaL HaR
                  (HwfL _) (HwfR _) HrL HrR x l0 Hx) as (H1 & H2 & H3).
      split; [|split; assumption]. apply Hkeep; [| |exact H1].
      * specialize (Hids' l0 (nth_error_In _ _ Hx)). lia.
      * intros E. apply Hnin'. rewrite <- E. apply in_map. now apply (nth_error_In _ _ Hx).
Qed.

(** Insert into a full leaf under a full root: the split of the root
    panics in [writeInternal]. *)
Lemma BTree_Insert_overflow t ks ls fuel key rid l :
  tree_inv t ks ls -> (2 <= fuel)%nat -> u64 key -> rid_ok rid ->
  (forall v, ~ tree_holds ls key v) ->
  nth_error ls (route ks key) = Some l -> length (lkeys l) = 254%nat ->
  length ks = 338%nat ->
  fst (BTree_Insert fuel t key rid) = Err RuntimePanic.
Proof.
  intros Hinv Hfuel Hkey Hrid Hno El Hfull Hroot338.
  destruct (BTree_Insert_split_prefix t ks ls fuel key rid l Hinv Hfuel Hkey Hrid Hno El Hfull)
    as (f2 & sep & Hins & Hsep & Hlen2 & HaL & HaR & Hother2).
  cbv zeta in Hins, Hsep, Hlen2, HaL, HaR, Hother2.
  pose proof Hinv as [Hlen Hmeta Hrid' Hroot (Hcnt & Hcap) (Hasc & Hku) (Hnd & Hids) Hleaves].
  destruct (Hleaves _ _ El) as (_ & Hwf & Hrange).
  pose proof (key_not_in_leaf ks ls key l Hno El Hwf) as Hmiss.
  destruct (leaf_insert_wf ks (route ks key) l key rid Hwf Hkey Hrid Hmiss
              (in_range_route ks key Hasc) Hrange)
    as (_ & Hl1 & Hl2 & Hasc' & Hk' & Hv' & Hrange' & _).
  cbv zeta in Hl1, Hl2, Hasc', Hk', Hv', Hrange'.
  set (i := Search _ _) in *.
  set (keys' := insertU64 (lkeys l) i key) in *.
  set (vals' := insertRID (lvals l) i rid) in *.
  rewrite Hfull in Hl2. rewrite Hl2 in Hl1.
  destruct (leaf_split_wf ks (route ks key) _ _ sep Hl2 Hl1 Hasc' Hk' Hv' Hrange' Hsep)
    as (_ & _ & _ & _ & Hsepu & _).
  pose proof (Hids l (nth_error_In _ _ El)) as Hlid.
  pose proof (tree_pages_bound ks ls Hcnt Hcap) as Hn.
  destruct Hroot as [(Eks & _)|(Hne & Hint & Hnin)]; [subst ks; discriminate|].
  rewrite Hins.
  apply (insertIntoParent_overflow f2 (tree_pages ks ls + 1) (rootID t) ks (map lid ls)
           (lid l) sep _ (route ks key) fuel); auto; try lia.
  - destruct Hint as (pr & Hpr & Hrest). exists pr.
    rewrite Hother2; [auto|lia|].
    intros E. apply Hnin. rewrite E. apply in_map. now apply (nth_error_In _ _ El).
  - now rewrite nth_error_map, El.
  - intros E. apply Hnin. rewrite <- E. apply in_map. now apply (nth_error_In _ _ El).
  - now rewrite length_map.
  - rewrite Forall_forall. intros c Hc. apply in_map_iff in Hc.
    destruct Hc as (l0 & <- & Hin). specialize (Hids l0 Hin). unfold u32. lia.
  - unfold u32. lia.
Qed.

(** What a successful [Insert] does to a tree of the invariant. *)
Lemma BTree_Insert_ok t ks ls fuel key rid t' :
  tree_inv t ks ls -> (2 <= fuel)%nat -> u64 key -> rid_ok rid ->
  BTree_Insert fuel t key rid = (Ok tt, t') ->
  (forall v, ~ tree_holds ls key v) /\
  exists ks' ls',
    tree_inv t' ks' ls' /\
    forall k v, tree_holds ls' k v <-> (k = key /\ v = rid) \/ tree_holds ls k v.
Proof.
  intros Hinv Hfuel Hkey Hrid Hins.
  assert (Hno : forall v, ~ tree_holds ls key v).
  { intros v Hv. rewrite (BTree_Insert_dup t ks ls fuel key v rid Hinv Hfuel Hv) in Hins.
    discriminate. }
  split; [exact Hno|].
  pose proof Hinv as [_ _ _ _ (Hcnt & Hcap) (Hasc & _) _ Hleaves].
  destruct (route_spec ks key Hasc) as (Hr & _).
  destruct (nth_error ls (route ks key)) as [l|] eqn:El.
  2:{ apply nth_error_None in El. lia. }
  destruct (Hleaves _ _ El) as (_ & Hwf & Hrange).
  pose proof (key_not_in_leaf ks ls key l Hno El Hwf) as Hmiss.
  destruct (leaf_insert_wf ks (route ks key) l key rid Hwf Hkey Hrid Hmiss
              (in_range_route ks key Hasc) Hrange)
    as (_ & _ & _ & _ & _ & _ & _ & Hholds).
  cbv zeta in Hholds.
  pose proof Hwf as (_ & Hcapl & _).
  destruct (Nat.lt_ge_cases (length (lkeys l)) 254) as [Hroom|Hfull].
  - destruct (BTree_Insert_fit t ks ls fuel key rid l Hinv Hfuel Hkey Hrid Hno El Hroom)
      as (t1 & Hins1 & Hinv1).
    cbv zeta in Hinv1. rewrite Hins1 in Hins. injection Hins as <-.
    eexists ks, _. split; [exact Hinv1|].
    apply (tree_holds_replaceAt ls _ l); [exact El|]. exact Hholds.
  - assert (Hfull' : length (lkeys l) = 254%nat) by lia.
    destruct (Nat.lt_ge_cases (length ks) 338) as [Hkroom|Hkfull].
    + destruct (BTree_Insert_split t ks ls fuel key rid l Hinv Hfuel Hkey Hrid Hno El
                  Hfull' Hkroom) as (t1 & sep & Hins1 & Hinv1).
      cbv zeta in Hinv1. rewrite Hins1 in Hins. injection Hins as <-.
      eexists _, _. split; [exact Hinv1|].
      apply (tree_holds_splitAt ls _ l); [exact El|].
      intros k v. cbn [lkeys lvals]. rewrite <- Hholds. symmetry. apply holds_split.
    + pose proof (BTree_Insert_overflow t ks ls fuel key rid l Hinv Hfuel Hkey Hrid Hno El
                    Hfull' ltac:(lia)) as Hpanic.
      rewrite Hins in Hpanic. discriminate.
Qed.

(** * Histories of inserts *)

Lemma insertAll_inv fuel ops :
  forall t ks ls t',
    tree_inv t ks ls -> (2 <= fuel)%nat -> Forall op_ok ops ->
    insertAll fuel t ops = (Ok tt, t') ->
    exists ks' ls',
      tree_inv t' ks' ls' /\
      forall k v, tree_holds ls' k v <-> In (k, v) ops \/ tree_holds ls k v.
Proof.
  induction ops as [|[k r] ops IH]; intros t ks ls t' Hinv Hfuel Hok Hrun;
    cbn [insertAll] in Hrun.
  - injection Hrun as <-. exists ks, ls. split; [exact Hinv|]. intros k v. cbn [In]. tauto.
  - inversion Hok as [|? ? (Hk & Hr) Hok']; subst. cbn [fst snd] in Hk, Hr.
    destruct (BTree_Insert fuel t k r) as [[[]|e] t1] eqn:Hins; [|discriminate].
    destruct (BTree_Insert_ok t ks ls fuel k r t1 Hinv Hfuel Hk Hr Hins)
      as (_ & ks1 & ls1 & Hinv1 & Hh1).
    destruct (IH t1 ks1 ls1 t' Hinv1 Hfuel Hok' Hrun) as (ks' & ls' & Hinv' & Hh').
    exists ks', ls'. split; [exact Hinv'|]. intros k0 v0.
    rewrite Hh', Hh1. cbn [In]. split.
    + intros [H|[(-> & ->)|H]]; auto.
    + intros [[E|H]|H]; auto. injection E as -> ->. auto.
Qed.

Lemma tree_holds_empty k v : ~ tree_holds [emptyLeaf] k v.
Proof.
  intros (i & l & Hi & (x & Hx & _)).
  destruct i as [|[|i]]; cbn in Hi; try discriminate.
  injection Hi as <-. destruct x; discriminate.
Qed.

(** The tree after a history of successful inserts into a fresh tree. *)
Lemma reachable_tree fuel t0 ops t :
  (2 <= fuel)%nat -> Open [] = Ok t0 -> Forall op_ok ops ->
  insertAll fuel t0 ops = (Ok tt, t) ->
  exists ks ls,
    tree_inv t ks ls /\ forall k v, tree_holds ls k v <-> In (k, v) ops.
Proof.
  intros Hfuel Hopen Hok Hrun.
  destruct Open_empty as (t0' & Hopen' & Hinv0).
  assert (t0' = t0) by congruence. subst t0'.
  destruct (insertAll_inv fuel ops t0 [] [emptyLeaf] t Hinv0 Hfuel Hok Hrun)
    as (ks & ls & Hinv & Hh).
  exists ks, ls. split; [exact Hinv|]. intros k v. rewrite Hh. split; [|auto].
  intros [H|H]; [exact H|]. now apply tree_holds_empty in H.
Qed.

(** An insert of a new key succeeds as long as the root has room for one
    more separator. *)
Lemma BTree_Insert_progress t ks ls fuel key rid :
  tree_inv t ks ls -> (2 <= fuel)%nat -> u64 key -> rid_ok rid ->
  (forall v, ~ tree_holds ls key v) -> (length ks < 338)%nat ->
  exists t' ks' ls',
    BTree_Insert fuel t key rid = (Ok tt, t') /\ tree_inv t' ks' ls' /\
    (length ks' <= S (length ks))%nat /\
    forall k v, tree_holds ls' k v <-> (k = key /\ v = rid) \/ tree_holds ls k v.
Proof.
  intros Hinv Hfuel Hkey Hrid Hno Hroom.
  pose proof Hinv as [_ _ _ _ (Hcnt & _) (Hasc & _) _ Hleaves].
  destruct (route_spec ks key Hasc) as (Hr & _).
  destruct (nth_error ls (route ks key)) as [l|] eqn:El.
  2:{ apply nth_error_None in El. lia. }
  destruct (Hleaves _ _ El) as (_ & Hwf & _).
  pose proof Hwf as (_ & Hcapl & _).
  destruct (Nat.lt_ge_cases (length (lkeys l)) 254) as [Hfit|Hfull].
  - destruct (BTree_Insert_fit t ks ls fuel key rid l Hinv Hfuel Hkey Hrid Hno El Hfit)
      as (t1 & Hins1 & Hinv1).
    cbv zeta in Hinv1.
    exists t1, ks. eexists. split; [exact Hins1|]. split; [exact Hinv1|].
    split; [lia|].
    pose proof (key_not_in_leaf ks ls key l Hno El Hwf) as Hmiss.
    destruct (Hleaves _ _ El) as (_ & _ & Hrange).
    destruct (leaf_insert_wf ks (route ks key) l key rid Hwf Hkey Hrid Hmiss
                (in_range_route ks key Hasc) Hrange)
      as (_ & _ & _ & _ & _ & _ & _ & Hholds).
    cbv zeta in Hholds.
    apply (tree_holds_replaceAt ls _ l); [exact El|]. exact Hholds.
  - assert (Hfull' : length (lkeys l) = 254%nat) by lia.
    destruct (BTree_Insert_split t ks ls fuel key rid l Hinv Hfuel Hkey Hrid Hno El
                Hfull' Hroom) as (t1 & sep & Hins1 & Hinv1).
    cbv zeta in Hinv1.
    exists t1. eexists. eexists. split; [exact Hins1|]. split; [exact Hinv1|].
    split; [rewrite length_insertAt; lia|].
    pose proof (key_not_in_leaf ks ls key l Hno El Hwf) as Hmiss.
    destruct (Hleaves _ _ El) as (_ & _ & Hrange).
    destruct (leaf_insert_wf ks (route ks key) l key rid Hwf Hkey Hrid Hmiss
                (in_range_route ks key Hasc) Hrange)
      as (_ & _ & _ & _ & _ & _ & _ & Hholds).
    cbv zeta in Hholds.
    apply (tree_holds_splitAt ls _ l); [exact El|].
    intros k v. cbn [lkeys lvals]. rewrite <- Hholds. symmetry. apply holds_split.
Qed.

Lemma insertAll_progress fuel ops :
  forall t ks ls,
    tree_inv t ks ls -> (2 <= fuel)%nat -> Forall op_ok ops ->
    NoDup (map fst ops) ->
    (forall k v, tree_holds ls k v -> ~ In k (map fst ops)) ->
    (length ks + length ops <= 338)%nat ->
    exists t', insertAll fuel t ops = (Ok tt, t').
Proof.
  induction ops as [|[k r] ops IH]; intros t ks ls Hinv Hfuel Hok Hnd Hnew Hroom;
    cbn [insertAll].
  - now exists t.
  - inversion Hok as [|? ? (Hk & Hr) Hok']; subst. cbn [fst snd] in Hk, Hr.
    cbn [map fst] in Hnd. inversion Hnd as [|? ? Hnotin Hnd']; subst.
    cbn [length] in Hroom.
    destruct (BTree_Insert_progress t ks ls fuel k r Hinv Hfuel Hk Hr) as
      (t1 & ks1 & ls1 & Hins & Hinv1 & Hlen1 & Hh1); [|lia|].
    { intros v Hv. apply (Hnew k v Hv). cbn [map fst]. now left. }
    rewrite Hins. apply (IH t1 ks1 ls1 Hinv1 Hfuel Hok' Hnd'); [|lia].
    intros k0 v0 Hv0 Hin. apply Hh1 in Hv0. destruct Hv0 as [(-> & ->)|Hv0].
    + contradiction.
    + apply (Hnew k0 v0 Hv0). cbn [map fst]. now right.
Qed.

(** Up to 338 pairs with distinct keys always go in, whatever the order:
    from the 255th on, through leaf splits. *)
Lemma insertAll_small fuel t0 ops :
  (2 <= fuel)%nat -> Open [] = Ok t0 -> Forall op_ok ops ->
  NoDup (map fst ops) -> (length ops <= 338)%nat ->
  exists t, insertAll fuel t0 ops = (Ok tt, t).
Proof.
  intros Hfuel Hopen Hok Hnd Hlen.
  destruct Open_empty as (t0' & Hopen' & Hinv0).
  assert (t0' = t0) by congruence. subst t0'.
  apply (insertAll_progress fuel ops t0 [] [emptyLeaf] Hinv0 Hfuel Hok Hnd).
  - intros k v Hv. now apply tree_holds_empty in Hv.
  - cbn [length]. lia.
Qed.

(** C1.  B-tree point law: after the pairs of [ops] have been inserted into
    a freshly opened tree, in the order of the list and each insert
    succeeding, [Get] returns (rid, true) for every inserted pair and
    found = false for every u64 key that was not inserted. *)
Theorem btree_point_law (fuel : nat) (t0 t : BTree) (ops : list (Z * RID)) :
  (2 <= fuel)%nat -> Open [] = Ok t0 -> Forall op_ok ops ->
  insertAll fuel t0 ops = (Ok tt, t) ->
  (forall k r, In (k, r) ops -> BTree_Get fuel t k = Ok (r, true)) /\
  (forall k, u64 k -> ~ In k (map fst ops) ->
             BTree_Get fuel t k = Ok (zeroRID, false)).
Proof.
  intros Hfuel Hopen Hok Hrun.
  destruct (reachable_tree fuel t0 ops t Hfuel Hopen Hok Hrun) as (ks & ls & Hinv & Hh).
  split.
  - intros k r Hin.
    apply (proj1 (BTree_Get_spec t ks ls fuel k Hinv Hfuel)). now apply Hh.
  - intros k _ Hnin.
    apply (proj2 (BTree_Get_spec t ks ls fuel k Hinv Hfuel)).
    intros v Hv. apply Hh in Hv. apply Hnin.
    change k with (fst (k, v)). now apply in_map.
Qed.

Lemma btree_point_law_witness :
  BTree_Get 2 (snd (insertAll 2 freshTree demoInserts)) 7 = Ok (mkRID 2 9, true).
Proof.
  refine (proj1 (btree_point_law 2 freshTree (snd (insertAll 2 freshTree demoInserts))
                   demoInserts _ _ _ _) 7 (mkRID 2 9) _).
  - lia.
  - vm_compute. reflexivity.
  - repeat constructor; vm_compute; congruence.
  - vm_compute. reflexivity.
  - right. left. reflexivity.
Defined.

(** C7.  Duplicate rejection: in a tree built by successful inserts, if
    insert(key, rid1) was one of them, a later insert(key, rid2) fails with
    DuplicateKey for every rid2, equal to rid1 or not, and returns the tree
    it was given: the file, page for page, and the root id are unchanged,
    and get(key) still returns (rid1, true). *)
Theorem duplicate_rejected (fuel : nat) (t0 t : BTree) (ops : list (Z * RID))
        (key : Z) (rid1 rid2 : RID) :
  (2 <= fuel)%nat -> Open [] = Ok t0 -> Forall op_ok ops ->
  insertAll fuel t0 ops = (Ok tt, t) ->
  In (key, rid1) ops ->
  BTree_Insert fuel t key rid2 = (Err ErrDupKey, t) /\
  BTree_Get fuel t key = Ok (rid1, true).
Proof.
  intros Hfuel Hopen Hok Hrun Hin.
  destruct (reachable_tree fuel t0 ops t Hfuel Hopen Hok Hrun) as (ks & ls & Hinv & Hh).
  assert (Hheld : tree_holds ls key rid1) by now apply Hh.
  split.
  - now apply (BTree_Insert_dup t ks ls fuel key rid1 rid2).
  - now apply (proj1 (BTree_Get_spec t ks ls fuel key Hinv Hfuel)).
Qed.

Lemma duplicate_rejected_witness :
  BTree_Insert 2 (snd (insertAll 2 freshTree demoInserts)) 42 (mkRID 5 5) =
    (Err ErrDupKey, snd (insertAll 2 freshTree demoInserts)) /\
  BTree_Get 2 (snd (insertAll 2 freshTree demoInserts)) 42 = Ok (mkRID 1 1, true).
Proof.
  apply (duplicate_rejected 2 freshTree (snd (insertAll 2 freshTree demoInserts))
           demoInserts 42 (mkRID 1 1) (mkRID 5 5)).
  - lia.
  - vm_compute. reflexivity.
  - repeat constructor; vm_compute; congruence.
  - vm_compute. reflexivity.
  - left. reflexivity.
Defined.

(** * The ordering invariant, on the pages of the file *)

Lemma leaf_not_internal f l keys kids :
  leaf_at f l -> ~ node_internal f (lid l) keys kids.
Proof.
  intros (p & Hp & _ & Hk & _) (q & Hq & Hkq & _).
  assert (q = p) by congruence. subst q. rewrite Hk in Hkq. discriminate.
Qed.

Lemma leaf_node_keys f l keys vals :
  leaf_at f l -> node_leaf f (lid l) keys vals -> keys = lkeys l.
Proof.
  intros (p & Hp & _ & _ & Hd) (q & Hq & _ & Hdq).
  assert (q = p) by congruence. subst q. congruence.
Qed.

Lemma internal_not_leaf f id ks cs keys vals :
  internal_at f id ks cs -> ~ node_leaf f id keys vals.
Proof.
  intros (p & Hp & _ & Hk & _) (q & Hq & Hkq & _).
  assert (q = p) by congruence. subst q. rewrite Hk in Hkq. discriminate.
Qed.

Lemma internal_node_entries f id ks cs keys kids :
  internal_at f id ks cs -> node_internal f id keys kids -> keys = ks /\ kids = cs.
Proof.
  intros (p & Hp & _ & _ & Hd) (q & Hq & _ & Hdq).
  assert (q = p) by congruence. subst q. split; congruence.
Qed.

Lemma subtree_key_leaf f l k :
  leaf_at f l -> subtree_key f (lid l) k -> In k (lkeys l).
Proof.
  intros Hl Hs. inversion Hs as [id keys vals k0 Hn Hin|id keys kids k0 Hn Hin|
                                 id keys kids c k0 Hn Hin Hsub]; subst.
  - now rewrite <- (leaf_node_keys f l keys vals Hl Hn).
  - now apply leaf_not_internal in Hn.
  - now apply leaf_not_internal in Hn.
Qed.

(** The pages of a tree of the invariant: the root, and the leaves under an
    internal root. *)
Lemma tree_node_inv t ks ls id :
  tree_inv t ks ls -> tree_node (tfile t) (rootID t) id ->
  id = rootID t \/ exists i l, nth_error ls i = Some l /\ lid l = id.
Proof.
  intros Hinv Hn. induction Hn as [|id keys kids c Hn IH Hint Hc]; [now left|].
  right. pose proof Hinv as [_ _ _ Hroot _ _ _ Hleaves].
  destruct IH as [->|(i & l & Hi & <-)].
  - destruct Hroot as [(-> & Hroot)|(Hne & Hint' & _)].
    + exfalso. destruct ls as [|l0 [|]]; try discriminate.
      cbn in Hroot. injection Hroot as Hroot.
      destruct (Hleaves 0%nat l0 eq_refl) as (Hl0 & _).
      rewrite <- Hroot in Hint. now apply leaf_not_internal in Hint.
    + destruct (internal_node_entries _ _ _ _ _ _ Hint' Hint) as (-> & ->).
      destruct (In_nth_error _ _ Hc) as (i & Hi). rewrite nth_error_map in Hi.
      destruct (nth_error ls i) as [l|] eqn:El; [|discriminate].
      cbn in Hi. injection Hi as <-. now exists i, l.
  - exfalso. destruct (Hleaves _ _ Hi) as (Hl & _).
    now apply leaf_not_internal in Hint.
Qed.

(** C3.  B-tree ordering invariant: after any sequence of successful
    inserts into a freshly opened tree, at every page of the tree the keys
    of a leaf are strictly ascending, the keys of an internal node are
    strictly ascending, and every key k' stored in the subtree under child
    c_i of an internal node with keys k_0 .. k_{n-1} satisfies k' < k_i when
    i < n and k' >= k_{i-1} when i > 0. *)
Theorem btree_ordering (fuel : nat) (t0 t : BTree) (ops : list (Z * RID)) (id : Z) :
  (2 <= fuel)%nat -> Open [] = Ok t0 -> Forall op_ok ops ->
  insertAll fuel t0 ops = (Ok tt, t) ->
  tree_node (tfile t) (rootID t) id ->
  (forall keys vals, node_leaf (tfile t) id keys vals -> ascending keys) /\
  (forall keys kids, node_internal (tfile t) id keys kids ->
     ascending keys /\
     forall i c k', nth_error kids i = Some c -> subtree_key (tfile t) c k' ->
       (forall ki, nth_error keys i = Some ki -> k' < ki) /\
       (forall kp, (0 < i)%nat -> nth_error keys (i - 1) = Some kp -> kp <= k')).
Proof.
  intros Hfuel Hopen Hok Hrun Hnode.
  destruct (reachable_tree fuel t0 ops t Hfuel Hopen Hok Hrun) as (ks & ls & Hinv & _).
  pose proof Hinv as [_ _ _ Hroot _ (Hasc & _) _ Hleaves].
  assert (Hleafcase : forall i l, nth_error ls i = Some l ->
    (forall keys vals, node_leaf (tfile t) (lid l) keys vals -> ascending keys) /\
    (forall keys kids, node_internal (tfile t) (lid l) keys kids ->
       ascending keys /\
       forall i c k', nth_error kids i = Some c -> subtree_key (tfile t) c k' ->
         (forall ki, nth_error keys i = Some ki -> k' < ki) /\
         (forall kp, (0 < i)%nat -> nth_error keys (i - 1) = Some kp -> kp <= k'))).
  { intros i l Hi. destruct (Hleaves _ _ Hi) as (Hl & (_ & _ & Hascl & _) & _). split.
    - intros keys vals Hn. now rewrite (leaf_node_keys _ l keys vals Hl Hn).
    - intros keys kids Hn. now apply leaf_not_internal in Hn. }
  destruct (tree_node_inv t ks ls id Hinv Hnode) as [->|(i & l & Hi & <-)];
    [|now apply (Hleafcase i)].
  destruct Hroot as [(-> & Hroot)|(Hne & Hint & _)].
  - destruct ls as [|l0 [|]]; try discriminate.
    cbn in Hroot. injection Hroot as Hroot. rewrite <- Hroot.
    now apply (Hleafcase 0%nat).
  - split.
    + intros keys vals Hn. now apply (internal_not_leaf _ _ _ _ _ _ Hint) in Hn.
    + intros keys kids Hn.
      destruct (internal_node_entries _ _ _ _ _ _ Hint Hn) as (-> & ->).
      split; [exact Hasc|]. intros i c k' Hc Hsub.
      rewrite nth_error_map in Hc.
      destruct (nth_error ls i) as [l|] eqn:El; [|discriminate].
      cbn in Hc. injection Hc as <-.
      destruct (Hleaves _ _ El) as (Hl & _ & Hrange).
      apply Hrange. now apply (subtree_key_leaf (tfile t) l).
Qed.

Lemma btree_ordering_witness : ascending [7; 42; 100].
Proof.
  refine (proj1 (btree_ordering 2 freshTree (snd (insertAll 2 freshTree demoInserts))
                   demoInserts 1 _ _ _ _ _)
            [7; 42; 100] [mkRID 2 9; mkRID 1 1; mkRID 3 0] _).
  - lia.
  - vm_compute. reflexivity.
  - repeat constructor; vm_compute; congruence.
  - vm_compute. reflexivity.
  - assert (E : rootID (snd (insertAll 2 freshTree demoInserts)) = 1)
      by (vm_compute; reflexivity).
    rewrite E. constructor.
  - exists demoRoot. split; [|split]; vm_compute; reflexivity.
Defined.

(** * The split of an internal node *)

(** C2, what the code does.  For an overflowing internal node, keys
    k_0..k_{len-1} with len+1 children, [splitInternalArrays] cuts at
    m = len/2: the left half is keys[0..m) with children[0..m+1), and the
    right half is keys[m..len), the middle key keys[m] included, with
    children[m+1..len+1): as many children as keys, not one more.
    [writeInternal] on the right half, as [insertIntoParent] calls it after
    the left half has been written, panics on every page: no right node is
    produced and no separator is promoted. *)
Theorem internal_split_keeps_middle_key (keys kids : list Z) :
  length kids = S (length keys) -> keys <> [] ->
  let m := (length keys / 2)%nat in
  let '(lk, lc, rk, rc) := splitInternalArrays keys kids in
  lk = firstn m keys /\ lc = firstn (m + 1) kids /\
  rk = skipn m keys /\ rc = skipn (m + 1) kids /\
  nth_error rk 0 = nth_error keys m /\ rk <> [] /\
  length rc = length rk /\
  forall p, writeInternal p rk rc = Err RuntimePanic.
Proof.
  intros Hlen Hne. cbv zeta.
  pose proof (splitInternalArrays_lengths keys kids Hlen Hne) as H.
  unfold splitInternalArrays in *. cbv zeta in H.
  destruct H as (_ & _ & Hrk & Hrc & Hmid & Hrne).
  repeat (split; [first [reflexivity | assumption | lia]|]).
  intros p. apply writeInternal_panic; [lia|assumption].
Qed.

Lemma internal_split_keeps_middle_key_witness :
  nth_error (skipn 169 overflowKeys) 0 = Some 170 /\
  length (skipn 170 overflowKids) = length (skipn 169 overflowKeys) /\
  writeInternal (newPage 5) (skipn 169 overflowKeys) (skipn 170 overflowKids) =
    Err RuntimePanic.
Proof.
  pose proof (internal_split_keeps_middle_key overflowKeys overflowKids) as H.
  cbv zeta in H.
  change (splitInternalArrays overflowKeys overflowKids) with
    (firstn 169 overflowKeys, firstn 170 overflowKids,
     skipn 169 overflowKeys, skipn 170 overflowKids) in H.
  destruct H as (_ & _ & _ & _ & Hmid & _ & Hlen & Hpanic).
  - vm_compute. reflexivity.
  - vm_compute. congruence.
  - split; [rewrite Hmid; vm_compute; reflexivity|].
    split; [exact Hlen|]. apply Hpanic.
Defined.

(** * More on pages *)

Lemma SetData_fits p b :
  page_ok p -> Z.of_nat (length b) <= 4086 ->
  SetData p b =
  (Ok tt, mkPage (ID p) (Checksum p) (Z.of_nat (length b))
                 (b ++ zeros (4086 - length b))).
Proof.
  intros (_ & _ & _ & HD) Hlen. unfold SetData. rewrite PayloadSize_val in *.
  destruct (Z.ltb_spec 4086 (Z.of_nat (length b))) as [|_]; [lia|].
  f_equal. f_equal. rewrite Nat2Z.id. f_equal.
  unfold copy. rewrite HD.
  rewrite (@firstn_all2 _ _ b) by lia.
  rewrite firstn_app, firstn_all, Nat.sub_diag, firstn_O. apply app_nil_r.
Qed.

(** X1.  [SetData] fails with DataTooLarge exactly when the input is longer
    than the 4086-byte payload, and then leaves the page as it was;
    otherwise it stores the input at the start of the payload, zeroes the
    rest, sets data_size to the input's length and keeps id and checksum. *)
Theorem SetData_contract (p : Page) (b : bytes) :
  page_ok p ->
  let r := SetData p b in
  (fst r = Err ErrDataTooLarge <-> 4086 < Z.of_nat (length b)) /\
  (4086 < Z.of_nat (length b) -> snd r = p) /\
  (Z.of_nat (length b) <= 4086 ->
     fst r = Ok tt /\ page_ok (snd r) /\
     ID (snd r) = ID p /\ Checksum (snd r) = Checksum p /\
     DataSize (snd r) = Z.of_nat (length b) /\
     Data (snd r) = b ++ zeros (4086 - length b)).
Proof.
  intros Hok. cbv zeta.
  destruct (Z.lt_ge_cases 4086 (Z.of_nat (length b))) as [Hbig|Hfit].
  - assert (E : SetData p b = (Err ErrDataTooLarge, p)).
    { unfold SetData. rewrite PayloadSize_val.
      destruct (Z.ltb_spec 4086 (Z.of_nat (length b))); [reflexivity|lia]. }
    rewrite E. cbn [fst snd]. split; [tauto|]. split; [reflexivity|lia].
  - rewrite (SetData_fits p b Hok Hfit). cbn [fst snd ID Checksum DataSize Data].
    split; [split; [discriminate|lia]|]. split; [lia|]. intros _.
    destruct Hok as (HI & HC & _ & _).
    split; [reflexivity|]. split; [|repeat split].
    unfold page_ok. cbn [ID Checksum DataSize Data].
    rewrite length_app, length_zeros, PayloadSize_val. lia.
Qed.

Lemma SetData_contract_witness :
  fst (SetData (newPage 1) [Byte.x68; Byte.x69]) = Ok tt /\
  DataSize (snd (SetData (newPage 1) [Byte.x68; Byte.x69])) = 2.
Proof.
  destruct (SetData_contract (newPage 1) [Byte.x68; Byte.x69]) as (_ & _ & H).
  - unfold page_ok. vm_compute. intuition congruence.
  - destruct H as (H1 & _ & _ & _ & H2 & _); [vm_compute; congruence|].
    split; [exact H1|exact H2].
Defined.

(** X2.  [SetData], [WritePage], [ReadPage] in a row: the page read back is
    the page [WritePage] left in memory; it holds the input followed by
    zeros, data_size is the input's length, and the stored checksum is the
    CRC-32 of exactly the input bytes. *)
Theorem SetData_WritePage_ReadPage (f : file) (p : Page) (b : bytes) :
  page_ok p -> Z.of_nat (length b) <= 4086 ->
  exists q f',
    WritePage f (snd (SetData p b)) = (Ok tt, q, f') /\
    ReadPage f' (ID p) = Ok q /\
    ID q = ID p /\ DataSize q = Z.of_nat (length b) /\
    Data q = b ++ zeros (4086 - length b) /\
    Checksum q = ChecksumIEEE b.
Proof.
  intros Hok Hlen. rewrite (SetData_fits p b Hok Hlen). cbn [snd].
  set (p1 := mkPage _ _ _ _).
  assert (Hok1 : page_ok p1).
  { destruct Hok as (HI & HC & _ & _). unfold page_ok, p1.
    cbn [ID Checksum DataSize Data].
    rewrite length_app, length_zeros, PayloadSize_val. lia. }
  destruct (ReadPage_WritePage_same f p1 Hok1) as (q & f' & Hw & Hq & _ & Hr).
  { unfold p1. cbn [DataSize]. rewrite PayloadSize_val. lia. }
  exists q, f'. split; [exact Hw|]. split; [exact Hr|].
  rewrite Hq. unfold p1. cbn [ID Checksum DataSize Data set_Checksum].
  repeat split. rewrite Nat2Z.id, firstn_app, firstn_all, Nat.sub_diag, firstn_O.
  now rewrite app_nil_r.
Qed.

Lemma SetData_WritePage_ReadPage_witness :
  exists q f',
    WritePage [] (snd (SetData (newPage 2) [Byte.x68; Byte.x69])) = (Ok tt, q, f') /\
    ReadPage f' 2 = Ok q /\
    ID q = 2 /\ DataSize q = 2 /\
    Data q = [Byte.x68; Byte.x69] ++ zeros 4084 /\
    Checksum q = ChecksumIEEE [Byte.x68; Byte.x69].
Proof.
  apply (SetData_WritePage_ReadPage [] (newPage 2) [Byte.x68; Byte.x69]).
  - unfold page_ok. vm_compute. intuition congruence.
  - vm_compute. congruence.
Defined.

Lemma WritePage_Ok_inv f p p' f' :
  page_ok p -> WritePage f p = (Ok tt, p', f') ->
  DataSize p <= PayloadSize /\
  p' = set_Checksum p (ChecksumIEEE (firstn (Z.to_nat (DataSize p)) (Data p))) /\
  f' = WriteAt f (encodePage p') (pageOffset (ID p)).
Proof.
  intros Hok Hw.
  assert (Hs : DataSize p <= PayloadSize).
  { unfold WritePage in Hw.
    destruct (Z.ltb_spec PayloadSize (DataSize p)); [discriminate|assumption]. }
  split; [exact Hs|]. rewrite (WritePage_ok f p Hok Hs) in Hw. cbv zeta in Hw.
  injection Hw as <- <-. split; reflexivity.
Qed.

(** X3.  A successful [WritePage] of page [id] leaves the file
    [max(old length, (id+1)*4096)] bytes long and every other page that was
    wholly inside the old file reads as before. *)
Theorem WritePage_other_pages (f : file) (p p' : Page) (f' : file) :
  page_ok p -> WritePage f p = (Ok tt, p', f') ->
  length f' = Nat.max (length f) (Z.to_nat ((ID p + 1) * 4096)) /\
  forall id, 0 <= id -> id <> ID p -> (id + 1) * 4096 <= Z.of_nat (length f) ->
    ReadPage f' id = ReadPage f id.
Proof.
  intros Hok Hw. pose proof Hok as (HI & _).
  destruct (WritePage_Ok_inv f p p' f' Hok Hw) as (_ & _ & ->). split.
  - rewrite length_WriteAt, length_encodePage. unfold pageOffset, PageSize.
    f_equal. lia.
  - intros id Hid Hne Hin. apply ReadPage_WriteAt_other; try lia.
    + apply length_encodePage.
    + unfold PageSize. lia.
Qed.

Lemma WritePage_other_pages_witness :
  length (snd (WritePage (zeros 8192) (newPage 3))) = 16384%nat /\
  ReadPage (snd (WritePage (zeros 8192) (newPage 3))) 1 = ReadPage (zeros 8192) 1.
Proof.
  destruct (WritePage_other_pages (zeros 8192) (newPage 3)
              (snd (fst (WritePage (zeros 8192) (newPage 3))))
              (snd (WritePage (zeros 8192) (newPage 3)))) as (H1 & H2).
  - unfold page_ok. vm_compute. intuition congruence.
  - vm_compute. reflexivity.
  - split.
    + rewrite H1. vm_compute. reflexivity.
    + apply H2; [lia|vm_compute; congruence|vm_compute; congruence].
Defined.

(** X4.  [ReadPage] fails with the read error of the file exactly when page
    [id] is not wholly inside the file. *)
Theorem ReadPage_short_file (f : file) (id : Z) :
  0 <= id ->
  (ReadPage f id = Err ErrIO <-> Z.of_nat (length f) < (id + 1) * 4096).
Proof.
  intros Hid. split; [|apply ReadPage_beyond].
  intros Hr. destruct (Z.lt_ge_cases (Z.of_nat (length f)) ((id + 1) * 4096)) as [|Hin];
    [assumption|exfalso].
  unfold ReadPage, ReadAt in Hr.
  destruct (Z.ltb_spec (Z.of_nat (length f)) (pageOffset id + Z.of_nat (Z.to_nat PageSize)))
    as [Hlt|_].
  { unfold pageOffset, PageSize in Hlt. lia. }
  cbn [bind] in Hr. unfold ComputeChecksum in Hr.
  match type of Hr with context [if ?c then Err RuntimePanic else _] => destruct c end;
    cbn [bind] in Hr; [discriminate|].
  match type of Hr with context [if ?c then _ else _] => destruct c end; discriminate.
Qed.

Lemma ReadPage_short_file_witness :
  ReadPage (zeros 4095) 0 = Err ErrIO <-> Z.of_nat (length (zeros 4095)) < (0 + 1) * 4096.
Proof. apply (ReadPage_short_file (zeros 4095) 0). lia. Defined.

Lemma slice_slice d a n x y :
  (y <= n)%nat -> slice (slice d a (a + n)) x y = slice d (a + x) (a + y).
Proof.
  intros Hy. unfold slice. replace (a + n - a)%nat with n by lia.
  rewrite skipn_firstn_comm, firstn_firstn, skipn_skipn.
  f_equal; [lia|f_equal; lia].
Qed.

(** X5.  [ReadPage] does not validate the stored size field: on a page that
    lies inside the file and whose data_size field exceeds 4086, the slice
    [p.Data[:p.DataSize]] of [ComputeChecksum] is out of range and the read
    panics instead of returning an error. *)
Theorem ReadPage_oversize_panics (f : file) (id : Z) :
  0 <= id -> (id + 1) * 4096 <= Z.of_nat (length f) ->
  4086 < Uint16 (slice f (Z.to_nat (id * 4096) + 8) (Z.to_nat (id * 4096) + 10)) ->
  ReadPage f id = Err RuntimePanic.
Proof.
  intros Hid Hin Hsz. unfold ReadPage, ReadAt.
  destruct (Z.ltb_spec (Z.of_nat (length f)) (pageOffset id + Z.of_nat (Z.to_nat PageSize)))
    as [Hlt|_].
  { unfold pageOffset, PageSize in Hlt. lia. }
  cbn [bind]. unfold ComputeChecksum. cbn [Data DataSize].
  rewrite length_copy, length_zeros, PayloadSize_val.
  change (pageOffset id) with (id * 4096).
  change (Z.to_nat PageSize) with 4096%nat.
  rewrite (slice_slice f (Z.to_nat (id * 4096)) 4096 8 10) by lia.
  destruct (Z.ltb_spec (Z.of_nat (Z.to_nat 4086))
              (Uint16 (slice f (Z.to_nat (id * 4096) + 8) (Z.to_nat (id * 4096) + 10))));
    [reflexivity|lia].
Qed.

Lemma ReadPage_oversize_panics_witness : ReadPage oversizeFile 0 = Err RuntimePanic.
Proof.
  apply (ReadPage_oversize_panics oversizeFile 0).
  - lia.
  - vm_compute. congruence.
  - vm_compute. reflexivity.
Defined.

(** * More on slotted pages *)

Lemma slotted_inv_bounds p sc fs fe :
  slotted_inv p -> header p = (sc, fs, fe) ->
  0 <= sc /\ sc * 4 <= 4080 /\ 6 <= fs /\ fs <= fe /\ fe <= 4086 - sc * 4 /\
  length (Data p) = 4086%nat.
Proof.
  intros (Hok & Hsz & Hs) Eh. rewrite Eh in Hs.
  destruct Hs as (Hfs & Hle & Hfe & _).
  pose proof (header_range p) as Hr. rewrite Eh in Hr.
  destruct Hok as (_ & _ & _ & HD).
  unfold spHeaderSize, slotEntrySize in *. rewrite PayloadSize_val in *.
  repeat split; lia.
Qed.

Lemma freshPage_inv : slotted_inv freshPage /\ header freshPage = (0, 6, 4086).
Proof.
  destruct (InitIfFresh_newPage 0 ltac:(lia)) as (H1 & H2 & _). now split.
Qed.

Lemma slotted_inv_Insert p rec :
  slotted_inv p -> Z.of_nat (length rec) + slotEntrySize <= freeSpace p ->
  slotted_inv (snd (SlottedPage_Insert p rec)).
Proof.
  intros Hinv Hroom. destruct (header p) as [[sc fs] fe] eqn:Eh.
  destruct (slotted_inv_bounds p sc fs fe Hinv Eh) as (Hsc & _ & Hfs & _ & Hfe & _).
  rewrite (SlottedPage_Insert_ok p rec sc fs fe); cbn [snd].
  - apply (insertedPage_inv p rec sc fs fe Hinv Eh Hroom).
  - apply Hinv.
  - exact Eh.
  - unfold spHeaderSize. lia.
  - rewrite PayloadSize_val. lia.
  - exact Hroom.
Qed.

Lemma oneRecordPage_inv : slotted_inv oneRecordPage.
Proof.
  apply slotted_inv_Insert; [apply freshPage_inv|].
  rewrite (freeSpace_header _ _ _ _ (proj2 freshPage_inv)). vm_compute. congruence.
Qed.

Lemma twoRecordPage_inv : slotted_inv twoRecordPage.
Proof.
  apply slotted_inv_Insert; [apply oneRecordPage_inv|].
  vm_compute. congruence.
Qed.

(** X6.  [Read] on a page that satisfies the slotted invariant never
    panics: it fails with BadSlotID exactly for the slot ids at or past
    slot_count, with SlotDeleted exactly for the slots whose length is 0,
    and otherwise returns the [ln] bytes at [off], which lie between the
    header and free_start. *)
Theorem SlottedPage_Read_contract (p : Page) (i sc fs fe : Z) :
  slotted_inv p -> header p = (sc, fs, fe) -> 0 <= i ->
  (SlottedPage_Read p i = Err ErrBadSlotID <-> sc <= i) /\
  (i < sc ->
     (SlottedPage_Read p i = Err ErrSlotDeleted <-> snd (slotEntry p i) = 0) /\
     (snd (slotEntry p i) <> 0 ->
        let off := fst (slotEntry p i) in
        let ln := snd (slotEntry p i) in
        SlottedPage_Read p i =
          Ok (slice (Data p) (Z.to_nat off) (Z.to_nat (off + ln))) /\
        6 <= off /\ off + ln <= fs)).
Proof.
  intros Hinv Eh Hi.
  destruct (Z.le_gt_cases sc i) as [Hbad|Hin].
  - rewrite (SlottedPage_Read_bad p i sc fs fe Eh Hbad).
    split; [tauto|lia].
  - destruct (slotEntry p i) as [off ln] eqn:Es. cbn [fst snd].
    rewrite (SlottedPage_Read_ok p i sc fs fe off ln Hinv Eh ltac:(lia) Es).
    pose proof Hinv as (_ & _ & Hs). rewrite Eh in Hs.
    destruct Hs as (_ & _ & _ & Hslots). specialize (Hslots i ltac:(lia)).
    rewrite Es in Hslots. unfold spHeaderSize in Hslots.
    destruct (Z.eqb_spec ln 0) as [->|Hln].
    + split; [split; [discriminate|lia]|]. intros _.
      split; [tauto|]. intros H. contradiction.
    + split; [split; [discriminate|lia]|]. intros _.
      split; [split; [discriminate|contradiction]|]. intros _. cbv zeta.
      split; [reflexivity|lia].
Qed.

Lemma SlottedPage_Read_contract_witness :
  SlottedPage_Read twoRecordPage 2 = Err ErrBadSlotID <-> 2 <= 2.
Proof.
  apply (SlottedPage_Read_contract twoRecordPage 2 2 9 4078).
  - exact twoRecordPage_inv.
  - vm_compute. reflexivity.
  - lia.
Defined.

Lemma SlottedPage_Insert_Ok_inv p rec slot p' sc fs fe :
  slotted_inv p -> header p = (sc, fs, fe) ->
  SlottedPage_Insert p rec = (Ok slot, p') ->
  Z.of_nat (length rec) + slotEntrySize <= freeSpace p /\
  slot = sc /\ p' = insertedPage p rec sc fs fe.
Proof.
  intros Hinv Eh Hins.
  destruct (slotted_inv_bounds p sc fs fe Hinv Eh) as (Hsc & _ & Hfs & _ & Hfe & _).
  destruct (Z.lt_ge_cases 0xFFFF (Z.of_nat (length rec))) as [Hbig|Hsmall].
  { rewrite SlottedPage_Insert_too_large in Hins by exact Hbig. discriminate. }
  destruct (Z.lt_ge_cases (freeSpace p) (Z.of_nat (length rec) + slotEntrySize))
    as [Hno|Hyes].
  { rewrite SlottedPage_Insert_no_space in Hins by assumption. discriminate. }
  split; [exact Hyes|].
  rewrite (SlottedPage_Insert_ok p rec sc fs fe) in Hins.
  - injection Hins as <- <-. split; reflexivity.
  - apply Hinv.
  - exact Eh.
  - unfold spHeaderSize. lia.
  - rewrite PayloadSize_val. lia.
  - exact Hyes.
Qed.

(** X7.  [Insert] then [Read] on a page that satisfies the slotted
    invariant: a successful insert keeps the invariant, the new slot reads
    back the record (SlotDeleted for an empty record), and every older slot
    reads as it did before. *)
Theorem SlottedPage_Insert_Read (p : Page) (rec : bytes) (slot : Z) (p' : Page) :
  slotted_inv p -> SlottedPage_Insert p rec = (Ok slot, p') ->
  slotted_inv p' /\
  SlottedPage_Read p' slot =
    (if Z.of_nat (length rec) =? 0 then Err ErrSlotDeleted else Ok rec) /\
  (forall i, 0 <= i < slot -> SlottedPage_Read p' i = SlottedPage_Read p i).
Proof.
  intros Hinv Hins. destruct (header p) as [[sc fs] fe] eqn:Eh.
  destruct (SlottedPage_Insert_Ok_inv p rec slot p' sc fs fe Hinv Eh Hins)
    as (Hroom & -> & ->).
  split; [apply (insertedPage_inv p rec sc fs fe Hinv Eh Hroom)|].
  split; [apply (SlottedPage_Read_inserted_new p rec sc fs fe Hinv Eh Hroom)|].
  intros i Hi. now apply SlottedPage_Read_inserted_old.
Qed.

Lemma SlottedPage_Insert_Read_witness :
  SlottedPage_Read twoRecordPage 1 = Ok [Byte.x63] /\
  SlottedPage_Read twoRecordPage 0 =
    SlottedPage_Read oneRecordPage 0.
Proof.
  destruct (SlottedPage_Insert_Read
              oneRecordPage [Byte.x63]
              1 twoRecordPage) as (_ & H1 & H2).
  - exact oneRecordPage_inv.
  - reflexivity.
  - split; [exact H1|]. apply H2. lia.
Defined.

(** X8.  The free-space accounting of [Insert]: the hole between
    free_start and free_end shrinks by the record and one slot entry,
    [len + 4], but [freeSpace] subtracts the slot directory a second time,
    so each insert lowers it by [len + 8]; an empty page reports 4080. *)
Theorem SlottedPage_Insert_freeSpace (p : Page) (rec : bytes) (slot : Z) (p' : Page) :
  slotted_inv p -> SlottedPage_Insert p rec = (Ok slot, p') ->
  freeSpace p' = freeSpace p - Z.of_nat (length rec) - 8 /\
  (let '(_, fs, fe) := header p in
   let '(_, fs', fe') := header p' in
   fe' - fs' = fe - fs - Z.of_nat (length rec) - 4) /\
  freeSpace (InitIfFresh (newPage (ID p))) = 4080.
Proof.
  intros Hinv Hins. destruct (header p) as [[sc fs] fe] eqn:Eh.
  destruct (SlottedPage_Insert_Ok_inv p rec slot p' sc fs fe Hinv Eh Hins)
    as (Hroom & -> & ->).
  destruct (slotted_inv_bounds p sc fs fe Hinv Eh) as (Hsc & _ & Hfs & _ & Hfe & _).
  destruct (insertedPage_spec p rec sc fs fe (proj1 Hinv) Eh) as (_ & _ & _ & Hh & _).
  { unfold spHeaderSize. lia. }
  { rewrite PayloadSize_val. lia. }
  { exact Hroom. }
  rewrite (freeSpace_header _ _ _ _ Hh), (freeSpace_header _ _ _ _ Eh), Hh.
  unfold slotEntrySize. split; [lia|]. split; [lia|]. reflexivity.
Qed.

Lemma SlottedPage_Insert_freeSpace_witness :
  freeSpace twoRecordPage =
  freeSpace oneRecordPage - 1 - 8.
Proof.
  refine (proj1 (SlottedPage_Insert_freeSpace
              oneRecordPage [Byte.x63]
              1 twoRecordPage _ _)).
  - exact oneRecordPage_inv.
  - reflexivity.
Defined.

Lemma deletedPage_twice p i sc fs fe :
  slotted_inv p -> header p = (sc, fs, fe) -> 0 <= i < sc ->
  deletedPage (deletedPage p i) i = deletedPage p i.
Proof.
  intros Hinv Eh Hi.
  destruct (deletedPage_spec p i sc fs fe Hinv Eh Hi) as (_ & _ & _ & _ & Hent & _).
  cbv zeta in Hent.
  destruct (slotted_inv_bounds p sc fs fe Hinv Eh) as (Hsc & Hcap & _ & _ & _ & HD).
  unfold deletedPage at 1. rewrite Hent. cbn [fst].
  unfold deletedPage. cbn [Data set_Data ID Checksum DataSize].
  rewrite slotPos_small by lia.
  set (pos := Z.to_nat (4086 - (i + 1) * 4)).
  assert (Hpos : Z.of_nat pos = 4086 - (i + 1) * 4) by lia.
  set (A := PutUint16 (fst (slotEntry p i))).
  set (B := PutUint16 0).
  set (D := store (store (Data p) pos A) (pos + 2) B).
  assert (HA : length A = 2%nat) by apply length_PutUint16.
  assert (HB : length B = 2%nat) by apply length_PutUint16.
  assert (HDl : length D = 4086%nat) by (unfold D; now rewrite !length_store).
  assert (E1 : slice D pos (pos + 2) = A).
  { unfold D. rewrite slice_store_other by (rewrite ?length_store; lia).
    apply slice_store_hit; lia. }
  assert (E2 : slice D (pos + 2) (pos + 4) = B).
  { unfold D. apply slice_store_hit; rewrite ?length_store; lia. }
  unfold set_Data. cbn [ID Checksum DataSize]. f_equal.
  rewrite <- E1 at 1. rewrite store_slice_id by lia.
  rewrite <- E2 at 1. apply store_slice_id. lia.
Qed.

(** X9.  [Delete] on a page that satisfies the slotted invariant: a slot id
    at or past slot_count is refused with BadSlotID and the page is left as
    it was; otherwise the slot reads SlotDeleted afterwards, every other
    slot reads as before, and the header, hence the free space, is
    unchanged: the bytes of a deleted record are not reclaimed. *)
Theorem SlottedPage_Delete_contract (p : Page) (i sc fs fe : Z) :
  slotted_inv p -> header p = (sc, fs, fe) -> 0 <= i ->
  let r := SlottedPage_Delete p i in
  (sc <= i -> r = (Err ErrBadSlotID, p)) /\
  (i < sc ->
     fst r = Ok tt /\ slotted_inv (snd r) /\
     header (snd r) = (sc, fs, fe) /\ freeSpace (snd r) = freeSpace p /\
     SlottedPage_Read (snd r) i = Err ErrSlotDeleted /\
     forall j, 0 <= j -> j <> i ->
       SlottedPage_Read (snd r) j = SlottedPage_Read p j).
Proof.
  intros Hinv Eh Hi. cbv zeta. split.
  - intros Hbad. now apply (SlottedPage_Delete_bad p i sc fs fe).
  - intros Hin.
    rewrite (SlottedPage_Delete_ok p i sc fs fe Hinv Eh ltac:(lia)). cbn [fst snd].
    destruct (deletedPage_spec p i sc fs fe Hinv Eh ltac:(lia)) as (_ & _ & _ & Hh & _).
    cbv zeta in Hh.
    split; [reflexivity|].
    split; [apply (deletedPage_inv p i sc fs fe Hinv Eh); lia|].
    split; [exact Hh|].
    split; [now rewrite (freeSpace_header _ _ _ _ Hh), (freeSpace_header _ _ _ _ Eh)|].
    split; [apply (SlottedPage_Read_deleted p i sc fs fe Hinv Eh); lia|].
    intros j Hj Hne.
    apply (SlottedPage_Read_deleted_other p i j sc fs fe Hinv Eh); auto; lia.
Qed.

Lemma SlottedPage_Delete_contract_witness :
  SlottedPage_Read (snd (SlottedPage_Delete twoRecordPage 0)) 0 = Err ErrSlotDeleted.
Proof.
  refine (proj1 (proj2 (proj2 (proj2 (proj2 (proj2
    (SlottedPage_Delete_contract twoRecordPage 0 2 9 4078 _ _ _) _)))))).
  - exact twoRecordPage_inv.
  - vm_compute. reflexivity.
  - lia.
  - lia.
Defined.

(** X10.  [Delete] is idempotent: deleting a slot that is already deleted
    succeeds again and leaves the page exactly as the first delete left it. *)
Theorem SlottedPage_Delete_twice (p : Page) (i : Z) (p1 : Page) :
  slotted_inv p -> 0 <= i -> SlottedPage_Delete p i = (Ok tt, p1) ->
  SlottedPage_Delete p1 i = (Ok tt, p1).
Proof.
  intros Hinv Hi Hdel. destruct (header p) as [[sc fs] fe] eqn:Eh.
  destruct (Z.le_gt_cases sc i) as [Hbad|Hin].
  { rewrite (SlottedPage_Delete_bad p i sc fs fe Eh Hbad) in Hdel. discriminate. }
  rewrite (SlottedPage_Delete_ok p i sc fs fe Hinv Eh ltac:(lia)) in Hdel.
  injection Hdel as <-.
  destruct (deletedPage_spec p i sc fs fe Hinv Eh ltac:(lia)) as (_ & _ & _ & Hh & _).
  cbv zeta in Hh.
  rewrite (SlottedPage_Delete_ok (deletedPage p i) i sc fs fe).
  - f_equal. apply (deletedPage_twice p i sc fs fe Hinv Eh). lia.
  - apply (deletedPage_inv p i sc fs fe Hinv Eh). lia.
  - exact Hh.
  - lia.
Qed.

Lemma SlottedPage_Delete_twice_witness :
  SlottedPage_Delete (snd (SlottedPage_Delete twoRecordPage 1)) 1 =
  (Ok tt, snd (SlottedPage_Delete twoRecordPage 1)).
Proof.
  apply (SlottedPage_Delete_twice twoRecordPage 1).
  - exact twoRecordPage_inv.
  - lia.
  - vm_compute. reflexivity.
Defined.

(** * More on heap files *)

Lemma freeSpace_bound p : slotted_inv p -> freeSpace p <= 4080.
Proof.
  intros Hinv. destruct (header p) as [[sc fs] fe] eqn:Eh.
  destruct (slotted_inv_bounds p sc fs fe Hinv Eh) as (Hsc & _ & Hfs & _ & Hfe & _).
  rewrite (freeSpace_header p sc fs fe Eh). unfold slotEntrySize. lia.
Qed.

Lemma heap_page_unique f n id p :
  heap_pages f n -> 0 <= id -> ReadPage f id = Ok p ->
  id < Z.of_nat n /\ ID p = id /\ slotted_inv p.
Proof.
  intros (Hlen & Hn & Hpages) Hid Hp.
  destruct (ReadPage_inv f id p Hid Hp) as (_ & _ & Hin & _).
  assert (Hlt : id < Z.of_nat n) by (rewrite Hlen in Hin; unfold PageSize in Hin; lia).
  destruct (Hpages id ltac:(lia)) as (p0 & Hp0 & Hidp & Hinv).
  assert (p0 = p) by congruence. subst p0. auto.
Qed.

(** [findPageWithSpace] is first fit. *)
Lemma findPageLoop_first_fit f n need remaining :
  heap_pages f n ->
  forall id, 0 <= id -> id + Z.of_nat remaining = Z.of_nat n ->
  exists r, findPageLoop f need remaining id = Ok r /\
    match r with
    | Some (id', p) =>
        id <= id' < Z.of_nat n /\ ReadPage f id' = Ok p /\ ID p = id' /\
        slotted_inv p /\ need <= freeSpace p /\
        forall j q, id <= j < id' -> ReadPage f j = Ok q -> freeSpace q < need
    | None =>
        forall j q, id <= j < Z.of_nat n -> ReadPage f j = Ok q -> freeSpace q < need
    end.
Proof.
  intros Hh. induction remaining as [|r IH]; intros id Hid Hsum.
  - exists None. split; [reflexivity|]. intros j q Hj. lia.
  - pose proof Hh as (Hlen & Hn & Hpages).
    destruct (Hpages id ltac:(lia)) as (p & Hr & Hidp & Hinv).
    cbn [findPageLoop]. rewrite Hr. cbn [bind]. rewrite (InitIfFresh_inv p Hinv).
    destruct (Z.leb_spec need (freeSpace p)) as [Hfit|Hno].
    + exists (Some (id, p)). split; [reflexivity|].
      split; [lia|]. split; [exact Hr|]. split; [exact Hidp|].
      split; [exact Hinv|]. split; [exact Hfit|]. intros j q Hj. lia.
    + destruct (IH (id + 1) ltac:(lia) ltac:(lia)) as (res & Hres & Hprop).
      exists res. split; [exact Hres|].
      assert (Hhere : forall j q, j = id -> ReadPage f j = Ok q -> freeSpace q < need).
      { intros j q -> Hq. assert (q = p) by congruence. now subst q. }
      destruct res as [[id' p']|].
      * destruct Hprop as (H1 & H2 & H3 & H4 & H5 & H6).
        split; [lia|]. repeat (split; [assumption|]).
        intros j q Hj Hq. destruct (Z.eq_dec j id) as [E|E]; [now apply (Hhere j)|].
        apply (H6 j q); [lia|exact Hq].
      * intros j q Hj Hq. destruct (Z.eq_dec j id) as [E|E]; [now apply (Hhere j)|].
        apply (Hprop j q); [lia|exact Hq].
Qed.

Lemma findPageWithSpace_first_fit f n need :
  heap_pages f n ->
  exists id p, findPageWithSpace f need = Ok (id, p) /\
    slotted_inv p /\ ID p = id /\ 0 <= id <= Z.of_nat n /\
    (forall j q, 0 <= j < id -> ReadPage f j = Ok q -> freeSpace q < need) /\
    (id < Z.of_nat n -> ReadPage f id = Ok p /\ need <= freeSpace p) /\
    (id = Z.of_nat n -> header p = (0, 6, 4086)).
Proof.
  intros Hh. unfold findPageWithSpace. rewrite (pageCount_pages f n Hh), Nat2Z.id.
  destruct (findPageLoop_first_fit f n need n Hh 0 ltac:(lia) ltac:(lia))
    as (r & Hr & Hprop).
  rewrite Hr. cbn [bind]. destruct r as [[id p]|].
  - destruct Hprop as (H1 & H2 & H3 & H4 & H5 & H6).
    exists id, p. split; [reflexivity|]. split; [exact H4|]. split; [exact H3|].
    split; [lia|]. split; [exact H6|]. split; [intros _; now split|lia].
  - destruct Hh as (_ & Hn & _).
    destruct (InitIfFresh_newPage (Z.of_nat n) ltac:(lia)) as (Hinv & Hh' & Hid).
    exists (Z.of_nat n), (InitIfFresh (newPage (Z.of_nat n))).
    split; [reflexivity|]. split; [exact Hinv|]. split; [exact Hid|].
    split; [lia|]. split; [exact Hprop|]. split; [lia|intros _; exact Hh'].
Qed.

(** What a successful [Insert] did. *)
Lemma HeapFile_Insert_Ok_inv f n rec rid f' :
  heap_pages f n -> HeapFile_Insert f rec = (Ok rid, f') ->
  exists p sc fs fe,
    slotted_inv p /\ ID p = PageID rid /\ header p = (sc, fs, fe) /\
    SlotID rid = sc /\ 0 <= PageID rid <= Z.of_nat n /\
    Z.of_nat (length rec) + 4 <= freeSpace p /\
    (forall j q, 0 <= j < PageID rid -> ReadPage f j = Ok q ->
                 freeSpace q < Z.of_nat (length rec) + 4) /\
    (PageID rid < Z.of_nat n -> ReadPage f (PageID rid) = Ok p) /\
    (PageID rid = Z.of_nat n -> sc = 0) /\
    length f' = Nat.max (length f) (Z.to_nat ((PageID rid + 1) * 4096)).
Proof.
  intros Hh Hins.
  destruct (findPageWithSpace_first_fit f n (Z.of_nat (length rec) + slotEntrySize) Hh)
    as (id & p & Hfind & Hinv & Hidp & Hid & Hfirst & Hold & Hnew).
  unfold HeapFile_Insert in Hins. rewrite Hfind in Hins.
  destruct (header p) as [[sc fs] fe] eqn:Eh.
  destruct (SlottedPage_Insert p rec) as [[slot|e] q] eqn:Hsi; [|discriminate].
  destruct (SlottedPage_Insert_Ok_inv p rec slot q sc fs fe Hinv Eh Hsi)
    as (Hroom & -> & ->).
  destruct (slotted_inv_bounds p sc fs fe Hinv Eh) as (Hsc & _ & Hfs & _ & Hfe & _).
  destruct (insertedPage_spec p rec sc fs fe (proj1 Hinv) Eh) as (Hokq & Hidq & _).
  { unfold spHeaderSize. lia. }
  { rewrite PayloadSize_val. lia. }
  { exact Hroom. }
  destruct (WritePage f (insertedPage p rec sc fs fe)) as [[[u|e] q'] f1] eqn:Hw;
    [|discriminate].
  injection Hins as <- <-. cbn [PageID SlotID]. destruct u.
  destruct (WritePage_Ok_inv f _ q' f1 Hokq Hw) as (_ & Hq' & Hf1).
  exists p, sc, fs, fe. unfold slotEntrySize in *.
  split; [exact Hinv|]. split; [exact Hidp|]. split; [exact Eh|].
  split; [reflexivity|]. split; [exact Hid|]. split; [exact Hroom|].
  split; [exact Hfirst|]. split; [intros H; apply (proj1 (Hold H))|].
  split; [intros H; specialize (Hnew H); congruence|].
  rewrite Hf1, length_WriteAt, length_encodePage, Hidq, Hidp.
  unfold pageOffset, PageSize. f_equal. lia.
Qed.

(** X11.  On a heap file of whole slotted pages, below 2^32 pages,
    [Insert] of a record of at most 4076 bytes always succeeds; the file
    stays a heap file and grows by nothing or by exactly one page; the
    returned rid reads back the record (SlotDeleted for an empty record) and
    every record that could be read before reads the same. *)
Theorem HeapFile_Insert_succeeds (f : file) (rec : bytes) :
  heap_inv f -> (length rec <= 4076)%nat ->
  Z.of_nat (length f) + 4096 < 2 ^ 32 * 4096 ->
  exists rid f',
    HeapFile_Insert f rec = (Ok rid, f') /\ heap_inv f' /\ rid_ok rid /\
    (length f' = length f \/ length f' = (length f + 4096)%nat) /\
    HeapFile_Get f' rid =
      (if Z.of_nat (length rec) =? 0 then Err ErrSlotDeleted else Ok rec) /\
    (forall r b, rid_ok r -> HeapFile_Get f r = Ok b -> HeapFile_Get f' r = Ok b).
Proof.
  intros (n & Hh) Hlen Hbound. pose proof Hh as (Hlenf & Hn & _).
  destruct (findPageWithSpace_first_fit f n (Z.of_nat (length rec) + slotEntrySize) Hh)
    as (id & p & Hfind & Hinv & Hidp & Hid & _ & Hold & Hnew).
  destruct (header p) as [[sc fs] fe] eqn:Eh.
  destruct (slotted_inv_bounds p sc fs fe Hinv Eh) as (Hsc & _ & Hfs & _ & Hfe & _).
  assert (Hroom : Z.of_nat (length rec) + slotEntrySize <= freeSpace p).
  { destruct (Z.eq_dec id (Z.of_nat n)) as [E|E].
    - specialize (Hnew E). injection Hnew as -> -> ->.
      rewrite (freeSpace_header p 0 6 4086 Eh). unfold slotEntrySize. lia.
    - apply Hold. lia. }
  pose proof (SlottedPage_Insert_ok p rec sc fs fe (proj1 Hinv) Eh) as Hsi.
  rewrite PayloadSize_val in Hsi. unfold spHeaderSize in Hsi.
  specialize (Hsi ltac:(lia) ltac:(lia) Hroom).
  destruct (insertedPage_inv p rec sc fs fe Hinv Eh Hroom) as (Hinvq & _).
  destruct (insertedPage_spec p rec sc fs fe (proj1 Hinv) Eh) as (_ & Hidq & _).
  { unfold spHeaderSize. lia. }
  { rewrite PayloadSize_val. lia. }
  { exact Hroom. }
  set (q := insertedPage p rec sc fs fe) in *.
  assert (Hmax : Z.of_nat (Nat.max n (Z.to_nat (ID q) + 1)) < 2 ^ 32).
  { rewrite Hlenf in Hbound. lia. }
  destruct (heap_write f n q Hh Hinvq ltac:(lia) Hmax)
    as (q' & f1 & Hw & Hh1 & _).
  assert (Hins : HeapFile_Insert f rec = (Ok (mkRID id sc), f1)).
  { unfold HeapFile_Insert. rewrite Hfind, Hsi. fold q. now rewrite Hw. }
  assert (Hlen1 : length f1 = (Nat.max n (Z.to_nat (ID q) + 1) * 4096)%nat)
    by apply Hh1.
  destruct (HeapFile_Insert_step f rec (mkRID id sc) f1 (ex_intro _ n Hh) Hins)
    as (Hinv1 & Hrid & _ & Hget & Hkeep & _).
  { rewrite Hlen1. lia. }
  exists (mkRID id sc), f1.
  split; [exact Hins|]. split; [exact Hinv1|]. split; [exact Hrid|].
  split; [rewrite Hlen1, Hlenf; lia|]. split; [exact Hget|exact Hkeep].
Qed.

Lemma HeapFile_Insert_succeeds_witness :
  exists rid f',
    HeapFile_Insert [] [Byte.x61; Byte.x62] = (Ok rid, f') /\ heap_inv f' /\
    rid_ok rid /\
    (length f' = length (@nil byte) \/ length f' = (length (@nil byte) + 4096)%nat) /\
    HeapFile_Get f' rid =
      (if Z.of_nat (length [Byte.x61; Byte.x62]) =? 0
       then Err ErrSlotDeleted else Ok [Byte.x61; Byte.x62]) /\
    (forall r b, rid_ok r -> HeapFile_Get [] r = Ok b -> HeapFile_Get f' r = Ok b).
Proof.
  apply (HeapFile_Insert_succeeds [] [Byte.x61; Byte.x62]).
  - exact heap_inv_empty.
  - cbn. lia.
  - cbn. lia.
Defined.

(** X12.  [Insert] is first fit: the record goes to the lowest-numbered
    page whose reported free space is at least [len + 4], into the slot
    after that page's last one; only when no page has room does it go to
    slot 0 of a page appended at the end of the file. *)
Theorem HeapFile_Insert_first_fit (f : file) (rec : bytes) (rid : RID) (f' : file) :
  heap_inv f -> HeapFile_Insert f rec = (Ok rid, f') ->
  0 <= PageID rid <= pageCount f /\
  (forall j q, 0 <= j < PageID rid -> ReadPage f j = Ok q ->
               freeSpace q < Z.of_nat (length rec) + 4) /\
  (PageID rid < pageCount f ->
     length f' = length f /\
     exists q, ReadPage f (PageID rid) = Ok q /\
               Z.of_nat (length rec) + 4 <= freeSpace q /\
               SlotID rid = fst (fst (header q))) /\
  (PageID rid = pageCount f ->
     SlotID rid = 0 /\ length f' = (length f + 4096)%nat).
Proof.
  intros (n & Hh) Hins. rewrite (pageCount_pages f n Hh).
  destruct (HeapFile_Insert_Ok_inv f n rec rid f' Hh Hins)
    as (p & sc & fs & fe & Hinv & Hidp & Eh & Hslot & Hid & Hroom & Hfirst & Hold &
        Hnew & Hlen').
  pose proof Hh as (Hlenf & _).
  split; [exact Hid|]. split; [exact Hfirst|]. split.
  - intros Hlt. split; [rewrite Hlen', Hlenf; lia|].
    exists p. split; [now apply Hold|]. split; [exact Hroom|].
    now rewrite Eh.
  - intros E. split; [rewrite Hslot; now apply Hnew|].
    rewrite Hlen', Hlenf, E. lia.
Qed.

Lemma oneRecordHeap_inv : heap_inv oneRecordHeap.
Proof.
  destruct (HeapFile_Insert_step [] [Byte.x61; Byte.x62] (mkRID 0 0) oneRecordHeap
              heap_inv_empty) as (H & _);
    [vm_compute; reflexivity|vm_compute; reflexivity|exact H].
Qed.

Lemma twoRecordHeap_inv : heap_inv twoRecordHeap.
Proof.
  destruct (HeapFile_Insert_step oneRecordHeap [Byte.x63] (mkRID 0 1) twoRecordHeap
              oneRecordHeap_inv) as (H & _);
    [vm_compute; reflexivity|vm_compute; reflexivity|exact H].
Qed.

Lemma HeapFile_Insert_first_fit_witness :
  length twoRecordHeap = length oneRecordHeap /\
  exists q, ReadPage oneRecordHeap (PageID (mkRID 0 1)) = Ok q /\
            Z.of_nat (length [Byte.x63]) + 4 <= freeSpace q /\
            SlotID (mkRID 0 1) = fst (fst (header q)).
Proof.
  refine (proj1 (proj2 (proj2 (HeapFile_Insert_first_fit
            oneRecordHeap [Byte.x63] (mkRID 0 1) twoRecordHeap _ _))) _).
  - exact oneRecordHeap_inv.
  - vm_compute. reflexivity.
  - vm_compute. reflexivity.
Defined.

(** X13.  On a heap file of whole slotted pages, [Insert] of a record
    longer than 4076 bytes never succeeds and leaves the file as it was: it
    fails with NoSpace, from the fresh page it allocated in memory, up to
    65535 bytes, and with DataTooLarge beyond. *)
Theorem HeapFile_Insert_oversize (f : file) (rec : bytes) :
  heap_inv f -> (4076 < length rec)%nat ->
  HeapFile_Insert f rec =
  (Err (if Z.of_nat (length rec) <=? 65535 then ErrNoSpace else ErrDataTooLarge), f).
Proof.
  intros (n & Hh) Hlen.
  destruct (findPageWithSpace_first_fit f n (Z.of_nat (length rec) + slotEntrySize) Hh)
    as (id & p & Hfind & Hinv & _ & Hid & _ & Hold & _).
  pose proof (freeSpace_bound p Hinv) as Hfree.
  unfold HeapFile_Insert. rewrite Hfind.
  destruct (Z.leb_spec (Z.of_nat (length rec)) 65535) as [Hsmall|Hbig].
  - rewrite SlottedPage_Insert_no_space; [reflexivity|lia|unfold slotEntrySize; lia].
  - rewrite SlottedPage_Insert_too_large; [reflexivity|lia].
Qed.

Lemma HeapFile_Insert_oversize_witness :
  HeapFile_Insert [] (zeros 5000) = (Err ErrNoSpace, []).
Proof.
  apply (HeapFile_Insert_oversize [] (zeros 5000)).
  - exact heap_inv_empty.
  - rewrite length_zeros. lia.
Defined.

(** X14.  The errors of [Get] on a heap file of whole slotted pages: the
    read error of the file exactly when the page id is at or past the page
    count, BadSlotID exactly when the page exists and the slot id is at or
    past its slot count; a checksum mismatch or a panic never. *)
Theorem HeapFile_Get_errors (f : file) (rid : RID) :
  heap_inv f -> rid_ok rid ->
  (HeapFile_Get f rid = Err ErrIO <-> pageCount f <= PageID rid) /\
  (forall p, ReadPage f (PageID rid) = Ok p ->
     (HeapFile_Get f rid = Err ErrBadSlotID <-> fst (fst (header p)) <= SlotID rid)) /\
  HeapFile_Get f rid <> Err ErrChecksumMismatch /\
  HeapFile_Get f rid <> Err RuntimePanic.
Proof.
  intros (n & Hh) (Hrp & Hrs). rewrite (pageCount_pages f n Hh).
  pose proof Hh as (Hlenf & Hn & Hpages).
  destruct (Z.le_gt_cases (Z.of_nat n) (PageID rid)) as [Hout|Hin].
  - assert (Hr : ReadPage f (PageID rid) = Err ErrIO).
    { apply ReadPage_beyond. rewrite Hlenf. unfold PageSize. lia. }
    unfold HeapFile_Get. rewrite Hr. cbn [bind].
    split; [tauto|]. split; [intros p; discriminate|]. split; discriminate.
  - destruct (Hpages (PageID rid) ltac:(lia)) as (p & Hp & _ & Hinv).
    unfold HeapFile_Get. rewrite Hp. cbn [bind].
    destruct (header p) as [[sc fs] fe] eqn:Eh.
    assert (Hcases : (sc <= SlotID rid /\ SlottedPage_Read p (SlotID rid) = Err ErrBadSlotID) \/
                     (SlotID rid < sc /\
                      (SlottedPage_Read p (SlotID rid) = Err ErrSlotDeleted \/
                       exists b, SlottedPage_Read p (SlotID rid) = Ok b))).
    { destruct (Z.le_gt_cases sc (SlotID rid)) as [Hbad|Hgood].
      - left. split; [exact Hbad|]. now apply (SlottedPage_Read_bad p _ sc fs fe).
      - right. split; [lia|]. destruct (slotEntry p (SlotID rid)) as [off ln] eqn:Es.
        assert (Hr0 : 0 <= SlotID rid < sc) by lia.
        rewrite (SlottedPage_Read_ok p _ sc fs fe off ln Hinv Eh Hr0 Es).
        destruct (ln =? 0); [now left|right; eauto]. }
    split; [|split; [|split]].
    + split; [|intros; lia]. intros E.
      destruct Hcases as [(_ & H)|(_ & [H|(b & H)])]; congruence.
    + intros p0 [= <-]. rewrite Eh. cbn [fst].
      destruct Hcases as [(Hb & H)|(Hb & [H|(b & H)])]; rewrite H.
      * tauto.
      * split; [discriminate|lia].
      * split; [discriminate|lia].
    + destruct Hcases as [(_ & H)|(_ & [H|(b & H)])]; congruence.
    + destruct Hcases as [(_ & H)|(_ & [H|(b & H)])]; congruence.
Qed.

Lemma HeapFile_Get_errors_witness :
  HeapFile_Get twoRecordHeap (mkRID 1 0) = Err ErrIO <->
  pageCount twoRecordHeap <= PageID (mkRID 1 0).
Proof.
  apply (HeapFile_Get_errors twoRecordHeap (mkRID 1 0)).
  - exact twoRecordHeap_inv.
  - vm_compute. intuition congruence.
Defined.

(** A [Delete] of a slot that exists goes through. *)
Lemma HeapFile_Delete_total f n r p sc fs fe :
  heap_pages f n -> 0 <= PageID r ->
  ReadPage f (PageID r) = Ok p -> header p = (sc, fs, fe) -> 0 <= SlotID r < sc ->
  exists f' q,
    HeapFile_Delete f r = (Ok tt, f') /\ heap_pages f' n /\
    ReadPage f' (PageID r) = Ok q /\ header q = (sc, fs, fe).
Proof.
  intros Hh Hrp Hp Eh Hs.
  destruct (heap_page_unique f n (PageID r) p Hh Hrp Hp) as (Hlt & Hid & Hinv).
  pose proof (deletedPage_inv p (SlotID r) sc fs fe Hinv Eh Hs) as Hinv'.
  destruct (deletedPage_spec p (SlotID r) sc fs fe Hinv Eh Hs)
    as (_ & Hid' & _ & Hh' & _).
  cbv zeta in Hid', Hh'.
  set (q := deletedPage p (SlotID r)) in *.
  pose proof Hh as (_ & Hn & _).
  assert (Hmax : Nat.max n (Z.to_nat (ID q) + 1) = n) by lia.
  destruct (heap_write f n q Hh Hinv' ltac:(lia) ltac:(lia))
    as (q' & f1 & Hw & Hh1 & Hr1 & HD1 & _).
  rewrite Hmax in Hh1. exists f1, q'.
  split.
  - unfold HeapFile_Delete. rewrite Hp.
    rewrite (SlottedPage_Delete_ok p _ sc fs fe Hinv Eh Hs). fold q. now rewrite Hw.
  - split; [exact Hh1|]. split; [now rewrite <- Hid, <- Hid'|].
    rewrite <- Hh'. unfold header. now rewrite HD1.
Qed.

(** X15.  [Delete] on a heap file of whole slotted pages: a page id past
    the end gives the read error and a slot id past the page's slot count
    gives BadSlotID, with the file untouched; otherwise the delete succeeds,
    the file keeps its length and stays a heap file, the rid reads
    SlotDeleted, every other rid reads as before, and deleting the same rid
    again succeeds. *)
Theorem HeapFile_Delete_contract (f : file) (r : RID) :
  heap_inv f -> rid_ok r ->
  (pageCount f <= PageID r -> HeapFile_Delete f r = (Err ErrIO, f)) /\
  (forall p, ReadPage f (PageID r) = Ok p ->
     (fst (fst (header p)) <= SlotID r ->
        HeapFile_Delete f r = (Err ErrBadSlotID, f)) /\
     (SlotID r < fst (fst (header p)) ->
        exists f',
          HeapFile_Delete f r = (Ok tt, f') /\ heap_inv f' /\
          length f' = length f /\
          HeapFile_Get f' r = Err ErrSlotDeleted /\
          (forall r', rid_ok r' -> r' <> r -> HeapFile_Get f' r' = HeapFile_Get f r') /\
          fst (HeapFile_Delete f' r) = Ok tt)).
Proof.
  intros (n & Hh) Hr. pose proof Hr as (Hrp & Hrs).
  rewrite (pageCount_pages f n Hh). pose proof Hh as (Hlenf & Hn & _).
  split.
  - intros Hout. unfold HeapFile_Delete. rewrite ReadPage_beyond; [reflexivity|].
    rewrite Hlenf. unfold PageSize. lia.
  - intros p Hp. destruct (header p) as [[sc fs] fe] eqn:Eh. cbn [fst]. split.
    + intros Hbad. unfold HeapFile_Delete. rewrite Hp.
      now rewrite (SlottedPage_Delete_bad p _ sc fs fe Eh Hbad).
    + intros Hgood.
      destruct (HeapFile_Delete_total f n r p sc fs fe Hh ltac:(lia) Hp Eh ltac:(lia))
        as (f' & q & Hdel & Hh' & Hq & Ehq).
      destruct (HeapFile_Delete_step f r f' (ex_intro _ n Hh) Hr Hdel)
        as (Hinv' & Hgone & Hother).
      exists f'. split; [exact Hdel|]. split; [exact Hinv'|].
      split; [destruct Hh' as (Hl' & _); now rewrite Hl', Hlenf|].
      split; [exact Hgone|]. split; [exact Hother|].
      destruct (HeapFile_Delete_total f' n r q sc fs fe Hh' ltac:(lia) Hq Ehq ltac:(lia))
        as (f'' & _ & Hdel' & _).
      now rewrite Hdel'.
Qed.

Lemma HeapFile_Delete_contract_witness :
  HeapFile_Delete twoRecordHeap (mkRID 7 0) = (Err ErrIO, twoRecordHeap).
Proof.
  apply (HeapFile_Delete_contract twoRecordHeap (mkRID 7 0)).
  - exact twoRecordHeap_inv.
  - vm_compute. intuition congruence.
  - vm_compute. congruence.
Defined.

(** *** A scan that is not stopped *)

Section ScanAll.
Context {St : Type} (visit : St -> RID -> bytes -> St * bool).

(** Recording the calls does not change what the scan does. *)
Lemma scanSlots_recording p id remaining :
  forall s st log,
    fst (scanSlots (recording visit) p id remaining s (st, log)) =
      fst (scanSlots visit p id remaining s st) /\
    fst (snd (scanSlots (recording visit) p id remaining s (st, log))) =
      snd (scanSlots visit p id remaining s st).
Proof.
  induction remaining as [|n IH]; intros s st log; cbn [scanSlots].
  - now split.
  - destruct (SlottedPage_Read p s) as [b|e].
    + unfold recording at 1 3. cbn [fst snd].
      destruct (visit st (mkRID id s) b) as [st' go]. destruct go; [apply IH|now split].
    + destruct e; try (now split). apply IH.
Qed.

Lemma scanPages_recording f remaining :
  forall id st log,
    fst (scanPages (recording visit) f remaining id (st, log)) =
      fst (scanPages visit f remaining id st) /\
    fst (snd (scanPages (recording visit) f remaining id (st, log))) =
      snd (scanPages visit f remaining id st).
Proof.
  induction remaining as [|n IH]; intros id st log; cbn [scanPages].
  - now split.
  - destruct (ReadPage f id) as [p|e]; [|now split].
    destruct (header p) as [[sc fs] fe].
    destruct (scanSlots_recording p id (Z.to_nat sc) 0 st log) as (E1 & E2).
    destruct (scanSlots (recording visit) p id (Z.to_nat sc) 0 (st, log))
      as [r1 [st1 log1]].
    destruct (scanSlots visit p id (Z.to_nat sc) 0 st) as [r2 st2].
    cbn [fst snd] in E1, E2. subst r2 st2.
    destruct r1 as [go|e]; [|now split]. destruct go; [apply IH|now split].
Qed.

Hypothesis visit_goes_on : forall st r b, snd (visit st r b) = true.

Lemma scanSlots_all p id sc fs fe remaining :
  slotted_inv p -> header p = (sc, fs, fe) ->
  forall s st log, 0 <= s -> s + Z.of_nat remaining = sc ->
  exists st' extra,
    scanSlots (recording visit) p id remaining s (st, log) =
      (Ok true, (st', log ++ extra)) /\
    (forall j b, s <= j < sc -> SlottedPage_Read p j = Ok b ->
                 In (mkRID id j, b) extra) /\
    (forall r b, In (r, b) extra -> PageID r = id /\ s <= SlotID r < sc) /\
    NoDup (map fst extra).
Proof.
  intros Hinv Eh. induction remaining as [|n IH]; intros s st log Hs Hsum;
    cbn [scanSlots].
  - exists st, []. rewrite app_nil_r. split; [reflexivity|].
    split; [intros j b Hj; lia|]. split; [intros r b []|constructor].
  - assert (Hstep : forall st1 log1,
      exists st' extra,
        scanSlots (recording visit) p id n (s + 1) (st1, log1) =
          (Ok true, (st', log1 ++ extra)) /\
        (forall j b, s + 1 <= j < sc -> SlottedPage_Read p j = Ok b ->
                     In (mkRID id j, b) extra) /\
        (forall r b, In (r, b) extra -> PageID r = id /\ s + 1 <= SlotID r < sc) /\
        NoDup (map fst extra)).
    { intros st1 log1. apply IH; lia. }
    destruct (slotEntry p s) as [off ln] eqn:Es.
    rewrite (SlottedPage_Read_ok p s sc fs fe off ln Hinv Eh ltac:(lia) Es).
    pose proof (SlottedPage_Read_ok p s sc fs fe off ln Hinv Eh ltac:(lia) Es) as Hread.
    destruct (ln =? 0).
    + destruct (Hstep st log) as (st' & extra & Hrun & Hall & Hin & Hnd).
      exists st', extra. split; [exact Hrun|]. split; [|split; [|exact Hnd]].
      * intros j b Hj Hb. destruct (Z.eq_dec j s) as [->|Hne]; [congruence|].
        apply Hall; [lia|exact Hb].
      * intros r b Hr. specialize (Hin r b Hr). lia.
    + set (b0 := slice (Data p) (Z.to_nat off) (Z.to_nat (off + ln))) in *.
      unfold recording at 1. cbn [fst snd].
      pose proof (visit_goes_on st (mkRID id s) b0) as Hgo.
      destruct (visit st (mkRID id s) b0) as [st1 go]. cbn [snd] in Hgo. subst go.
      destruct (Hstep st1 (log ++ [(mkRID id s, b0)]))
        as (st' & extra & Hrun & Hall & Hin & Hnd).
      exists st', ((mkRID id s, b0) :: extra).
      split; [rewrite Hrun, <- app_assoc; reflexivity|].
      split; [|split].
      * intros j b Hj Hb. destruct (Z.eq_dec j s) as [->|Hne].
        -- left. congruence.
        -- right. apply Hall; [lia|exact Hb].
      * intros r b [E|Hr].
        -- injection E as <- _. cbn [PageID SlotID]. lia.
        -- specialize (Hin r b Hr). lia.
      * cbn [map fst]. constructor; [|exact Hnd].
        intros Hdup. apply in_map_iff in Hdup. destruct Hdup as ([r b] & E & Hr).
        cbn [fst] in E. subst r. specialize (Hin _ _ Hr). cbn [SlotID] in Hin. lia.
Qed.

Lemma scanPages_all f n remaining :
  heap_pages f n ->
  forall id st log, 0 <= id -> id + Z.of_nat remaining = Z.of_nat n ->
  exists st' extra,
    scanPages (recording visit) f remaining id (st, log) =
      (Ok tt, (st', log ++ extra)) /\
    (forall r b, rid_ok r -> id <= PageID r -> HeapFile_Get f r = Ok b ->
                 In (r, b) extra) /\
    (forall r b, In (r, b) extra -> id <= PageID r) /\
    NoDup (map fst extra).
Proof.
  intros Hh. induction remaining as [|k IH]; intros id st log Hid Hsum;
    cbn [scanPages].
  - exists st, []. rewrite app_nil_r. split; [reflexivity|].
    split; [|split; [intros r b []|constructor]].
    intros r b (Hrp & _) Hge Hget. unfold HeapFile_Get in Hget.
    destruct (ReadPage f (PageID r)) as [p|] eqn:Hp; [|discriminate].
    destruct (heap_page_unique f n (PageID r) p Hh ltac:(lia) Hp). lia.
  - pose proof Hh as (_ & _ & Hpages).
    destruct (Hpages id ltac:(lia)) as (p & Hp & _ & Hinv).
    rewrite Hp. destruct (header p) as [[sc fs] fe] eqn:Eh.
    destruct (slotted_inv_bounds p sc fs fe Hinv Eh) as (Hsc & _).
    destruct (scanSlots_all p id sc fs fe (Z.to_nat sc) Hinv Eh 0 st log
                ltac:(lia) ltac:(lia)) as (st1 & extra1 & Hrun1 & Hall1 & Hin1 & Hnd1).
    rewrite Hrun1.
    destruct (IH (id + 1) st1 (log ++ extra1) ltac:(lia) ltac:(lia))
      as (st2 & extra2 & Hrun2 & Hall2 & Hin2 & Hnd2).
    exists st2, (extra1 ++ extra2).
    split; [rewrite Hrun2, <- app_assoc; reflexivity|]. split; [|split].
    + intros r b Hr Hge Hget. apply in_or_app.
      destruct (Z.eq_dec (PageID r) id) as [E|E].
      * left. unfold HeapFile_Get in Hget. rewrite E, Hp in Hget. cbn [bind] in Hget.
        replace r with (mkRID id (SlotID r)) by (apply RID_eq; cbn; auto).
        apply Hall1; [|exact Hget]. destruct Hr as (_ & Hrs). split; [lia|].
        destruct (Z.lt_ge_cases (SlotID r) sc) as [|Hbad]; [assumption|].
        rewrite (SlottedPage_Read_bad p _ sc fs fe Eh Hbad) in Hget. discriminate.
      * right. apply Hall2; [exact Hr|lia|exact Hget].
    + intros r b Hr. apply in_app_or in Hr. destruct Hr as [Hr|Hr].
      * destruct (Hin1 r b Hr). lia.
      * specialize (Hin2 r b Hr). lia.
    + rewrite map_app. apply NoDup_app; [exact Hnd1|exact Hnd2|].
      intros r Hr1 Hr2. apply in_map_iff in Hr1, Hr2.
      destruct Hr1 as ([r1 b1] & <- & Hr1). destruct Hr2 as ([r2 b2] & E & Hr2).
      cbn [fst] in E. subst r2. destruct (Hin1 _ _ Hr1) as (E1 & _).
      specialize (Hin2 _ _ Hr2). cbn [fst] in *. lia.
Qed.

(** X16.  A [Scan] whose visitor never asks to stop, on a heap file of
    whole slotted pages: it returns without error, it calls the visitor
    exactly on the rids [Get] can read, with the bytes [Get] returns, and
    on each of them once. *)
Theorem HeapFile_Scan_all (f : file) (st : St) :
  heap_inv f ->
  fst (HeapFile_Scan visit f st) = Ok tt /\
  (forall r b, rid_ok r ->
     (In (r, b) (scanVisits visit f st) <-> HeapFile_Get f r = Ok b)) /\
  NoDup (map fst (scanVisits visit f st)).
Proof.
  intros (n & Hh). unfold scanVisits, HeapFile_Scan.
  rewrite (pageCount_pages f n Hh), Nat2Z.id.
  destruct (scanPages_recording f n 0 st []) as (Eres & _).
  destruct (scanPages_all f n n Hh 0 st [] ltac:(lia) ltac:(lia))
    as (st' & extra & Hrun & Hall & _ & Hnd).
  rewrite <- Eres, Hrun. cbn [fst snd app].
  split; [reflexivity|]. split; [|exact Hnd].
  intros r b Hr. split.
  - intros Hin.
    pose proof (scanVisits_Get visit f st r b) as Hsound.
    unfold scanVisits, HeapFile_Scan in Hsound.
    rewrite (pageCount_pages f n Hh), Nat2Z.id, Hrun in Hsound. now apply Hsound.
  - intros Hget. apply Hall; [exact Hr|apply Hr|exact Hget].
Qed.
End ScanAll.

Lemma HeapFile_Scan_all_witness :
  fst (HeapFile_Scan countVisit twoRecordHeap 0%nat) = Ok tt /\
  (forall r b, rid_ok r ->
     (In (r, b) (scanVisits countVisit twoRecordHeap 0%nat) <->
      HeapFile_Get twoRecordHeap r = Ok b)) /\
  NoDup (map fst (scanVisits countVisit twoRecordHeap 0%nat)).
Proof.
  apply (HeapFile_Scan_all countVisit).
  - reflexivity.
  - exact twoRecordHeap_inv.
Defined.

(** * More on the B-tree *)

(** *** The node codecs *)

Lemma writeLeafLoop_overflow keys :
  forall vals d off,
    length vals = length keys -> keys <> [] ->
    (length d < off + 16 * (length keys - 1) + 14)%nat ->
    writeLeafLoop d off keys vals = Err RuntimePanic.
Proof.
  induction keys as [|k keys IH]; intros vals d off Hlen Hne Hover; [contradiction|].
  destruct vals as [|v vals]; [reflexivity|]. cbn [writeLeafLoop].
  destruct (Nat.ltb_spec (length d) (off + 14)) as [|Hfit]; [reflexivity|].
  cbn [length] in Hlen, Hover. change (Z.to_nat leafEntrySize) with 16%nat.
  destruct keys as [|k' keys].
  - cbn [length] in Hover. lia.
  - apply IH; [cbn [length] in *; lia|discriminate|].
    rewrite !length_store. cbn [length] in *. lia.
Qed.

(** X17.  The leaf codec: [writeLeaf] of up to 254 entries, the capacity
    of a leaf, followed by [leafLeafEntries] gives back the same keys and
    rids, whatever the page held before; the page is marked as a leaf and
    its data_size covers the payload.  With more than 254 entries
    [writeLeaf] runs past the payload and panics. *)
Theorem writeLeaf_roundtrip (p : Page) (keys : list Z) (vals : list RID) :
  page_ok p -> length vals = length keys ->
  Forall u64 keys -> Forall rid_ok vals ->
  ((length keys <= 254)%nat ->
     exists p',
       writeLeaf p keys vals = Ok p' /\ ID p' = ID p /\ DataSize p' = 4086 /\
       nodeKind (Data p') = kindLeaf /\ leafLeafEntries p' = Ok (keys, vals)) /\
  ((254 < length keys)%nat -> writeLeaf p keys vals = Err RuntimePanic).
Proof.
  intros (_ & _ & _ & HD) Hlen Hk Hv. split.
  - intros Hcap.
    destruct (writeLeaf_ok p keys vals HD Hlen Hcap Hk Hv)
      as (p' & Hw & Hid & _ & Hsz & _ & Hkind & Hdec).
    exists p'. rewrite PayloadSize_val in Hsz. auto.
  - intros Hover. unfold writeLeaf.
    rewrite writeLeafLoop_overflow; [reflexivity|exact Hlen| |].
    + intros ->. cbn in Hover. lia.
    + rewrite length_setNodeHeader, HD, PayloadSize_val.
      change (Z.to_nat nodeHdrSize) with 16%nat. lia.
Qed.

Lemma writeLeaf_roundtrip_witness :
  exists p',
    writeLeaf (newPage 1) [7; 42] [mkRID 2 9; mkRID 1 1] = Ok p' /\ ID p' = ID (newPage 1) /\
    DataSize p' = 4086 /\ nodeKind (Data p') = kindLeaf /\
    leafLeafEntries p' = Ok ([7; 42], [mkRID 2 9; mkRID 1 1]).
Proof.
  apply (writeLeaf_roundtrip (newPage 1) [7; 42] [mkRID 2 9; mkRID 1 1]).
  - unfold page_ok. vm_compute. intuition congruence.
  - reflexivity.
  - repeat constructor; vm_compute; congruence.
  - repeat constructor; vm_compute; congruence.
  - cbn. lia.
Defined.

Lemma writeInternalLoop_overflow keys :
  forall rest d off,
    length rest = length keys -> keys <> [] ->
    (length d < off + 12 * length keys)%nat ->
    writeInternalLoop d off keys rest = Err RuntimePanic.
Proof.
  induction keys as [|k keys IH]; intros rest d off Hlen Hne Hover; [contradiction|].
  destruct rest as [|c rest]; [reflexivity|]. cbn [writeInternalLoop].
  destruct (Nat.ltb_spec (length d) (off + 12)) as [|Hfit]; [reflexivity|].
  cbn [length] in Hlen, Hover. change (Z.to_nat internalEntSize) with 12%nat.
  destruct keys as [|k' keys].
  - cbn [length] in Hover. lia.
  - apply IH; [cbn [length] in *; lia|discriminate|].
    rewrite !length_store. cbn [length] in *. lia.
Qed.

(** X18.  The internal-node codec: [writeInternal] of up to 338 keys with
    one more child than keys, followed by [internalEntries], gives back the
    same keys and children.  It panics when there are more than 338 keys,
    and, on the index [kids[i+1]], whenever there are keys but not more
    children than keys. *)
Theorem writeInternal_roundtrip (p : Page) (keys kids : list Z) :
  page_ok p -> Forall u64 keys -> Forall u32 kids ->
  (length kids = S (length keys) -> (length keys <= 338)%nat ->
     exists p',
       writeInternal p keys kids = Ok p' /\ ID p' = ID p /\ DataSize p' = 4086 /\
       nodeKind (Data p') = kindInternal /\ internalEntries p' = Ok (keys, kids)) /\
  (length kids = S (length keys) -> (338 < length keys)%nat ->
     writeInternal p keys kids = Err RuntimePanic) /\
  (keys <> [] -> (length kids <= length keys)%nat ->
     writeInternal p keys kids = Err RuntimePanic).
Proof.
  intros (_ & _ & _ & HD) Hk Hc. split; [|split].
  - intros Hlen Hcap.
    destruct (writeInternal_ok p keys kids HD Hlen Hcap Hk Hc)
      as (p' & Hw & Hid & _ & Hsz & _ & Hkind & Hdec).
    exists p'. rewrite PayloadSize_val in Hsz. auto.
  - intros Hlen Hover. unfold writeInternal.
    destruct kids as [|kid0 rest]; [reflexivity|].
    rewrite writeInternalLoop_overflow; [reflexivity| | |].
    + cbn [length] in Hlen. lia.
    + intros ->. cbn in Hover. lia.
    + rewrite length_store, length_setNodeHeader, HD, PayloadSize_val.
      change (Z.to_nat nodeHdrSize) with 16%nat.
      change (Z.to_nat internalFirstKid) with 4%nat. lia.
  - intros Hne Hlen. now apply writeInternal_panic.
Qed.

Lemma writeInternal_roundtrip_witness :
  exists p',
    writeInternal (newPage 3) [50] [1; 2] = Ok p' /\ ID p' = ID (newPage 3) /\
    DataSize p' = 4086 /\ nodeKind (Data p') = kindInternal /\
    internalEntries p' = Ok ([50], [1; 2]).
Proof.
  apply (writeInternal_roundtrip (newPage 3) [50] [1; 2]).
  - unfold page_ok. vm_compute. intuition congruence.
  - repeat constructor; vm_compute; congruence.
  - repeat constructor; vm_compute; congruence.
  - reflexivity.
  - cbn. lia.
Defined.

(** *** Open *)

Lemma Open_meta f root :
  f <> [] -> meta_ok f root -> Open f = Ok (mkBTree f root).
Proof.
  intros Hne (m & Hm & _ & Hkind & Hroot). unfold Open.
  destruct f as [|b f]; [contradiction|]. cbn [length Nat.eqb].
  rewrite Hm. cbn [bind]. rewrite Hkind, Z.eqb_refl. cbn [negb]. now rewrite Hroot.
Qed.

Lemma freshTree_Open : Open [] = Ok freshTree.
Proof. vm_compute. reflexivity. Qed.

Lemma freshTree_meta : meta_ok (tfile freshTree) (rootID freshTree).
Proof.
  exists (match ReadPage (tfile freshTree) 0 with Ok m => m | Err _ => newPage 0 end).
  split; [vm_compute; reflexivity|]. split; [vm_compute; reflexivity|].
  split; vm_compute; reflexivity.
Qed.

(** X19.  [Open]: on an empty file it writes a meta page and an empty root
    leaf, two pages, and returns a tree with root 1 in which no key is
    found; on a file that is not empty but shorter than one page it fails
    with the read error; and when page 0 reads but is not a meta page it
    fails with the corruption error. *)
Theorem Open_contract (f : file) (fuel : nat) :
  (2 <= fuel)%nat ->
  (f = [] ->
     exists t, Open f = Ok t /\ rootID t = 1 /\ length (tfile t) = 8192%nat /\
               forall k, BTree_Get fuel t k = Ok (zeroRID, false)) /\
  (f <> [] -> (length f < 4096)%nat -> Open f = Err ErrIO) /\
  (forall m, f <> [] -> ReadPage f 0 = Ok m -> nodeKind (Data m) <> kindMeta ->
             Open f = Err ErrCorruption).
Proof.
  intros Hfuel. split; [|split].
  - intros ->. destruct Open_empty as (t & Hopen & Hinv). exists t.
    split; [exact Hopen|].
    assert (t = freshTree) by (pose proof freshTree_Open; congruence). subst t.
    split; [vm_compute; reflexivity|]. split; [vm_compute; reflexivity|].
    intros k. apply (proj2 (BTree_Get_spec freshTree [] [emptyLeaf] fuel k Hinv Hfuel)).
    intros v. apply tree_holds_empty.
  - intros Hne Hshort. unfold Open. destruct f as [|b f]; [contradiction|].
    cbn [Nat.eqb length]. rewrite ReadPage_beyond; [reflexivity|].
    unfold PageSize. cbn [length] in *. lia.
  - intros m Hne Hm Hkind. unfold Open. destruct f as [|b f]; [contradiction|].
    cbn [Nat.eqb length]. rewrite Hm. cbn [bind].
    destruct (Z.eqb_spec (nodeKind (Data m)) kindMeta); [contradiction|reflexivity].
Qed.

Lemma Open_contract_witness :
  exists t, Open [] = Ok t /\ rootID t = 1 /\ length (tfile t) = 8192%nat /\
            forall k, BTree_Get 2 t k = Ok (zeroRID, false).
Proof.
  apply (Open_contract [] 2); [lia|reflexivity].
Defined.

(** *** The meta page across inserts *)

Lemma meta_ok_frame f f' root :
  meta_ok f root -> ReadPage f' 0 = ReadPage f 0 -> meta_ok f' root.
Proof. intros (m & Hm & Hrest) E. exists m. rewrite E. auto. Qed.

(** An insert that fits its leaf writes that leaf only. *)
Lemma BTree_Insert_fit_frame t ks ls fuel key rid l :
  tree_inv t ks ls -> (2 <= fuel)%nat -> u64 key -> rid_ok rid ->
  (forall v, ~ tree_holds ls key v) ->
  nth_error ls (route ks key) = Some l -> (length (lkeys l) < 254)%nat ->
  exists t', BTree_Insert fuel t key rid = (Ok tt, t') /\ rootID t' = rootID t /\
    length (tfile t') = length (tfile t) /\
    forall id, 0 <= id < Z.of_nat (tree_pages ks ls) -> id <> lid l ->
      ReadPage (tfile t') id = ReadPage (tfile t) id.
Proof.
  intros Hinv Hfuel Hkey Hrid Hno El Hroom.
  destruct (findLeaf_inv t ks ls fuel key Hinv Hfuel)
    as (l0 & p & El0 & Hf & Hp & Hidp & Hkind & Hdec).
  assert (l0 = l) by congruence. subst l0. clear El0.
  pose proof Hinv as [Hlen Hmeta Hrid' Hroot (Hcnt & Hcap) (Hasc & Hku) (Hnd & Hids) Hleaves].
  destruct (Hleaves _ _ El) as (_ & Hwf & Hrange).
  pose proof (key_not_in_leaf ks ls key l Hno El Hwf) as Hmiss.
  destruct (leaf_insert_wf ks (route ks key) l key rid Hwf Hkey Hrid Hmiss
              (in_range_route ks key Hasc) Hrange)
    as (Hdup & Hl1 & Hl2 & Hasc' & Hk' & Hv' & Hrange' & Hholds).
  cbv zeta in Hdup, Hl1, Hl2, Hasc', Hk', Hv', Hrange', Hholds.
  set (i := Search _ _) in *.
  set (keys' := insertU64 (lkeys l) i key) in *.
  set (vals' := insertRID (lvals l) i rid) in *.
  pose proof (Hids l (nth_error_In _ _ El)) as Hlid.
  pose proof (tree_pages_bound ks ls Hcnt Hcap) as Hn.
  set (n := tree_pages ks ls) in *.
  destruct (writeLeaf_page (tfile t) (lid l) p keys' vals') as
    (lp & Hw & Hilp & Hoklp & Hszlp & Hklp & Hdlp); auto; try lia.
  destruct (page_write (tfile t) n lp Hlen Hoklp Hszlp ltac:(lia))
    as (p' & f' & Hwp & Hlen' & Hr' & Hd' & Hi' & Hother).
  exists (mkBTree f' (rootID t)). split; [|split; [reflexivity|split]].
  - unfold BTree_Insert. rewrite Hf, Hkind, Z.eqb_refl. cbn [negb]. rewrite Hdec.
    fold i. rewrite Hdup. fold keys' vals'.
    rewrite leafCapacity_val.
    destruct (Z.leb_spec (Z.of_nat (length keys')) 254); [|lia].
    rewrite Hw. exact (treeWrite_unfold t lp p' f' Hwp).
  - cbn [tfile]. rewrite Hlen', Hlen. f_equal. lia.
  - cbn [tfile]. intros id Hid Hne. apply Hother; [exact Hid|]. now rewrite Hilp.
Qed.

(** The split of a root leaf records the new root in the meta page. *)
Lemma insertIntoParent_root_meta f2 (m : nat) root sep right fuel r0 :
  length f2 = (m * 4096)%nat -> (m <= 1000)%nat -> (1 <= fuel)%nat ->
  1 <= root < Z.of_nat m -> u32 right -> u64 sep ->
  meta_ok f2 r0 ->
  exists f4,
    insertIntoParent fuel (mkBTree f2 root) root sep right =
      (Ok tt, mkBTree f4 (Z.of_nat m)) /\
    length f4 = ((m + 1) * 4096)%nat /\
    meta_ok f4 (Z.of_nat m).
Proof.
  intros Hlen Hm Hfuel Hroot Hright Hsep (mp & Hmp & Hmid & Hmkind & _).
  destruct fuel as [|fuel]; [lia|]. cbn [insertIntoParent rootID].
  rewrite Z.eqb_refl.
  destruct (allocPage_spec (mkBTree f2 root) kindInternal m Hlen ltac:(lia))
    as (p0 & Halloc & Hip0 & Hokp0 & _).
  rewrite Halloc. unfold writeInternalRoot. cbn [length repeat].
  change (copy [0] [right]) with [right].
  destruct (writeInternal_page p0 [sep] [root; right] Hokp0)
    as (ip & Hw & Hiip & Hokip & Hszip & Hkip & Hdip).
  { reflexivity. }
  { cbn; lia. }
  { constructor; [exact Hsep|constructor]. }
  { constructor; [unfold u32; lia|]. constructor; [exact Hright|constructor]. }
  rewrite Hw. rewrite Hip0 in Hiip.
  destruct (page_write f2 m ip Hlen Hokip Hszip ltac:(lia))
    as (p3 & f3 & Hwp3 & Hlen3 & Hr3 & Hd3 & Hi3 & Hother3).
  assert (Hmax3 : Nat.max m (Z.to_nat (ID ip) + 1) = (m + 1)%nat) by lia.
  rewrite Hmax3, Hiip in *.
  rewrite (treeWrite_unfold (mkBTree f2 root) ip p3 f3 Hwp3). cbn [tfile rootID].
  rewrite Hother3 by lia. rewrite Hmp.
  destruct (ReadPage_inv f2 0 mp ltac:(lia) Hmp) as ((Hm1 & Hm2 & Hm3 & Hm4) & Hmsz & _).
  set (meta := set_Data mp (setMetaRoot (Data mp) (Z.of_nat m))).
  destruct (setMetaRoot_spec (Data mp) (Z.of_nat m)) as (Hsl & Hsk & Hsr);
    [rewrite Hm4, PayloadSize_val; lia|unfold u32; lia|].
  assert (Hokm : page_ok meta).
  { unfold page_ok, meta. cbn [ID Checksum DataSize Data set_Data]. rewrite Hsl. tauto. }
  assert (Hidm : ID meta = 0) by (unfold meta; cbn [ID set_Data]; exact Hmid).
  destruct (page_write f3 (m + 1) meta Hlen3 Hokm Hmsz ltac:(lia))
    as (p4 & f4 & Hwp4 & Hlen4 & Hr4 & Hd4 & Hi4 & Hother4).
  rewrite Hidm in *. cbn [Z.to_nat Nat.add] in Hlen4.
  replace (Nat.max (m + 1) 1) with (m + 1)%nat in Hlen4 by lia.
  rewrite (treeWrite_unfold (mkBTree f3 root) meta p4 f4 Hwp4). cbn [tfile].
  exists f4. split; [reflexivity|]. split; [exact Hlen4|].
  exists p4. split; [exact Hr4|]. split; [exact Hi4|].
  rewrite Hd4. unfold meta. cbn [Data set_Data]. split; [now rewrite Hsk|exact Hsr].
Qed.

(** A successful [Insert] keeps the meta page in step with the root. *)
Lemma BTree_Insert_meta t ks ls fuel key rid t' :
  tree_inv t ks ls -> meta_ok (tfile t) (rootID t) ->
  (2 <= fuel)%nat -> u64 key -> rid_ok rid ->
  BTree_Insert fuel t key rid = (Ok tt, t') ->
  meta_ok (tfile t') (rootID t').
Proof.
  intros Hinv Hmeta0 Hfuel Hkey Hrid Hins.
  destruct (BTree_Insert_ok t ks ls fuel key rid t' Hinv Hfuel Hkey Hrid Hins) as (Hno & _).
  pose proof Hinv as [Hlen Hmeta Hrid' Hroot (Hcnt & Hcap) (Hasc & Hku) (Hnd & Hids) Hleaves].
  destruct (route_spec ks key Hasc) as (Hr & _).
  destruct (nth_error ls (route ks key)) as [l|] eqn:El.
  2:{ apply nth_error_None in El. lia. }
  destruct (Hleaves _ _ El) as (_ & Hwf & Hrange).
  pose proof Hwf as (_ & Hcapl & _).
  pose proof (Hids l (nth_error_In _ _ El)) as Hlid.
  pose proof (tree_pages_bound ks ls Hcnt Hcap) as Hn.
  destruct (Nat.lt_ge_cases (length (lkeys l)) 254) as [Hfit|Hfull].
  - destruct (BTree_Insert_fit_frame t ks ls fuel key rid l Hinv Hfuel Hkey Hrid Hno El Hfit)
      as (t1 & Hins1 & Hroot1 & _ & Hother).
    assert (t1 = t') by congruence. subst t1. rewrite Hroot1.
    apply (meta_ok_frame (tfile t)); [exact Hmeta0|]. apply Hother; lia.
  - assert (Hfull' : length (lkeys l) = 254%nat) by lia.
    destruct (BTree_Insert_split_prefix t ks ls fuel key rid l Hinv Hfuel Hkey Hrid Hno El
                Hfull') as (f2 & sep & Hins2 & Hsep & Hlen2 & HaL & HaR & Hother2).
    cbv zeta in Hins2, Hsep, Hlen2, HaL, HaR, Hother2.
    pose proof (key_not_in_leaf ks ls key l Hno El Hwf) as Hmiss.
    destruct (leaf_insert_wf ks (route ks key) l key rid Hwf Hkey Hrid Hmiss
                (in_range_route ks key Hasc) Hrange)
      as (_ & Hl1 & Hl2 & Hasc' & Hk' & Hv' & Hrange' & _).
    cbv zeta in Hl1, Hl2, Hasc', Hk', Hv', Hrange'.
    set (i := Search _ _) in *.
    set (keys' := insertU64 (lkeys l) i key) in *.
    set (vals' := insertRID (lvals l) i rid) in *.
    rewrite Hfull' in Hl2. rewrite Hl2 in Hl1.
    destruct (leaf_split_wf ks (route ks key) keys' vals' sep Hl2 Hl1 Hasc' Hk' Hv'
                Hrange' Hsep) as (_ & _ & _ & _ & Hsepu & _).
    set (n := tree_pages ks ls) in *.
    assert (Hmeta2 : meta_ok f2 (rootID t)).
    { apply (meta_ok_frame (tfile t)); [exact Hmeta0|]. apply Hother2; lia. }
    rewrite Hins in Hins2.
    destruct Hroot as [(Eks & Hroot)|(Hne & Hint & Hnin)].
    + subst ks. assert (Hls : length ls = 1%nat) by (cbn in Hcnt; lia).
      assert (Hlr : lid l = rootID t).
      { destruct ls as [|l0 [|]]; try discriminate. rewrite route_nil in El.
        cbn in El. injection El as ->. cbn in Hroot. congruence. }
      destruct (insertIntoParent_root_meta f2 (n + 1) (rootID t) sep (Z.of_nat n) fuel
                  (rootID t)) as (f4 & Hip & _ & Hmeta4); auto; try lia.
      { unfold u32. lia. }
      rewrite Hlr, Hip in Hins2. injection Hins2 as ->. exact Hmeta4.
    + destruct (Nat.lt_ge_cases (length ks) 338) as [Hkroom|Hkfull].
      2:{ pose proof (BTree_Insert_overflow t ks ls fuel key rid l Hinv Hfuel Hkey Hrid
                        Hno El Hfull' ltac:(lia)) as Hpanic.
          rewrite Hins in Hpanic. discriminate. }
      assert (Hcu : Forall u32 (map lid ls)).
      { rewrite Forall_forall. intros c Hc. apply in_map_iff in Hc.
        destruct Hc as (l0 & <- & Hin). specialize (Hids l0 Hin). unfold u32. lia. }
      assert (Hint2 : internal_at f2 (rootID t) ks (map lid ls)).
      { destruct Hint as (pr & Hpr & Hrest). exists pr.
        rewrite Hother2; [auto|lia|].
        intros E. apply Hnin. rewrite E. apply in_map. now apply (nth_error_In _ _ El). }
      destruct (insertIntoParent_parent f2 (n + 1) (rootID t) ks (map lid ls) (lid l) sep
                  (Z.of_nat n) (route ks key) fuel) as (f3 & Hip & Hlen3 & Hint3 & Hother3);
        auto; try lia.
      { now rewrite nth_error_map, El. }
      { intros E. apply Hnin. rewrite <- E. apply in_map. now apply (nth_error_In _ _ El). }
      { now rewrite length_map. }
      { unfold u32. lia. }
      rewrite Hip in Hins2. injection Hins2 as ->. cbn [tfile rootID].
      apply (meta_ok_frame f2); [exact Hmeta2|]. apply Hother3; lia.
Qed.

Lemma insertAll_meta fuel ops :
  forall t ks ls t',
    tree_inv t ks ls -> meta_ok (tfile t) (rootID t) ->
    (2 <= fuel)%nat -> Forall op_ok ops ->
    insertAll fuel t ops = (Ok tt, t') ->
    meta_ok (tfile t') (rootID t').
Proof.
  induction ops as [|[k r] ops IH]; intros t ks ls t' Hinv Hmeta Hfuel Hok Hrun;
    cbn [insertAll] in Hrun.
  - injection Hrun as <-. exact Hmeta.
  - inversion Hok as [|? ? (Hk & Hr) Hok']; subst. cbn [fst snd] in Hk, Hr.
    destruct (BTree_Insert fuel t k r) as [[[]|e] t1] eqn:Hins; [|discriminate].
    destruct (BTree_Insert_ok t ks ls fuel k r t1 Hinv Hfuel Hk Hr Hins)
      as (_ & ks1 & ls1 & Hinv1 & _).
    apply (IH t1 ks1 ls1 t' Hinv1); auto.
    now apply (BTree_Insert_meta t ks ls fuel k r t1).
Qed.

(** X20.  Persistence: after any history of successful inserts into a
    freshly opened tree, [Open] on the file as it stands returns the very
    same tree: the file with the root id that the inserts left in memory,
    read back from the meta page. *)
Theorem Open_reopen (fuel : nat) (t0 t : BTree) (ops : list (Z * RID)) :
  (2 <= fuel)%nat -> Open [] = Ok t0 -> Forall op_ok ops ->
  insertAll fuel t0 ops = (Ok tt, t) ->
  Open (tfile t) = Ok t.
Proof.
  intros Hfuel Hopen Hok Hrun.
  destruct Open_empty as (t0' & Hopen' & Hinv0).
  assert (t0' = t0) by congruence. subst t0'.
  assert (t0 = freshTree) by (pose proof freshTree_Open; congruence). subst t0.
  pose proof (insertAll_meta fuel ops freshTree [] [emptyLeaf] t Hinv0 freshTree_meta
                Hfuel Hok Hrun) as Hmeta.
  destruct (reachable_tree fuel freshTree ops t Hfuel Hopen Hok Hrun)
    as (ks & ls & Hinv & _).
  assert (Hne : tfile t <> []).
  { pose proof (inv_len _ _ _ Hinv) as Hl.
    pose proof (inv_count _ _ _ Hinv) as (Hc & Hcap).
    pose proof (tree_pages_bound ks ls Hc Hcap). intros E. rewrite E in Hl.
    cbn [length] in Hl. lia. }
  rewrite (Open_meta (tfile t) (rootID t) Hne Hmeta). now destruct t.
Qed.

Lemma Open_reopen_witness :
  Open (tfile (snd (insertAll 2 freshTree demoInserts))) =
  Ok (snd (insertAll 2 freshTree demoInserts)).
Proof.
  refine (Open_reopen 2 freshTree (snd (insertAll 2 freshTree demoInserts))
            demoInserts _ _ _ _).
  - lia.
  - vm_compute. reflexivity.
  - repeat constructor; vm_compute; congruence.
  - vm_compute. reflexivity.
Defined.

(** *** How many keys a tree is sure to take *)

Lemma keyCount_app a b : keyCount (a ++ b) = (keyCount a + keyCount b)%nat.
Proof. unfold keyCount. now rewrite map_app, list_sum_app. Qed.

Lemma nth_error_decompose {A : Type} (ls : list A) j l :
  nth_error ls j = Some l -> ls = firstn j ls ++ l :: skipn (S j) ls.
Proof.
  intros H. rewrite <- (skipn_nth_error ls j l H). symmetry. apply firstn_skipn.
Qed.

Lemma keyCount_replaceAt ls j l l' :
  nth_error ls j = Some l ->
  (keyCount (replaceAt ls j l') + length (lkeys l) =
   keyCount ls + length (lkeys l'))%nat.
Proof.
  intros H. rewrite (nth_error_decompose ls j l H) at 2.
  unfold replaceAt. rewrite !keyCount_app.
  change (keyCount (l' :: skipn (S j) ls)) with
    (length (lkeys l') + keyCount (skipn (S j) ls))%nat.
  change (keyCount (l :: skipn (S j) ls)) with
    (length (lkeys l) + keyCount (skipn (S j) ls))%nat.
  lia.
Qed.

Lemma keyCount_splitAt ls j l L R :
  nth_error ls j = Some l ->
  (keyCount (splitAt ls j L R) + length (lkeys l) =
   keyCount ls + length (lkeys L) + length (lkeys R))%nat.
Proof.
  intros H. rewrite (nth_error_decompose ls j l H) at 2.
  unfold splitAt. rewrite !keyCount_app.
  change (keyCount (L :: R :: skipn (S j) ls)) with
    (length (lkeys L) + (length (lkeys R) + keyCount (skipn (S j) ls)))%nat.
  change (keyCount (l :: skipn (S j) ls)) with
    (length (lkeys l) + keyCount (skipn (S j) ls))%nat.
  lia.
Qed.

Lemma keyCount_at_least ls m :
  (forall l, In l ls -> (m <= length (lkeys l))%nat) ->
  (m * length ls <= keyCount ls)%nat.
Proof.
  induction ls as [|l ls IH]; intros H; [cbn; lia|].
  change (keyCount (l :: ls)) with (length (lkeys l) + keyCount ls)%nat.
  cbn [length]. pose proof (H l (or_introl eq_refl)).
  specialize (IH (fun l0 Hin => H l0 (or_intror Hin))). lia.
Qed.

Lemma keyCount_lower ls j l m :
  (forall l0, In l0 ls -> (m <= length (lkeys l0))%nat) ->
  nth_error ls j = Some l ->
  (m * (length ls - 1) + length (lkeys l) <= keyCount ls)%nat.
Proof.
  intros H Hj. pose proof (nth_error_decompose ls j l Hj) as E.
  assert (Hlen : length ls = (length (firstn j ls) + S (length (skipn (S j) ls)))%nat).
  { rewrite E at 1. rewrite length_app. reflexivity. }
  assert (Hk : keyCount ls =
    (keyCount (firstn j ls) + (length (lkeys l) + keyCount (skipn (S j) ls)))%nat).
  { rewrite E at 1. rewrite keyCount_app. reflexivity. }
  pose proof (keyCount_at_least (firstn j ls) m
                (fun l0 Hin => H l0 (In_firstn _ _ _ Hin))).
  pose proof (keyCount_at_least (skipn (S j) ls) m
                (fun l0 Hin => H l0 (In_skipn _ _ _ Hin))).
  rewrite Hlen, Hk. nia.
Qed.

(** One insert of a new key into a tree that holds fewer than 43180. *)
Lemma BTree_Insert_fill t ks ls fuel key rid :
  tree_inv t ks ls -> half_full ks ls ->
  (2 <= fuel)%nat -> u64 key -> rid_ok rid ->
  (forall v, ~ tree_holds ls key v) -> Z.of_nat (keyCount ls) < 43180 ->
  exists t' ks' ls',
    BTree_Insert fuel t key rid = (Ok tt, t') /\ tree_inv t' ks' ls' /\
    half_full ks' ls' /\ keyCount ls' = S (keyCount ls) /\
    forall k v, tree_holds ls' k v <-> (k = key /\ v = rid) \/ tree_holds ls k v.
Proof.
  intros Hinv Hhalf Hfuel Hkey Hrid Hno Hcount.
  pose proof Hinv as [_ _ _ Hroot (Hcnt & Hcap) (Hasc & _) _ Hleaves].
  destruct (route_spec ks key Hasc) as (Hr & _).
  destruct (nth_error ls (route ks key)) as [l|] eqn:El.
  2:{ apply nth_error_None in El. lia. }
  destruct (Hleaves _ _ El) as (_ & Hwf & Hrange).
  pose proof Hwf as (_ & Hcapl & _).
  pose proof (key_not_in_leaf ks ls key l Hno El Hwf) as Hmiss.
  destruct (leaf_insert_wf ks (route ks key) l key rid Hwf Hkey Hrid Hmiss
              (in_range_route ks key Hasc) Hrange)
    as (_ & Hl1 & Hl2 & _ & _ & _ & _ & Hholds).
  cbv zeta in Hl1, Hl2, Hholds.
  destruct (Nat.lt_ge_cases (length (lkeys l)) 254) as [Hfit|Hfull].
  - destruct (BTree_Insert_fit t ks ls fuel key rid l Hinv Hfuel Hkey Hrid Hno El Hfit)
      as (t1 & Hins1 & Hinv1).
    cbv zeta in Hinv1.
    set (l' := mkLeaf (lid l) _ _) in *.
    exists t1, ks, (replaceAt ls (route ks key) l').
    split; [exact Hins1|]. split; [exact Hinv1|]. split; [|split].
    + intros Hne l0 Hin. apply In_replaceAt in Hin. destruct Hin as [->|Hin].
      * unfold l'. cbn [lkeys]. rewrite Hl2.
        pose proof (Hhalf Hne l (nth_error_In _ _ El)). lia.
      * now apply Hhalf.
    + pose proof (keyCount_replaceAt ls (route ks key) l l' El) as E.
      unfold l' in E at 2. cbn [lkeys] in E. rewrite Hl2 in E. lia.
    + apply (tree_holds_replaceAt ls _ l); [exact El|]. exact Hholds.
  - assert (Hfull' : length (lkeys l) = 254%nat) by lia.
    assert (Hkroom : (length ks < 338)%nat).
    { destruct (Nat.lt_ge_cases (length ks) 338) as [|Hkfull]; [assumption|exfalso].
      assert (Hne : ks <> []) by (intros ->; cbn in Hkfull; lia).
      pose proof (keyCount_lower ls (route ks key) l 127 (Hhalf Hne) El) as Hlow.
      rewrite Hcnt, Hfull' in Hlow. lia. }
    destruct (BTree_Insert_split t ks ls fuel key rid l Hinv Hfuel Hkey Hrid Hno El
                Hfull' Hkroom) as (t1 & sep & Hins1 & Hinv1).
    cbv zeta in Hinv1.
    set (keys' := insertU64 (lkeys l) _ key) in *.
    set (vals' := insertRID (lvals l) _ rid) in *.
    set (L := mkLeaf (lid l) (firstn 127 keys') (firstn 127 vals')) in *.
    set (R := mkLeaf _ (skipn 127 keys') (skipn 127 vals')) in *.
    assert (HL : length (lkeys L) = 127%nat).
    { unfold L. cbn [lkeys]. rewrite length_firstn. lia. }
    assert (HR : length (lkeys R) = 128%nat).
    { unfold R. cbn [lkeys]. rewrite length_skipn. lia. }
    exists t1, (insertAt ks (route ks key) sep), (splitAt ls (route ks key) L R).
    split; [exact Hins1|]. split; [exact Hinv1|]. split; [|split].
    + intros _ l0 Hin. apply In_splitAt in Hin. destruct Hin as [->|[->|Hin]]; try lia.
      destruct ks as [|k0 ks0].
      * destruct Hroot as [(_ & Hone)|(Hne & _)]; [|contradiction].
        destruct ls as [|l1 [|]]; try discriminate.
        rewrite route_nil in El. cbn in El. injection El as <-.
        destruct Hin as [<-|[]]. lia.
      * apply Hhalf; [discriminate|exact Hin].
    + pose proof (keyCount_splitAt ls (route ks key) l L R El). lia.
    + apply (tree_holds_splitAt ls _ l); [exact El|].
      intros k v. unfold L, R. cbn [lkeys lvals]. rewrite <- Hholds. symmetry.
      apply holds_split.
Qed.

Lemma insertAll_fill fuel ops :
  forall t ks ls,
    tree_inv t ks ls -> half_full ks ls ->
    (2 <= fuel)%nat -> Forall op_ok ops -> NoDup (map fst ops) ->
    (forall k v, tree_holds ls k v -> ~ In k (map fst ops)) ->
    Z.of_nat (keyCount ls) + Z.of_nat (length ops) <= 43180 ->
    exists t', insertAll fuel t ops = (Ok tt, t').
Proof.
  induction ops as [|[k r] ops IH]; intros t ks ls Hinv Hhalf Hfuel Hok Hnd Hnew Hroom;
    cbn [insertAll].
  - now exists t.
  - inversion Hok as [|? ? (Hk & Hr) Hok']; subst. cbn [fst snd] in Hk, Hr.
    cbn [map fst] in Hnd. inversion Hnd as [|? ? Hnotin Hnd']; subst.
    cbn [length] in Hroom.
    destruct (BTree_Insert_fill t ks ls fuel k r Hinv Hhalf Hfuel Hk Hr) as
      (t1 & ks1 & ls1 & Hins & Hinv1 & Hhalf1 & Hc1 & Hh1); [|lia|].
    { intros v Hv. apply (Hnew k v Hv). cbn [map fst]. now left. }
    rewrite Hins. apply (IH t1 ks1 ls1 Hinv1 Hhalf1 Hfuel Hok' Hnd'); [|lia].
    intros k0 v0 Hv0 Hin. apply Hh1 in Hv0. destruct Hv0 as [(-> & ->)|Hv0].
    + contradiction.
    + apply (Hnew k0 v0 Hv0). cbn [map fst]. now right.
Qed.

(** X21.  Guaranteed capacity: any 43180 or fewer pairs with distinct u64
    keys go into a freshly opened tree, in whatever order they come; every
    insert returns nil.  (43180 = 338 * 127 + 254: a root of 338
    separators over 339 leaves, of which all are at least half full and
    one is full, is the smallest tree that an insert can overflow.) *)
Theorem insertAll_capacity (fuel : nat) (t0 : BTree) (ops : list (Z * RID)) :
  (2 <= fuel)%nat -> Open [] = Ok t0 -> Forall op_ok ops ->
  NoDup (map fst ops) -> Z.of_nat (length ops) <= 43180 ->
  exists t, insertAll fuel t0 ops = (Ok tt, t).
Proof.
  intros Hfuel Hopen Hok Hnd Hlen.
  destruct Open_empty as (t0' & Hopen' & Hinv0).
  assert (t0' = t0) by congruence. subst t0'.
  apply (insertAll_fill fuel ops t0 [] [emptyLeaf] Hinv0 (fun Hne => False_ind _ (Hne eq_refl))
           Hfuel Hok Hnd).
  - intros k v Hv. now apply tree_holds_empty in Hv.
  - cbn. lia.
Qed.

Lemma insertAll_capacity_witness :
  exists t, insertAll 2 freshTree demoInserts = (Ok tt, t).
Proof.
  apply (insertAll_capacity 2 freshTree demoInserts).
  - lia.
  - vm_compute. reflexivity.
  - repeat constructor; vm_compute; congruence.
  - cbn. repeat constructor; cbn; intuition congruence.
  - cbn. lia.
Defined.

(** *** Keys that come in ascending order *)

Lemma length_countUp n : forall k, length (countUp n k) = n.
Proof. induction n as [|n IH]; intros k; cbn [countUp length]; [|rewrite IH]; reflexivity. Qed.

Lemma ascending_cons a l :
  ascending l -> (forall b, In b l -> a < b) -> ascending (a :: l).
Proof.
  intros Hl Ha i j x y Hij Hx Hy. destruct j as [|j]; [lia|]. cbn in Hy.
  destruct i as [|i]; cbn in Hx.
  - injection Hx as <-. apply Ha. now apply (nth_error_In _ j).
  - apply (Hl i j); [lia|assumption..].
Qed.

Lemma ascending_cons_inv a l :
  ascending (a :: l) -> ascending l /\ forall b, In b l -> a < b.
Proof.
  intros H. split.
  - intros i j x y Hij Hx Hy. apply (H (S i) (S j)); [lia|assumption..].
  - intros b Hb. destruct (In_nth_error _ _ Hb) as (j & Hj).
    apply (H 0%nat (S j)); [lia|reflexivity|exact Hj].
Qed.

Lemma ascendingb_ascending l : ascendingb l = true -> ascending l.
Proof.
  induction l as [|a l IH]; intros H; [apply ascending_nil|].
  destruct l as [|b l]; [apply ascending_one|].
  cbn [ascendingb] in H. apply andb_prop in H. destruct H as (Hab & Hl).
  apply Z.ltb_lt in Hab. specialize (IH Hl).
  apply ascending_cons; [exact IH|]. intros x [<-|Hx]; [exact Hab|].
  destruct (ascending_cons_inv b l IH) as (_ & Hb). specialize (Hb x Hx). lia.
Qed.

Lemma op_okb_ok ops : forallb op_okb ops = true -> Forall op_ok ops.
Proof.
  intros H. rewrite forallb_forall in H. rewrite Forall_forall. intros op Hin.
  specialize (H op Hin). unfold op_okb in H.
  repeat (apply andb_prop in H; destruct H as (H & ?)).
  unfold op_ok, u64, rid_ok. lia.
Qed.

(** A key above every key of the tree is routed to the last leaf. *)
Lemma route_last t ks ls c key :
  tree_inv t ks ls -> asc_shape ks ls c ->
  (forall k v, tree_holds ls k v -> k < key) ->
  route ks key = length ks.
Proof.
  intros Hinv (_ & (l & El & Hc) & Hmin) Habove.
  pose proof Hinv as [_ _ _ _ _ (Hasc & _) _ Hleaves].
  destruct (route_spec ks key Hasc) as (Hr & _ & Hafter).
  destruct (Nat.eq_dec (route ks key) (length ks)) as [|Hne]; [assumption|exfalso].
  assert (Hks : ks <> []) by (intros ->; cbn in *; lia).
  specialize (Hmin Hks).
  destruct (Hleaves _ _ El) as (_ & (Hlv & _) & Hrange).
  destruct (lkeys l) as [|k0 keys] eqn:Ek; [cbn in Hc; lia|].
  destruct (lvals l) as [|v0 vals] eqn:Ev; [cbn in Hlv; lia|].
  assert (Hheld : tree_holds ls k0 v0).
  { exists (length ks), l. split; [exact El|]. exists 0%nat. rewrite Ek, Ev. now split. }
  specialize (Habove _ _ Hheld).
  destruct (Hrange k0 (or_introl eq_refl)) as (_ & Hlow).
  assert (Hpos : (0 < length ks)%nat) by (destruct ks; [contradiction|cbn; lia]).
  destruct (nth_error ks (length ks - 1)) as [s|] eqn:Es.
  2:{ apply nth_error_None in Es. lia. }
  specialize (Hlow s Hpos eq_refl).
  specialize (Hafter (length ks - 1)%nat s ltac:(lia) Es). lia.
Qed.

(** One insert of a key above every key of the tree. *)
Lemma BTree_Insert_ascending t ks ls c fuel key rid :
  tree_inv t ks ls -> asc_shape ks ls c ->
  (2 <= fuel)%nat -> u64 key -> rid_ok rid ->
  (forall k v, tree_holds ls k v -> k < key) ->
  ((c < 254)%nat \/ (length ks < 338)%nat) ->
  exists t' ks' ls' c',
    BTree_Insert fuel t key rid = (Ok tt, t') /\ tree_inv t' ks' ls' /\
    asc_shape ks' ls' c' /\
    (127 * length ks' + c' = 127 * length ks + c + 1)%nat /\
    forall k v, tree_holds ls' k v -> k = key \/ tree_holds ls k v.
Proof.
  intros Hinv Hshape Hfuel Hkey Hrid Habove Hroom.
  pose proof (route_last t ks ls c key Hinv Hshape Habove) as Hroute.
  destruct Hshape as (Hfull127 & (l & El & Hc) & Hmin).
  assert (Hno : forall v, ~ tree_holds ls key v).
  { intros v Hv. specialize (Habove _ _ Hv). lia. }
  pose proof Hinv as [_ _ _ _ (Hcnt & Hcap) (Hasc & _) _ Hleaves].
  destruct (Hleaves _ _ El) as (_ & Hwf & Hrange).
  pose proof Hwf as (_ & Hcapl & _).
  rewrite <- Hroute in El.
  pose proof (key_not_in_leaf ks ls key l Hno El Hwf) as Hmiss.
  rewrite <- Hroute in Hrange.
  destruct (leaf_insert_wf ks (route ks key) l key rid Hwf Hkey Hrid Hmiss
              (in_range_route ks key Hasc) Hrange)
    as (_ & Hl1 & Hl2 & _ & _ & _ & _ & Hholds).
  cbv zeta in Hl1, Hl2, Hholds.
  assert (Hj : (route ks key < length ls)%nat) by now apply (nth_error_lt _ _ _ El).
  destruct (Nat.lt_ge_cases (length (lkeys l)) 254) as [Hfit|Hfull].
  - destruct (BTree_Insert_fit t ks ls fuel key rid l Hinv Hfuel Hkey Hrid Hno El Hfit)
      as (t1 & Hins1 & Hinv1).
    cbv zeta in Hinv1.
    set (l' := mkLeaf (lid l) _ _) in *.
    exists t1, ks, (replaceAt ls (route ks key) l'), (S c).
    split; [exact Hins1|]. split; [exact Hinv1|]. split; [|split; [lia|]].
    + split; [|split].
      * intros i l0 Hi Hlt. rewrite nth_error_replaceAt in Hi by exact Hj.
        destruct (Nat.eqb_spec i (route ks key)); [lia|]. now apply (Hfull127 i).
      * exists l'. rewrite nth_error_replaceAt by exact Hj.
        rewrite <- Hroute, Nat.eqb_refl. split; [reflexivity|].
        unfold l'. cbn [lkeys]. rewrite Hl2. lia.
      * intros Hne. specialize (Hmin Hne). lia.
    + intros k v Hv.
      apply (tree_holds_replaceAt ls _ l l' key rid El Hholds) in Hv. tauto.
  - assert (Hfull' : length (lkeys l) = 254%nat) by lia.
    assert (Hkroom : (length ks < 338)%nat) by lia.
    destruct (BTree_Insert_split t ks ls fuel key rid l Hinv Hfuel Hkey Hrid Hno El
                Hfull' Hkroom) as (t1 & sep & Hins1 & Hinv1).
    cbv zeta in Hinv1.
    set (keys' := insertU64 (lkeys l) _ key) in *.
    set (vals' := insertRID (lvals l) _ rid) in *.
    set (L := mkLeaf (lid l) (firstn 127 keys') (firstn 127 vals')) in *.
    set (R := mkLeaf _ (skipn 127 keys') (skipn 127 vals')) in *.
    assert (HL : length (lkeys L) = 127%nat).
    { unfold L. cbn [lkeys]. rewrite length_firstn. lia. }
    assert (HR : length (lkeys R) = 128%nat).
    { unfold R. cbn [lkeys]. rewrite length_skipn. lia. }
    exists t1, (insertAt ks (route ks key) sep), (splitAt ls (route ks key) L R), 128%nat.
    split; [exact Hins1|]. split; [exact Hinv1|].
    unfold asc_shape. rewrite !length_insertAt. split; [|split; [lia|]].
    + split; [|split].
      * intros i l0 Hi Hlt. rewrite nth_error_splitAt in Hi by exact Hj.
        destruct (Nat.ltb_spec i (route ks key)); [apply (Hfull127 i); [exact Hi|lia]|].
        destruct (Nat.eqb_spec i (route ks key)); [now injection Hi as <-|lia].
      * exists R. rewrite nth_error_splitAt by exact Hj.
        destruct (Nat.ltb_spec (S (length ks)) (route ks key)); [lia|].
        destruct (Nat.eqb_spec (S (length ks)) (route ks key)); [lia|].
        destruct (Nat.eqb_spec (S (length ks)) (S (route ks key))); [|lia].
        now split.
      * intros _. lia.
    + intros k v Hv.
      assert (Hsp : forall k v,
                holds (lkeys L) (lvals L) k v \/ holds (lkeys R) (lvals R) k v <->
                (k = key /\ v = rid) \/ holds (lkeys l) (lvals l) k v).
      { intros k0 v1. unfold L, R. cbn [lkeys lvals]. rewrite <- Hholds. symmetry.
        apply holds_split. }
      apply (tree_holds_splitAt ls _ l L R key rid El Hsp) in Hv. tauto.
Qed.

Lemma insertAll_ascending fuel ops :
  forall t ks ls c,
    tree_inv t ks ls -> asc_shape ks ls c ->
    (2 <= fuel)%nat -> Forall op_ok ops -> ascending (map fst ops) ->
    (forall k v, tree_holds ls k v -> forall k', In k' (map fst ops) -> k < k') ->
    127 * Z.of_nat (length ks) + Z.of_nat c + Z.of_nat (length ops) <= 43180 ->
    exists t' ks' ls' c',
      insertAll fuel t ops = (Ok tt, t') /\ tree_inv t' ks' ls' /\
      asc_shape ks' ls' c' /\
      127 * Z.of_nat (length ks') + Z.of_nat c' =
        127 * Z.of_nat (length ks) + Z.of_nat c + Z.of_nat (length ops) /\
      forall k v, tree_holds ls' k v -> In k (map fst ops) \/ tree_holds ls k v.
Proof.
  induction ops as [|[k r] ops IH]; intros t ks ls c Hinv Hshape Hfuel Hok Hasc Habove
    Hroom; cbn [insertAll].
  - exists t, ks, ls, c. split; [reflexivity|]. split; [exact Hinv|].
    split; [exact Hshape|]. split; [cbn [length]; lia|]. intros k v Hv. now right.
  - inversion Hok as [|? ? (Hk & Hr) Hok']; subst. cbn [fst snd] in Hk, Hr.
    cbn [map fst] in Hasc, Habove. cbn [length] in Hroom.
    destruct (ascending_cons_inv _ _ Hasc) as (Hasc' & Hhead).
    pose proof (inv_count _ _ _ Hinv) as (_ & Hcap).
    assert (Hc254 : (c <= 254)%nat).
    { destruct Hshape as (_ & (l & El & Hc) & _).
      destruct (inv_leaves _ _ _ Hinv _ _ El) as (_ & (_ & Hcl & _) & _). lia. }
    destruct (BTree_Insert_ascending t ks ls c fuel k r Hinv Hshape Hfuel Hk Hr)
      as (t1 & ks1 & ls1 & c1 & Hins & Hinv1 & Hshape1 & Hc1 & Hh1).
    { intros k0 v0 Hv0. apply (Habove k0 v0 Hv0). now left. }
    { lia. }
    rewrite Hins.
    destruct (IH t1 ks1 ls1 c1 Hinv1 Hshape1 Hfuel Hok' Hasc')
      as (t' & ks' & ls' & c' & Hrun & Hinv' & Hshape' & Hc' & Hh').
    { intros k0 v0 Hv0 k' Hk'. destruct (Hh1 k0 v0 Hv0) as [->|Hold].
      - now apply Hhead.
      - apply (Habove k0 v0 Hold). now right. }
    { lia. }
    exists t', ks', ls', c'. split; [exact Hrun|]. split; [exact Hinv'|].
    split; [exact Hshape'|]. split; [cbn [length]; lia|].
    intros k0 v0 Hv0. destruct (Hh' k0 v0 Hv0) as [Hin|Hold].
    + left. now right.
    + destruct (Hh1 k0 v0 Hold) as [->|Hold']; [left; now left|now right].
Qed.

Lemma insertAll_app fuel a b :
  forall t,
    insertAll fuel t (a ++ b) =
    match insertAll fuel t a with
    | (Ok _, t') => insertAll fuel t' b
    | (Err e, t') => (Err e, t')
    end.
Proof.
  induction a as [|[k r] a IH]; intros t; cbn [insertAll app]; [reflexivity|].
  destruct (BTree_Insert fuel t k r) as [[u|e] t1]; [apply IH|reflexivity].
Qed.

Lemma ascending_app_last l x :
  ascending (l ++ [x]) -> ascending l /\ forall a, In a l -> a < x.
Proof.
  intros H. split.
  - intros i j a b Hij Ha Hb. apply (H i j); [exact Hij| |].
    + rewrite nth_error_app1; [exact Ha|now apply (nth_error_lt _ _ _ Ha)].
    + rewrite nth_error_app1; [exact Hb|now apply (nth_error_lt _ _ _ Hb)].
  - intros a Ha. destruct (In_nth_error _ _ Ha) as (i & Hi).
    pose proof (nth_error_lt _ _ _ Hi) as Hlt.
    apply (H i (length l)); [exact Hlt| |].
    + now rewrite nth_error_app1.
    + rewrite nth_error_app2, Nat.sub_diag by lia. reflexivity.
Qed.

(** X22.  The overflow of the root is reached by plain use: when 43181
    pairs with strictly ascending u64 keys are inserted into a freshly
    opened tree, the first 43180 inserts return nil and the 43181st, which
    has to split the root, panics in [writeInternal]. *)
Theorem ascending_inserts_overflow (fuel : nat) (t0 : BTree)
        (ops : list (Z * RID)) (last : Z * RID) :
  (2 <= fuel)%nat -> Open [] = Ok t0 ->
  Forall op_ok (ops ++ [last]) -> ascending (map fst (ops ++ [last])) ->
  Z.of_nat (length ops) = 43180 ->
  exists t,
    insertAll fuel t0 ops = (Ok tt, t) /\
    fst (BTree_Insert fuel t (fst last) (snd last)) = Err RuntimePanic /\
    fst (insertAll fuel t0 (ops ++ [last])) = Err RuntimePanic.
Proof.
  intros Hfuel Hopen Hok Hasc Hlen.
  destruct Open_empty as (t0' & Hopen' & Hinv0).
  assert (t0' = t0) by congruence. subst t0'.
  apply Forall_app in Hok. destruct Hok as (Hok & Hlast).
  inversion Hlast as [|? ? (Hk & Hr) _]; subst.
  rewrite map_app in Hasc. cbn [map] in Hasc.
  destruct (ascending_app_last _ _ Hasc) as (Hasc' & Hbelow).
  assert (Hshape0 : asc_shape [] [emptyLeaf] 0).
  { split; [|split].
    - intros i l _ Hi. cbn in Hi. lia.
    - exists emptyLeaf. now split.
    - intros Hne. contradiction. }
  destruct (insertAll_ascending fuel ops t0 [] [emptyLeaf] 0%nat Hinv0 Hshape0 Hfuel Hok
              Hasc') as (t & ks & ls & c & Hrun & Hinv & Hshape & Hc & Hh).
  { intros k v Hv. now apply tree_holds_empty in Hv. }
  { cbn [length]. lia. }
  cbn [length] in Hc.
  pose proof (inv_count _ _ _ Hinv) as (_ & Hcap).
  assert (Habove : forall k v, tree_holds ls k v -> k < fst last).
  { intros k v Hv. destruct (Hh k v Hv) as [Hin|Hold]; [now apply Hbelow|].
    now apply tree_holds_empty in Hold. }
  pose proof (route_last t ks ls c (fst last) Hinv Hshape Habove) as Hroute.
  destruct Hshape as (_ & (l & El & Hcl) & _).
  destruct (inv_leaves _ _ _ Hinv _ _ El) as (_ & (_ & Hl254 & _) & _).
  assert (Hpanic : fst (BTree_Insert fuel t (fst last) (snd last)) = Err RuntimePanic).
  { apply (BTree_Insert_overflow t ks ls fuel (fst last) (snd last) l Hinv Hfuel Hk Hr).
    - intros v Hv. specialize (Habove _ _ Hv). lia.
    - now rewrite Hroute.
    - lia.
    - lia. }
  exists t. split; [exact Hrun|]. split; [exact Hpanic|].
  rewrite insertAll_app, Hrun. cbn [insertAll]. destruct last as [k r]. cbn [fst snd] in *.
  destruct (BTree_Insert fuel t k r) as [[u|e] t1]; cbn [fst] in *; congruence.
Qed.

Lemma ascending_inserts_overflow_witness :
  exists t,
    insertAll 2 freshTree fillingOps = (Ok tt, t) /\
    fst (BTree_Insert 2 t (fst overflowOp) (snd overflowOp)) = Err RuntimePanic /\
    fst (insertAll 2 freshTree (fillingOps ++ [overflowOp])) = Err RuntimePanic.
Proof.
  apply (ascending_inserts_overflow 2 freshTree fillingOps overflowOp).
  - lia.
  - exact freshTree_Open.
  - apply op_okb_ok. vm_compute. reflexivity.
  - apply ascendingb_ascending. vm_compute. reflexivity.
  - unfold fillingOps. rewrite length_map, length_countUp. lia.
Defined.
